(** * CreateLakeParamTisza: DEM filling, MFD flow routing, wetness index and
      lake/wetland profile

    A shallow embedding of [src/CreateLakeParamTisza.c].

    Modelling conventions.
    - A C [double] is a real number of [R]: arithmetic is exact, rounding,
      infinities and NaN are not modelled.  Comparisons of the C code become
      the boolean tests [Rltb], [Rleb], [Reqb] below.
    - A C [float] holds a real number rounded to single precision by
      [float32].  The sections [VICcalculation] and what is proved of them
      leave this rounding out; the module [Single] has the same
      definitions with every operation on a [float] rounded, and the
      counters and fractions of [Topindex] are rounded as well.
    - A C [int] is an integer of [Z] (no overflow is reachable from the
      index arithmetic modelled here).
    - An array is a total function from its indices: [ivector] for
      [int *], [vector] for [double *], [matrix] for [double **].  Cells
      the program never writes keep the content the allocation left there:
      arbitrary for [malloc] (a parameter called [junk]), zero for [calloc].
    - A [for] loop over an index range is [for_loop]; the recursion of
      [fillinpitsandflats] is bounded by a fuel that stands for the depth of
      the call stack, [None] meaning that the depth was exceeded. *)

From Stdlib Require Import Reals ZArith List Bool String Lra Lia.
Import ListNotations.

Open Scope Z_scope.

(** ** Comparisons on doubles *)

Definition Rltb (x y : R) : bool := if Rlt_dec x y then true else false.
Definition Rleb (x y : R) : bool := if Rle_dec x y then true else false.
Definition Reqb (x y : R) : bool := if Req_dec_T x y then true else false.
Definition Rneb (x y : R) : bool := negb (Reqb x y).

(** ** Single precision *)

(** The nearest integer, the even one of the two when [x] is half way. *)
Definition round_even (x : R) : Z :=
  let f := Int_part x in
  if Rltb (x - IZR f) (1 / 2) then f
  else if Rltb (1 / 2) (x - IZR f) then f + 1
  else if Z.even f then f else f + 1.

(** The exponent [e] of [x]: [2^e <= |x| < 2^(e+1)]. *)
Definition binade (x : R) : Z := Int_part (ln (Rabs x) / ln 2).

(** The value that a [float] holds when [x] is stored in it: [x] rounded
    to the nearest number with 24 significant bits (the exponent not below
    -126), ties to even.  A magnitude from [2^128] on is infinite in C; the
    numbers rounded here are counts of cells and quotients of such
    counts. *)
Definition float32 (x : R) : R :=
  if Reqb x 0 then 0%R
  else
    let e := Z.max (binade x) (-126) in
    let ulp := powerRZ 2 (e - 23) in
    (IZR (round_even (x / ulp)) * ulp)%R.

(** ** Arrays *)

Definition ivector := Z -> Z.
Definition vector := Z -> R.
Definition matrix := Z -> Z -> R.

Definition iset (v : ivector) (k x : Z) : ivector :=
  fun k' => if k' =? k then x else v k'.

Definition vset (v : vector) (k : Z) (x : R) : vector :=
  fun k' => if k' =? k then x else v k'.

Definition mset (m : matrix) (i j : Z) (x : R) : matrix :=
  fun i' j' => if (i' =? i) && (j' =? j) then x else m i' j'.

(** [m[i][j] += x] *)
Definition madd (m : matrix) (i j : Z) (x : R) : matrix :=
  mset m i j (m i j + x)%R.

(** ** Loops *)

(** [for_up n i body s]: [n] iterations of [body], the index going up from
    [i]. *)
Fixpoint for_up {St : Type} (n : nat) (i : Z) (body : Z -> St -> St) (s : St) : St :=
  match n with
  | O => s
  | S n' => for_up n' (i + 1) body (body i s)
  end.

(** [for (i = lo; i <= hi; i++) body] *)
Definition for_loop {St : Type} (lo hi : Z) (body : Z -> St -> St) (s : St) : St :=
  for_up (Z.to_nat (hi - lo + 1)) lo body s.

(** The same loop when the body can fail (here: exhaust the stack). *)
Fixpoint for_upM {St : Type} (n : nat) (i : Z) (body : Z -> St -> option St)
         (s : St) : option St :=
  match n with
  | O => Some s
  | S n' =>
      match body i s with
      | Some s' => for_upM n' (i + 1) body s'
      | None => None
      end
  end.

Definition for_loopM {St : Type} (lo hi : Z) (body : Z -> St -> option St)
           (s : St) : option St :=
  for_upM (Z.to_nat (hi - lo + 1)) lo body s.

(** [t = n + 1; while (t > 1) { t--; body }]: the index goes down from [n]
    to 1. *)
Fixpoint for_down {St : Type} (n : nat) (body : Z -> St -> St) (s : St) : St :=
  match n with
  | O => s
  | S n' => for_down n' body (body (Z.of_nat n) s)
  end.

(** ** Neighbor topology: [setupgridneighbors] *)

Record neighbors := mkNeighbors {
  idown : ivector;
  iup : ivector;
  jup : ivector;
  jdown : ivector
}.

(** The four tables are allocated by [ivector(1, n)], that is [malloc]:
    their initial content is [junk]. *)
Definition setupgridneighbors (junk : ivector)
           (lattice_size_x lattice_size_y : Z) : neighbors :=
  let idown0 := junk in
  let iup0 := junk in
  let jup0 := junk in
  let jdown0 := junk in
  let '(idown1, iup1) :=
    for_loop 1 lattice_size_x
      (fun i '(d, u) => (iset d i (i - 1), iset u i (i + 1)))
      (idown0, iup0) in
  let idown2 := iset idown1 1 1 in
  let iup2 := iset iup1 lattice_size_x lattice_size_x in
  let '(jdown1, jup1) :=
    for_loop 1 lattice_size_y
      (fun j '(d, u) => (iset d j (j - 1), iset u j (j + 1)))
      (jdown0, jup0) in
  let jdown2 := iset jdown1 1 1 in
  let jup2 := iset jup1 lattice_size_y lattice_size_y in
  mkNeighbors idown2 iup2 jup2 jdown2.

(** ** Sink/flat elimination: [fillinpitsandflats] *)

Definition fillincrement : R := 0.01.

Section Fill.

(** The globals [iup], [idown], [jup], [jdown], and the arguments that
    every recursive call passes on unchanged. *)
Variable nb : neighbors.
Variables lattice_size_x lattice_size_y : Z.
Variable nodata : R.
(** What the local [min] holds when the cell is nodata: it is declared
    without an initial value. *)
Variable min_junk : R.

(** One line [if (topo[a][b] < min && topo[a][b] != nodata) min = topo[a][b];] *)
Definition lower_min (topo : matrix) (a b : Z) (min : R) : R :=
  if Rltb (topo a b) min && Rneb (topo a b) nodata then topo a b else min.

(** The value of [min] when the nine [if]s are through. *)
Definition neighborhood_min (topo : matrix) (i j : Z) : R :=
  let min := if Rneb (topo i j) nodata then topo i j else min_junk in
  let min := lower_min topo (iup nb i) j min in
  let min := lower_min topo (idown nb i) j min in
  let min := lower_min topo i (jup nb j) min in
  let min := lower_min topo i (jdown nb j) min in
  let min := lower_min topo (iup nb i) (jup nb j) min in
  let min := lower_min topo (idown nb i) (jup nb j) min in
  let min := lower_min topo (idown nb i) (jdown nb j) min in
  let min := lower_min topo (iup nb i) (jdown nb j) min in
  min.

(** The condition under which the cell is raised. *)
Definition is_pit (topo : matrix) (i j : Z) : bool :=
  Rleb (topo i j) (neighborhood_min topo i j)
  && Rneb (topo i j) nodata
  && (1 <? i) && (1 <? j) && (i <? lattice_size_x) && (j <? lattice_size_y).

Definition bind {A B : Type} (x : option A) (f : A -> option B) : option B :=
  match x with
  | Some a => f a
  | None => None
  end.

(** [fuel] bounds the depth of the recursion. *)
Fixpoint fillinpitsandflats (fuel : nat) (topo : matrix) (i j : Z)
  : option matrix :=
  match fuel with
  | O => None
  | S fuel' =>
      let min := neighborhood_min topo i j in
      if is_pit topo i j then
        let topo := mset topo i j (min + fillincrement)%R in
        bind (fillinpitsandflats fuel' topo i j) (fun topo =>
        bind (fillinpitsandflats fuel' topo (iup nb i) j) (fun topo =>
        bind (fillinpitsandflats fuel' topo (idown nb i) j) (fun topo =>
        bind (fillinpitsandflats fuel' topo i (jup nb j)) (fun topo =>
        bind (fillinpitsandflats fuel' topo i (jdown nb j)) (fun topo =>
        bind (fillinpitsandflats fuel' topo (iup nb i) (jup nb j)) (fun topo =>
        bind (fillinpitsandflats fuel' topo (idown nb i) (jup nb j)) (fun topo =>
        bind (fillinpitsandflats fuel' topo (idown nb i) (jdown nb j)) (fun topo =>
        fillinpitsandflats fuel' topo (iup nb i) (jdown nb j)))))))))
      else Some topo
  end.

(** The pass of [fillin] over the whole grid:
    [for (j = 1; j <= lattice_size_y; j++)
       for (i = 1; i <= lattice_size_x; i++) fillinpitsandflats(i, j, ...)]. *)
Definition fill_pass (fuel : nat) (topo : matrix) : option matrix :=
  for_loopM 1 lattice_size_y
    (fun j topo =>
       for_loopM 1 lattice_size_x
         (fun i topo => fillinpitsandflats fuel topo i j) topo)
    topo.

End Fill.

(** ** Multiple-flow-direction routing: [mfdflowroute] *)

Definition oneoversqrt2 : R := 0.707106781187.

(** C's [pow(x, y)] at a positive base [x]; [mfdflowroute] calls it under
    a test that makes the base positive. *)
Definition cpow (x y : R) : R := Rpower x y.

(** The globals [flow], [flow1] .. [flow8]. *)
Record flows := mkFlows {
  flow : matrix;
  flow1 : matrix; flow2 : matrix; flow3 : matrix; flow4 : matrix;
  flow5 : matrix; flow6 : matrix; flow7 : matrix; flow8 : matrix
}.

Section MFD.

Variable nb : neighbors.
Variable topo : matrix.
Variable nodata : R.

(** [topo[i][j] > topo[a][b] && topo[a][b] != nodata] *)
Definition downhill (i j a b : Z) : bool :=
  Rltb (topo a b) (topo i j) && Rneb (topo a b) nodata.

(** The terms of [tot] and the numerators of the fractions. *)
Definition straight_term (i j a b : Z) : R :=
  cpow (topo i j - topo a b) 1.1.
Definition diagonal_term (i j a b : Z) : R :=
  cpow ((topo i j - topo a b) * oneoversqrt2) 1.1.

(** The value of [tot] when the eight [if]s are through. *)
Definition mfd_tot (i j : Z) : R :=
  let tot := 0%R in
  let tot := if downhill i j (iup nb i) j
             then (tot + straight_term i j (iup nb i) j)%R else tot in
  let tot := if downhill i j (idown nb i) j
             then (tot + straight_term i j (idown nb i) j)%R else tot in
  let tot := if downhill i j i (jup nb j)
             then (tot + straight_term i j i (jup nb j))%R else tot in
  let tot := if downhill i j i (jdown nb j)
             then (tot + straight_term i j i (jdown nb j))%R else tot in
  let tot := if downhill i j (iup nb i) (jup nb j)
             then (tot + diagonal_term i j (iup nb i) (jup nb j))%R else tot in
  let tot := if downhill i j (iup nb i) (jdown nb j)
             then (tot + diagonal_term i j (iup nb i) (jdown nb j))%R else tot in
  let tot := if downhill i j (idown nb i) (jup nb j)
             then (tot + diagonal_term i j (idown nb i) (jup nb j))%R else tot in
  let tot := if downhill i j (idown nb i) (jdown nb j)
             then (tot + diagonal_term i j (idown nb i) (jdown nb j))%R else tot in
  tot.

Definition mfdflowroute (st : flows) (i j : Z) : flows :=
  let st :=
    if Reqb (topo i j) nodata then
      mkFlows (flow st)
        (mset (flow1 st) i j 0%R) (mset (flow2 st) i j 0%R)
        (mset (flow3 st) i j 0%R) (mset (flow4 st) i j 0%R)
        (mset (flow5 st) i j 0%R) (mset (flow6 st) i j 0%R)
        (mset (flow7 st) i j 0%R) (mset (flow8 st) i j 0%R)
    else
      let tot := mfd_tot i j in
      mkFlows (flow st)
        (mset (flow1 st) i j
           (if downhill i j (iup nb i) j
            then (straight_term i j (iup nb i) j / tot)%R else 0%R))
        (mset (flow2 st) i j
           (if downhill i j (idown nb i) j
            then (straight_term i j (idown nb i) j / tot)%R else 0%R))
        (mset (flow3 st) i j
           (if downhill i j i (jup nb j)
            then (straight_term i j i (jup nb j) / tot)%R else 0%R))
        (mset (flow4 st) i j
           (if downhill i j i (jdown nb j)
            then (straight_term i j i (jdown nb j) / tot)%R else 0%R))
        (mset (flow5 st) i j
           (if downhill i j (iup nb i) (jup nb j)
            then (diagonal_term i j (iup nb i) (jup nb j) / tot)%R else 0%R))
        (mset (flow6 st) i j
           (if downhill i j (iup nb i) (jdown nb j)
            then (diagonal_term i j (iup nb i) (jdown nb j) / tot)%R else 0%R))
        (mset (flow7 st) i j
           (if downhill i j (idown nb i) (jup nb j)
            then (diagonal_term i j (idown nb i) (jup nb j) / tot)%R else 0%R))
        (mset (flow8 st) i j
           (if downhill i j (idown nb i) (jdown nb j)
            then (diagonal_term i j (idown nb i) (jdown nb j) / tot)%R else 0%R))
  in
  let fl := flow st in
  let fl := madd fl (iup nb i) j (fl i j * flow1 st i j)%R in
  let fl := madd fl (idown nb i) j (fl i j * flow2 st i j)%R in
  let fl := madd fl i (jup nb j) (fl i j * flow3 st i j)%R in
  let fl := madd fl i (jdown nb j) (fl i j * flow4 st i j)%R in
  let fl := madd fl (iup nb i) (jup nb j) (fl i j * flow5 st i j)%R in
  let fl := madd fl (iup nb i) (jdown nb j) (fl i j * flow6 st i j)%R in
  let fl := madd fl (idown nb i) (jup nb j) (fl i j * flow7 st i j)%R in
  let fl := madd fl (idown nb i) (jdown nb j) (fl i j * flow8 st i j)%R in
  mkFlows fl (flow1 st) (flow2 st) (flow3 st) (flow4 st)
    (flow5 st) (flow6 st) (flow7 st) (flow8 st).

End MFD.

(** ** Filling and routing a DEM: [fillin] *)

Section Fillin.

(** [dem[row][column]], indexed from 0; [topo[column][row]] and
    [flow[column][row]], indexed from 1. *)
Variable dem : matrix.
Variables lattice_size_x lattice_size_y : Z.
Variables deltax deltay : R.

(** [topo[i][j] = dem[j-1][i-1]; flow[i][j] = deltax*deltay;] for every cell
    of the lattice; both come from [matrix()], that is [malloc]. *)
Definition fillin_init (junk : matrix) : matrix * matrix :=
  for_loop 1 lattice_size_y
    (fun j tf =>
       for_loop 1 lattice_size_x
         (fun i '(topo, flow) =>
            (mset topo i j (dem (j - 1) (i - 1)),
             mset flow i j (deltax * deltay)%R))
         tf)
    (junk, junk).

(** [topovec[(j-1)*lattice_size_x+i] = topo[i][j]] *)
Definition fillin_topovec (junk : vector) (topo : matrix) : vector :=
  for_loop 1 lattice_size_y
    (fun j topovec =>
       for_loop 1 lattice_size_x
         (fun i topovec => vset topovec ((j - 1) * lattice_size_x + i) (topo i j))
         topovec)
    junk.

(** The cell that the rank [t] designates:
    [i = topovecind[t] % lattice_size_x; if (i == 0) i = lattice_size_x;
     j = topovecind[t] / lattice_size_x + 1; if (i == lattice_size_x) j--;] *)
Definition sweep_cell (topovecind : ivector) (t : Z) : Z * Z :=
  let i := Z.rem (topovecind t) lattice_size_x in
  let i := if i =? 0 then lattice_size_x else i in
  let j := Z.quot (topovecind t) lattice_size_x + 1 in
  let j := if i =? lattice_size_x then j - 1 else j in
  (i, j).

(** The sweep [t = lattice_size_x*lattice_size_y + 1; while (t > 1) { t--; ... }]
    that routes the cells from the last rank to the first. *)
Definition routing_sweep (nb : neighbors) (topo : matrix) (nodata : R)
           (topovecind : ivector) (st : flows) : flows :=
  for_down (Z.to_nat (lattice_size_x * lattice_size_y))
    (fun t st =>
       let '(i, j) := sweep_cell topovecind t in
       mfdflowroute nb topo nodata st i j)
    st.

(** [indexx] (the indirect quicksort of Numerical Recipes) is represented
    by the index table it returns, [indexx n arr]: a theorem about the
    sweep holds for every such table. *)
Variable indexx : Z -> vector -> ivector.

Definition fillin (junk_i : ivector) (junk_v : vector) (junk_m : matrix)
           (min_junk : R) (fuel : nat) (nodata : R)
  : option (matrix * flows) :=
  let nb := setupgridneighbors junk_i lattice_size_x lattice_size_y in
  let '(topo, flow) := fillin_init junk_m in
  bind (fill_pass nb lattice_size_x lattice_size_y nodata min_junk fuel topo)
    (fun topo =>
       let topovec := fillin_topovec junk_v topo in
       let topovecind := indexx (lattice_size_x * lattice_size_y) topovec in
       Some (topo,
             routing_sweep nb topo nodata topovecind
               (mkFlows flow junk_m junk_m junk_m junk_m
                  junk_m junk_m junk_m junk_m))).

End Fillin.

(** ** Wetness index: the body of the first loop of [Topindex] *)

Definition NNEIGHBORS : Z := 8.
Definition VERTRES : R := 2.3.
Definition OUTSIDEBASIN : R := -99.
Definition WETLANDTHRESH : R := 13552.
Definition WATERTHRESH : R := 216623.

Definition xneighbor : list Z := [-1; 0; 1; 1; 1; 0; -1; -1].
Definition yneighbor : list Z := [1; 1; 1; 0; -1; -1; -1; 0].

(** What one cell [(x, y)] leaves in [tanbeta], [tanbeta_pixel],
    [contour_length] and [wetnessindex], and the local counter [lower]. *)
Record cell_index := mkCellIndex {
  tanbeta : R;
  tanbeta_pixel : R;
  contour_length : R;
  wetnessindex : R;
  lower : Z
}.

Section Topindex.

Variables dem flowacc : matrix.
Variables columns rows : Z.
Variables deltax deltay : R.
Variable nodata : R.

(** [sqrt(pow(dx, 2) + pow(dy, 2))]: with the exponent 2, [pow] is the
    square at every base. *)
Definition length_diagonal : R :=
  sqrt (deltax ^ 2 + deltay ^ 2)%R.

(** [neighbor_elev[n]] when the two loops over [n] have passed it: the
    first leaves [OUTSIDEBASIN] for a neighbor outside of the grid or
    without data, the second turns [OUTSIDEBASIN] into [nodata]. *)
Definition neighbor_elev (x y : Z) (n : nat) : R :=
  let xn := x + nth n xneighbor 0 in
  let yn := y + nth n yneighbor 0 in
  let e := OUTSIDEBASIN in
  let e :=
    if (0 <=? xn) && (0 <=? yn) && (xn <? columns) && (yn <? rows)
    then (if Rneb (dem yn xn) nodata then dem yn xn else OUTSIDEBASIN)
    else e in
  if Reqb e OUTSIDEBASIN then nodata else e.

(** [neighbor_elev[n] < celev && neighbor_elev[n] != nodata] *)
Definition lower_neighbor (x y : Z) (n : nat) : bool :=
  Rltb (neighbor_elev x y n) (dem y x) && Rneb (neighbor_elev x y n) nodata.

(** The accumulators [(contour_length[y][x], tanbeta[y][x], lower)] after
    neighbor [n]. *)
Definition neighbor_step (x y : Z) (acc : R * R * Z) (n : nat) : R * R * Z :=
  let '(cl, tb, low) := acc in
  let celev := dem y x in
  let dx := deltax in
  let dy := deltay in
  if lower_neighbor x y n then
    if (n =? 0)%nat || (n =? 2)%nat || (n =? 4)%nat || (n =? 6)%nat then
      let temp_slope := ((celev - neighbor_elev x y n) / length_diagonal)%R in
      ((cl + (0.2 * dx + 0.2 * dy))%R,
       (tb + temp_slope * (0.2 * dx + 0.2 * dy))%R, low + 1)
    else if (n =? 1)%nat || (n =? 5)%nat then
      let temp_slope := ((celev - neighbor_elev x y n) / dy)%R in
      ((cl + 0.6 * dx)%R, (tb + temp_slope * 0.6 * dx)%R, low + 1)
    else if (n =? 3)%nat || (n =? 7)%nat then
      let temp_slope := ((celev - neighbor_elev x y n) / dx)%R in
      ((cl + 0.6 * dy)%R, (tb + temp_slope * 0.6 * dy)%R, low + 1)
    else (cl, tb, low + 1)
  else acc.

(** The minimum assumed for tan(beta); the source writes the expression
    out at each of its four uses. *)
Definition tanbeta_floor : R :=
  ((4 * ((0.5 * VERTRES) / length_diagonal)
    + 2.0 * ((0.5 * VERTRES) / deltax)
    + 2.0 * ((0.5 * VERTRES) / deltay)) / IZR NNEIGHBORS)%R.

(** The accumulators are zero before the cell is visited ([calloc]), and
    a cell is visited once. *)
Definition neighbor_sums (x y : Z) : R * R * Z :=
  fold_left (neighbor_step x y) (seq 0 8) (0%R, 0%R, 0).

Definition topindex_cell (x y : Z) : cell_index :=
  let '(cl, tb, low) := neighbor_sums x y in
  let '(tb, tbp, cl) :=
    if low =? 0
    then (tanbeta_floor, tanbeta_floor, (2 * deltax + 2 * deltay)%R)
    else (tb, (tb / cl)%R, (cl / IZR low)%R) in
  let tbp := if Rltb tbp tanbeta_floor then tanbeta_floor else tbp in
  mkCellIndex tb tbp cl (flowacc y x / (cl * tbp))%R low.

End Topindex.

(** ** Lake/wetland profile: [VICcalculation] *)

(** C's [ceil], through the integer [up x] just above [x]. *)
Definition ceil (x : R) : Z := 1 - up (- x).

(** [WetlandBin] and the two counters of the binning loop. *)
Record bins := mkBins {
  WetlandBin : matrix;
  counter : Z;
  cnt : Z
}.

Record profile := mkProfile {
  AREASUM : vector;
  DEMSUM : vector;
  BATHSUM : vector;
  SLOPE : vector;
  TWI : vector
}.

(** What a call leaves on the standard output. *)
Inductive output : Type :=
| Exit0
    (** "Total wetland fraction does not match" on stderr, then [exit(0)]:
        nothing is printed *)
| Printed (lakeidx nodes : Z) (depth : R) (body : list (list R))
    (** the header line (grid cell, [lakeidx], number of nodes, depth) and
        the line of nodes, last node first *)
| NotRecognized
    (** "Output option is not recognized" on stderr, nothing printed *).

(** [k; k-1; ...; 1] *)
Fixpoint down_from (k : nat) : list Z :=
  match k with
  | O => []
  | S k' => Z.of_nat k :: down_from k'
  end.

Section VICcalculation.

(** The arguments, but [m] and [gridno]: [m] is not used, and [gridno] is
    copied into the header line. *)
Variable VIC : matrix.
Variable n : Z.
Variables wetlandVeg waterVeg : R.
Variable totalVeg : Z.
Variables deltax deltay : R.
Variable option : string.
Variable ElevRange : R.

(** [strcmp(option, "SEA") == 0], [strcmp(option, "LAKE") == 0] *)
Definition is_SEA : bool := String.eqb option "SEA".
Definition is_LAKE : bool := String.eqb option "LAKE".

Definition LakeBins : Z := if Rltb 0 waterVeg then 4 else 0.

Definition LakeArea : R :=
  if Rltb 0 waterVeg
  then (waterVeg * IZR totalVeg * deltax * deltay / (1000 * 1000))%R
  else 0%R.

Definition LakeDepth : R :=
  if Rltb 0 waterVeg then
    if Rltb LakeArea 40.9375 then (7.04 - 0.07 * LakeArea)%R else 4.17%R
  else 0%R.

Definition WetBins : Z :=
  if Rltb 0 wetlandVeg then
    let WetBins := ceil (wetlandVeg / 0.091) in
    if WetBins <? 5 then 5 else WetBins
  else 0.

(** [areacriteria] once [WetBins] is known. *)
Definition areacriteria : R :=
  if Rltb 0 wetlandVeg then (wetlandVeg / IZR WetBins)%R else 0.091%R.

Definition ROWS : Z := if is_SEA then 5 else 2.

(** One turn of the loop [for (i = 0; i < n; i++)] that fills the bins.
    A bin beyond [WetBins] is outside of the allocated block in C; here it
    is a cell of the total function like any other. *)
Definition bin_step (i : Z) (b : bins) : bins :=
  let c := counter b in
  let W := WetlandBin b in
  let W := madd W 0 c 1 in
  let W :=
    if is_SEA
    then madd (madd (madd W 1 c (VIC 1 i)) 2 c (VIC 2 i)) 3 c (VIC 3 i)
    else W in
  let W := mset W (ROWS - 1) c (VIC 4 i) in
  let cnt := cnt b + 1 in
  if Rleb areacriteria (W 0%Z c / IZR totalVeg)%R || (i =? n - 1) then
    let W := mset W 0 c (W 0%Z c / IZR totalVeg)%R in
    let W :=
      if is_SEA
      then for_loop 1 (ROWS - 2) (fun j W => mset W j c (W j c / IZR cnt)%R) W
      else W in
    mkBins W (c + 1) 0
  else mkBins W c cnt.

(** [WetlandBin] comes from [calloc]. *)
Definition fill_bins : bins :=
  for_loop 0 (n - 1) bin_step (mkBins (fun _ _ => 0%R) 0 0).

(** One turn of [for (i = 1; i <= LakeBins; i++)]. *)
Definition lake_step (i : Z) (p : profile) : profile :=
  let demsum := vset (DEMSUM p) i (DEMSUM p (i - 1)%Z + LakeDepth / IZR LakeBins)%R in
  let bathsum := vset (BATHSUM p) i (BATHSUM p (i - 1)%Z + LakeDepth / IZR LakeBins)%R in
  let areasum := vset (AREASUM p) i (waterVeg * sqrt (demsum i / LakeDepth))%R in
  if is_SEA
  then mkProfile areasum demsum bathsum
         (vset (SLOPE p) i (VIC 2 0)) (vset (TWI p) i (VIC 1 0))
  else mkProfile areasum demsum bathsum (SLOPE p) (TWI p).

(** One turn of the loop that copies the wetness index of the bins (SEA). *)
Definition twi_step (W : matrix) (i : Z) (p : profile) : profile :=
  mkProfile (AREASUM p) (DEMSUM p) (BATHSUM p) (SLOPE p)
    (vset (TWI p) i (W 1 (i - (LakeBins + 1)))).

(** One turn of [for (i = LakeBins+1; i <= WetBins+LakeBins; i++)]. *)
Definition wet_step (W : matrix) (i : Z) (p : profile) : profile :=
  let k := i - (LakeBins + 1) in
  let areasum := vset (AREASUM p) i (AREASUM p (i - 1)%Z + W 0%Z k)%R in
  let bathsum :=
    if 1 <? i
    then vset (BATHSUM p) i (W (ROWS - 1)%Z k - VIC 4%Z 0%Z + BATHSUM p LakeBins)%R
    else vset (BATHSUM p) i (W (ROWS - 1)%Z k - VIC 4%Z 0%Z)%R in
  if is_SEA then
    let slope := vset (SLOPE p) i (W 2 k) in
    let demsum :=
      if 1 <? i
      then vset (DEMSUM p) i
             (bathsum LakeBins
              + ElevRange * (VIC 1%Z 0%Z - W 1%Z k)
                / (VIC 1%Z 0%Z - W 1%Z (WetBins - 1)%Z))%R
      else vset (DEMSUM p) i ElevRange in
    mkProfile areasum demsum bathsum slope (TWI p)
  else
    mkProfile areasum (vset (DEMSUM p) i (bathsum i)) bathsum (SLOPE p) (TWI p).

(** The arrays when the profile is assembled; they come from [calloc].
    The sums [Vsum] and [Bathsum] that the source computes next are not
    used afterwards. *)
Definition assemble : profile :=
  let W := WetlandBin fill_bins in
  let zero : vector := fun _ => 0%R in
  let p := mkProfile (vset zero 0 0%R) (vset zero 0 0%R) zero zero zero in
  let p := for_loop 1 LakeBins lake_step p in
  let p :=
    if is_SEA
    then for_loop (LakeBins + 1) (WetBins + LakeBins) (twi_step W) p
    else p in
  for_loop (LakeBins + 1) (WetBins + LakeBins) (wet_step W) p.

(** [AREASUM[WetBins+LakeBins] - (waterVeg + wetlandVeg) > 1e-5] *)
Definition fraction_mismatch (p : profile) : bool :=
  Rltb 0.00001 (AREASUM p (WetBins + LakeBins) - (waterVeg + wetlandVeg)).

Definition VICcalculation : output :=
  let p := assemble in
  if fraction_mismatch p then Exit0
  else if is_SEA then
    if LakeBins + WetBins =? 0
    then Printed 0 1 0 [[0; 0; 0; 0]%R]
    else Printed 0 (LakeBins + WetBins) (LakeDepth + 0.01)
           (map (fun i => [DEMSUM p i; AREASUM p i; TWI p i; SLOPE p i])
              (down_from (Z.to_nat (WetBins + LakeBins))))
  else if is_LAKE then
    if LakeBins + WetBins =? 0
    then Printed 1 1 0 [[0; 0]%R]
    else Printed 1 (LakeBins + WetBins) (LakeDepth + 0.01)
           (map (fun i => [DEMSUM p i; AREASUM p i])
              (down_from (Z.to_nat (WetBins + LakeBins))))
  else NotRecognized.

End VICcalculation.

(** ** [VICcalculation] in single precision *)

(** The parameters [wetlandVeg] and [waterVeg] and the variable
    [areacriteria] are declared [float]: an operation on two of them, or on
    one of them and an [int], is done in single precision, and so is the
    value stored in [areacriteria].  An operation with a [double] is done in
    double precision, exact as everywhere.  The definitions that follow
    are the ones of the section [VICcalculation] with these roundings. *)
Module Single.

Section VICcalculation.

Variable VIC : matrix.
Variable n : Z.
Variables wetlandVeg waterVeg : R.
Variable totalVeg : Z.
Variables deltax deltay : R.
Variable option : string.
Variable ElevRange : R.

(** [waterVeg*totalVeg] is a product of a [float] and an [int]. *)
Definition LakeArea : R :=
  if Rltb 0 waterVeg
  then (float32 (waterVeg * float32 (IZR totalVeg)) * deltax * deltay
        / (1000 * 1000))%R
  else 0%R.

Definition LakeDepth : R :=
  if Rltb 0 waterVeg then
    if Rltb LakeArea 40.9375 then (7.04 - 0.07 * LakeArea)%R else 4.17%R
  else 0%R.

(** [float areacriteria = 0.091; ... ceil(wetlandVeg/areacriteria)] *)
Definition WetBins : Z :=
  if Rltb 0 wetlandVeg then
    let WetBins := ceil (float32 (wetlandVeg / float32 0.091)) in
    if WetBins <? 5 then 5 else WetBins
  else 0.

(** [areacriteria = wetlandVeg/WetBins;] *)
Definition areacriteria : R :=
  if Rltb 0 wetlandVeg
  then float32 (wetlandVeg / float32 (IZR WetBins))
  else float32 0.091.

(** One turn of the loop that fills the bins; the test
    [WetlandBin[0][counter]/totalVeg >= areacriteria] compares a [double]
    with the [float]. *)
Definition bin_step (i : Z) (b : bins) : bins :=
  let c := counter b in
  let W := WetlandBin b in
  let W := madd W 0 c 1 in
  let W :=
    if is_SEA option
    then madd (madd (madd W 1 c (VIC 1 i)) 2 c (VIC 2 i)) 3 c (VIC 3 i)
    else W in
  let W := mset W (ROWS option - 1) c (VIC 4 i) in
  let cnt := cnt b + 1 in
  if Rleb areacriteria (W 0%Z c / IZR totalVeg)%R || (i =? n - 1) then
    let W := mset W 0 c (W 0%Z c / IZR totalVeg)%R in
    let W :=
      if is_SEA option
      then for_loop 1 (ROWS option - 2)
             (fun j W => mset W j c (W j c / IZR cnt)%R) W
      else W in
    mkBins W (c + 1) 0
  else mkBins W c cnt.

Definition fill_bins : bins :=
  for_loop 0 (n - 1) bin_step (mkBins (fun _ _ => 0%R) 0 0).

Definition lake_step (i : Z) (p : profile) : profile :=
  let LakeBins := LakeBins waterVeg in
  let demsum := vset (DEMSUM p) i (DEMSUM p (i - 1)%Z + LakeDepth / IZR LakeBins)%R in
  let bathsum := vset (BATHSUM p) i (BATHSUM p (i - 1)%Z + LakeDepth / IZR LakeBins)%R in
  let areasum := vset (AREASUM p) i (waterVeg * sqrt (demsum i / LakeDepth))%R in
  if is_SEA option
  then mkProfile areasum demsum bathsum
         (vset (SLOPE p) i (VIC 2 0)) (vset (TWI p) i (VIC 1 0))
  else mkProfile areasum demsum bathsum (SLOPE p) (TWI p).

(** [VIC[1][0]-WetlandBin[1][WetBins-1]], by which the elevations of the
    SEA profile are divided. *)
Definition sea_divisor (W : matrix) : R :=
  (VIC 1%Z 0%Z - W 1%Z (WetBins - 1)%Z)%R.

Definition wet_step (W : matrix) (i : Z) (p : profile) : profile :=
  let LakeBins := LakeBins waterVeg in
  let k := i - (LakeBins + 1) in
  let areasum := vset (AREASUM p) i (AREASUM p (i - 1)%Z + W 0%Z k)%R in
  let bathsum :=
    if 1 <? i
    then vset (BATHSUM p) i
           (W (ROWS option - 1)%Z k - VIC 4%Z 0%Z + BATHSUM p LakeBins)%R
    else vset (BATHSUM p) i (W (ROWS option - 1)%Z k - VIC 4%Z 0%Z)%R in
  if is_SEA option then
    let slope := vset (SLOPE p) i (W 2 k) in
    let demsum :=
      if 1 <? i
      then vset (DEMSUM p) i
             (bathsum LakeBins
              + ElevRange * (VIC 1%Z 0%Z - W 1%Z k) / sea_divisor W)%R
      else vset (DEMSUM p) i ElevRange in
    mkProfile areasum demsum bathsum slope (TWI p)
  else
    mkProfile areasum (vset (DEMSUM p) i (bathsum i)) bathsum (SLOPE p) (TWI p).

Definition assemble : profile :=
  let LakeBins := LakeBins waterVeg in
  let W := WetlandBin fill_bins in
  let zero : vector := fun _ => 0%R in
  let p := mkProfile (vset zero 0 0%R) (vset zero 0 0%R) zero zero zero in
  let p := for_loop 1 LakeBins lake_step p in
  let p :=
    if is_SEA option
    then for_loop (LakeBins + 1) (WetBins + LakeBins) (twi_step waterVeg W) p
    else p in
  for_loop (LakeBins + 1) (WetBins + LakeBins) (wet_step W) p.

(** [waterVeg + wetlandVeg] is a sum of two [float]. *)
Definition fraction_mismatch (p : profile) : bool :=
  Rltb 0.00001
    (AREASUM p (WetBins + LakeBins waterVeg) - float32 (waterVeg + wetlandVeg)).

Definition VICcalculation : output :=
  let LakeBins := LakeBins waterVeg in
  let p := assemble in
  if fraction_mismatch p then Exit0
  else if is_SEA option then
    if LakeBins + WetBins =? 0
    then Printed 0 1 0 [[0; 0; 0; 0]%R]
    else Printed 0 (LakeBins + WetBins) (LakeDepth + 0.01)
           (map (fun i => [DEMSUM p i; AREASUM p i; TWI p i; SLOPE p i])
              (down_from (Z.to_nat (WetBins + LakeBins))))
  else if is_LAKE option then
    if LakeBins + WetBins =? 0
    then Printed 1 1 0 [[0; 0]%R]
    else Printed 1 (LakeBins + WetBins) (LakeDepth + 0.01)
           (map (fun i => [DEMSUM p i; AREASUM p i])
              (down_from (Z.to_nat (WetBins + LakeBins))))
  else NotRecognized.

End VICcalculation.

End Single.

(** ** Great-circle distance: [get_dist] *)

Definition E_RADIUS : R := 6371.0.

(** The macro [PI] of the source, which is not the number pi. *)
Definition PI_macro : R := 3.1415.

(** C's [acos] is [acos] of the reals on [[-1, 1]], where the argument
    stays: it is a sum of products of sines and cosines, cut at 1. *)
Definition get_dist (lat1 long1 lat2 long2 : R) : R :=
  let dtor := (2.0 * PI_macro / 360.0)%R in
  let theta1 := (dtor * long1)%R in
  let phi1 := (dtor * lat1)%R in
  let theta2 := (dtor * long2)%R in
  let phi2 := (dtor * lat2)%R in
  let term1 := (cos phi1 * cos theta1 * cos phi2 * cos theta2)%R in
  let term2 := (cos phi1 * sin theta1 * cos phi2 * sin theta2)%R in
  let term3 := (sin phi1 * sin phi2)%R in
  let temp := (term1 + term2 + term3)%R in
  let temp := if Rltb 1.0 temp then 1.0%R else temp in
  (E_RADIUS * acos temp)%R.

(** ** The driver: [main] *)

(** The metric size of a cell, [(deltax, deltay)], from the header. *)
Definition main_cell_size (columns rows : Z) (xorig yorig delta : R) : R * R :=
  let celllat := (yorig + delta * IZR rows / 2)%R in
  let newlat := (celllat + delta)%R in
  let celllong := (xorig + delta * IZR columns / 2)%R in
  let newlong := (celllong + delta)%R in
  ((1000 * get_dist celllat celllong celllat newlong)%R,
   (1000 * get_dist celllat celllong newlat celllong)%R).

(** The values of the file, [raw], read into [dem] row by row; a negative
    value becomes [nodata].  [dem] comes from [calloc]. *)
Definition main_read_dem (columns rows : Z) (nodata : R) (raw : matrix) : matrix :=
  for_loop 0 (rows - 1)
    (fun i dem =>
       for_loop 0 (columns - 1)
         (fun j dem =>
            let dem := mset dem i j (raw i j) in
            if Rltb (dem i j) 0 then mset dem i j nodata else dem)
         dem)
    (fun _ _ => 0%R).

(** [dem[i][j] = topo[j+1][i+1]; flowacc[i][j] = flow[j+1][i+1];] for every
    cell.  The counter [cnt] of the cells without data that the source keeps
    in this loop has no initial value and is left out, with the test on it. *)
Definition main_copy_back (columns rows : Z) (topo flow : matrix)
           (df : matrix * matrix) : matrix * matrix :=
  for_loop 0 (rows - 1)
    (fun i df =>
       for_loop 0 (columns - 1)
         (fun j '(dem, flowacc) =>
            (mset dem i j (topo (j + 1) (i + 1)),
             mset flowacc i j (flow (j + 1) (i + 1))))
         df)
    df.

(** From the values of the file to the filled [dem], the accumulated
    [flowacc] and the cell size that [main] hands to [Topindex]. *)
Definition main_fill (indexx : Z -> vector -> ivector)
           (junk_i : ivector) (junk_v : vector) (junk_m : matrix) (min_junk : R)
           (fuel : nat) (columns rows : Z) (xorig yorig delta nodata : R)
           (raw : matrix) : option (matrix * matrix * (R * R)) :=
  let '(deltax, deltay) := main_cell_size columns rows xorig yorig delta in
  let lattice_size_x := columns in
  let lattice_size_y := rows in
  let dem := main_read_dem columns rows nodata raw in
  let flowacc : matrix := fun _ _ => 0%R in
  bind (fillin dem lattice_size_x lattice_size_y deltax deltay indexx
          junk_i junk_v junk_m min_junk fuel nodata)
    (fun '(topo, st) =>
       Some (main_copy_back columns rows topo (flow st) (dem, flowacc),
             (deltax, deltay))).

(** ** Elevation change towards wetter neighbors: the second loop of
    [Topindex] *)

Section AveDelev.

Variables dem wetnessindex : matrix.
Variables columns rows : Z.
Variables deltax deltay : R.
Variable nodata : R.

(** [(neighbor_elev[n], neighbor_twi[n])] of the second loop: [nodata] for
    a neighbor outside of the grid. *)
Definition neighbor_elev_twi (x y : Z) (n : nat) : R * R :=
  let xn := x + nth n xneighbor 0 in
  let yn := y + nth n yneighbor 0 in
  if (0 <=? xn) && (0 <=? yn) && (xn <? columns) && (yn <? rows)
  then (if Rneb (dem yn xn) nodata then dem yn xn else nodata,
        if Rneb (wetnessindex yn xn) nodata then wetnessindex yn xn else nodata)
  else (nodata, nodata).

(** [neighbor_elev[n] < dem[y][x] && neighbor_elev[n] != nodata
     && neighbor_twi[n] > wetnessindex[y][x]] *)
Definition lower_wetter (x y : Z) (n : nat) : bool :=
  let '(ne, nt) := neighbor_elev_twi x y n in
  Rltb ne (dem y x) && Rneb ne nodata && Rltb (wetnessindex y x) nt.

(** The accumulators [(Delev[y][x], lower)] after neighbor [n]. *)
Definition delev_step (x y : Z) (acc : R * Z) (n : nat) : R * Z :=
  let '(delev, low) := acc in
  let ne := fst (neighbor_elev_twi x y n) in
  if lower_wetter x y n then
    if (n =? 0)%nat || (n =? 2)%nat || (n =? 4)%nat || (n =? 6)%nat then
      ((delev + (dem y x - ne) / length_diagonal deltax deltay)%R, low + 1)
    else if (n =? 1)%nat || (n =? 5)%nat then
      ((delev + (dem y x - ne) / deltay)%R, low + 1)
    else
      ((delev + (dem y x - ne) / deltax)%R, low + 1)
  else acc.

(** [AveDelev[y][x]] *)
Definition ave_delev (x y : Z) : R :=
  let '(delev, low) := fold_left (delev_step x y) (seq 0 8) (0%R, 0) in
  if low =? 0 then 0%R else (delev / IZR low)%R.

End AveDelev.

(** ** Sorting the cells: [quick] and [qs] *)

(** A cell with the value it is ranked by.  The fields [x] and [y] are
    declared [double] and only ever hold a column and a row. *)
Record ITEM := mkITEM {
  Rank : R;
  x : Z;
  y : Z
}.

Definition items := Z -> ITEM.

Definition item_set (item : items) (k : Z) (v : ITEM) : items :=
  fun k' => if k' =? k then v else item k'.

(** [y = item[i]; item[i] = item[j]; item[j] = y;] *)
Definition swap_items (item : items) (i j : Z) : items :=
  item_set (item_set item i (item j)) j (item i).

(** [while (item[i].Rank < x.Rank && i < right) i++;]  The index stops at
    [right] at the latest, so that [right - i] turns are all there can be. *)
Fixpoint scan_up (turns : nat) (item : items) (xRank : R) (right i : Z) : Z :=
  match turns with
  | O => i
  | S turns' =>
      if Rltb (Rank (item i)) xRank && (i <? right)
      then scan_up turns' item xRank right (i + 1)
      else i
  end.

(** [while (x.Rank < item[j].Rank && j > left) j--;] *)
Fixpoint scan_down (turns : nat) (item : items) (xRank : R) (left j : Z) : Z :=
  match turns with
  | O => j
  | S turns' =>
      if Rltb xRank (Rank (item j)) && (left <? j)
      then scan_down turns' item xRank left (j - 1)
      else j
  end.

(** The loop [do { ... } while (i <= j)]; [None] when the fuel does not
    cover the turns of the loop. *)
Fixpoint qs_partition (fuel : nat) (item : items) (xRank : R) (left right i j : Z)
  : option (items * Z * Z) :=
  match fuel with
  | O => None
  | S fuel' =>
      let i := scan_up (Z.to_nat (right - i)) item xRank right i in
      let j := scan_down (Z.to_nat (j - left)) item xRank left j in
      let '(item, i, j) :=
        if i <=? j then (swap_items item i j, i + 1, j - 1) else (item, i, j) in
      if i <=? j then qs_partition fuel' item xRank left right i j
      else Some (item, i, j)
  end.

(** [qs(item, left, right)]; the fuel stands for the depth of the call
    stack and for the turns of the loop, [None] meaning that it was
    exceeded.  The division of two [int] is [Z.quot]. *)
Fixpoint qs (fuel : nat) (item : items) (left right : Z) : option items :=
  match fuel with
  | O => None
  | S fuel' =>
      let i := left in
      let j := right in
      let x := item (Z.quot (left + right) 2) in
      bind (qs_partition (S fuel') item (Rank x) left right i j)
        (fun '(item, i, j) =>
           bind (if left <? j then qs fuel' item left j else Some item)
             (fun item =>
                if i <? right then qs fuel' item i right else Some item))
  end.

Definition quick (fuel : nat) (item : items) (count : Z) : option items :=
  qs fuel item 0 (count - 1).

(** ** Least squares: [correlation] *)

(** The five running sums of the first loop. *)
Record sums := mkSums {
  SUMx : R;
  SUMy : R;
  SUMxy : R;
  SUMxx : R;
  SUMyy : R
}.

Definition correlation_sums (xs ys : vector) (n : Z) : sums :=
  for_loop 0 (n - 1)
    (fun i s =>
       mkSums (SUMx s + xs i) (SUMy s + ys i) (SUMxy s + xs i * ys i)
              (SUMxx s + xs i * xs i) (SUMyy s + ys i * ys i))
    (mkSums 0 0 0 0 0).

(** The value returned, [cor].  The slope, the intercept and the sum of
    the squared residuals that the function computes as well are not
    returned. *)
Definition correlation (xs ys : vector) (n : Z) : R :=
  let s := correlation_sums xs ys n in
  ((IZR n * SUMxy s - SUMx s * SUMy s)
   / sqrt ((IZR n * SUMxx s - SUMx s * SUMx s)
           * (IZR n * SUMyy s - SUMy s * SUMy s)))%R.

(** ** The whole of [Topindex] *)

(** The arrays [tanbeta], [tanbeta_pixel], [contour_length] and
    [wetnessindex] that the first loop over the cells fills, and its three
    counters.  The counters [waterVeg], [wetlandVeg] and [totalVeg] are
    declared [float]: they hold the counts until the fractions are
    formed. *)
Record grids := mkGrids {
  tanbeta_grid : matrix;
  tanbeta_pixel_grid : matrix;
  contour_length_grid : matrix;
  wetnessindex_grid : matrix;
  waterVeg_count : R;
  wetlandVeg_count : R;
  totalVeg_count : R
}.

(** [c++] on a [float]. *)
Definition float_incr (c : R) : R := float32 (c + 1).

(** The conversion of a [float] to an [int], which drops the digits after
    the point. *)
Definition to_int (x : R) : Z :=
  if Rltb x 0 then - Int_part (- x) else Int_part x.

(** How a call of [Topindex] ends. *)
Inductive topindex_end : Type :=
| NoData
    (** "ERROR: No data in current cell" on stderr, then [exit(0)] *)
| StackExceeded
    (** the fuel of [quick] did not cover the recursion *)
| OutOfBlock
    (** an item was stored past the end of the block [OrderedCellsTWI]:
        what the program does from there on is not defined *)
| Calculated (o : output)
    (** [VICcalculation] was called and ended with [o] *).

(** An item of a block that [calloc] returned. *)
Definition zero_item : ITEM := mkITEM 0 0 0.

Section TopindexRun.

Variables dem flowacc : matrix.
Variables columns rows : Z.
Variables deltax deltay : R.
Variable nodata : R.
Variable option : string.

(** [Norow]: the cells without data. *)
Definition Norow : Z :=
  for_loop 0 (rows - 1)
    (fun i Norow =>
       for_loop 0 (columns - 1)
         (fun j Norow => if Reqb (dem i j) nodata then Norow + 1 else Norow)
         Norow)
    0.

(** The cells with data, row by row, into [OrderedCellsDEM], with their
    number [count]. *)
Definition collect_cells (cells : items) : items * Z :=
  for_loop 0 (rows - 1)
    (fun i s =>
       for_loop 0 (columns - 1)
         (fun j '(cells, count) =>
            if Rneb (dem i j) nodata
            then (item_set cells count (mkITEM (dem i j) j i), count + 1)
            else (cells, count))
         s)
    (cells, 0).

(** One turn of the first loop over the cells, for the cell [(x, y)]: the
    sums over the neighbors go on from what [contour_length[y][x]] and
    [tanbeta[y][x]] hold. *)
Definition topindex_visit (x y : Z) (g : grids) : grids :=
  let '(cl, tb, low) :=
    fold_left (neighbor_step dem columns rows deltax deltay nodata x y)
      (seq 0 8) (contour_length_grid g y x, tanbeta_grid g y x, 0) in
  let floor := tanbeta_floor deltax deltay in
  let '(tb, tbp, cl) :=
    if low =? 0
    then (floor, floor, (2 * deltax + 2 * deltay)%R)
    else (tb, (tb / cl)%R, (cl / IZR low)%R) in
  let tbp := if Rltb tbp floor then floor else tbp in
  let w := (flowacc y x / (cl * tbp))%R in
  let water :=
    if Rleb WATERTHRESH w
    then float_incr (waterVeg_count g) else waterVeg_count g in
  let wetland :=
    if Rleb WATERTHRESH w then wetlandVeg_count g
    else if Rleb WETLANDTHRESH w && Rltb w WATERTHRESH
         then float_incr (wetlandVeg_count g) else wetlandVeg_count g in
  let total :=
    if Rneb w nodata
    then float_incr (totalVeg_count g) else totalVeg_count g in
  mkGrids (mset (tanbeta_grid g) y x tb)
          (mset (tanbeta_pixel_grid g) y x tbp)
          (mset (contour_length_grid g) y x cl)
          (mset (wetnessindex_grid g) y x w)
          water wetland total.

(** [for (k = count-1; k > -1; k--)] over the sorted cells; the arrays
    come from [Memoryalloc], that is [calloc]. *)
Definition first_loop (cells : items) (count : Z) : grids :=
  for_down (Z.to_nat count)
    (fun t g => topindex_visit (x (cells (t - 1))) (y (cells (t - 1))) g)
    (mkGrids (fun _ _ => 0%R) (fun _ _ => 0%R) (fun _ _ => 0%R)
       (fun _ _ => 0%R) 0%R 0%R 0%R).

(** [uplandVeg], [wetlandVeg] and [waterVeg] as fractions: differences
    and quotients of [float]. *)
Definition uplandVeg (g : grids) : R :=
  float32
    (float32 (float32 (totalVeg_count g - waterVeg_count g)
              - wetlandVeg_count g)
     / totalVeg_count g).

Definition wetlandVeg (g : grids) : R :=
  float32 (wetlandVeg_count g / totalVeg_count g).

Definition waterVeg (g : grids) : R :=
  float32 (waterVeg_count g / totalVeg_count g).

(** The second loop over the sorted cells, which fills [AveDelev]. *)
Definition second_loop (cells : items) (count : Z) (g : grids) : matrix :=
  for_down (Z.to_nat count)
    (fun t AveDelev =>
       let x := x (cells (t - 1)) in
       let y := y (cells (t - 1)) in
       mset AveDelev y x
         (ave_delev dem (wetnessindex_grid g) columns rows deltax deltay
            nodata x y))
    (fun _ _ => 0%R).

(** A store into a block of [size] items that [calloc] returned: there
    is no item at an index from [size] on. *)
Definition store_item (size : Z) (item : items) (k : Z) (v : ITEM)
  : Datatypes.option items :=
  if (0 <=? k) && (k <? size) then Some (item_set item k v) else None.

(** [for (i = 0; i < count; i++) OrderedCellsTWI[count] = 0]: every turn
    stores the item at [count] of the block [OrderedCellsTWI], which has
    [count] items.  The other loops store into [OrderedCellsDEM] and
    [OrderedCellsTWI] below the number of cells with data, inside of the
    blocks. *)
Definition reset_twi (twi : items) (count : Z) : Datatypes.option items :=
  for_loopM 0 (count - 1)
    (fun _ twi => store_item count twi count zero_item) twi.

(** The wetland cells, row by row, into [OrderedCellsTWI] and into the
    head of [OrderedCellsDEM], with their number. *)
Definition collect_wetland (g : grids) (twi cells : items)
  : items * items * Z :=
  for_loop 0 (rows - 1)
    (fun i s =>
       for_loop 0 (columns - 1)
         (fun j '(twi, cells, count) =>
            let w := wetnessindex_grid g i j in
            if Rleb WETLANDTHRESH w && Rltb w WATERTHRESH
            then (item_set twi count (mkITEM w j i),
                  item_set cells count (mkITEM (dem i j) j i),
                  count + 1)
            else (twi, cells, count))
         s)
    (twi, cells, 0).

(** [VIC[0..3][k]] from the cell of rank [count-1-k] in wetness index,
    [VIC[4][k]] from the cell of rank [k] in elevation. *)
Definition fill_VIC (g : grids) (AveDelev : matrix) (twi cells : items)
           (count : Z) : matrix :=
  for_loop 0 (count - 1)
    (fun k VIC =>
       let y1 := y (twi (count - 1 - k)) in
       let x1 := x (twi (count - 1 - k)) in
       let VIC := mset VIC 0 k (flowacc y1 x1) in
       let VIC := mset VIC 1 k (wetnessindex_grid g y1 x1) in
       let VIC := mset VIC 2 k (tanbeta_pixel_grid g y1 x1) in
       let VIC := mset VIC 3 k (AveDelev y1 x1) in
       let y2 := y (cells k) in
       let x2 := x (cells k) in
       mset VIC 4 k (dem y2 x2))
    (fun _ _ => 0%R).

(** The block [if (wetlandVeg > 0.0) { ... }]: the wetland cells are
    collected and sorted twice, and [VIC] is filled.  [None] when the fuel
    of [quick] does not cover the recursion. *)
Definition wetland_rows (fuel : nat) (g : grids) (AveDelev : matrix)
           (twi cells : items) : Datatypes.option (matrix * Z) :=
  let '(twi, cells, count) := collect_wetland g twi cells in
  match quick fuel twi count with
  | None => None
  | Some twi =>
      match quick fuel cells count with
      | None => None
      | Some cells => Some (fill_VIC g AveDelev twi cells count, count)
      end
  end.

(** [Topindex] up to its call of [VICcalculation]: how it ends before the
    call, or the array [VIC], the number [count] and the state of the
    grids that the call gets. *)
Definition Topindex_arguments (fuel : nat)
  : topindex_end + (matrix * Z * grids) :=
  let count := rows * columns - Norow in
  if count =? 0 then inl NoData
  else
    let '(cells, count) := collect_cells (fun _ => zero_item) in
    match quick fuel cells count with
    | None => inl StackExceeded
    | Some cells =>
        let g := first_loop cells count in
        let AveDelev := second_loop cells count g in
        let count := rows * columns - Norow in
        match reset_twi (fun _ => zero_item) count with
        | None => inl OutOfBlock
        | Some twi =>
            if Rltb 0 (wetlandVeg g) then
              match wetland_rows fuel g AveDelev twi cells with
              | None => inl StackExceeded
              | Some (VIC, count) => inr (VIC, count, g)
              end
            else inr ((fun _ _ => 0%R) : matrix, count, g)
        end
    end.

(** The parameters [wetlandVeg] and [waterVeg] of [VICcalculation] are
    [float], [totalVeg] is an [int]. *)
Definition Topindex (fuel : nat) : topindex_end :=
  match Topindex_arguments fuel with
  | inl e => e
  | inr (VIC, count, g) =>
      Calculated
        (Single.VICcalculation VIC count (wetlandVeg g) (waterVeg g)
           (to_int (totalVeg_count g)) deltax deltay option
           (2.0 * VIC 1%Z 0%Z / WATERTHRESH)%R)
  end.

End TopindexRun.

(** ** The index sort: [indexx] *)

Definition M : Z := 7.
Definition NSTACK : Z := 10000000.

(** The value of an expression of type [unsigned long], of 64 bits.  It
    is written out where the source subtracts two indices and compares the
    result.  For [n >= 1] the indices [i], [j], [k], [l] and [ir] stay
    between 0 and [n + 1], and the other operations on them are written
    on [Z] as they are. *)
Definition ulong (z : Z) : Z := z mod 2 ^ 64.

(** [SWAP(indx[i], indx[j])] *)
Definition swap_index (indx : ivector) (i j : Z) : ivector :=
  iset (iset indx i (indx j)) j (indx i).

(** [for (i = j-1; i >= 1; i--) { if (arr[indx[i]] <= a) break;
    indx[i+1] = indx[i]; }]: the table and [i] after the loop.  The index
    goes down to 0 at the most, in [j - 1] turns. *)
Fixpoint insert_down (turns : nat) (arr : vector) (a : R) (indx : ivector)
         (i : Z) : ivector * Z :=
  match turns with
  | O => (indx, i)
  | S turns' =>
      if 1 <=? i then
        if Rleb (arr (indx i)) a then (indx, i)
        else insert_down turns' arr a (iset indx (i + 1) (indx i)) (i - 1)
      else (indx, i)
  end.

(** The straight insertion of the entries [l .. ir]. *)
Definition insertion (arr : vector) (l ir : Z) (indx : ivector) : ivector :=
  for_loop (l + 1) ir
    (fun j indx =>
       let indxt := indx j in
       let a := arr indxt in
       let '(indx, i) := insert_down (Z.to_nat (j - 1)) arr a indx (j - 1) in
       iset indx (i + 1) indxt)
    indx.

(** [do i++; while (arr[indx[i]] < a);]  Nothing in the loop bounds [i]:
    [None] when the turns run out. *)
Fixpoint scan_right (turns : nat) (arr : vector) (a : R) (indx : ivector)
         (i : Z) : option Z :=
  match turns with
  | O => None
  | S turns' =>
      let i := i + 1 in
      if Rltb (arr (indx i)) a then scan_right turns' arr a indx i else Some i
  end.

(** [do j--; while (arr[indx[j]] > a);] *)
Fixpoint scan_left (turns : nat) (arr : vector) (a : R) (indx : ivector)
         (j : Z) : option Z :=
  match turns with
  | O => None
  | S turns' =>
      let j := j - 1 in
      if Rltb a (arr (indx j)) then scan_left turns' arr a indx j else Some j
  end.

(** The inner [for (;;)] of the partition: the table, [i] and [j] at its
    [break].  [fuel] bounds its turns and [turns] those of each scan. *)
Fixpoint indexx_partition (fuel turns : nat) (arr : vector) (a : R)
         (indx : ivector) (i j : Z) : option (ivector * Z * Z) :=
  match fuel with
  | O => None
  | S fuel' =>
      bind (scan_right turns arr a indx i)
        (fun i =>
           bind (scan_left turns arr a indx j)
             (fun j =>
                if j <? i then Some (indx, i, j)
                else indexx_partition fuel' turns arr a (swap_index indx i j) i j))
  end.

(** The middle entry to [l+1], then the three exchanges that leave
    [arr[indx[l+1]] <= arr[indx[l]] <= arr[indx[ir]]]. *)
Definition median_of_three (arr : vector) (l ir : Z) (indx : ivector) : ivector :=
  let k := Z.shiftr (l + ir) 1 in
  let indx := swap_index indx k (l + 1) in
  let indx :=
    if Rltb (arr (indx ir)) (arr (indx (l + 1)))
    then swap_index indx (l + 1) ir else indx in
  let indx :=
    if Rltb (arr (indx ir)) (arr (indx l))
    then swap_index indx l ir else indx in
  if Rltb (arr (indx l)) (arr (indx (l + 1)))
  then swap_index indx (l + 1) l else indx.

(** The outer [for (;;)].  [None] when the fuel does not cover its turns
    or those of an inner loop, and when [jstack] goes beyond [NSTACK]: the
    source writes [istack[jstack]] without a test, outside of the vector
    that it allocated. *)
Fixpoint indexx_loop (fuel : nat) (arr : vector) (indx istack : ivector)
         (jstack l ir : Z) : option ivector :=
  match fuel with
  | O => None
  | S fuel' =>
      if ulong (ir - l) <? M then
        let indx := insertion arr l ir indx in
        if jstack =? 0 then Some indx
        else
          indexx_loop fuel' arr indx istack (jstack - 2)
            (istack (jstack - 1)) (istack jstack)
      else
        let indx := median_of_three arr l ir indx in
        let indxt := indx l in
        let a := arr indxt in
        bind (indexx_partition (S fuel') (S fuel') arr a indx (l + 1) ir)
          (fun '(indx, i, j) =>
             let indx := iset indx l (indx j) in
             let indx := iset indx j indxt in
             let jstack := jstack + 2 in
             if NSTACK <? jstack then None
             else if ulong (j - l) <=? ulong (ir - i + 1) then
               indexx_loop fuel' arr indx
                 (iset (iset istack jstack ir) (jstack - 1) i) jstack l (j - 1)
             else
               indexx_loop fuel' arr indx
                 (iset (iset istack jstack (j - 1)) (jstack - 1) l) jstack i ir)
  end.

(** [indexx(n, arr, indx)] for [n >= 0]: the table [indx] at the return.
    [indx] and [istack] come from [malloc]. *)
Definition indexx (fuel : nat) (istack : ivector) (n : Z) (arr : vector)
           (indx : ivector) : option ivector :=
  let indx := for_loop 1 n (fun j indx => iset indx j j) indx in
  indexx_loop fuel arr indx istack 0 1 n.

(** * Properties *)

(** ** Comparisons *)

Lemma Rltb_true (x y : R) : Rltb x y = true <-> (x < y)%R.
Proof. unfold Rltb; destruct (Rlt_dec x y); split; auto; discriminate. Qed.

Lemma Rltb_false (x y : R) : Rltb x y = false <-> (y <= x)%R.
Proof. unfold Rltb; destruct (Rlt_dec x y); split; try discriminate; auto; lra. Qed.

Lemma Rleb_true (x y : R) : Rleb x y = true <-> (x <= y)%R.
Proof. unfold Rleb; destruct (Rle_dec x y); split; auto; discriminate. Qed.

Lemma Rleb_false (x y : R) : Rleb x y = false <-> (y < x)%R.
Proof. unfold Rleb; destruct (Rle_dec x y); split; try discriminate; auto; lra. Qed.

Lemma Reqb_true (x y : R) : Reqb x y = true <-> x = y.
Proof. unfold Reqb; destruct (Req_dec_T x y); split; auto; discriminate. Qed.

Lemma Reqb_false (x y : R) : Reqb x y = false <-> x <> y.
Proof. unfold Reqb; destruct (Req_dec_T x y); split; auto; try discriminate; tauto. Qed.

Lemma Rneb_true (x y : R) : Rneb x y = true <-> x <> y.
Proof. unfold Rneb; rewrite negb_true_iff; apply Reqb_false. Qed.

Lemma Rneb_false (x y : R) : Rneb x y = false <-> x = y.
Proof. unfold Rneb; rewrite negb_false_iff; apply Reqb_true. Qed.

(** Turns the boolean tests of the hypotheses and of the goal into
    (in)equalities of [R]. *)
Ltac rbool :=
  repeat match goal with
    | H : Rltb _ _ = true |- _ => apply Rltb_true in H
    | H : Rltb _ _ = false |- _ => apply Rltb_false in H
    | H : Rleb _ _ = true |- _ => apply Rleb_true in H
    | H : Rleb _ _ = false |- _ => apply Rleb_false in H
    | H : Reqb _ _ = true |- _ => apply Reqb_true in H
    | H : Reqb _ _ = false |- _ => apply Reqb_false in H
    | H : Rneb _ _ = true |- _ => apply Rneb_true in H
    | H : Rneb _ _ = false |- _ => apply Rneb_false in H
    | |- Rltb _ _ = true => apply Rltb_true
    | |- Rltb _ _ = false => apply Rltb_false
    | |- Rleb _ _ = true => apply Rleb_true
    | |- Rleb _ _ = false => apply Rleb_false
    | |- Reqb _ _ = true => apply Reqb_true
    | |- Reqb _ _ = false => apply Reqb_false
    | |- Rneb _ _ = true => apply Rneb_true
    | |- Rneb _ _ = false => apply Rneb_false
    end.

(** ** Single precision *)

Lemma Rabs_le_between (a b : R) : (Rabs a <= b)%R -> (- b <= a <= b)%R.
Proof. unfold Rabs; destruct (Rcase_abs a); lra. Qed.

Lemma round_even_error (x : R) : (Rabs (IZR (round_even x) - x) <= 1 / 2)%R.
Proof.
  unfold round_even.
  destruct (base_Int_part x) as [H1 H2].
  set (f := Int_part x) in *.
  unfold Rltb.
  destruct (Rlt_dec (x - IZR f) (1 / 2)).
  - apply Rabs_le; lra.
  - destruct (Rlt_dec (1 / 2) (x - IZR f)).
    + rewrite plus_IZR; apply Rabs_le; lra.
    + destruct (Z.even f); [|rewrite plus_IZR]; apply Rabs_le; lra.
Qed.

Lemma round_even_int (k : Z) : round_even (IZR k) = k.
Proof.
  unfold round_even.
  assert (E : Int_part (IZR k) = k).
  { symmetry; apply Int_part_spec; lra. }
  rewrite E; unfold Rltb.
  destruct (Rlt_dec (IZR k - IZR k) (1 / 2)); [reflexivity | lra].
Qed.

Lemma round_even_near (x : R) (k : Z) :
  (Rabs (x - IZR k) < 1 / 2)%R -> round_even x = k.
Proof.
  intros H; apply Rabs_def2 in H.
  pose proof (round_even_error x) as He.
  apply Rabs_le_between in He.
  assert (Hlt : (IZR (round_even x) - IZR k < 1)%R) by lra.
  assert (Hgt : (IZR k - IZR (round_even x) < 1)%R) by lra.
  rewrite <- minus_IZR in Hlt, Hgt.
  apply lt_IZR in Hlt, Hgt; lia.
Qed.

Lemma ln2_pos : (0 < ln 2)%R.
Proof. rewrite <- ln_1; apply ln_increasing; lra. Qed.

Lemma powerRZ_2_exp (e : Z) : powerRZ 2 e = exp (IZR e * ln 2).
Proof. rewrite powerRZ_Rpower by lra; reflexivity. Qed.

Lemma powerRZ_2_pos (e : Z) : (0 < powerRZ 2 e)%R.
Proof. apply powerRZ_lt; lra. Qed.

Lemma powerRZ_2_succ (e : Z) : powerRZ 2 (e + 1) = (2 * powerRZ 2 e)%R.
Proof. rewrite powerRZ_add by lra; simpl; lra. Qed.

Lemma powerRZ_2_le (a b : Z) : a <= b -> (powerRZ 2 a <= powerRZ 2 b)%R.
Proof.
  intros H; rewrite !powerRZ_2_exp.
  destruct (Z.eq_dec a b) as [->|Hne]; [lra|].
  left; apply exp_increasing.
  apply Rmult_lt_compat_r; [apply ln2_pos | apply IZR_lt; lia].
Qed.

Lemma powerRZ_2_lt (a b : Z) : a < b -> (powerRZ 2 a < powerRZ 2 b)%R.
Proof.
  intros H; rewrite !powerRZ_2_exp; apply exp_increasing.
  apply Rmult_lt_compat_r; [apply ln2_pos | apply IZR_lt; lia].
Qed.

Lemma binade_spec (x : R) :
  x <> 0%R -> (powerRZ 2 (binade x) <= Rabs x < powerRZ 2 (binade x + 1))%R.
Proof.
  intros Hx; unfold binade.
  assert (Hpos : (0 < Rabs x)%R) by (apply Rabs_pos_lt; exact Hx).
  destruct (base_Int_part (ln (Rabs x) / ln 2)) as [H1 H2].
  set (e := Int_part (ln (Rabs x) / ln 2)) in *.
  pose proof ln2_pos as L.
  assert (E : (ln (Rabs x) / ln 2 * ln 2 = ln (Rabs x))%R) by (field; lra).
  rewrite !powerRZ_2_exp, plus_IZR.
  split.
  - rewrite <- (exp_ln (Rabs x) Hpos) at 1.
    destruct (Req_dec (IZR e * ln 2) (ln (Rabs x))) as [->|Hne]; [lra|].
    left; apply exp_increasing; nra.
  - rewrite <- (exp_ln (Rabs x) Hpos) at 1.
    apply exp_increasing; nra.
Qed.

Lemma binade_unique (x : R) (e : Z) :
  (powerRZ 2 e <= Rabs x < powerRZ 2 (e + 1))%R -> binade x = e.
Proof.
  intros [H1 H2].
  assert (Hx : x <> 0%R).
  { intros ->; rewrite Rabs_R0 in H1; pose proof (powerRZ_2_pos e); lra. }
  destruct (binade_spec x Hx) as [B1 B2].
  destruct (Z_lt_le_dec (binade x) e) as [Hlt|Hge].
  - pose proof (powerRZ_2_le (binade x + 1) e ltac:(lia)); lra.
  - destruct (Z_lt_le_dec e (binade x)) as [Hlt|Hle]; [|lia].
    pose proof (powerRZ_2_le (e + 1) (binade x) ltac:(lia)); lra.
Qed.

(** The value of [float32] once the exponent is known. *)
Lemma float32_at (x : R) (e : Z) :
  (powerRZ 2 e <= Rabs x < powerRZ 2 (e + 1))%R -> -126 <= e ->
  float32 x = (IZR (round_even (x / powerRZ 2 (e - 23))) * powerRZ 2 (e - 23))%R.
Proof.
  intros Hx He; unfold float32, Reqb.
  destruct (Req_dec_T x 0) as [->|_].
  - rewrite Rabs_R0 in Hx; pose proof (powerRZ_2_pos e); lra.
  - rewrite (binade_unique x e Hx), Z.max_l by lia; reflexivity.
Qed.

Lemma float32_0 : float32 0 = 0%R.
Proof.
  unfold float32, Reqb; destruct (Req_dec_T 0 0); [reflexivity | contradiction].
Qed.

(** Rounding moves a number by half a unit of its last place at most. *)
Lemma float32_error (x : R) :
  (powerRZ 2 (-126) <= Rabs x)%R ->
  (Rabs (float32 x - x) <= Rabs x / 16777216)%R.
Proof.
  intros Hmin.
  assert (Hx : x <> 0%R).
  { intros ->; rewrite Rabs_R0 in Hmin; pose proof (powerRZ_2_pos (-126)); lra. }
  destruct (binade_spec x Hx) as [B1 B2].
  set (e := binade x) in *.
  assert (He : -126 <= e).
  { destruct (Z_lt_le_dec e (-126)) as [Hlt|]; [|lia].
    pose proof (powerRZ_2_le (e + 1) (-126) ltac:(lia)); lra. }
  rewrite (float32_at x e (conj B1 B2) He).
  set (u := powerRZ 2 (e - 23)).
  assert (Hu : (0 < u)%R) by apply powerRZ_2_pos.
  assert (Eu : (powerRZ 2 e = 8388608 * u)%R).
  { unfold u; replace e with ((e - 23) + 23) at 1 by lia.
    rewrite powerRZ_add by lra; simpl; lra. }
  pose proof (round_even_error (x / u)) as Hr.
  replace (IZR (round_even (x / u)) * u - x)%R
    with ((IZR (round_even (x / u)) - x / u) * u)%R by (field; lra).
  rewrite Rabs_mult, (Rabs_pos_eq u) by lra.
  apply Rle_trans with (1 / 2 * u)%R; [nra | lra].
Qed.

(** A number that has 24 significant bits is not moved. *)
Lemma float32_exact (x : R) (e m : Z) :
  (powerRZ 2 e <= Rabs x < powerRZ 2 (e + 1))%R -> -126 <= e ->
  x = (IZR m * powerRZ 2 (e - 23))%R -> float32 x = x.
Proof.
  intros Hx He Hm; rewrite (float32_at x e Hx He).
  pose proof (powerRZ_2_pos (e - 23)) as Hu.
  rewrite Hm at 1.
  replace (IZR m * powerRZ 2 (e - 23) / powerRZ 2 (e - 23))%R with (IZR m)
    by (field; lra).
  rewrite round_even_int; symmetry; exact Hm.
Qed.

Lemma powerRZ_2_IZR (k : Z) : 0 <= k -> powerRZ 2 k = IZR (2 ^ k).
Proof.
  intros Hk; destruct k as [|p|p]; [reflexivity | | lia].
  change (2 ^ Z.pos p) with (Z.pow_pos 2 p).
  rewrite Zpower_pos_powerRZ; reflexivity.
Qed.

(** The whole numbers up to [2^24] are values of a [float]. *)
Lemma float32_int (k : Z) : Z.abs k <= 16777216 -> float32 (IZR k) = IZR k.
Proof.
  intros Hk.
  destruct (Z.eq_dec k 0) as [->|Hne]; [apply float32_0|].
  assert (Hx : IZR k <> 0%R) by (apply not_0_IZR; exact Hne).
  destruct (binade_spec (IZR k) Hx) as [B1 B2].
  set (e := binade (IZR k)) in *.
  rewrite <- abs_IZR in B1, B2.
  assert (He0 : 0 <= e).
  { destruct (Z_lt_le_dec e 0) as [Hlt|]; [|lia].
    pose proof (powerRZ_2_le (e + 1) 0 ltac:(lia)) as H; simpl in H.
    assert (1 <= IZR (Z.abs k))%R by (apply IZR_le; lia); lra. }
  assert (He24 : e <= 24).
  { destruct (Z_lt_le_dec 24 e) as [Hlt|]; [|lia].
    pose proof (powerRZ_2_le 25 e ltac:(lia)) as H.
    rewrite (powerRZ_2_IZR 25) in H by lia.
    assert (IZR (Z.abs k) <= 16777216)%R by (apply IZR_le; lia).
    change (2 ^ 25) with 33554432 in H; lra. }
  destruct (Z.eq_dec e 24) as [E24|N24].
  - (* only 2^24 itself *)
    assert (Ek : Z.abs k = 16777216).
    { rewrite E24, (powerRZ_2_IZR 24) in B1 by lia.
      apply le_IZR in B1; change (2 ^ 24) with 16777216 in B1; lia. }
    assert (Hm : exists m, IZR k = (IZR m * 2)%R).
    { destruct (Z.abs_eq_or_opp k) as [E|E]; rewrite Ek in E.
      - exists 8388608; rewrite <- E; lra.
      - exists (-8388608); replace k with (-16777216) by lia; lra. }
    destruct Hm as [m Hm].
    apply (float32_exact (IZR k) e m); [rewrite <- abs_IZR; auto | lia|].
    rewrite E24; change (24 - 23) with 1; simpl; lra.
  - apply (float32_exact (IZR k) e (k * 2 ^ (23 - e)));
      [rewrite <- abs_IZR; auto | lia|].
    rewrite mult_IZR, <- (powerRZ_2_IZR (23 - e)) by lia.
    rewrite Rmult_assoc, <- powerRZ_add by lra.
    replace (23 - e + (e - 23)) with 0 by lia; simpl; lra.
Qed.

(** The whole number after [2^24] is half way between two values: it
    goes back to [2^24]. *)
Lemma float32_stops : float32 (16777216 + 1) = 16777216%R.
Proof.
  rewrite (float32_at _ 24).
  - change (24 - 23) with 1.
    replace (powerRZ 2 1) with 2%R by (simpl; lra).
    replace ((16777216 + 1) / 2)%R with (IZR 8388608 + 1 / 2)%R by lra.
    assert (E : round_even (IZR 8388608 + 1 / 2) = 8388608).
    { unfold round_even.
      assert (Ei : Int_part (IZR 8388608 + 1 / 2) = 8388608).
      { symmetry; apply Int_part_spec; lra. }
      rewrite Ei; unfold Rltb.
      destruct (Rlt_dec _ _); [lra|].
      destruct (Rlt_dec _ _); [lra|]; reflexivity. }
    rewrite E; lra.
  - rewrite Rabs_pos_eq by lra.
    rewrite (powerRZ_2_IZR 24), (powerRZ_2_IZR (24 + 1)) by lia.
    change (2 ^ 24) with 16777216; change (2 ^ (24 + 1)) with 33554432; lra.
  - lia.
Qed.

(** Bounds of a rounded positive number. *)
Lemma float32_bounds (x : R) :
  (powerRZ 2 (-126) <= x)%R ->
  (x * (1 - / 16777216) <= float32 x <= x * (1 + / 16777216))%R.
Proof.
  intros Hx.
  assert (Hpos : (0 < x)%R) by (pose proof (powerRZ_2_pos (-126)); lra).
  pose proof (float32_error x) as H.
  rewrite (Rabs_pos_eq x) in H by lra.
  specialize (H Hx); apply Rabs_le_between in H; lra.
Qed.

Lemma tiny_bound : (powerRZ 2 (-126) < / 1000000000000)%R.
Proof.
  apply Rlt_trans with (powerRZ 2 (-40)); [apply powerRZ_2_lt; lia|].
  simpl; lra.
Qed.

(** ** Arrays *)

Lemma iset_same (v : ivector) (k x : Z) : iset v k x k = x.
Proof. unfold iset; now rewrite Z.eqb_refl. Qed.

Lemma iset_other (v : ivector) (k x k' : Z) : k' <> k -> iset v k x k' = v k'.
Proof. intros H; unfold iset; now apply Z.eqb_neq in H; rewrite H. Qed.

Lemma mset_same (m : matrix) (i j : Z) (x : R) : mset m i j x i j = x.
Proof. unfold mset; now rewrite !Z.eqb_refl. Qed.

Lemma mset_other (m : matrix) (i j : Z) (x : R) (i' j' : Z) :
  i' <> i \/ j' <> j -> mset m i j x i' j' = m i' j'.
Proof.
  intros H; unfold mset.
  destruct (Z.eqb_spec i' i), (Z.eqb_spec j' j); simpl; auto; lia.
Qed.

(** ** Loops *)

Lemma for_up_invariant {St : Type} (Inv : Z -> St -> Prop) (body : Z -> St -> St) :
  forall (n : nat) (lo : Z) (s : St),
    Inv lo s ->
    (forall i s, lo <= i < lo + Z.of_nat n -> Inv i s -> Inv (i + 1) (body i s)) ->
    Inv (lo + Z.of_nat n) (for_up n lo body s).
Proof.
  induction n as [|n IH]; intros lo s H0 Hstep; simpl for_up.
  - now replace (lo + Z.of_nat 0) with lo by lia.
  - replace (lo + Z.of_nat (S n)) with ((lo + 1) + Z.of_nat n) by lia.
    apply IH.
    + apply Hstep; [lia | exact H0].
    + intros i s' Hi; apply Hstep; lia.
Qed.

Lemma for_loop_invariant {St : Type} (Inv : Z -> St -> Prop) (body : Z -> St -> St)
      (lo hi : Z) (s : St) :
  Inv lo s ->
  (forall i s, lo <= i <= hi -> Inv i s -> Inv (i + 1) (body i s)) ->
  Inv (Z.max lo (hi + 1)) (for_loop lo hi body s).
Proof.
  intros H0 Hstep; unfold for_loop.
  replace (Z.max lo (hi + 1)) with (lo + Z.of_nat (Z.to_nat (hi - lo + 1))) by lia.
  apply for_up_invariant; [exact H0 |].
  intros i s' Hi; apply Hstep; lia.
Qed.

Lemma for_loop_empty {St : Type} (body : Z -> St -> St) (lo hi : Z) (s : St) :
  hi < lo -> for_loop lo hi body s = s.
Proof.
  intros H; unfold for_loop.
  now replace (Z.to_nat (hi - lo + 1)) with O by lia.
Qed.

Lemma for_upM_invariant {St : Type} (Inv : Z -> St -> Prop)
      (body : Z -> St -> option St) :
  forall (n : nat) (lo : Z) (s s' : St),
    Inv lo s ->
    (forall i s1 s2, lo <= i < lo + Z.of_nat n ->
                     Inv i s1 -> body i s1 = Some s2 -> Inv (i + 1) s2) ->
    for_upM n lo body s = Some s' ->
    Inv (lo + Z.of_nat n) s'.
Proof.
  induction n as [|n IH]; intros lo s s' H0 Hstep Hrun; simpl in Hrun.
  - injection Hrun as <-. now replace (lo + Z.of_nat 0) with lo by lia.
  - destruct (body lo s) as [s1|] eqn:Hb; [|discriminate].
    replace (lo + Z.of_nat (S n)) with ((lo + 1) + Z.of_nat n) by lia.
    apply (IH (lo + 1) s1); [| |exact Hrun].
    + apply (Hstep lo s); [lia | exact H0 | exact Hb].
    + intros i s2 s3 Hi; apply Hstep; lia.
Qed.

Lemma for_loopM_invariant {St : Type} (Inv : Z -> St -> Prop)
      (body : Z -> St -> option St) (lo hi : Z) (s s' : St) :
  Inv lo s ->
  (forall i s1 s2, lo <= i <= hi ->
                   Inv i s1 -> body i s1 = Some s2 -> Inv (i + 1) s2) ->
  for_loopM lo hi body s = Some s' ->
  Inv (Z.max lo (hi + 1)) s'.
Proof.
  intros H0 Hstep Hrun; unfold for_loopM in Hrun.
  replace (Z.max lo (hi + 1)) with (lo + Z.of_nat (Z.to_nat (hi - lo + 1))) by lia.
  apply (for_upM_invariant Inv body _ lo s s'); [exact H0 | | exact Hrun].
  intros i s1 s2 Hi; apply Hstep; lia.
Qed.

(** ** Neighbor tables *)

(** The loop of [setupgridneighbors] along one axis. *)
Lemma neighbor_loop_spec (n : Z) (d0 u0 : ivector) :
  0 <= n ->
  forall k,
    fst (for_loop 1 n (fun i '(d, u) => (iset d i (i - 1), iset u i (i + 1)))
           (d0, u0)) k
    = (if (1 <=? k) && (k <=? n) then k - 1 else d0 k)
    /\
    snd (for_loop 1 n (fun i '(d, u) => (iset d i (i - 1), iset u i (i + 1)))
           (d0, u0)) k
    = (if (1 <=? k) && (k <=? n) then k + 1 else u0 k).
Proof.
  intros Hn k.
  set (body := fun (i : Z) '(d, u) => (iset d i (i - 1), iset u i (i + 1))).
  pose (Inv := fun (hi : Z) (du : ivector * ivector) =>
     fst du k = (if (1 <=? k) && (k <? hi) then k - 1 else d0 k)
     /\ snd du k = (if (1 <=? k) && (k <? hi) then k + 1 else u0 k)).
  assert (H : Inv (Z.max 1 (n + 1)) (for_loop 1 n body (d0, u0))).
  { apply for_loop_invariant.
    - unfold Inv; simpl.
      destruct (Z.leb_spec 1 k), (Z.ltb_spec k 1); simpl; auto; lia.
    - intros i [d u] Hi [Hd Hu]; unfold Inv in *; simpl in *.
      unfold iset; rewrite Hd, Hu.
      destruct (Z.eqb_spec k i), (Z.leb_spec 1 k), (Z.ltb_spec k i),
        (Z.ltb_spec k (i + 1)); simpl; split; auto; lia. }
  rewrite Z.max_r in H by lia.
  destruct H as [Hd Hu]; rewrite Hd, Hu.
  destruct (Z.leb_spec 1 k), (Z.ltb_spec k (n + 1)), (Z.leb_spec k n);
    simpl; split; auto; lia.
Qed.

Lemma idown_spec (junk : ivector) (nx ny i : Z) :
  0 <= nx ->
  idown (setupgridneighbors junk nx ny) i
  = if i =? 1 then 1 else if (1 <=? i) && (i <=? nx) then i - 1 else junk i.
Proof.
  intros Hx; unfold setupgridneighbors.
  pose proof (neighbor_loop_spec nx junk junk Hx i) as [Hd _].
  destruct (for_loop 1 nx _ _) as [d u].
  destruct (for_loop 1 ny _ _) as [d' u']; simpl in *.
  unfold iset at 1; now rewrite Hd.
Qed.

Lemma iup_spec (junk : ivector) (nx ny i : Z) :
  0 <= nx ->
  iup (setupgridneighbors junk nx ny) i
  = if i =? nx then nx else if (1 <=? i) && (i <=? nx) then i + 1 else junk i.
Proof.
  intros Hx; unfold setupgridneighbors.
  pose proof (neighbor_loop_spec nx junk junk Hx i) as [_ Hu].
  destruct (for_loop 1 nx _ _) as [d u].
  destruct (for_loop 1 ny _ _) as [d' u']; simpl in *.
  unfold iset at 1; now rewrite Hu.
Qed.

Lemma jdown_spec (junk : ivector) (nx ny j : Z) :
  0 <= ny ->
  jdown (setupgridneighbors junk nx ny) j
  = if j =? 1 then 1 else if (1 <=? j) && (j <=? ny) then j - 1 else junk j.
Proof.
  intros Hy; unfold setupgridneighbors.
  pose proof (neighbor_loop_spec ny junk junk Hy j) as [Hd _].
  destruct (for_loop 1 nx _ _) as [d u].
  destruct (for_loop 1 ny _ _) as [d' u']; simpl in *.
  unfold iset at 1; now rewrite Hd.
Qed.

Lemma jup_spec (junk : ivector) (nx ny j : Z) :
  0 <= ny ->
  jup (setupgridneighbors junk nx ny) j
  = if j =? ny then ny else if (1 <=? j) && (j <=? ny) then j + 1 else junk j.
Proof.
  intros Hy; unfold setupgridneighbors.
  pose proof (neighbor_loop_spec ny junk junk Hy j) as [_ Hu].
  destruct (for_loop 1 nx _ _) as [d u].
  destruct (for_loop 1 ny _ _) as [d' u']; simpl in *.
  unfold iset at 1; now rewrite Hu.
Qed.

(** C7.  The neighbor tables clamp at the edges of the lattice: on a
    lattice of at least one column and one row, [idown[1] = 1],
    [iup[size_x] = size_x], [jdown[1] = 1], [jup[size_y] = size_y], and every
    other index of the lattice is mapped to the index minus one by the
    [down] tables and to the index plus one by the [up] tables; no index
    wraps around to the opposite edge. *)
Theorem setupgridneighbors_clamped (junk : ivector) (nx ny : Z) :
  1 <= nx -> 1 <= ny ->
  let nb := setupgridneighbors junk nx ny in
  (idown nb 1 = 1 /\ iup nb nx = nx /\ jdown nb 1 = 1 /\ jup nb ny = ny)
  /\ (forall i, 1 < i <= nx -> idown nb i = i - 1)
  /\ (forall i, 1 <= i < nx -> iup nb i = i + 1)
  /\ (forall j, 1 < j <= ny -> jdown nb j = j - 1)
  /\ (forall j, 1 <= j < ny -> jup nb j = j + 1).
Proof.
  intros Hx Hy nb; subst nb.
  repeat split.
  - rewrite idown_spec by lia; reflexivity.
  - rewrite iup_spec by lia; now rewrite Z.eqb_refl.
  - rewrite jdown_spec by lia; reflexivity.
  - rewrite jup_spec by lia; now rewrite Z.eqb_refl.
  - intros i Hi; rewrite idown_spec by lia.
    destruct (Z.eqb_spec i 1), (Z.leb_spec 1 i), (Z.leb_spec i nx); simpl; lia.
  - intros i Hi; rewrite iup_spec by lia.
    destruct (Z.eqb_spec i nx), (Z.leb_spec 1 i), (Z.leb_spec i nx); simpl; lia.
  - intros j Hj; rewrite jdown_spec by lia.
    destruct (Z.eqb_spec j 1), (Z.leb_spec 1 j), (Z.leb_spec j ny); simpl; lia.
  - intros j Hj; rewrite jup_spec by lia.
    destruct (Z.eqb_spec j ny), (Z.leb_spec 1 j), (Z.leb_spec j ny); simpl; lia.
Qed.

Lemma setupgridneighbors_clamped_witness :
  let nb := setupgridneighbors (fun _ => 0) 3 2 in
  (idown nb 1 = 1 /\ iup nb 3 = 3 /\ jdown nb 1 = 1 /\ jup nb 2 = 2)
  /\ (forall i, 1 < i <= 3 -> idown nb i = i - 1)
  /\ (forall i, 1 <= i < 3 -> iup nb i = i + 1)
  /\ (forall j, 1 < j <= 2 -> jdown nb j = j - 1)
  /\ (forall j, 1 <= j < 2 -> jup nb j = j + 1).
Proof. apply (setupgridneighbors_clamped (fun _ => 0) 3 2); lia. Defined.

(** ** Sink/flat elimination *)

Section FillProperties.

Variable junk : ivector.
Variables nx ny : Z.
Variable nodata : R.
Variable min_junk : R.

Let nb := setupgridneighbors junk nx ny.

Definition interior (i j : Z) : Prop := 1 < i < nx /\ 1 < j < ny.

Lemma interior_neighbors (i j : Z) :
  interior i j ->
  iup nb i = i + 1 /\ idown nb i = i - 1 /\ jup nb j = j + 1 /\ jdown nb j = j - 1.
Proof.
  intros [Hi Hj]; subst nb.
  rewrite iup_spec, idown_spec, jup_spec, jdown_spec by lia.
  destruct (Z.eqb_spec i nx), (Z.eqb_spec i 1), (Z.eqb_spec j ny),
    (Z.eqb_spec j 1); try lia.
  destruct (Z.leb_spec 1 i), (Z.leb_spec i nx), (Z.leb_spec 1 j),
    (Z.leb_spec j ny); simpl; try lia; auto.
Qed.

Lemma is_pit_true (topo : matrix) (i j : Z) :
  is_pit nb nx ny nodata min_junk topo i j = true ->
  interior i j /\ topo i j <> nodata
  /\ (topo i j <= neighborhood_min nb nodata min_junk topo i j)%R.
Proof.
  unfold is_pit, interior; rewrite !andb_true_iff, !Z.ltb_lt.
  intros [[[[[H1 H2] H3] H4] H5] H6]; rbool; repeat split; auto.
Qed.

Lemma is_pit_border (topo : matrix) (i j : Z) :
  ~ interior i j -> is_pit nb nx ny nodata min_junk topo i j = false.
Proof.
  intros H; destruct (is_pit _ _ _ _ _ topo i j) eqn:E; auto.
  apply is_pit_true in E; tauto.
Qed.

(** The test of a cell reads the cell and its eight neighbors only. *)
Lemma is_pit_ext (t1 t2 : matrix) (a b : Z) :
  (forall a' b', a - 1 <= a' <= a + 1 -> b - 1 <= b' <= b + 1 ->
                 t1 a' b' = t2 a' b') ->
  is_pit nb nx ny nodata min_junk t1 a b
  = is_pit nb nx ny nodata min_junk t2 a b.
Proof.
  intros Hagree.
  destruct (Z_lt_dec 1 a), (Z_lt_dec a nx), (Z_lt_dec 1 b), (Z_lt_dec b ny);
    try (rewrite !is_pit_border; unfold interior; auto; lia).
  destruct (interior_neighbors a b) as (Hu & Hd & Hv & Hw);
    [unfold interior; lia|].
  unfold is_pit, neighborhood_min, lower_min; rewrite Hu, Hd, Hv, Hw.
  rewrite !(Hagree a b), !(Hagree (a + 1) b), !(Hagree (a - 1) b),
    !(Hagree a (b + 1)), !(Hagree a (b - 1)), !(Hagree (a + 1) (b + 1)),
    !(Hagree (a - 1) (b + 1)), !(Hagree (a - 1) (b - 1)),
    !(Hagree (a + 1) (b - 1)) by lia.
  reflexivity.
Qed.

Lemma is_pit_mset_far (topo : matrix) (i j : Z) (v : R) (a b : Z) :
  ~ (i - 1 <= a <= i + 1 /\ j - 1 <= b <= j + 1) ->
  is_pit nb nx ny nodata min_junk (mset topo i j v) a b
  = is_pit nb nx ny nodata min_junk topo a b.
Proof.
  intros Hfar; apply is_pit_ext; intros a' b' Ha Hb.
  apply mset_other; lia.
Qed.

(** What a call may change: no cell that passes the test fails it
    afterwards, no elevation decreases, and a cell that is not interior
    keeps its elevation. *)
Definition fill_step (t t' : matrix) : Prop :=
  (forall a b, is_pit nb nx ny nodata min_junk t a b = false ->
               is_pit nb nx ny nodata min_junk t' a b = false)
  /\ (forall a b, (t a b <= t' a b)%R)
  /\ (forall a b, ~ interior a b -> t' a b = t a b).

Lemma fill_step_refl (t : matrix) : fill_step t t.
Proof. repeat split; auto; intros; lra. Qed.

Lemma fill_step_trans (t1 t2 t3 : matrix) :
  fill_step t1 t2 -> fill_step t2 t3 -> fill_step t1 t3.
Proof.
  intros (A1 & B1 & C1) (A2 & B2 & C2); repeat split.
  - auto.
  - intros a b; specialize (B1 a b); specialize (B2 a b); lra.
  - intros a b H; rewrite C2, C1; auto.
Qed.

(** A raise adds at least [fillincrement] to the cell. *)
Lemma raise_increases (topo : matrix) (i j : Z) :
  is_pit nb nx ny nodata min_junk topo i j = true ->
  (topo i j + fillincrement
   <= mset topo i j
        (neighborhood_min nb nodata min_junk topo i j + fillincrement) i j)%R.
Proof.
  intros H; apply is_pit_true in H as (_ & _ & H).
  rewrite mset_same; lra.
Qed.

Lemma fill_invariant :
  forall (fuel : nat) (topo : matrix) (i j : Z) (topo' : matrix),
    fillinpitsandflats nb nx ny nodata min_junk fuel topo i j = Some topo' ->
    is_pit nb nx ny nodata min_junk topo' i j = false /\ fill_step topo topo'.
Proof.
  induction fuel as [|fuel IH]; intros topo i j topo' Hrun; [discriminate|].
  simpl in Hrun.
  destruct (is_pit nb nx ny nodata min_junk topo i j) eqn:Hpit.
  2:{ injection Hrun as <-; split; [exact Hpit | apply fill_step_refl]. }
  pose proof (raise_increases topo i j Hpit) as Hraise.
  destruct (is_pit_true _ _ _ Hpit) as (Hint & Hvalid & Hle).
  destruct (interior_neighbors i j Hint) as (Hu & Hd & Hv & Hw).
  rewrite Hu, Hd, Hv, Hw in Hrun.
  set (t0 := mset topo i j _) in *.
  destruct (fillinpitsandflats _ _ _ _ _ fuel t0 i j) as [t1|] eqn:E1;
    [|discriminate]; simpl in Hrun.
  destruct (fillinpitsandflats _ _ _ _ _ fuel t1 (i + 1) j) as [t2|] eqn:E2;
    [|discriminate]; simpl in Hrun.
  destruct (fillinpitsandflats _ _ _ _ _ fuel t2 (i - 1) j) as [t3|] eqn:E3;
    [|discriminate]; simpl in Hrun.
  destruct (fillinpitsandflats _ _ _ _ _ fuel t3 i (j + 1)) as [t4|] eqn:E4;
    [|discriminate]; simpl in Hrun.
  destruct (fillinpitsandflats _ _ _ _ _ fuel t4 i (j - 1)) as [t5|] eqn:E5;
    [|discriminate]; simpl in Hrun.
  destruct (fillinpitsandflats _ _ _ _ _ fuel t5 (i + 1) (j + 1)) as [t6|] eqn:E6;
    [|discriminate]; simpl in Hrun.
  destruct (fillinpitsandflats _ _ _ _ _ fuel t6 (i - 1) (j + 1)) as [t7|] eqn:E7;
    [|discriminate]; simpl in Hrun.
  destruct (fillinpitsandflats _ _ _ _ _ fuel t7 (i - 1) (j - 1)) as [t8|] eqn:E8;
    [|discriminate]; simpl in Hrun.
  apply IH in E1 as [P1 S1]. apply IH in E2 as [P2 S2].
  apply IH in E3 as [P3 S3]. apply IH in E4 as [P4 S4].
  apply IH in E5 as [P5 S5]. apply IH in E6 as [P6 S6].
  apply IH in E7 as [P7 S7]. apply IH in E8 as [P8 S8].
  apply IH in Hrun as [P9 S9].
  pose proof (fill_step_trans _ _ _ S8 S9) as S89.
  pose proof (fill_step_trans _ _ _ S7 S89) as S79.
  pose proof (fill_step_trans _ _ _ S6 S79) as S69.
  pose proof (fill_step_trans _ _ _ S5 S69) as S59.
  pose proof (fill_step_trans _ _ _ S4 S59) as S49.
  pose proof (fill_step_trans _ _ _ S3 S49) as S39.
  pose proof (fill_step_trans _ _ _ S2 S39) as S29.
  pose proof (fill_step_trans _ _ _ S1 S29) as S19.
  split; [apply S29; exact P1|].
  repeat split.
  - intros a b Hab.
    destruct (Z_le_dec (i - 1) a), (Z_le_dec a (i + 1)),
      (Z_le_dec (j - 1) b), (Z_le_dec b (j + 1));
      try (apply S19; unfold t0; rewrite is_pit_mset_far by lia; exact Hab).
    assert (Ha : a = i - 1 \/ a = i \/ a = i + 1) by lia.
    assert (Hb : b = j - 1 \/ b = j \/ b = j + 1) by lia.
    destruct Ha as [-> | [-> | ->]], Hb as [-> | [-> | ->]].
    + apply S9; exact P8.
    + apply S49; exact P3.
    + apply S89; exact P7.
    + apply S69; exact P5.
    + apply S29; exact P1.
    + apply S59; exact P4.
    + exact P9.
    + apply S39; exact P2.
    + apply S79; exact P6.
  - intros a b. destruct S19 as (_ & Hmono & _).
    specialize (Hmono a b). 
    destruct (Z.eq_dec a i) as [->|], (Z.eq_dec b j) as [->|];
      try (unfold t0 in Hmono; rewrite mset_other in Hmono by lia; exact Hmono).
    unfold fillincrement in Hraise; fold t0 in Hraise; lra.
  - intros a b Hab. destruct S19 as (_ & _ & Hborder).
    rewrite Hborder by exact Hab.
    unfold t0; apply mset_other.
    destruct (Z.eq_dec a i) as [->|], (Z.eq_dec b j) as [->|]; auto.
Qed.

Lemma fill_pass_invariant (fuel : nat) (topo topo' : matrix) :
  fill_pass nb nx ny nodata min_junk fuel topo = Some topo' ->
  fill_step topo topo'
  /\ (forall a b, is_pit nb nx ny nodata min_junk topo' a b = false).
Proof.
  intros Hrun; unfold fill_pass in Hrun.
  pose (Row := fun (j i : Z) (t : matrix) =>
    fill_step topo t
    /\ forall a b, (1 <= b < j \/ (b = j /\ 1 <= a < i)) ->
                   is_pit nb nx ny nodata min_junk t a b = false).
  pose (Inv := fun (j : Z) (t : matrix) =>
    fill_step topo t
    /\ forall a b, 1 <= b < j -> is_pit nb nx ny nodata min_junk t a b = false).
  assert (H : Inv (Z.max 1 (ny + 1)) topo').
  { refine (for_loopM_invariant Inv _ 1 ny topo topo' _ _ Hrun).
    - split; [apply fill_step_refl | intros; lia].
    - intros j s1 s2 Hj [Hs1 Hp1] Hrow.
      assert (Hr : Row j (Z.max 1 (nx + 1)) s2).
      { refine (for_loopM_invariant (Row j) _ 1 nx s1 s2 _ _ Hrow).
        - split; [exact Hs1 | intros a b [Hb | [-> Ha]]; [auto | lia]].
        - intros i t1 t2 Hi [Ht1 Hq1] Hcall.
          apply fill_invariant in Hcall as [Hnew Hst].
          split; [eapply fill_step_trans; eauto|].
          intros a b Hab.
          destruct (Z.eq_dec a i) as [->|Hne].
          + destruct Hab as [Hb | [-> _]]; [|exact Hnew].
            apply Hst, Hq1; auto.
          + apply Hst, Hq1; lia. }
      destruct Hr as [Hs2 Hp2]; split; [exact Hs2|].
      intros a b Hb.
      destruct (Z_lt_dec 1 a), (Z_lt_dec a nx);
        try (apply is_pit_border; unfold interior; lia).
      apply Hp2; lia. }
  destruct H as [Hs Hp]; split; [exact Hs|].
  intros a b.
  destruct (Z_lt_dec 1 b), (Z_lt_dec b ny);
    try (apply is_pit_border; unfold interior; lia).
  apply Hp; lia.
Qed.

(** The eight neighbors of an interior cell. *)
Definition neighbors8 (i j : Z) : list (Z * Z) :=
  [(i + 1, j); (i - 1, j); (i, j + 1); (i, j - 1);
   (i + 1, j + 1); (i - 1, j + 1); (i - 1, j - 1); (i + 1, j - 1)].

Lemma lower_min_cases (topo : matrix) (a b : Z) (m : R) :
  lower_min nodata topo a b m = m
  \/ (lower_min nodata topo a b m = topo a b /\ topo a b <> nodata).
Proof.
  unfold lower_min.
  destruct (Rltb (topo a b) m) eqn:E1, (Rneb (topo a b) nodata) eqn:E2;
    simpl; auto.
  right; rbool; auto.
Qed.

(** The minimum is the elevation of the cell or of a neighbor with data. *)
Lemma neighborhood_min_cases (topo : matrix) (i j : Z) :
  interior i j -> topo i j <> nodata ->
  let m := neighborhood_min nb nodata min_junk topo i j in
  m = topo i j
  \/ exists a b, In (a, b) (neighbors8 i j) /\ topo a b <> nodata /\ topo a b = m.
Proof.
  intros Hint Hvalid; simpl.
  destruct (interior_neighbors i j Hint) as (Hu & Hd & Hv & Hw).
  unfold neighborhood_min; rewrite Hu, Hd, Hv, Hw.
  apply Rneb_true in Hvalid; rewrite Hvalid.
  set (P := fun m : R =>
    m = topo i j
    \/ exists a b, In (a, b) (neighbors8 i j) /\ topo a b <> nodata /\ topo a b = m).
  assert (Hstep : forall a b m, In (a, b) (neighbors8 i j) -> P m ->
                                P (lower_min nodata topo a b m)).
  { intros a b m Hin Hm.
    destruct (lower_min_cases topo a b m) as [-> | [-> Hab]]; [exact Hm|].
    right; exists a, b; auto. }
  repeat (apply Hstep; [simpl; tauto|]).
  left; reflexivity.
Qed.

Lemma not_pit_drains (topo : matrix) (i j : Z) :
  interior i j -> topo i j <> nodata ->
  is_pit nb nx ny nodata min_junk topo i j = false ->
  exists a b, In (a, b) (neighbors8 i j)
              /\ topo a b <> nodata /\ (topo a b < topo i j)%R.
Proof.
  intros Hint Hvalid Hpit.
  assert (Hlt : (neighborhood_min nb nodata min_junk topo i j < topo i j)%R).
  { unfold is_pit in Hpit; destruct Hint as [Hi Hj].
    apply Rneb_true in Hvalid; rewrite Hvalid in Hpit.
    replace (1 <? i) with true in Hpit by (symmetry; apply Z.ltb_lt; lia).
    replace (1 <? j) with true in Hpit by (symmetry; apply Z.ltb_lt; lia).
    replace (i <? nx) with true in Hpit by (symmetry; apply Z.ltb_lt; lia).
    replace (j <? ny) with true in Hpit by (symmetry; apply Z.ltb_lt; lia).
    rewrite !andb_true_r in Hpit; rbool; exact Hpit. }
  destruct (neighborhood_min_cases topo i j Hint Hvalid) as [E | (a & b & Hin & Hab & E)].
  - lra.
  - exists a, b; repeat split; auto; lra.
Qed.

(** When the pass of [fillinpitsandflats] over the whole lattice has
    returned: every interior cell that holds data has a neighbor with data
    that is strictly lower; every cell that is not interior (the outer ring)
    has the elevation it had before the pass; and no elevation is below what
    it was before the pass. *)
Lemma fill_pass_returned (fuel : nat) (topo topo' : matrix) :
  fill_pass nb nx ny nodata min_junk fuel topo = Some topo' ->
  (forall i j, interior i j -> topo' i j <> nodata ->
     exists a b, In (a, b) (neighbors8 i j)
                 /\ topo' a b <> nodata /\ (topo' a b < topo' i j)%R)
  /\ (forall i j, ~ interior i j -> topo' i j = topo i j)
  /\ (forall i j, (topo i j <= topo' i j)%R).
Proof.
  intros Hrun.
  apply fill_pass_invariant in Hrun as [(_ & Hmono & Hborder) Hpit].
  repeat split; auto.
  intros i j Hint Hvalid; apply not_pit_drains; auto.
Qed.

(** *** Which cells are raised *)

Lemma lower_min_keep (topo : matrix) (a b : Z) (m : R) :
  topo a b = nodata \/ (m <= topo a b)%R ->
  lower_min nodata topo a b m = m.
Proof.
  intros H; unfold lower_min.
  destruct (Rltb (topo a b) m) eqn:E1, (Rneb (topo a b) nodata) eqn:E2;
    simpl; auto.
  rbool; destruct H; [contradiction | lra].
Qed.

Lemma lower_min_le (topo : matrix) (a b : Z) (m : R) :
  (lower_min nodata topo a b m <= m)%R
  /\ (topo a b <> nodata -> (lower_min nodata topo a b m <= topo a b)%R).
Proof.
  unfold lower_min.
  destruct (Rltb (topo a b) m) eqn:E1, (Rneb (topo a b) nodata) eqn:E2;
    simpl; rbool; split; intros; try lra; contradiction.
Qed.

(** No neighbor with data is below the cell: the minimum is the cell. *)
Lemma neighborhood_min_self (topo : matrix) (i j : Z) :
  interior i j -> topo i j <> nodata ->
  (forall a b, In (a, b) (neighbors8 i j) ->
               topo a b = nodata \/ (topo i j <= topo a b)%R) ->
  neighborhood_min nb nodata min_junk topo i j = topo i j.
Proof.
  intros Hint Hvalid Hnb.
  destruct (interior_neighbors i j Hint) as (Hu & Hd & Hv & Hw).
  unfold neighborhood_min; rewrite Hu, Hd, Hv, Hw.
  apply Rneb_true in Hvalid; rewrite Hvalid; cbv zeta.
  repeat rewrite (lower_min_keep _ _ _ (topo i j)) by (apply Hnb; simpl; tauto).
  reflexivity.
Qed.

(** The minimum is below every neighbor with data. *)
Lemma neighborhood_min_le (topo : matrix) (i j a b : Z) :
  interior i j -> In (a, b) (neighbors8 i j) -> topo a b <> nodata ->
  (neighborhood_min nb nodata min_junk topo i j <= topo a b)%R.
Proof.
  intros Hint Hin Hab.
  destruct (interior_neighbors i j Hint) as (Hu & Hd & Hv & Hw).
  unfold neighborhood_min; rewrite Hu, Hd, Hv, Hw.
  set (m0 := if Rneb (topo i j) nodata then topo i j else min_junk).
  cbv zeta.
  set (m1 := lower_min nodata topo (i + 1) j m0).
  set (m2 := lower_min nodata topo (i - 1) j m1).
  set (m3 := lower_min nodata topo i (j + 1) m2).
  set (m4 := lower_min nodata topo i (j - 1) m3).
  set (m5 := lower_min nodata topo (i + 1) (j + 1) m4).
  set (m6 := lower_min nodata topo (i - 1) (j + 1) m5).
  set (m7 := lower_min nodata topo (i - 1) (j - 1) m6).
  set (m8 := lower_min nodata topo (i + 1) (j - 1) m7).
  pose proof (lower_min_le topo (i + 1) j m0) as [L1 V1].
  pose proof (lower_min_le topo (i - 1) j m1) as [L2 V2].
  pose proof (lower_min_le topo i (j + 1) m2) as [L3 V3].
  pose proof (lower_min_le topo i (j - 1) m3) as [L4 V4].
  pose proof (lower_min_le topo (i + 1) (j + 1) m4) as [L5 V5].
  pose proof (lower_min_le topo (i - 1) (j + 1) m5) as [L6 V6].
  pose proof (lower_min_le topo (i - 1) (j - 1) m6) as [L7 V7].
  pose proof (lower_min_le topo (i + 1) (j - 1) m7) as [L8 V8].
  fold m1 in L1, V1. fold m2 in L2, V2. fold m3 in L3, V3. fold m4 in L4, V4.
  fold m5 in L5, V5. fold m6 in L6, V6. fold m7 in L7, V7. fold m8 in L8, V8.
  simpl in Hin.
  destruct Hin as [E|[E|[E|[E|[E|[E|[E|[E|[]]]]]]]]];
    injection E as <- <-;
    [ specialize (V1 Hab) | specialize (V2 Hab) | specialize (V3 Hab)
    | specialize (V4 Hab) | specialize (V5 Hab) | specialize (V6 Hab)
    | specialize (V7 Hab) | specialize (V8 Hab) ]; lra.
Qed.

(** A cell is raised exactly when it is interior, holds data and no
    neighbor with data is strictly below it. *)
Lemma is_pit_iff (topo : matrix) (i j : Z) :
  is_pit nb nx ny nodata min_junk topo i j = true
  <-> interior i j /\ topo i j <> nodata
      /\ forall a b, In (a, b) (neighbors8 i j) -> topo a b <> nodata ->
                     (topo i j <= topo a b)%R.
Proof.
  split.
  - intros H; apply is_pit_true in H as (Hint & Hvalid & Hle).
    repeat split; auto; try apply Hint.
    intros a b Hin Hab.
    pose proof (neighborhood_min_le topo i j a b Hint Hin Hab); lra.
  - intros (Hint & Hvalid & Hnb).
    assert (Hmin : neighborhood_min nb nodata min_junk topo i j = topo i j).
    { apply neighborhood_min_self; auto.
      intros a b Hin.
      destruct (Req_dec_T (topo a b) nodata); [left|right]; auto. }
    unfold is_pit; rewrite Hmin; destruct Hint as [Hi Hj].
    rewrite !andb_true_iff, !Z.ltb_lt; repeat split; rbool; auto; lra || lia.
Qed.

(** The raise is by [fillincrement] exactly: the cell is the minimum. *)
Lemma raise_amount (topo : matrix) (i j : Z) :
  is_pit nb nx ny nodata min_junk topo i j = true ->
  (neighborhood_min nb nodata min_junk topo i j + fillincrement
   = topo i j + fillincrement)%R.
Proof.
  intros H; apply is_pit_iff in H as (Hint & Hvalid & Hnb).
  rewrite neighborhood_min_self; auto.
  intros a b Hin.
  destruct (Req_dec_T (topo a b) nodata); [left|right]; auto.
Qed.

Lemma fill_not_pit (fuel : nat) (topo : matrix) (i j : Z) :
  is_pit nb nx ny nodata min_junk topo i j = false ->
  fillinpitsandflats nb nx ny nodata min_junk (S fuel) topo i j = Some topo.
Proof. intros H; simpl; now rewrite H. Qed.

(** One raise is enough when it leaves no cell to raise. *)
Lemma fill_one_raise (fuel : nat) (topo : matrix) (i j : Z) :
  is_pit nb nx ny nodata min_junk topo i j = true ->
  (forall a b,
      is_pit nb nx ny nodata min_junk
        (mset topo i j (topo i j + fillincrement)) a b = false) ->
  fillinpitsandflats nb nx ny nodata min_junk (S (S fuel)) topo i j
  = Some (mset topo i j (topo i j + fillincrement)%R).
Proof.
  intros Hpit Hafter.
  change (fillinpitsandflats nb nx ny nodata min_junk (S (S fuel)) topo i j)
    with (let min := neighborhood_min nb nodata min_junk topo i j in
      if is_pit nb nx ny nodata min_junk topo i j then
        let topo := mset topo i j (min + fillincrement)%R in
        bind (fillinpitsandflats nb nx ny nodata min_junk (S fuel) topo i j) (fun topo =>
        bind (fillinpitsandflats nb nx ny nodata min_junk (S fuel) topo (iup nb i) j) (fun topo =>
        bind (fillinpitsandflats nb nx ny nodata min_junk (S fuel) topo (idown nb i) j) (fun topo =>
        bind (fillinpitsandflats nb nx ny nodata min_junk (S fuel) topo i (jup nb j)) (fun topo =>
        bind (fillinpitsandflats nb nx ny nodata min_junk (S fuel) topo i (jdown nb j)) (fun topo =>
        bind (fillinpitsandflats nb nx ny nodata min_junk (S fuel) topo (iup nb i) (jup nb j)) (fun topo =>
        bind (fillinpitsandflats nb nx ny nodata min_junk (S fuel) topo (idown nb i) (jup nb j)) (fun topo =>
        bind (fillinpitsandflats nb nx ny nodata min_junk (S fuel) topo (idown nb i) (jdown nb j)) (fun topo =>
        fillinpitsandflats nb nx ny nodata min_junk (S fuel) topo (iup nb i) (jdown nb j)))))))))
      else Some topo).
  cbv zeta; rewrite Hpit, (raise_amount topo i j Hpit).
  repeat (rewrite fill_not_pit by apply Hafter; cbn [bind]).
  reflexivity.
Qed.

(** *** A cell that no raise can free *)

(** An interior cell above [nodata] whose eight neighbors are all nodata
    is raised at every call: the call on it exceeds any depth of the
    stack. *)
Lemma fill_isolated_diverges :
  forall (fuel : nat) (topo : matrix) (i j : Z),
    interior i j ->
    (nodata < topo i j)%R ->
    (forall a b, In (a, b) (neighbors8 i j) -> topo a b = nodata) ->
    fillinpitsandflats nb nx ny nodata min_junk fuel topo i j = None.
Proof.
  induction fuel as [|fuel IH]; intros topo i j Hint Hgt Hnb; [reflexivity|].
  assert (Hpit : is_pit nb nx ny nodata min_junk topo i j = true).
  { apply is_pit_iff; repeat split; try apply Hint; try lra.
    intros a b Hin Hab; apply Hnb in Hin; contradiction. }
  simpl; rewrite Hpit, (raise_amount topo i j Hpit).
  rewrite IH; [reflexivity | exact Hint | |].
  - rewrite mset_same; unfold fillincrement; lra.
  - intros a b Hin; rewrite mset_other; [now apply Hnb|].
    simpl in Hin.
    destruct Hin as [E|[E|[E|[E|[E|[E|[E|[E|[]]]]]]]]];
      injection E as <- <-; lia.
Qed.

End FillProperties.

(** The fuel bounds the depth only: a call that returns with some fuel
    returns the same lattice with more. *)
Lemma fill_fuel_more (nb : neighbors) (nx ny : Z) (nodata min_junk : R) :
  forall (fuel : nat) (topo : matrix) (i j : Z) (topo' : matrix),
    fillinpitsandflats nb nx ny nodata min_junk fuel topo i j = Some topo' ->
    fillinpitsandflats nb nx ny nodata min_junk (S fuel) topo i j = Some topo'.
Proof.
  induction fuel as [|fuel IH]; intros topo i j topo' Hrun; [discriminate|].
  remember (S fuel) as fuel1 eqn:Efuel.
  cbn [fillinpitsandflats]; rewrite Efuel in Hrun; cbn [fillinpitsandflats] in Hrun.
  cbv zeta in *.
  destruct (is_pit nb nx ny nodata min_junk topo i j); [|exact Hrun].
  repeat match type of Hrun with
    | bind (fillinpitsandflats _ _ _ _ _ fuel ?t ?a ?b) _ = Some _ =>
        let E := fresh "E" in
        destruct (fillinpitsandflats nb nx ny nodata min_junk fuel t a b)
          as [?|] eqn:E; [|discriminate];
        apply IH in E; rewrite E;
        cbn [bind] in Hrun |- *
    end.
  apply IH in Hrun; exact Hrun.
Qed.

(** *** Lattices of three columns and three rows *)

(** The only interior cell is (2, 2): the pass comes down to the call on it. *)
Lemma fill_pass_3x3 (junk : ivector) (nodata min_junk : R) (fuel : nat)
      (topo : matrix) :
  fill_pass (setupgridneighbors junk 3 3) 3 3 nodata min_junk (S fuel) topo
  = fillinpitsandflats (setupgridneighbors junk 3 3) 3 3 nodata min_junk
      (S fuel) topo 2 2.
Proof.
  unfold fill_pass, for_loopM.
  change (Z.to_nat (3 - 1 + 1)) with 3%nat.
  cbn [for_upM].
  change (1 + 1 + 1) with 3; change (1 + 1) with 2.
  repeat (rewrite fill_not_pit by (apply is_pit_border; unfold interior; lia)).
  destruct (fillinpitsandflats _ _ _ _ _ _ topo _ _) as [t|] eqn:E; auto.
  repeat (rewrite fill_not_pit by (apply is_pit_border; unfold interior; lia)).
  reflexivity.
Qed.

(** A pit of elevation 1 in the middle, its lowest neighbor at 1.005, the
    other cells at 2. *)
Definition pit_dem : matrix :=
  fun i j =>
    if (i =? 2) && (j =? 2) then 1%R
    else if (i =? 1) && (j =? 1) then 1.005%R
    else 2%R.

(** The pass raises the pit once, to 1.01. *)
Lemma pit_dem_pass :
  fill_pass (setupgridneighbors (fun _ => 0) 3 3) 3 3 (-9999) 0 2 pit_dem
  = Some (mset pit_dem 2 2 (pit_dem 2%Z 2%Z + fillincrement)%R).
Proof.
  rewrite fill_pass_3x3.
  apply fill_one_raise.
  - apply is_pit_iff; unfold interior; repeat split; try lia.
    + unfold pit_dem; simpl; lra.
    + intros a b Hin _; simpl in Hin.
      destruct Hin as [E|[E|[E|[E|[E|[E|[E|[E|[]]]]]]]]];
        injection E as <- <-; unfold pit_dem; simpl; lra.
  - intros a b.
    destruct (is_pit _ _ _ _ _ _ a b) eqn:E; auto.
    apply is_pit_iff in E as ([Ha Hb] & _ & Hnb).
    assert (a = 2) by lia; assert (b = 2) by lia; subst.
    specialize (Hnb 1 1); unfold pit_dem, mset, fillincrement in Hnb; simpl in Hnb.
    assert (Hv : (1.005 <> -9999)%R) by lra.
    specialize (Hnb ltac:(tauto) Hv); lra.
Qed.

(** A cell of elevation 5 whose eight neighbors, the whole outer ring, are
    nodata (-9999). *)
Definition isolated_dem : matrix :=
  fun i j => if (i =? 2) && (j =? 2) then 5%R else (-9999)%R.

(** C8.  The claim is that the recursion of [fillinpitsandflats] terminates
    on every finite lattice.  It does not: on the lattice of three by three
    cells whose middle cell holds 5 and whose other cells are nodata, the
    call on the middle cell, and with it the pass over the lattice, exceeds
    every depth of the stack; each level raises the cell by 0.01 and calls
    itself on the same cell, which no neighbor with data can ever bound. *)
Theorem fill_isolated_cell_never_returns (junk : ivector) (min_junk : R)
        (fuel : nat) :
  fillinpitsandflats (setupgridneighbors junk 3 3) 3 3 (-9999) min_junk
    fuel isolated_dem 2 2 = None
  /\ fill_pass (setupgridneighbors junk 3 3) 3 3 (-9999) min_junk
       fuel isolated_dem = None.
Proof.
  assert (H : forall fuel,
             fillinpitsandflats (setupgridneighbors junk 3 3) 3 3 (-9999)
               min_junk fuel isolated_dem 2 2 = None).
  { intros f; apply fill_isolated_diverges.
    - unfold interior; lia.
    - unfold isolated_dem; simpl; lra.
    - intros a b Hin; simpl in Hin.
      destruct Hin as [E|[E|[E|[E|[E|[E|[E|[E|[]]]]]]]]];
        injection E as <- <-; reflexivity. }
  split; [apply H|].
  destruct fuel as [|fuel]; [reflexivity|].
  rewrite fill_pass_3x3; apply H.
Qed.

(** ** Multiple-flow-direction routing *)

(** The eight directions, numbered as the arrays [flow1] .. [flow8]. *)
Inductive direction : Type := D1 | D2 | D3 | D4 | D5 | D6 | D7 | D8.

Definition sum8 (f : direction -> R) : R :=
  (f D1 + f D2 + f D3 + f D4 + f D5 + f D6 + f D7 + f D8)%R.

Definition diagonal (d : direction) : bool :=
  match d with
  | D1 | D2 | D3 | D4 => false
  | D5 | D6 | D7 | D8 => true
  end.

(** The array that holds the fraction of a direction. *)
Definition fraction (st : flows) (d : direction) : matrix :=
  match d with
  | D1 => flow1 st | D2 => flow2 st | D3 => flow3 st | D4 => flow4 st
  | D5 => flow5 st | D6 => flow6 st | D7 => flow7 st | D8 => flow8 st
  end.

(** The distance to a neighbor in units of one cell, as the router takes
    it: [x * oneoversqrt2] is [x / (1 / oneoversqrt2)]. *)
Definition unit_distance (d : direction) : R :=
  if diagonal d then (/ oneoversqrt2)%R else 1%R.

Section MFDProperties.

Variable nb : neighbors.
Variable topo : matrix.
Variable nodata : R.

(** The neighbor that receives the fraction of a direction. *)
Definition target (i j : Z) (d : direction) : Z * Z :=
  match d with
  | D1 => (iup nb i, j)
  | D2 => (idown nb i, j)
  | D3 => (i, jup nb j)
  | D4 => (i, jdown nb j)
  | D5 => (iup nb i, jup nb j)
  | D6 => (iup nb i, jdown nb j)
  | D7 => (idown nb i, jup nb j)
  | D8 => (idown nb i, jdown nb j)
  end.

Definition lower_target (i j : Z) (d : direction) : bool :=
  downhill topo nodata i j (fst (target i j d)) (snd (target i j d)).

(** The slope proxy of a direction: [(drop / distance) ^ 1.1] towards a
    strictly lower neighbor with data, 0 otherwise. *)
Definition slope_proxy (i j : Z) (d : direction) : R :=
  if lower_target i j d
  then cpow ((topo i j - topo (fst (target i j d)) (snd (target i j d)))
             / unit_distance d) 1.1
  else 0%R.

Lemma oneoversqrt2_pos : (0 < oneoversqrt2)%R.
Proof. unfold oneoversqrt2; lra. Qed.

Lemma cpow_pos (x y : R) : (0 < cpow x y)%R.
Proof. unfold cpow, Rpower; apply exp_pos. Qed.

Lemma slope_proxy_nonneg (i j : Z) (d : direction) : (0 <= slope_proxy i j d)%R.
Proof.
  unfold slope_proxy; destruct (lower_target i j d); [|lra].
  apply Rlt_le, cpow_pos.
Qed.

Lemma slope_proxy_pos (i j : Z) (d : direction) :
  lower_target i j d = true -> (0 < slope_proxy i j d)%R.
Proof. unfold slope_proxy; intros ->; apply cpow_pos. Qed.

Lemma if_add (c : bool) (t x : R) :
  (if c then (t + x)%R else t) = (t + (if c then x else 0))%R.
Proof. destruct c; lra. Qed.

Lemma diagonal_term_proxy (i j a b : Z) :
  diagonal_term topo i j a b
  = cpow ((topo i j - topo a b) / (/ oneoversqrt2)) 1.1.
Proof.
  unfold diagonal_term; f_equal.
  pose proof oneoversqrt2_pos; field; lra.
Qed.

Lemma straight_term_proxy (i j a b : Z) :
  straight_term topo i j a b = cpow ((topo i j - topo a b) / 1) 1.1.
Proof. unfold straight_term; f_equal; field. Qed.

(** [tot] is the sum of the eight proxies. *)
Lemma mfd_tot_sum (i j : Z) :
  mfd_tot nb topo nodata i j = sum8 (slope_proxy i j).
Proof.
  unfold mfd_tot; cbv zeta; rewrite !if_add.
  unfold sum8, slope_proxy, lower_target, unit_distance; cbn [target fst snd diagonal].
  rewrite !diagonal_term_proxy, !straight_term_proxy; ring.
Qed.

Lemma sum8_pos (i j : Z) (d : direction) :
  lower_target i j d = true -> (0 < sum8 (slope_proxy i j))%R.
Proof.
  intros H; apply slope_proxy_pos in H.
  pose proof (slope_proxy_nonneg i j D1). pose proof (slope_proxy_nonneg i j D2).
  pose proof (slope_proxy_nonneg i j D3). pose proof (slope_proxy_nonneg i j D4).
  pose proof (slope_proxy_nonneg i j D5). pose proof (slope_proxy_nonneg i j D6).
  pose proof (slope_proxy_nonneg i j D7). pose proof (slope_proxy_nonneg i j D8).
  unfold sum8; destruct d; lra.
Qed.

(** The fraction that a visit writes for a direction. *)
Lemma mfd_fraction_value (st : flows) (i j : Z) (d : direction) :
  fraction (mfdflowroute nb topo nodata st i j) d i j
  = if Reqb (topo i j) nodata then 0%R
    else if lower_target i j d
         then (slope_proxy i j d / sum8 (slope_proxy i j))%R
         else 0%R.
Proof.
  unfold mfdflowroute; rewrite mfd_tot_sum.
  destruct (Reqb (topo i j) nodata);
    destruct d; cbn [fraction flow flow1 flow2 flow3 flow4 flow5 flow6 flow7 flow8];
    rewrite mset_same; try reflexivity;
    unfold slope_proxy, lower_target, unit_distance; cbn [target fst snd diagonal];
    destruct (downhill _ _ _ _ _ _); try reflexivity;
    rewrite ?diagonal_term_proxy, ?straight_term_proxy; reflexivity.
Qed.


(** The fractions of a cell with data and a lower neighbor sum to 1. *)
Lemma mfd_fractions_sum (st : flows) (i j : Z) (d : direction) :
  topo i j <> nodata -> lower_target i j d = true ->
  sum8 (fun d' => fraction (mfdflowroute nb topo nodata st i j) d' i j) = 1%R.
Proof.
  intros Hvalid Hd.
  pose proof (sum8_pos i j d Hd) as Hpos.
  apply Reqb_false in Hvalid.
  unfold sum8 at 1; rewrite !mfd_fraction_value, Hvalid.
  assert (E : forall d', (if lower_target i j d'
                          then (slope_proxy i j d' / sum8 (slope_proxy i j))%R
                          else 0%R)
                         = (slope_proxy i j d' / sum8 (slope_proxy i j))%R).
  { intros d'; destruct (lower_target i j d') eqn:E'; [reflexivity|].
    unfold slope_proxy at 1; rewrite E'; field; lra. }
  rewrite !E.
  revert Hpos; unfold sum8; intros Hpos; field; lra.
Qed.

(** Without a lower neighbor, or without data, every fraction is 0. *)
Lemma mfd_fractions_zero (st : flows) (i j : Z) :
  topo i j = nodata \/ (forall d, lower_target i j d = false) ->
  forall d, fraction (mfdflowroute nb topo nodata st i j) d i j = 0%R.
Proof.
  intros H d; rewrite mfd_fraction_value.
  destruct H as [H | H].
  - apply Reqb_true in H; now rewrite H.
  - rewrite H; now destruct (Reqb (topo i j) nodata).
Qed.

End MFDProperties.

(** C1, as amended.  For a visited cell with data and each of its eight
    neighbors that is strictly lower and holds data, the fraction written
    for that neighbor is its slope proxy divided by the sum of the eight
    proxies, the proxy being [(elevation_drop / distance) ^ 1.1] with the
    distance counted in cells: 1 for the four axis-aligned neighbors and
    [1 / 0.707106781187] for the four diagonal ones, whatever [deltax] and
    [deltay] are; a neighbor that is not strictly lower or holds no data has
    proxy 0 and fraction 0. *)
Theorem mfd_fraction_unit_distance (nb : neighbors) (topo : matrix) (nodata : R)
        (st : flows) (i j : Z) (d : direction) :
  topo i j <> nodata ->
  let a := fst (target nb i j d) in
  let b := snd (target nb i j d) in
  let proxy := slope_proxy nb topo nodata i j in
  (downhill topo nodata i j a b = true ->
     proxy d = cpow ((topo i j - topo a b) / unit_distance d) 1.1
     /\ fraction (mfdflowroute nb topo nodata st i j) d i j
        = (proxy d / sum8 proxy)%R)
  /\ (downhill topo nodata i j a b = false ->
      proxy d = 0%R
      /\ fraction (mfdflowroute nb topo nodata st i j) d i j = 0%R)
  /\ unit_distance D1 = 1%R /\ unit_distance D2 = 1%R
  /\ unit_distance D3 = 1%R /\ unit_distance D4 = 1%R
  /\ unit_distance D5 = (1 / 0.707106781187)%R
  /\ unit_distance D6 = (1 / 0.707106781187)%R
  /\ unit_distance D7 = (1 / 0.707106781187)%R
  /\ unit_distance D8 = (1 / 0.707106781187)%R.
Proof.
  intros Hvalid a b proxy; apply Reqb_false in Hvalid.
  split; [|split].
  - intros Hd; subst proxy; split.
    + unfold slope_proxy, lower_target; fold a b; now rewrite Hd.
    + rewrite mfd_fraction_value, Hvalid.
      unfold lower_target; fold a b; now rewrite Hd.
  - intros Hd; subst proxy; split.
    + unfold slope_proxy, lower_target; fold a b; now rewrite Hd.
    + rewrite mfd_fraction_value, Hvalid.
      unfold lower_target; fold a b; now rewrite Hd.
  - unfold unit_distance, oneoversqrt2; cbn [diagonal].
    repeat split; lra.
Qed.

(** *** The proxy that the specification words describe *)

(** The metric distance to a neighbor: the cell size along the axis for the
    axis-aligned neighbors ([deltax] along [i], [deltay] along [j]), the
    Euclidean diagonal of a cell for the others. *)
Definition spec_distance (deltax deltay : R) (d : direction) : R :=
  match d with
  | D1 | D2 => deltax
  | D3 | D4 => deltay
  | D5 | D6 | D7 | D8 => sqrt (deltax * deltax + deltay * deltay)
  end.

Definition spec_proxy (deltax deltay : R) (nb : neighbors) (topo : matrix)
           (nodata : R) (i j : Z) (d : direction) : R :=
  if lower_target nb topo nodata i j d
  then cpow ((topo i j - topo (fst (target nb i j d)) (snd (target nb i j d)))
             / spec_distance deltax deltay d) 1.1
  else 0%R.

Definition spec_fraction (deltax deltay : R) (nb : neighbors) (topo : matrix)
           (nodata : R) (i j : Z) (d : direction) : R :=
  (spec_proxy deltax deltay nb topo nodata i j d
   / sum8 (spec_proxy deltax deltay nb topo nodata i j))%R.

(** A cell of elevation 2 with two lower neighbors of elevation 1, one along
    each axis; the other cells are level with it. *)
Definition slope_dem : matrix :=
  fun i j =>
    if ((i =? 3) && (j =? 2)) || ((i =? 2) && (j =? 3)) then 1%R else 2%R.

Definition no_flows : flows :=
  let z : matrix := fun _ _ => 0%R in mkFlows z z z z z z z z z.

Lemma slope_dem_lower (d : direction) :
  lower_target (setupgridneighbors (fun _ => 0) 3 3) slope_dem (-9999) 2 2 d
  = match d with D1 | D3 => true | _ => false end.
Proof.
  destruct (interior_neighbors (fun _ => 0) 3 3 2 2) as (Hu & Hd & Hv & Hw);
    [unfold interior; lia|].
  unfold lower_target, downhill; destruct d; cbn [target fst snd];
    rewrite ?Hu, ?Hd, ?Hv, ?Hw; unfold slope_dem; simpl;
    rewrite ?andb_true_iff, ?andb_false_iff; try split; rbool; try lra;
    left; rbool; lra.
Qed.

Lemma cpow_one (y : R) : cpow 1 y = 1%R.
Proof. unfold cpow, Rpower; now rewrite ln_1, Rmult_0_r, exp_0. Qed.

Lemma cpow_half_lt_1 : (cpow (1 / 2) 1.1 < 1)%R.
Proof.
  unfold cpow, Rpower.
  assert (H : (ln (1 / 2) < 0)%R).
  { rewrite <- ln_1; apply ln_increasing; lra. }
  apply Rlt_le_trans with (exp 0); [|rewrite exp_0; lra].
  apply exp_increasing.
  revert H; generalize (ln (1 / 2)); intros l H; lra.
Qed.

(** C1, refuted as stated.  On [slope_dem] the router gives the neighbor
    along [i] the fraction 1/2, the two drops being equal; with cells of 1 by
    2 meters the fraction of the proxy [(drop / metric distance) ^ 1.1] is
    another number, the neighbor along [j] being twice as far. *)
Lemma mfd_fraction_ignores_cell_size :
  let nb := setupgridneighbors (fun _ => 0) 3 3 in
  flow1 (mfdflowroute nb slope_dem (-9999) no_flows 2 2) 2 2 = (1 / 2)%R
  /\ spec_fraction 1 2 nb slope_dem (-9999) 2 2 D1 <> (1 / 2)%R.
Proof.
  intros nb.
  destruct (interior_neighbors (fun _ => 0) 3 3 2 2) as (Hu & Hd & Hv & Hw);
    [unfold interior; lia|]; fold nb in Hu, Hd, Hv, Hw.
  change (2 + 1) with 3 in Hu, Hv.
  assert (Hs : (slope_dem 2%Z 2%Z - slope_dem 3%Z 2%Z = 1)%R)
    by (unfold slope_dem; simpl; lra).
  assert (Ht : (slope_dem 2%Z 2%Z - slope_dem 2%Z 3%Z = 1)%R)
    by (unfold slope_dem; simpl; lra).
  split.
  - change (flow1 (mfdflowroute nb slope_dem (-9999) no_flows 2 2))
      with (fraction (mfdflowroute nb slope_dem (-9999) no_flows 2 2) D1).
    rewrite mfd_fraction_value.
    replace (Reqb (slope_dem 2 2) (-9999)) with false
      by (symmetry; rbool; unfold slope_dem; simpl; lra).
    unfold sum8, slope_proxy; subst nb; rewrite !slope_dem_lower.
    cbn [target fst snd unit_distance diagonal]; rewrite Hu, Hv, Hs, Ht.
    replace (1 / 1)%R with 1%R by field; rewrite cpow_one; field.
  - unfold spec_fraction, sum8, spec_proxy; subst nb; rewrite !slope_dem_lower.
    cbn [target fst snd spec_distance]; rewrite Hu, Hv, Hs, Ht.
    replace (1 / 1)%R with 1%R by field; rewrite cpow_one.
    pose proof cpow_half_lt_1 as Hlt; pose proof (cpow_pos (1 / 2) 1.1) as Hpos.
    revert Hlt Hpos; generalize (cpow (1 / 2) 1.1); intros p Hlt Hpos H.
    assert (E : (1 = (1 + 0 + p + 0 + 0 + 0 + 0 + 0) * (1 / 2))%R).
    { rewrite <- H; field; lra. }
    lra.
Qed.

Lemma mfd_fraction_unit_distance_witness :
  let nb := setupgridneighbors (fun _ => 0) 3 3 in
  let proxy := slope_proxy nb slope_dem (-9999) 2 2 in
  proxy D1 = cpow ((slope_dem 2%Z 2%Z - slope_dem (iup nb 2) 2%Z) / unit_distance D1) 1.1
  /\ fraction (mfdflowroute nb slope_dem (-9999) no_flows 2 2) D1 2 2
     = (proxy D1 / sum8 proxy)%R.
Proof.
  intros nb proxy.
  assert (Hvalid : slope_dem 2 2 <> (-9999)%R) by (unfold slope_dem; simpl; lra).
  destruct (mfd_fraction_unit_distance nb slope_dem (-9999) no_flows 2 2 D1 Hvalid)
    as [H _].
  apply H; exact (slope_dem_lower D1).
Defined.

(** ** Flow over the whole lattice *)

(** [f 1 + ... + f n] *)
Fixpoint sum_upto (n : nat) (f : Z -> R) : R :=
  match n with
  | O => 0%R
  | S n' => (sum_upto n' f + f (Z.of_nat n))%R
  end.

(** The sum of a field over the cells of the lattice. *)
Definition grid_total (nx ny : Z) (m : matrix) : R :=
  sum_upto (Z.to_nat nx) (fun i => sum_upto (Z.to_nat ny) (fun j => m i j)).

Lemma sum_upto_ext (n : nat) (f g : Z -> R) :
  (forall k, 1 <= k <= Z.of_nat n -> f k = g k) ->
  sum_upto n f = sum_upto n g.
Proof.
  induction n as [|n IH]; intros H; [reflexivity|].
  cbn [sum_upto]; rewrite IH, H; auto; [lia | intros; apply H; lia].
Qed.

Lemma sum_upto_point (n : nat) (f g : Z -> R) (a : Z) (v : R) :
  1 <= a <= Z.of_nat n ->
  (forall k, k <> a -> g k = f k) ->
  g a = (f a + v)%R ->
  sum_upto n g = (sum_upto n f + v)%R.
Proof.
  induction n as [|n IH]; intros Ha Hother Hat; [lia|].
  cbn [sum_upto].
  destruct (Z.eq_dec a (Z.of_nat (S n))) as [E|E].
  - rewrite <- E, Hat.
    rewrite (sum_upto_ext n g f); [lra|].
    intros k Hk; apply Hother; lia.
  - rewrite IH by (auto; lia).
    rewrite Hother by lia; lra.
Qed.

Lemma grid_total_madd (nx ny : Z) (m : matrix) (a b : Z) (v : R) :
  1 <= a <= nx -> 1 <= b <= ny ->
  grid_total nx ny (madd m a b v) = (grid_total nx ny m + v)%R.
Proof.
  intros Ha Hb; unfold grid_total.
  apply sum_upto_point with (a := a); [lia | |].
  - intros k Hk; apply sum_upto_ext; intros l _.
    unfold madd; apply mset_other; auto.
  - apply sum_upto_point with (a := b); [lia | |].
    + intros l Hl; unfold madd; apply mset_other; auto.
    + unfold madd; apply mset_same.
Qed.

Lemma grid_total_ext (nx ny : Z) (m1 m2 : matrix) :
  (forall i j, 1 <= i <= nx -> 1 <= j <= ny -> m1 i j = m2 i j) ->
  grid_total nx ny m1 = grid_total nx ny m2.
Proof.
  intros H; unfold grid_total.
  apply sum_upto_ext; intros i Hi; apply sum_upto_ext; intros j Hj.
  apply H; lia.
Qed.

(** One line [flow[a][b] += flow[i][j] * f;] of [mfdflowroute]. *)
Definition pour (i j : Z) (fl : matrix) (ab : Z * Z) (f : R) : matrix :=
  madd fl (fst ab) (snd ab) (fl i j * f)%R.

Lemma pour_step (nx ny i j : Z) (fl : matrix) (ab : Z * Z) (f F : R) :
  fl i j = F ->
  (ab = (i, j) -> f = 0%R) ->
  1 <= fst ab <= nx -> 1 <= snd ab <= ny ->
  pour i j fl ab f i j = F
  /\ grid_total nx ny (pour i j fl ab f) = (grid_total nx ny fl + F * f)%R.
Proof.
  intros HF Hself Ha Hb; destruct ab as [a b]; simpl in *.
  unfold pour; cbn [fst snd]; split.
  - destruct (Z.eq_dec a i) as [->|], (Z.eq_dec b j) as [->|];
      try (unfold madd; rewrite mset_other by auto; exact HF).
    unfold madd; rewrite mset_same, (Hself eq_refl), HF; lra.
  - rewrite grid_total_madd, HF by auto; reflexivity.
Qed.

Lemma pour_zero (i j : Z) (fl : matrix) (ab : Z * Z) (a b : Z) :
  pour i j fl ab 0 a b = fl a b.
Proof.
  unfold pour, madd, mset.
  destruct ((a =? fst ab) && (b =? snd ab)) eqn:E; [|reflexivity].
  apply andb_true_iff in E as [Ea Eb].
  apply Z.eqb_eq in Ea, Eb; subst; lra.
Qed.

Section Routing.

Variable junk : ivector.
Variables nx ny : Z.
Variable topo : matrix.
Variable nodata : R.

Let nb := setupgridneighbors junk nx ny.

(** The tables stay in the lattice. *)
Lemma clamped_in_lattice (i j : Z) (d : direction) :
  1 <= i <= nx -> 1 <= j <= ny ->
  1 <= fst (target nb i j d) <= nx /\ 1 <= snd (target nb i j d) <= ny.
Proof.
  intros Hi Hj; subst nb.
  destruct d; cbn [target fst snd];
    rewrite ?iup_spec, ?idown_spec, ?jup_spec, ?jdown_spec by lia;
    repeat match goal with
      | |- context [?x =? ?y] => destruct (Z.eqb_spec x y)
      | |- context [?x <=? ?y] => destruct (Z.leb_spec x y)
      end; simpl; lia.
Qed.

Lemma lower_target_self (i j : Z) (d : direction) :
  target nb i j d = (i, j) -> lower_target nb topo nodata i j d = false.
Proof.
  intros E; unfold lower_target, downhill; rewrite E; cbn [fst snd].
  apply andb_false_iff; left; rbool; lra.
Qed.

Lemma fraction_self (st : flows) (i j : Z) (d : direction) :
  target nb i j d = (i, j) ->
  fraction (mfdflowroute nb topo nodata st i j) d i j = 0%R.
Proof.
  intros E; rewrite mfd_fraction_value, lower_target_self by exact E.
  now destruct (Reqb (topo i j) nodata).
Qed.

(** The eight updates of [flow], one after the other. *)
Lemma mfd_flow_chain (st : flows) (i j : Z) :
  let st' := mfdflowroute nb topo nodata st i j in
  flow st'
  = pour i j (pour i j (pour i j (pour i j (pour i j (pour i j (pour i j
      (pour i j (flow st)
         (target nb i j D1) (fraction st' D1 i j))
         (target nb i j D2) (fraction st' D2 i j))
         (target nb i j D3) (fraction st' D3 i j))
         (target nb i j D4) (fraction st' D4 i j))
         (target nb i j D5) (fraction st' D5 i j))
         (target nb i j D6) (fraction st' D6 i j))
         (target nb i j D7) (fraction st' D7 i j))
         (target nb i j D8) (fraction st' D8 i j).
Proof.
  intros st'; subst st'; unfold mfdflowroute.
  destruct (Reqb (topo i j) nodata); reflexivity.
Qed.

(** A visit adds to the lattice what the fractions of the visited cell
    hand on, and leaves the flow of the visited cell as it is. *)
Lemma mfd_visit_total (st : flows) (i j : Z) :
  1 <= i <= nx -> 1 <= j <= ny ->
  let st' := mfdflowroute nb topo nodata st i j in
  flow st' i j = flow st i j
  /\ grid_total nx ny (flow st')
     = (grid_total nx ny (flow st)
        + flow st i j * sum8 (fun d => fraction st' d i j))%R.
Proof.
  intros Hi Hj st'.
  pose proof (mfd_flow_chain st i j) as Hc; cbv zeta in Hc; fold st' in Hc.
  rewrite Hc; clear Hc.
  set (F := flow st i j).
  assert (Hstep : forall fl d,
             fl i j = F ->
             pour i j fl (target nb i j d) (fraction st' d i j) i j = F
             /\ grid_total nx ny (pour i j fl (target nb i j d) (fraction st' d i j))
                = (grid_total nx ny fl + F * fraction st' d i j)%R).
  { intros fl d HF.
    destruct (clamped_in_lattice i j d Hi Hj) as [Ha Hb].
    apply pour_step; auto.
    intros E; apply fraction_self; exact E. }
  destruct (Hstep (flow st) D1 eq_refl) as [V1 T1].
  destruct (Hstep _ D2 V1) as [V2 T2]. destruct (Hstep _ D3 V2) as [V3 T3].
  destruct (Hstep _ D4 V3) as [V4 T4]. destruct (Hstep _ D5 V4) as [V5 T5].
  destruct (Hstep _ D6 V5) as [V6 T6]. destruct (Hstep _ D7 V6) as [V7 T7].
  destruct (Hstep _ D8 V7) as [V8 T8].
  split; [exact V8|].
  rewrite T8, T7, T6, T5, T4, T3, T2, T1; unfold sum8; ring.
Qed.

(** A visit whose fractions are all 0 changes no cell of [flow]. *)
Lemma mfd_visit_idle (st : flows) (i j : Z) :
  topo i j = nodata \/ (forall d, lower_target nb topo nodata i j d = false) ->
  forall a b, flow (mfdflowroute nb topo nodata st i j) a b = flow st a b.
Proof.
  intros H a b.
  pose proof (mfd_flow_chain st i j) as Hc; cbv zeta in Hc; rewrite Hc; clear Hc.
  rewrite !(mfd_fractions_zero nb topo nodata st i j H).
  now rewrite !pour_zero.
Qed.

End Routing.

(** C4, as amended.  Flow accumulates: a visit of [mfdflowroute] to a cell
    of the lattice with data and at least one strictly lower neighbor with
    data writes eight fractions that sum to 1, leaves the flow of the cell as
    it is and adds that flow, split by the fractions, to the neighbors, so
    that the total of [flow] over the lattice grows by exactly the flow of
    the visited cell; a visit to a cell without data or without such a
    neighbor changes no cell of [flow]; and every neighbor that a visit
    writes to is a cell of the lattice, an edge cell being its own neighbor
    across the edge. *)
Theorem mfd_visit_accumulates (junk : ivector) (nx ny : Z) (topo : matrix)
        (nodata : R) (st : flows) (i j : Z) :
  1 <= i <= nx -> 1 <= j <= ny ->
  let nb := setupgridneighbors junk nx ny in
  let st' := mfdflowroute nb topo nodata st i j in
  (topo i j <> nodata ->
   (exists d, lower_target nb topo nodata i j d = true) ->
   sum8 (fun d => fraction st' d i j) = 1%R
   /\ flow st' i j = flow st i j
   /\ grid_total nx ny (flow st') = (grid_total nx ny (flow st) + flow st i j)%R)
  /\ (topo i j = nodata \/ (forall d, lower_target nb topo nodata i j d = false) ->
      forall a b, flow st' a b = flow st a b)
  /\ (forall d, 1 <= fst (target nb i j d) <= nx
                /\ 1 <= snd (target nb i j d) <= ny).
Proof.
  intros Hi Hj nb st'; split; [|split].
  - intros Hvalid [d Hd].
    pose proof (mfd_fractions_sum nb topo nodata st i j d Hvalid Hd) as Hsum.
    destruct (mfd_visit_total junk nx ny topo nodata st i j Hi Hj) as [Hv Ht].
    fold nb in Hv, Ht; fold st' in Hsum, Hv, Ht.
    repeat split; auto.
    rewrite Ht, Hsum; ring.
  - apply mfd_visit_idle.
  - intros d; apply clamped_in_lattice; auto.
Qed.

Lemma mfd_visit_accumulates_witness :
  let nb := setupgridneighbors (fun _ => 0) 3 3 in
  let st' := mfdflowroute nb slope_dem (-9999) no_flows 2 2 in
  sum8 (fun d => fraction st' d 2 2) = 1%R
  /\ flow st' 2 2 = flow no_flows 2 2
  /\ grid_total 3 3 (flow st')
     = (grid_total 3 3 (flow no_flows) + flow no_flows 2%Z 2%Z)%R.
Proof.
  intros nb st'.
  destruct (mfd_visit_accumulates (fun _ => 0) 3 3 slope_dem (-9999) no_flows 2 2)
    as [H _]; [lia | lia |].
  apply H.
  - unfold slope_dem; simpl; lra.
  - exists D1; exact (slope_dem_lower D1).
Defined.

(** *** The sweep on a lattice of two cells *)

Lemma for_upM_idle {St : Type} (body : Z -> St -> option St) (s : St) :
  (forall i, body i s = Some s) ->
  forall (n : nat) (lo : Z), for_upM n lo body s = Some s.
Proof.
  intros H; induction n as [|n IH]; intros lo; simpl; [reflexivity|].
  now rewrite H, IH.
Qed.

(** Without an interior cell the pass changes nothing. *)
Lemma fill_pass_no_interior (nb : neighbors) (nx ny : Z) (nodata min_junk : R)
      (fuel : nat) (topo : matrix) :
  nx <= 2 \/ ny <= 2 ->
  fill_pass nb nx ny nodata min_junk (S fuel) topo = Some topo.
Proof.
  intros H; unfold fill_pass, for_loopM.
  apply for_upM_idle; intros j.
  apply for_upM_idle; intros i.
  simpl; unfold is_pit.
  destruct (Z.ltb_spec 1 i), (Z.ltb_spec 1 j), (Z.ltb_spec i nx),
    (Z.ltb_spec j ny); rewrite ?andb_false_r; try reflexivity; lia.
Qed.

(** What [fillin] starts from. *)
Lemma fillin_init_spec (dem : matrix) (nx ny : Z) (deltax deltay : R)
      (junk : matrix) (i j : Z) :
  1 <= i <= nx -> 1 <= j <= ny ->
  fst (fillin_init dem nx ny deltax deltay junk) i j = dem (j - 1) (i - 1)
  /\ snd (fillin_init dem nx ny deltax deltay junk) i j = (deltax * deltay)%R.
Proof.
  intros Hi Hj; unfold fillin_init.
  set (body := fun (j : Z) (i : Z) '(topo, flow) =>
     (mset topo i j (dem (j - 1) (i - 1)), mset flow i j (deltax * deltay)%R)).
  pose (P := fun (tf : matrix * matrix) (a b : Z) =>
     fst tf a b = dem (b - 1) (a - 1) /\ snd tf a b = (deltax * deltay)%R).
  pose (Row := fun (b : Z) (hi : Z) (tf : matrix * matrix) =>
     forall a' b', (1 <= b' < b /\ 1 <= a' <= nx) \/ (b' = b /\ 1 <= a' < hi) ->
                   P tf a' b').
  pose (Inv := fun (hi : Z) (tf : matrix * matrix) =>
     forall a' b', 1 <= b' < hi -> 1 <= a' <= nx -> P tf a' b').
  assert (H : Inv (Z.max 1 (ny + 1))
                (for_loop 1 ny (fun j tf => for_loop 1 nx (body j) tf) (junk, junk))).
  { apply for_loop_invariant.
    - intros a' b' Hb; lia.
    - intros b tf Hb Htf.
      assert (Hr : Row b (Z.max 1 (nx + 1)) (for_loop 1 nx (body b) tf)).
      { apply for_loop_invariant.
        - intros a' b' [[H1 H2] | [H1 H2]]; [apply Htf; lia | lia].
        - intros a [t f] Ha Hrow a' b' Hab; unfold body, P; cbn [fst snd].
          destruct (Z.eq_dec a' a) as [->|Ha'], (Z.eq_dec b' b) as [->|Hb'].
          + rewrite !mset_same; auto.
          + rewrite !mset_other by auto; apply Hrow; lia.
          + rewrite !mset_other by auto; apply Hrow; lia.
          + rewrite !mset_other by auto; apply Hrow; lia. }
      intros a' b' Hb' Ha'; apply Hr; lia. }
  apply H; lia.
Qed.

(** The sum of the cell area over the cells with data. *)
Definition active_area (nx ny : Z) (deltax deltay : R) (topo : matrix)
           (nodata : R) : R :=
  grid_total nx ny
    (fun i j => if Rneb (topo i j) nodata then (deltax * deltay)%R else 0%R).

(** One row of two cells, of elevations 2 and 1, each of 1 by 1 meter. *)
Definition ramp_dem : matrix := fun y x => if x =? 0 then 2%R else 1%R.

(** The ranks of the two elevations in ascending order: cell 2, cell 1. *)
Definition ramp_index : ivector := fun t => if t =? 1 then 2 else 1.

(** C4, refuted as stated.  On the lattice of two cells the sweep visits
    the higher cell, which hands its flow 1 on to the lower cell and keeps
    it, then the lower cell, which has nowhere to send its flow: the total
    of [flow] is 3, the area of the cells with data is 2. *)
Lemma flow_total_exceeds_active_area :
  exists topo st,
    fillin ramp_dem 2 1 1 1 (fun _ _ => ramp_index)
      (fun _ => 0) (fun _ => 0%R) (fun _ _ => 0%R) 0 1 (-9999)
    = Some (topo, st)
    /\ grid_total 2 1 (flow st) = 3%R
    /\ active_area 2 1 1 1 topo (-9999) = 2%R.
Proof.
  unfold fillin.
  pose proof (fillin_init_spec ramp_dem 2 1 1 1 (fun _ _ => 0%R) 1 1) as [T1 F1];
    try lia.
  pose proof (fillin_init_spec ramp_dem 2 1 1 1 (fun _ _ => 0%R) 2 1) as [T2 F2];
    try lia.
  destruct (fillin_init ramp_dem 2 1 1 1 (fun _ _ => 0%R)) as [topo fl0].
  cbn [fst snd] in T1, F1, T2, F2.
  unfold ramp_dem in T1, T2; simpl in T1, T2.
  rewrite fill_pass_no_interior by lia; cbn [bind].
  eexists; eexists; split; [reflexivity|].
  set (nb := setupgridneighbors (fun _ => 0) 2 1).
  assert (Hu1 : iup nb 1 = 2) by (subst nb; rewrite iup_spec by lia; reflexivity).
  assert (Hu2 : iup nb 2 = 2) by (subst nb; rewrite iup_spec by lia; reflexivity).
  assert (Hd2 : idown nb 2 = 1) by (subst nb; rewrite idown_spec by lia; reflexivity).
  assert (Hv : jup nb 1 = 1) by (subst nb; rewrite jup_spec by lia; reflexivity).
  assert (Hw : jdown nb 1 = 1) by (subst nb; rewrite jdown_spec by lia; reflexivity).
  split.
  - unfold routing_sweep.
    change (Z.to_nat (2 * 1)) with 2%nat; cbn [for_down].
    change (sweep_cell 2 ramp_index (Z.of_nat 2)) with (1, 2 - 1).
    change (sweep_cell 2 ramp_index (Z.of_nat 1)) with (2, 1).
    change (2 - 1) with 1.
    set (st0 := mkFlows fl0 _ _ _ _ _ _ _ _).
    set (st1 := mfdflowroute nb topo (-9999) st0 1 1).
    assert (Hidle : forall a b,
               flow (mfdflowroute nb topo (-9999) st1 2 1) a b = flow st1 a b).
    { apply (mfd_visit_idle (fun _ => 0) 2 1); right; intros d.
      unfold lower_target, downhill; fold nb.
      destruct d; cbn [target fst snd]; rewrite ?Hu2, ?Hd2, ?Hv, ?Hw, ?T1, ?T2;
        apply andb_false_iff; left; rbool; lra. }
    rewrite (grid_total_ext 2 1 _ (flow st1)) by (intros; apply Hidle).
    destruct (mfd_visit_total (fun _ => 0) 2 1 topo (-9999) st0 1 1) as [_ Ht];
      try lia.
    fold nb in Ht; fold st1 in Ht; rewrite Ht.
    assert (Hs : sum8 (fun d => fraction st1 d 1 1) = 1%R).
    { apply (mfd_fractions_sum nb topo (-9999) st0 1 1 D1).
      - rewrite T1; lra.
      - unfold lower_target, downhill; cbn [target fst snd].
        rewrite Hu1, T1, T2; apply andb_true_iff; split; rbool; lra. }
    rewrite Hs.
    unfold grid_total; change (Z.to_nat 2) with 2%nat;
      change (Z.to_nat 1) with 1%nat; cbn [sum_upto].
    change (Z.of_nat 1) with 1; change (Z.of_nat 2) with 2.
    subst st0; cbn [flow]; rewrite F1, F2; lra.
  - unfold active_area, grid_total; change (Z.to_nat 2) with 2%nat;
      change (Z.to_nat 1) with 1%nat; cbn [sum_upto].
    change (Z.of_nat 1) with 1; change (Z.of_nat 2) with 2.
    rewrite T1, T2.
    replace (Rneb 2 (-9999)) with true by (symmetry; rbool; lra).
    replace (Rneb 1 (-9999)) with true by (symmetry; rbool; lra).
    lra.
Qed.

(** ** Wetness index *)

Fixpoint Rsum (l : list R) : R :=
  match l with
  | [] => 0%R
  | x :: l' => (x + Rsum l')%R
  end.

(** Equality of two triples of accumulators, component by component. *)
Ltac triple_eq :=
  apply (f_equal2 pair); [apply (f_equal2 pair)|];
  try reflexivity; try (simpl; ring); try (simpl; lra); try (simpl; lia).

Section TopindexProperties.

Variables dem flowacc : matrix.
Variables columns rows : Z.
Variables deltax deltay : R.
Variable nodata : R.

(** The length of contour that a direction stands for, and the distance to
    the neighbor in that direction. *)
Definition contour_weight (n : nat) : R :=
  if Nat.even n then (0.2 * deltax + 0.2 * deltay)%R
  else if (n =? 1)%nat || (n =? 5)%nat then (0.6 * deltax)%R
  else (0.6 * deltay)%R.

Definition neighbor_distance (n : nat) : R :=
  if Nat.even n then length_diagonal deltax deltay
  else if (n =? 1)%nat || (n =? 5)%nat then deltay
  else deltax.

Definition neighbor_slope (x y : Z) (n : nat) : R :=
  ((dem y x - neighbor_elev dem columns rows nodata x y n)
   / neighbor_distance n)%R.

Let lower_nb := lower_neighbor dem columns rows nodata.
Let step := neighbor_step dem columns rows deltax deltay nodata.

Lemma neighbor_step_spec (x y : Z) (cl tb : R) (low : Z) (n : nat) :
  (n < 8)%nat ->
  step x y (cl, tb, low) n
  = if lower_nb x y n
    then ((cl + contour_weight n)%R,
          (tb + neighbor_slope x y n * contour_weight n)%R, low + 1)
    else (cl, tb, low).
Proof.
  intros Hn; unfold step, lower_nb, neighbor_step.
  destruct (lower_neighbor dem columns rows nodata x y n); [|reflexivity].
  unfold neighbor_slope, contour_weight, neighbor_distance.
  do 8 (destruct n as [|n]; [simpl; triple_eq|]).
  lia.
Qed.

(** The lower neighbors among the directions of a list. *)
Definition lower_among (x y : Z) (l : list nat) : list nat :=
  filter (lower_nb x y) l.

Lemma neighbor_fold_spec (x y : Z) (l : list nat) :
  Forall (fun n => (n < 8)%nat) l ->
  forall (cl tb : R) (low : Z),
    fold_left (step x y) l (cl, tb, low)
    = ((cl + Rsum (map contour_weight (lower_among x y l)))%R,
       (tb + Rsum (map (fun n => neighbor_slope x y n * contour_weight n)%R
                     (lower_among x y l)))%R,
       low + Z.of_nat (List.length (lower_among x y l))).
Proof.
  induction 1 as [|n l Hn Hl IH]; intros cl tb low.
  - simpl; triple_eq.
  - cbn [fold_left]; rewrite neighbor_step_spec by exact Hn.
    unfold lower_among in *; cbn [filter].
    destruct (lower_nb x y n); rewrite IH; [|reflexivity].
    cbn [map Rsum List.length]; triple_eq.
Qed.

Lemma seq8_bound : Forall (fun n => (n < 8)%nat) (seq 0 8).
Proof. repeat constructor. Qed.

(** The three accumulators when the eight neighbors are through. *)
Lemma neighbor_sums_spec (x y : Z) :
  neighbor_sums dem columns rows deltax deltay nodata x y
  = (Rsum (map contour_weight (lower_among x y (seq 0 8))),
     Rsum (map (fun n => neighbor_slope x y n * contour_weight n)%R
             (lower_among x y (seq 0 8))),
     Z.of_nat (List.length (lower_among x y (seq 0 8)))).
Proof.
  unfold neighbor_sums; fold step; rewrite neighbor_fold_spec by apply seq8_bound.
  triple_eq.
Qed.

Lemma lower_among_nil (x y : Z) :
  lower_among x y (seq 0 8) = []
  <-> forall n, (n < 8)%nat -> lower_nb x y n = false.
Proof.
  unfold lower_among; split.
  - intros H n Hn.
    destruct (lower_nb x y n) eqn:E; [|reflexivity].
    assert (Hin : In n (filter (lower_nb x y) (seq 0 8))).
    { apply filter_In; split; [apply in_seq; lia | exact E]. }
    rewrite H in Hin; destruct Hin.
  - intros H.
    destruct (filter (lower_nb x y) (seq 0 8)) as [|n l] eqn:E; [reflexivity|].
    assert (Hin : In n (filter (lower_nb x y) (seq 0 8))) by (rewrite E; left; auto).
    apply filter_In in Hin as [Hin Hn]; apply in_seq in Hin.
    rewrite H in Hn by lia; discriminate.
Qed.

Lemma contour_weight_pos (n : nat) :
  (0 < deltax)%R -> (0 < deltay)%R -> (0 < contour_weight n)%R.
Proof.
  intros Hx Hy; unfold contour_weight.
  destruct (Nat.even n), ((n =? 1)%nat || (n =? 5)%nat); lra.
Qed.

Lemma Rsum_weights_pos (l : list nat) :
  (0 < deltax)%R -> (0 < deltay)%R -> l <> [] ->
  (0 < Rsum (map contour_weight l))%R.
Proof.
  intros Hx Hy; induction l as [|n l IH]; intros Hne; [contradiction|].
  cbn [map Rsum].
  pose proof (contour_weight_pos n Hx Hy).
  destruct l as [|m l]; [simpl; lra|].
  assert (0 < Rsum (map contour_weight (m :: l)))%R by (apply IH; discriminate).
  lra.
Qed.

Lemma length_diagonal_pos :
  (0 < deltax)%R -> (0 < deltay)%R -> (0 < length_diagonal deltax deltay)%R.
Proof.
  intros Hx Hy; unfold length_diagonal; apply sqrt_lt_R0; nra.
Qed.

Lemma tanbeta_floor_pos :
  (0 < deltax)%R -> (0 < deltay)%R -> (0 < tanbeta_floor deltax deltay)%R.
Proof.
  intros Hx Hy; pose proof (length_diagonal_pos Hx Hy) as Hd.
  unfold tanbeta_floor, VERTRES, NNEIGHBORS.
  assert (0 < / length_diagonal deltax deltay)%R by (apply Rinv_0_lt_compat; lra).
  assert (0 < / deltax)%R by (apply Rinv_0_lt_compat; lra).
  assert (0 < / deltay)%R by (apply Rinv_0_lt_compat; lra).
  unfold Rdiv; nra.
Qed.

(** What [Topindex] leaves for a cell, by the number of lower neighbors. *)
Lemma topindex_cell_spec (x y : Z) :
  let c := topindex_cell dem flowacc columns rows deltax deltay nodata x y in
  let l := lower_among x y (seq 0 8) in
  let floor := tanbeta_floor deltax deltay in
  lower c = Z.of_nat (List.length l)
  /\ (l = [] ->
      tanbeta_pixel c = floor /\ contour_length c = (2 * deltax + 2 * deltay)%R)
  /\ (l <> [] ->
      tanbeta_pixel c
      = Rmax (Rsum (map (fun n => neighbor_slope x y n * contour_weight n)%R l)
              / Rsum (map contour_weight l)) floor
      /\ contour_length c
         = (Rsum (map contour_weight l) / IZR (Z.of_nat (List.length l)))%R).
Proof.
  intros c l floor; subst c; unfold topindex_cell.
  rewrite neighbor_sums_spec; fold l.
  destruct l as [|n l'] eqn:El.
  - cbn [List.length Z.of_nat Z.eqb lower tanbeta_pixel contour_length].
    split; [reflexivity|]; split; [intros _ | intros H; contradiction].
    split; [|reflexivity].
    fold floor; unfold Rltb; destruct (Rlt_dec floor floor); [lra | reflexivity].
  - replace (Z.of_nat (List.length (n :: l')) =? 0) with false
      by (symmetry; apply Z.eqb_neq; simpl List.length; lia).
    cbn [lower tanbeta_pixel contour_length].
    split; [reflexivity|]; split; [intros H; discriminate | intros _].
    split; [|reflexivity].
    fold floor; unfold Rltb, Rmax.
    destruct (Rlt_dec _ floor), (Rle_dec _ floor); try reflexivity; lra.
Qed.

End TopindexProperties.

(** C6.  For cells of a positive size, [0 < dx] and [0 < dy] (at a size
    of zero the floor is a quotient by zero), and for every cell that
    [Topindex] processes: the floor
    [(4*(0.5*VERTRES/length_diagonal) + 2*(0.5*VERTRES/dx) + 2*(0.5*VERTRES/dy))/8]
    is positive and the final [tanbeta_pixel] is at least the floor; it is
    the floor when no neighbor is lower with data; and when some neighbor
    is, it is the weighted mean slope towards the lower neighbors, raised to
    the floor if it is smaller. *)
Theorem tanbeta_pixel_floor (dem flowacc : matrix) (columns rows : Z)
        (dx dy nodata : R) (x y : Z) :
  (0 < dx)%R -> (0 < dy)%R ->
  let c := topindex_cell dem flowacc columns rows dx dy nodata x y in
  let floor :=
    ((4 * ((0.5 * VERTRES) / length_diagonal dx dy)
      + 2 * ((0.5 * VERTRES) / dx) + 2 * ((0.5 * VERTRES) / dy)) / 8)%R in
  let l := lower_among dem columns rows nodata x y (seq 0 8) in
  (0 < floor)%R
  /\ (floor <= tanbeta_pixel c)%R
  /\ ((forall n, (n < 8)%nat ->
                 lower_neighbor dem columns rows nodata x y n = false) ->
      lower c = 0 /\ tanbeta_pixel c = floor)
  /\ ((exists n, (n < 8)%nat
                 /\ lower_neighbor dem columns rows nodata x y n = true) ->
      lower c <> 0
      /\ tanbeta_pixel c
         = Rmax (Rsum (map (fun n => neighbor_slope dem columns rows dx dy nodata x y n
                                     * contour_weight dx dy n)%R l)
                 / Rsum (map (contour_weight dx dy) l)) floor).
Proof.
  intros Hdx Hdy c floor l.
  assert (Hfloor : floor = tanbeta_floor dx dy).
  { unfold floor, tanbeta_floor, NNEIGHBORS, VERTRES, Rdiv; lra. }
  rewrite Hfloor; clear Hfloor floor.
  destruct (topindex_cell_spec dem flowacc columns rows dx dy nodata x y)
    as (Hlow & Hnil & Hcons); fold c l in Hlow, Hnil, Hcons.
  split; [apply tanbeta_floor_pos; assumption|].
  split; [|split].
  - destruct l as [|n l'] eqn:El.
    + destruct (Hnil eq_refl) as [-> _]; lra.
    + destruct Hcons as [-> _]; [discriminate | apply Rmax_r].
  - intros H; apply lower_among_nil in H; fold l in H.
    destruct (Hnil H) as [Ht _]; split; [|exact Ht].
    rewrite Hlow, H; reflexivity.
  - intros (n & Hn & Hlower).
    assert (Hne : l <> []).
    { intros E; unfold l in E.
      rewrite (proj1 (lower_among_nil _ _ _ _ _ _) E) in Hlower by exact Hn.
      discriminate. }
    destruct (Hcons Hne) as [Ht _]; split; [|exact Ht].
    rewrite Hlow; destruct l; [contradiction | simpl; lia].
Qed.

(** A cell of elevation 10 whose neighbor in direction 1 has elevation 5,
    on a grid of three by three cells of elevation 10 otherwise. *)
Definition step_dem : matrix :=
  fun y x => if (x =? 1) && (y =? 2) then 5%R else 10%R.

Lemma step_dem_lower :
  lower_neighbor step_dem 3 3 (-9999) 1 1 1 = true.
Proof.
  assert (H1 : Rneb 5 (-9999) = true) by (rbool; lra).
  assert (H2 : Reqb 5 (-99) = false) by (rbool; lra).
  assert (H3 : Rltb 5 10 = true) by (rbool; lra).
  unfold lower_neighbor, neighbor_elev, step_dem, OUTSIDEBASIN; simpl.
  repeat (first [rewrite H1 | rewrite H2 | rewrite H3]; cbv iota).
  reflexivity.
Qed.

Lemma tanbeta_pixel_floor_witness :
  let c := topindex_cell step_dem (fun _ _ => 900%R) 3 3 30 30 (-9999) 1 1 in
  let floor :=
    ((4 * ((0.5 * VERTRES) / length_diagonal 30 30)
      + 2 * ((0.5 * VERTRES) / 30) + 2 * ((0.5 * VERTRES) / 30)) / 8)%R in
  let l := lower_among step_dem 3 3 (-9999) 1 1 (seq 0 8) in
  lower c <> 0
  /\ tanbeta_pixel c
     = Rmax (Rsum (map (fun n => neighbor_slope step_dem 3 3 30 30 (-9999) 1 1 n
                                 * contour_weight 30 30 n)%R l)
             / Rsum (map (contour_weight 30 30) l)) floor.
Proof.
  intros c floor l.
  destruct (tanbeta_pixel_floor step_dem (fun _ _ => 900%R) 3 3 30 30 (-9999) 1 1
              ltac:(lra) ltac:(lra))
    as (_ & _ & _ & H).
  apply H; exists 1%nat; split; [lia | exact step_dem_lower].
Defined.

(** C10, as amended.  The divisions of [mfdflowroute] and of the wetness
    index, in the first loop of [Topindex], have a divisor that is not
    zero; the division of the SEA profile in [VICcalculation] is not among
    them.  In [mfdflowroute] a fraction
    [pow(drop, 1.1) / tot] is formed only for a neighbor that is strictly
    lower with data, and then [tot] is strictly positive.  In [Topindex],
    with [deltax > 0] and [deltay > 0], [length_diagonal] and the floor are
    strictly positive, the sum of the contour weights and the count [lower]
    by which the else branch divides are not zero when a neighbor is lower,
    and [contour_length] and [tanbeta_pixel] are strictly positive for every
    cell, so that the divisor of the wetness index is not zero. *)
Theorem core_divisions_defined (nb : neighbors) (topo : matrix) (nodata_t : R)
        (i j : Z) (d : direction)
        (dem flowacc : matrix) (columns rows : Z) (dx dy nodata : R) (x y : Z) :
  (0 < dx)%R -> (0 < dy)%R ->
  let c := topindex_cell dem flowacc columns rows dx dy nodata x y in
  let l := lower_among dem columns rows nodata x y (seq 0 8) in
  (lower_target nb topo nodata_t i j d = true ->
   (0 < mfd_tot nb topo nodata_t i j)%R)
  /\ (0 < length_diagonal dx dy)%R
  /\ (0 < tanbeta_floor dx dy)%R
  /\ (lower c <> 0 ->
      (0 < Rsum (map (contour_weight dx dy) l))%R /\ IZR (lower c) <> 0%R)
  /\ (0 < contour_length c)%R
  /\ (0 < tanbeta_pixel c)%R
  /\ (contour_length c * tanbeta_pixel c <> 0)%R.
Proof.
  intros Hx Hy c l.
  pose proof (length_diagonal_pos dx dy Hx Hy) as Hd.
  pose proof (tanbeta_floor_pos dx dy Hx Hy) as Hf.
  destruct (topindex_cell_spec dem flowacc columns rows dx dy nodata x y)
    as (Hlow & Hnil & Hcons); fold c l in Hlow, Hnil, Hcons.
  assert (Hsum : l <> [] -> (0 < Rsum (map (contour_weight dx dy) l))%R)
    by (apply Rsum_weights_pos; auto).
  assert (Hcl : (0 < contour_length c)%R).
  { destruct l as [|n l'] eqn:El.
    - destruct (Hnil eq_refl) as [_ ->]; lra.
    - destruct Hcons as [_ ->]; [discriminate|].
      apply Rdiv_lt_0_compat; [apply Hsum; discriminate|].
      apply IZR_lt; simpl List.length; lia. }
  assert (Htb : (0 < tanbeta_pixel c)%R).
  { destruct l as [|n l'] eqn:El.
    - destruct (Hnil eq_refl) as [-> _]; exact Hf.
    - destruct Hcons as [-> _]; [discriminate|].
      eapply Rlt_le_trans; [exact Hf | apply Rmax_r]. }
  repeat split; auto.
  - intros Hlt; rewrite mfd_tot_sum; eapply sum8_pos; exact Hlt.
  - apply Hsum; intros E; rewrite E in Hlow; simpl in Hlow; contradiction.
  - intros E; apply eq_IZR_R0 in E; contradiction.
  - nra.
Qed.

Lemma core_divisions_defined_witness :
  let nb := setupgridneighbors (fun _ => 0) 3 3 in
  let c := topindex_cell step_dem (fun _ _ => 900%R) 3 3 30 30 (-9999) 1 1 in
  (0 < mfd_tot nb slope_dem (-9999) 2 2)%R
  /\ (0 < contour_length c)%R
  /\ (0 < tanbeta_pixel c)%R
  /\ (contour_length c * tanbeta_pixel c <> 0)%R.
Proof.
  intros nb c.
  destruct (core_divisions_defined nb slope_dem (-9999) 2 2 D1
              step_dem (fun _ _ => 900%R) 3 3 30 30 (-9999) 1 1)
    as (Ht & _ & _ & _ & Hc & Hp & Hcp); [lra | lra |].
  repeat split; auto.
  apply Ht; exact (slope_dem_lower D1).
Defined.

(** ** Lake/wetland profile *)

(** [ceil x] is the integer [k] with [k - 1 < x <= k]. *)
Lemma ceil_unique (x : R) (k : Z) :
  (IZR k - 1 < x <= IZR k)%R -> ceil x = k.
Proof.
  intros [Hlo Hhi]; unfold ceil.
  destruct (archimed (- x)) as [Hup1 Hup2].
  assert (H1 : (IZR (- k) < IZR (up (- x)))%R) by (rewrite opp_IZR; lra).
  assert (H2 : (IZR (up (- x)) < IZR (2 - k))%R) by (rewrite minus_IZR; lra).
  apply lt_IZR in H1, H2; lia.
Qed.

Lemma ceil_bounds (x : R) : (IZR (ceil x) - 1 < x <= IZR (ceil x))%R.
Proof.
  unfold ceil; destruct (archimed (- x)) as [Hup1 Hup2].
  rewrite minus_IZR; lra.
Qed.

Section VICProperties.

Variable VIC : matrix.
Variable n : Z.
Variables wetlandVeg waterVeg : R.
Variable totalVeg : Z.
Variables deltax deltay : R.
Variable option : string.
Variable ElevRange : R.

Let depth := LakeDepth waterVeg totalVeg deltax deltay.
Let nlake := LakeBins waterVeg.
Let nwet := WetBins wetlandVeg.

(** *** The lake *)

Lemma lake_parameters :
  (0 < waterVeg)%R ->
  nlake = 4
  /\ LakeArea waterVeg totalVeg deltax deltay
     = (waterVeg * IZR totalVeg * deltax * deltay / (1000 * 1000))%R
  /\ depth = (if Rltb (LakeArea waterVeg totalVeg deltax deltay) 40.9375
              then (7.04 - 0.07 * LakeArea waterVeg totalVeg deltax deltay)%R
              else 4.17%R)
  /\ (4.17 <= depth)%R.
Proof.
  intros Hw; apply Rltb_true in Hw.
  unfold nlake, depth, LakeBins, LakeDepth, LakeArea; rewrite Hw.
  repeat split.
  destruct (Rltb _ 40.9375) eqn:E; rbool; lra.
Qed.


(** The lake bins after the loop over them. *)
Definition lake_filled (hi : Z) (p : profile) : Prop :=
  DEMSUM p 0 = 0%R
  /\ forall k, 1 <= k < hi ->
       DEMSUM p k = (IZR k * (depth / IZR nlake))%R
       /\ AREASUM p k = (waterVeg * sqrt (DEMSUM p k / depth))%R.

Lemma lake_step_filled (i : Z) (p : profile) :
  1 <= i -> lake_filled i p ->
  lake_filled (i + 1)
    (lake_step VIC waterVeg totalVeg deltax deltay option i p).
Proof.
  intros Hi [H0 Hk]; unfold lake_filled, lake_step.
  fold depth nlake.
  assert (Hprev : DEMSUM p (i - 1) = (IZR (i - 1) * (depth / IZR nlake))%R).
  { destruct (Z.eq_dec i 1) as [->|]; [simpl; rewrite H0; lra|].
    apply Hk; lia. }
  assert (Hnew : (DEMSUM p (i - 1)%Z + depth / IZR nlake
                  = IZR i * (depth / IZR nlake))%R).
  { rewrite Hprev, minus_IZR; lra. }
  destruct (is_SEA option); cbn [DEMSUM AREASUM];
    (split;
     [ unfold vset; replace (0 =? i) with false
         by (symmetry; apply Z.eqb_neq; lia); exact H0
     | intros k Hk'; unfold vset;
       destruct (Z.eqb_spec k i) as [->|Hne];
       [ rewrite ?Z.eqb_refl; split; [exact Hnew | reflexivity]
       | apply Hk; lia ] ]).
Qed.

Lemma lake_loop_filled (p : profile) :
  DEMSUM p 0 = 0%R ->
  lake_filled (Z.max 1 (nlake + 1))
    (for_loop 1 nlake (lake_step VIC waterVeg totalVeg deltax deltay option) p).
Proof.
  intros H0; apply for_loop_invariant.
  - split; [exact H0 | intros; lia].
  - intros i s Hi Hs; apply lake_step_filled; [lia | exact Hs].
Qed.

(** The loops over the wetland bins leave the lake bins as they are. *)
Definition same_lake (p q : profile) : Prop :=
  forall k, k <= nlake -> AREASUM q k = AREASUM p k /\ DEMSUM q k = DEMSUM p k.

Lemma twi_loop_same_lake (W : matrix) (lo hi : Z) (p : profile) :
  same_lake p (for_loop lo hi (twi_step waterVeg W) p).
Proof.
  pose (Inv := fun (_ : Z) (q : profile) => same_lake p q).
  apply (for_loop_invariant Inv).
  - intros k _; auto.
  - intros i s _ Hs k Hk; unfold twi_step; cbn [AREASUM DEMSUM]; auto.
Qed.

Lemma wet_loop_same_lake (W : matrix) (hi : Z) (p : profile) :
  same_lake p
    (for_loop (nlake + 1) hi
       (wet_step VIC wetlandVeg waterVeg option ElevRange W) p).
Proof.
  pose (Inv := fun (_ : Z) (q : profile) => same_lake p q).
  apply (for_loop_invariant Inv).
  - intros k _; auto.
  - intros i s Hi Hs k Hk; destruct (Hs k Hk) as [Ha Hd].
    unfold wet_step; fold nlake.
    destruct (is_SEA option), (1 <? i); cbn [AREASUM DEMSUM]; unfold vset;
      replace (k =? i) with false by (symmetry; apply Z.eqb_neq; lia); auto.
Qed.

Lemma assemble_lake :
  (0 < waterVeg)%R ->
  let p := assemble VIC n wetlandVeg waterVeg totalVeg deltax deltay option
             ElevRange in
  forall i, 1 <= i <= 4 ->
    DEMSUM p i = (IZR i * (depth / 4))%R
    /\ (DEMSUM p i - DEMSUM p (i - 1)%Z = depth / 4)%R
    /\ AREASUM p i = (waterVeg * sqrt (DEMSUM p i / depth))%R.
Proof.
  intros Hw p.
  destruct (lake_parameters Hw) as (Hbins & _ & _ & Hdepth).
  subst p; unfold assemble; fold nlake nwet.
  set (W := WetlandBin _).
  set (p0 := mkProfile _ _ _ _ _).
  set (p1 := for_loop 1 nlake _ p0).
  assert (H1 : lake_filled (Z.max 1 (nlake + 1)) p1)
    by (apply lake_loop_filled; reflexivity).
  set (p2 := if is_SEA option then _ else p1).
  assert (H2 : same_lake p1 p2).
  { subst p2; destruct (is_SEA option);
      [apply twi_loop_same_lake | intros k _; auto]. }
  pose proof (wet_loop_same_lake W (nwet + nlake) p2) as H3.
  set (p3 := for_loop (nlake + 1) (nwet + nlake) _ p2) in *.
  assert (Hsame : forall k, k <= 4 ->
            AREASUM p3 k = AREASUM p1 k /\ DEMSUM p3 k = DEMSUM p1 k).
  { intros k Hk; rewrite <- Hbins in Hk.
    destruct (H3 k Hk) as [-> ->]; apply H2; exact Hk. }
  destruct H1 as [H0 H1]; rewrite Hbins in H1; simpl Z.max in H1.
  assert (Hdem : forall k, 0 <= k <= 4 -> DEMSUM p3 k = (IZR k * (depth / 4))%R).
  { intros k Hk; destruct (Hsame k) as [_ ->]; [lia|].
    destruct (Z.eq_dec k 0) as [->|]; [rewrite H0; simpl; lra|].
    apply H1; lia. }
  intros i Hi; split; [apply Hdem; lia | split].
  - rewrite !Hdem by lia; rewrite minus_IZR; lra.
  - destruct (Hsame i) as [-> ->]; [lia|]; apply H1; lia.
Qed.


(** *** The check of the total *)

(** The call stops without a profile exactly when the cumulated area
    exceeds the two fractions by more than the tolerance. *)
Lemma exit_iff_excess :
  let p := assemble VIC n wetlandVeg waterVeg totalVeg deltax deltay option
             ElevRange in
  VICcalculation VIC n wetlandVeg waterVeg totalVeg deltax deltay option ElevRange
  = Exit0
  <-> (0.00001 < AREASUM p (nwet + nlake)%Z - (waterVeg + wetlandVeg))%R.
Proof.
  intros p; unfold VICcalculation; fold p.
  unfold fraction_mismatch; fold nwet nlake.
  destruct (Rltb 0.00001 _) eqn:E; rbool.
  - split; auto.
  - split; [|lra].
    repeat match goal with
      | |- context [if ?c then _ else _] => destruct c
      end; discriminate.
Qed.

(** Without a cell in the bins, the wetland part adds no area. *)
Lemma wet_loop_no_area (lo hi : Z) (p : profile) :
  (forall k, AREASUM p k = 0%R) ->
  forall k,
    AREASUM (for_loop lo hi
               (wet_step VIC wetlandVeg waterVeg option ElevRange
                  (fun _ _ => 0%R)) p) k = 0%R.
Proof.
  intros Hp.
  pose (Inv := fun (_ : Z) (q : profile) => forall k, AREASUM q k = 0%R).
  apply (for_loop_invariant Inv); [exact Hp|].
  intros i q _ Hq k; unfold wet_step.
  destruct (is_SEA option); cbn [AREASUM]; unfold vset;
    destruct (k =? i); auto; rewrite Hq; lra.
Qed.

End VICProperties.

Section BinProperties.

Variable VIC : matrix.
Variable n : Z.
Variable wetlandVeg : R.
Variable totalVeg : Z.
Variable option : string.

Let nwet := WetBins wetlandVeg.
Let target_fraction := areacriteria wetlandVeg.

(** *** The wetland bins *)

Lemma wetland_bins :
  (0 < wetlandVeg)%R ->
  nwet = Z.max 5 (ceil (wetlandVeg / 0.091))
  /\ target_fraction = (wetlandVeg / IZR nwet)%R
  /\ (0 < target_fraction <= 0.091)%R.
Proof.
  intros Hw; pose proof Hw as Hb; apply Rltb_true in Hb.
  unfold nwet, target_fraction, areacriteria, WetBins; rewrite Hb.
  set (k := ceil (wetlandVeg / 0.091)).
  assert (Hk : (wetlandVeg / 0.091 <= IZR k)%R) by apply ceil_bounds.
  assert (Hmax : (if k <? 5 then 5 else k) = Z.max 5 k)
    by (destruct (Z.ltb_spec k 5); lia).
  rewrite Hmax; split; [reflexivity | split; [reflexivity|]].
  assert (H5 : (5 <= IZR (Z.max 5 k))%R) by (apply IZR_le; lia).
  assert (Hkm : (IZR k <= IZR (Z.max 5 k))%R) by (apply IZR_le; lia).
  assert (Hw' : (wetlandVeg <= 0.091 * IZR (Z.max 5 k))%R).
  { apply Rle_trans with (0.091 * IZR k)%R; [|nra].
    replace wetlandVeg with (0.091 * (wetlandVeg / 0.091))%R by (field; lra).
    nra. }
  split.
  - apply Rdiv_lt_0_compat; lra.
  - apply Rmult_le_reg_r with (IZR (Z.max 5 k)); [lra|].
    unfold Rdiv; rewrite Rmult_assoc, Rinv_l; lra.
Qed.

(** Row 0 of [WetlandBin] and the counter after one turn of the loop: the
    count of the current bin goes up by one, and the bin is closed, its
    count divided by [totalVeg], when it reaches the target or the cells
    are through. *)
Lemma bin_step_row0 (i : Z) (b : bins) :
  let c := counter b in
  let v := (WetlandBin b 0%Z c + 1)%R in
  let b' := bin_step VIC n wetlandVeg totalVeg option i b in
  if Rleb target_fraction (v / IZR totalVeg) || (i =? n - 1)
  then counter b' = c + 1
       /\ forall k, WetlandBin b' 0 k
                    = if k =? c then (v / IZR totalVeg)%R else WetlandBin b 0 k
  else counter b' = c
       /\ forall k, WetlandBin b' 0 k = if k =? c then v else WetlandBin b 0 k.
Proof.
  intros c v b'; subst b'; unfold bin_step, ROWS; fold c target_fraction.
  destruct (is_SEA option).
  - unfold for_loop; change (Z.to_nat (5 - 2 - 1 + 1)) with 3%nat.
    cbn [for_up]; unfold madd, mset; cbn [Z.eqb Z.sub Z.add Z.opp Z.pos_sub
                                          Pos.pred_double andb].
    rewrite !Z.eqb_refl; fold v.
    destruct (Rleb target_fraction (v / IZR totalVeg) || (i =? n - 1));
      cbn [counter WetlandBin]; (split; [reflexivity|]); intros k;
      cbn [Z.eqb andb]; destruct (k =? c); reflexivity.
  - unfold madd, mset; cbn [Z.eqb Z.sub Z.add Z.opp Z.pos_sub
                                          Pos.pred_double andb].
    rewrite !Z.eqb_refl; fold v.
    destruct (Rleb target_fraction (v / IZR totalVeg) || (i =? n - 1));
      cbn [counter WetlandBin]; (split; [reflexivity|]); intros k;
      cbn [Z.eqb andb]; destruct (k =? c); reflexivity.
Qed.


(** The state of the bins while cells remain: the bins below the counter
    are closed and hold the target or more, by less than the share of one
    cell; the bin at the counter holds a count that has not reached the
    target; the bins above are empty. *)
Definition bins_open (b : bins) : Prop :=
  0 <= counter b
  /\ (forall k, 0 <= k < counter b ->
        (target_fraction <= WetlandBin b 0%Z k
         < target_fraction + 1 / IZR totalVeg)%R)
  /\ (0 <= WetlandBin b 0%Z (counter b))%R
  /\ (WetlandBin b 0%Z (counter b) / IZR totalVeg < target_fraction)%R
  /\ (forall k, counter b < k -> WetlandBin b 0%Z k = 0%R).

(** The bins when the cells are through: the last bin is at
    [counter - 1]. *)
Definition bins_closed (b : bins) : Prop :=
  forall k, 0 <= k < counter b - 1 ->
    (target_fraction <= WetlandBin b 0%Z k
     < target_fraction + 1 / IZR totalVeg)%R.

Lemma bin_step_open (i : Z) (b : bins) :
  (0 < target_fraction)%R -> 0 < totalVeg ->
  i < n -> bins_open b ->
  let b' := bin_step VIC n wetlandVeg totalVeg option i b in
  (i + 1 < n -> bins_open b') /\ (i + 1 = n -> bins_closed b').
Proof.
  intros Htarget HT Hi (Hc & Hclosed & Hpos & Hbelow & Hzero) b'.
  assert (HT' : (0 < IZR totalVeg)%R) by (apply IZR_lt; exact HT).
  assert (Hinv : (0 < / IZR totalVeg)%R) by (apply Rinv_0_lt_compat; exact HT').
  pose proof (bin_step_row0 i b) as Hrow; cbv zeta in Hrow; fold b' in Hrow.
  set (v := (WetlandBin b 0%Z (counter b) + 1)%R) in *.
  assert (Hv : (v / IZR totalVeg
                = WetlandBin b 0%Z (counter b) / IZR totalVeg + 1 / IZR totalVeg)%R)
    by (unfold v; field; lra).
  destruct (Rleb target_fraction (v / IZR totalVeg)) eqn:Etest;
    destruct (Z.eqb_spec i (n - 1)) as [Elast|Elast];
    cbn [orb] in Hrow; destruct Hrow as [Hcnt Hw]; rbool.
  - (* the last cell closes a bin that has reached the target *)
    split; [lia | intros _].
    intros k Hk; rewrite Hcnt in Hk; rewrite Hw.
    replace (k =? counter b) with false by (symmetry; apply Z.eqb_neq; lia).
    apply Hclosed; lia.
  - (* the bin has reached the target *)
    split; [intros _ | lia].
    unfold bins_open; rewrite Hcnt; repeat split; try lia.
    + rewrite Hw; destruct (Z.eqb_spec k (counter b)); [lra|].
      apply Hclosed; lia.
    + rewrite Hw; destruct (Z.eqb_spec k (counter b)); [lra|].
      apply Hclosed; lia.
    + rewrite Hw.
      replace (counter b + 1 =? counter b) with false
        by (symmetry; apply Z.eqb_neq; lia).
      rewrite Hzero by lia; lra.
    + rewrite Hw.
      replace (counter b + 1 =? counter b) with false
        by (symmetry; apply Z.eqb_neq; lia).
      rewrite Hzero by lia; unfold Rdiv; rewrite Rmult_0_l; exact Htarget.
    + intros k Hk; rewrite Hw.
      replace (k =? counter b) with false by (symmetry; apply Z.eqb_neq; lia).
      apply Hzero; lia.
  - (* the last cell closes a bin below the target *)
    split; [lia | intros _].
    intros k Hk; rewrite Hcnt in Hk; rewrite Hw.
    replace (k =? counter b) with false by (symmetry; apply Z.eqb_neq; lia).
    apply Hclosed; lia.
  - (* the bin stays open *)
    split; [intros _ | lia].
    unfold bins_open; rewrite Hcnt; repeat split; try lia.
    + rewrite Hw.
      replace (k =? counter b) with false by (symmetry; apply Z.eqb_neq; lia).
      apply Hclosed; lia.
    + rewrite Hw.
      replace (k =? counter b) with false by (symmetry; apply Z.eqb_neq; lia).
      apply Hclosed; lia.
    + rewrite Hw, Z.eqb_refl; unfold v; lra.
    + rewrite Hw, Z.eqb_refl; exact Etest.
    + intros k Hk; rewrite Hw.
      replace (k =? counter b) with false by (symmetry; apply Z.eqb_neq; lia).
      apply Hzero; lia.
Qed.

Lemma fill_bins_closed :
  (0 < target_fraction)%R -> 0 < totalVeg ->
  bins_closed (fill_bins VIC n wetlandVeg totalVeg option).
Proof.
  intros Htarget HT; unfold fill_bins.
  set (b0 := mkBins (fun _ _ => 0%R) 0 0).
  destruct (Z_le_dec n 0) as [Hn|Hn].
  - rewrite for_loop_empty by lia.
    intros k Hk; simpl in Hk; lia.
  - pose (Inv := fun (i : Z) (b : bins) =>
       (i < n -> bins_open b) /\ (i = n -> bins_closed b)).
    assert (H : Inv (Z.max 0 (n - 1 + 1))
                  (for_loop 0 (n - 1) (bin_step VIC n wetlandVeg totalVeg option) b0)).
    { apply for_loop_invariant.
      - split; [intros _ | lia].
        unfold bins_open, b0; cbn [counter WetlandBin].
        repeat split; try lia; try lra.
      - intros i b Hi [Hopen _].
        destruct (bin_step_open i b Htarget HT) as [H1 H2]; [lia | apply Hopen; lia|].
        split; intros; [apply H1 | apply H2]; lia. }
    apply H; lia.
Qed.


End BinProperties.



(** *** Seven wetland cells out of ten, in exact arithmetic *)

Lemma ceil_7_10 : ceil (0.7 / 0.091) = 8.
Proof. apply ceil_unique; simpl; lra. Qed.

Lemma areacriteria_7_10 : areacriteria 0.7 = 0.0875%R.
Proof.
  unfold areacriteria, WetBins.
  replace (Rltb 0 0.7) with true by (symmetry; rbool; lra).
  rewrite ceil_7_10; simpl; lra.
Qed.

(** Each of the seven cells closes a bin of its own. *)
Lemma fill_bins_7_10 :
  let b := fill_bins (fun _ _ => 0%R) 7 0.7 10 "LAKE" in
  counter b = 7 /\ WetlandBin b 0 0 = 0.1%R.
Proof.
  intros b; subst b; unfold fill_bins.
  pose (Inv := fun (i : Z) (b : bins) =>
    counter b = i
    /\ (forall k, i <= k -> WetlandBin b 0 k = 0%R)
    /\ (1 <= i -> WetlandBin b 0 0 = 0.1%R)).
  assert (H : Inv (Z.max 0 (7 - 1 + 1))
                (for_loop 0 (7 - 1) (bin_step (fun _ _ => 0%R) 7 0.7 10 "LAKE")
                   (mkBins (fun _ _ => 0%R) 0 0))).
  { apply for_loop_invariant.
    - repeat split; intros; simpl; auto; lia.
    - intros i b Hi (Hc & Hz & H0).
      pose proof (bin_step_row0 (fun _ _ => 0%R) 7 0.7 10 "LAKE" i b) as Hrow.
      cbv zeta in Hrow; rewrite Hc, (Hz i) in Hrow by lia.
      rewrite areacriteria_7_10 in Hrow.
      replace (Rleb 0.0875 ((0 + 1) / IZR 10)) with true in Hrow
        by (symmetry; rbool; lra).
      cbn [orb] in Hrow; destruct Hrow as [Hc' Hw].
      repeat split; [exact Hc' | |].
      + intros k Hk; rewrite Hw.
        replace (k =? i) with false by (symmetry; apply Z.eqb_neq; lia).
        apply Hz; lia.
      + intros _; rewrite Hw.
        destruct (Z.eqb_spec 0 i) as [E|E]; [lra | apply H0; lia]. }
  destruct H as (Hc & _ & H0); split; [exact Hc | apply H0; simpl; lia].
Qed.

(** *** A total that falls short *)

Lemma ceil_5_10 : ceil (0.5 / 0.091) = 6.
Proof. apply ceil_unique; simpl; lra. Qed.

(** The test of the total looks in one direction only.  In a call with a
    wetland fraction of 0.5, no water and no wetland cell in the bins
    ([n = 0]), which is not a call that [Topindex] makes, the final
    cumulated area is 0, short of the fractions by 0.5, and the header and
    the six nodes of a LAKE profile are printed. *)
Lemma area_shortfall_not_detected :
  let p := assemble (fun _ _ => 0%R) 0 0.5 0 10 30 30 "LAKE" 0 in
  AREASUM p (WetBins 0.5 + LakeBins 0) = 0%R
  /\ (0.00001 < (0 + 0.5) - AREASUM p (WetBins 0.5 + LakeBins 0)%Z)%R
  /\ VICcalculation (fun _ _ => 0%R) 0 0.5 0 10 30 30 "LAKE" 0
     = Printed 1 6 (0 + 0.01)
         (map (fun i => [DEMSUM p i; AREASUM p i]) (down_from 6)).
Proof.
  intros p.
  assert (Hlake : LakeBins 0 = 0).
  { unfold LakeBins; replace (Rltb 0 0) with false by (symmetry; rbool; lra).
    reflexivity. }
  assert (Hdepth : LakeDepth 0 10 30 30 = 0%R).
  { unfold LakeDepth; replace (Rltb 0 0) with false by (symmetry; rbool; lra).
    reflexivity. }
  assert (Hwet : WetBins 0.5 = 6).
  { unfold WetBins; replace (Rltb 0 0.5) with true by (symmetry; rbool; lra).
    rewrite ceil_5_10; reflexivity. }
  assert (Harea : forall k, AREASUM p k = 0%R).
  { intros k; subst p; unfold assemble.
    rewrite Hlake, Hwet.
    change (is_SEA "LAKE") with false; cbv iota.
    change (WetlandBin (fill_bins (fun _ _ => 0%R) 0 0.5 10 "LAKE"))
      with (fun _ _ : Z => 0%R).
    rewrite (for_loop_empty _ 1 0) by lia.
    apply wet_loop_no_area; intros k'; cbn [AREASUM]; unfold vset.
    destruct (k' =? 0); reflexivity. }
  split; [apply Harea | split; [rewrite Harea; lra|]].
  unfold VICcalculation; fold p.
  unfold fraction_mismatch; rewrite Harea, Hlake, Hwet, Hdepth.
  replace (Rltb 0.00001 (0 - (0 + 0.5))) with false by (symmetry; rbool; lra).
  reflexivity.
Qed.

(** ** Fractions in single precision *)

(** The value of [float32] from the exponent and the nearest integer. *)
Lemma float32_value (x : R) (e m : Z) :
  (powerRZ 2 e <= Rabs x < powerRZ 2 (e + 1))%R -> -126 <= e ->
  (Rabs (x / powerRZ 2 (e - 23) - IZR m) < 1 / 2)%R ->
  float32 x = (IZR m * powerRZ 2 (e - 23))%R.
Proof.
  intros Hx He Hm; rewrite (float32_at x e Hx He).
  rewrite (round_even_near _ m Hm); reflexivity.
Qed.

Lemma powerRZ_2_m24 : powerRZ 2 (-24) = (/ 16777216)%R.
Proof. simpl; lra. Qed.

Lemma powerRZ_2_m27 : powerRZ 2 (-27) = (/ 134217728)%R.
Proof. simpl; lra. Qed.

Lemma powerRZ_2_m20 : powerRZ 2 (-20) = (/ 1048576)%R.
Proof. simpl; lra. Qed.

Lemma round_even_between (x : R) (a b : Z) :
  (IZR a <= x <= IZR b)%R -> a <= round_even x <= b.
Proof.
  intros [Ha Hb].
  pose proof (round_even_error x) as He; apply Rabs_le_between in He.
  assert (H1 : (IZR a - 1 < IZR (round_even x))%R) by lra.
  assert (H2 : (IZR (round_even x) < IZR b + 1)%R) by lra.
  rewrite <- minus_IZR in H1; rewrite <- plus_IZR in H2.
  apply lt_IZR in H1, H2; lia.
Qed.

(** Rounding does not leave the interval between two powers of 2. *)
Lemma float32_in_binade (x : R) (e : Z) :
  (powerRZ 2 e <= x < powerRZ 2 (e + 1))%R -> -126 <= e ->
  (powerRZ 2 e <= float32 x <= powerRZ 2 (e + 1))%R.
Proof.
  intros [H1 H2] He.
  pose proof (powerRZ_2_pos e) as Hpe.
  assert (Hx : (powerRZ 2 e <= Rabs x < powerRZ 2 (e + 1))%R)
    by (rewrite Rabs_pos_eq by lra; split; assumption).
  rewrite (float32_at x e Hx He).
  set (u := powerRZ 2 (e - 23)).
  assert (Hu : (0 < u)%R) by apply powerRZ_2_pos.
  assert (Eu : (powerRZ 2 e = 8388608 * u)%R).
  { unfold u; replace e with ((e - 23) + 23) at 1 by lia.
    rewrite powerRZ_add by lra; simpl; lra. }
  rewrite powerRZ_2_succ, Eu.
  assert (Hq : (IZR 8388608 <= x / u <= IZR 16777216)%R).
  { split.
    - apply Rmult_le_reg_r with u; [exact Hu|].
      replace (x / u * u)%R with x by (field; lra); lra.
    - apply Rmult_le_reg_r with u; [exact Hu|].
      replace (x / u * u)%R with x by (field; lra).
      rewrite powerRZ_2_succ, Eu in H2; lra. }
  apply round_even_between in Hq.
  destruct Hq as [Q1 Q2]; apply IZR_le in Q1, Q2.
  split; nra.
Qed.

(** A fraction between [2^-24] and 1 stays there. *)
Lemma float32_unit_range (x : R) :
  (/ 16777216 <= x <= 1)%R -> (/ 16777216 <= float32 x <= 1)%R.
Proof.
  intros [H1 H2].
  destruct (Req_dec x 1) as [->|Hne].
  { change 1%R with (IZR 1); rewrite float32_int by (simpl; lia); simpl; lra. }
  assert (Hx : x <> 0%R) by lra.
  destruct (binade_spec x Hx) as [B1 B2].
  rewrite Rabs_pos_eq in B1, B2 by lra.
  set (e := binade x) in *.
  assert (E24 : powerRZ 2 (-24) = (/ 16777216)%R) by (simpl; lra).
  assert (He1 : -24 <= e).
  { destruct (Z_lt_le_dec e (-24)) as [Hlt|]; [|lia].
    pose proof (powerRZ_2_le (e + 1) (-24) ltac:(lia)); lra. }
  assert (He2 : e <= -1).
  { destruct (Z_lt_le_dec (-1) e) as [Hlt|]; [|lia].
    pose proof (powerRZ_2_le 0 e ltac:(lia)) as H; simpl in H; lra. }
  destruct (float32_in_binade x e (conj B1 B2) ltac:(lia)) as [F1 F2].
  pose proof (powerRZ_2_le (-24) e He1).
  pose proof (powerRZ_2_le (e + 1) 0 ltac:(lia)) as H0; simpl in H0.
  lra.
Qed.

(** The share of [k] cells among [t], as a [float]. *)
Lemma float32_share (k t : Z) :
  0 <= k <= t -> 1 <= t <= 16777216 ->
  let f := float32 (IZR k / IZR t) in
  (0 <= f <= 1)%R
  /\ ((0 < f)%R <-> 1 <= k)
  /\ (1 <= k -> (/ 16777216 <= f)%R)
  /\ (Rabs (f - IZR k / IZR t) <= IZR k / IZR t / 16777216)%R.
Proof.
  intros Hk Ht f.
  assert (HT : (1 <= IZR t <= 16777216)%R) by (split; apply IZR_le; lia).
  destruct (Z.eq_dec k 0) as [->|Hne].
  - subst f; unfold Rdiv; rewrite Rmult_0_l, float32_0, Rmult_0_l.
    rewrite Rminus_diag, Rabs_R0.
    split; [lra | split; [split; [lra | lia] | split; [lia | lra]]].
  - assert (HK : (1 <= IZR k <= IZR t)%R) by (split; apply IZR_le; lia).
    assert (Hq : (/ 16777216 <= IZR k / IZR t <= 1)%R).
    { split.
      - apply Rmult_le_reg_r with (IZR t); [lra|].
        replace (IZR k / IZR t * IZR t)%R with (IZR k) by (field; lra).
        apply Rle_trans with (/ 16777216 * 16777216)%R; [nra | lra].
      - apply Rmult_le_reg_r with (IZR t); [lra|].
        replace (IZR k / IZR t * IZR t)%R with (IZR k) by (field; lra); lra. }
    pose proof (float32_unit_range _ Hq) as Hf; fold f in Hf.
    pose proof tiny_bound as Htiny.
    pose proof (float32_error (IZR k / IZR t)) as He.
    rewrite (Rabs_pos_eq (IZR k / IZR t)) in He by lra.
    specialize (He ltac:(lra)); fold f in He.
    split; [lra | split; [split; [lia | lra] | split; [lra | exact He]]].
Qed.

(** The conversion to [int] of a count. *)
Lemma to_int_IZR (k : Z) : 0 <= k -> Int_part (IZR k) = k.
Proof. intros _; symmetry; apply Int_part_spec; lra. Qed.

(** *** When the pass returns *)

Lemma for_upM_total {St : Type} (Inv : St -> Prop)
      (body : Z -> St -> option St) :
  forall (n : nat) (lo : Z) (s : St),
    Inv s ->
    (forall i s, lo <= i < lo + Z.of_nat n -> Inv s ->
                 exists s', body i s = Some s' /\ Inv s') ->
    exists s', for_upM n lo body s = Some s' /\ Inv s'.
Proof.
  induction n as [|n IH]; intros lo s H0 Hstep; cbn [for_upM].
  - exists s; split; [reflexivity | exact H0].
  - destruct (Hstep lo s ltac:(lia) H0) as (s1 & -> & H1).
    apply IH; [exact H1|].
    intros i s2 Hi; apply Hstep; lia.
Qed.

(** A loop whose body returns and keeps an invariant returns. *)
Lemma for_loopM_total {St : Type} (Inv : St -> Prop)
      (body : Z -> St -> option St) (lo hi : Z) (s : St) :
  Inv s ->
  (forall i s, lo <= i <= hi -> Inv s ->
               exists s', body i s = Some s' /\ Inv s') ->
  exists s', for_loopM lo hi body s = Some s' /\ Inv s'.
Proof.
  intros H0 Hstep; unfold for_loopM.
  apply for_upM_total; [exact H0|].
  intros i s1 Hi; apply Hstep; lia.
Qed.

Lemma sum_upto_nonneg (n : nat) (f : Z -> R) :
  (forall k, 1 <= k <= Z.of_nat n -> (0 <= f k)%R) ->
  (0 <= sum_upto n f)%R.
Proof.
  induction n as [|n IH]; intros H; cbn [sum_upto]; [lra|].
  assert (0 <= sum_upto n f)%R by (apply IH; intros; apply H; lia).
  assert (0 <= f (Z.of_nat (S n)))%R by (apply H; lia).
  lra.
Qed.

Lemma sum_upto_term (n : nat) (f : Z -> R) (k : Z) :
  (forall k, 1 <= k <= Z.of_nat n -> (0 <= f k)%R) ->
  1 <= k <= Z.of_nat n -> (f k <= sum_upto n f)%R.
Proof.
  induction n as [|n IH]; intros H Hk; [lia|].
  cbn [sum_upto].
  assert (0 <= sum_upto n f)%R
    by (apply sum_upto_nonneg; intros; apply H; lia).
  assert (0 <= f (Z.of_nat (S n)))%R by (apply H; lia).
  destruct (Z.eq_dec k (Z.of_nat (S n))) as [->|]; [lra|].
  assert (f k <= sum_upto n f)%R by (apply IH; [intros; apply H|]; lia).
  lra.
Qed.

Lemma grid_total_nonneg (nx ny : Z) (m : matrix) :
  (forall i j, 1 <= i <= nx -> 1 <= j <= ny -> (0 <= m i j)%R) ->
  (0 <= grid_total nx ny m)%R.
Proof.
  intros H; unfold grid_total.
  apply sum_upto_nonneg; intros i Hi.
  apply sum_upto_nonneg; intros j Hj; apply H; lia.
Qed.

Lemma grid_total_term (nx ny : Z) (m : matrix) (a b : Z) :
  (forall i j, 1 <= i <= nx -> 1 <= j <= ny -> (0 <= m i j)%R) ->
  1 <= a <= nx -> 1 <= b <= ny -> (m a b <= grid_total nx ny m)%R.
Proof.
  intros H Ha Hb; unfold grid_total.
  apply Rle_trans with (sum_upto (Z.to_nat ny) (fun j => m a j)).
  - apply (sum_upto_term (Z.to_nat ny) (fun j => m a j) b); [|lia].
    intros j Hj; apply H; lia.
  - apply (sum_upto_term (Z.to_nat nx)
             (fun i => sum_upto (Z.to_nat ny) (fun j => m i j)) a); [|lia].
    intros i Hi; apply sum_upto_nonneg; intros j Hj; apply H; lia.
Qed.

Section FillTermination.

Variable junk : ivector.
Variables nx ny : Z.
Variable nodata : R.
Variable min_junk : R.
(** The lattice before the pass, and for every cell a number of steps in
    which a cell with data is reached that the pass does not raise. *)
Variable topo0 : matrix.
Variable rank : Z -> Z -> nat.

Let nb := setupgridneighbors junk nx ny.

(** An elevation that no cell of the lattice exceeds before the pass. *)
Definition fill_ceiling : R := grid_total nx ny (fun i j => Rabs (topo0 i j)).

(** How far a cell with data can still be raised. *)
Definition fill_room (t : matrix) (i j : Z) : R :=
  if Rneb (topo0 i j) nodata
  then (fill_ceiling + fillincrement * INR (rank i j) - t i j)%R
  else 0%R.

Definition fill_bounded (t : matrix) : Prop :=
  forall i j, 1 <= i <= nx -> 1 <= j <= ny ->
    (topo0 i j = nodata -> t i j = nodata)
    /\ (topo0 i j <> nodata ->
        (nodata < t i j)%R
        /\ (t i j <= fill_ceiling + fillincrement * INR (rank i j))%R).

Lemma fill_room_nonneg (t : matrix) :
  fill_bounded t -> (0 <= grid_total nx ny (fill_room t))%R.
Proof.
  intros Hb; apply grid_total_nonneg; intros i j Hi Hj.
  unfold fill_room; destruct (Rneb (topo0 i j) nodata) eqn:E; [|lra].
  rbool; destruct (Hb i j Hi Hj) as [_ H]; specialize (H E); lra.
Qed.

Lemma neighbors8_in_lattice (i j a b : Z) :
  interior nx ny i j -> In (a, b) (neighbors8 i j) ->
  1 <= a <= nx /\ 1 <= b <= ny.
Proof.
  intros [Hi Hj] Hin; simpl in Hin.
  destruct Hin as [E|[E|[E|[E|[E|[E|[E|[E|[]]]]]]]]];
    injection E as <- <-; lia.
Qed.

Hypothesis ranked :
  forall i j, interior nx ny i j -> topo0 i j <> nodata ->
    exists a b, In (a, b) (neighbors8 i j)
                /\ topo0 a b <> nodata /\ (rank a b < rank i j)%nat.

(** A raise keeps the bounds and takes [fillincrement] off the room. *)
Lemma raise_bounded (t : matrix) (i j : Z) :
  fill_bounded t ->
  is_pit nb nx ny nodata min_junk t i j = true ->
  let t' := mset t i j (neighborhood_min nb nodata min_junk t i j
                        + fillincrement)%R in
  fill_bounded t'
  /\ grid_total nx ny (fill_room t')
     = (grid_total nx ny (fill_room t) - fillincrement)%R.
Proof.
  intros Hb Hpit t'; subst t'; unfold nb in *.
  rewrite (raise_amount junk nx ny nodata min_junk t i j Hpit).
  apply (is_pit_iff junk nx ny nodata min_junk) in Hpit
    as (Hint & Hvalid & Hnb).
  assert (Hi : 1 <= i <= nx) by (destruct Hint; lia).
  assert (Hj : 1 <= j <= ny) by (destruct Hint; lia).
  destruct (Hb i j Hi Hj) as [Hnd Hdata].
  assert (H0 : topo0 i j <> nodata) by (intros E; apply Hvalid, Hnd, E).
  destruct (Hdata H0) as [Hlo Hhi].
  split.
  - intros a b Ha Hb'; destruct (Hb a b Ha Hb') as [A1 A2].
    unfold mset.
    destruct (Z.eqb_spec a i) as [->|]; [destruct (Z.eqb_spec b j) as [->|]|];
      cbn [andb]; try (split; assumption).
    split; [intros E; contradiction|intros _].
    split; [unfold fillincrement; lra|].
    destruct (ranked i j Hint H0) as (a & b & Hin & Hab & Hrank).
    destruct (neighbors8_in_lattice i j a b Hint Hin) as [Ha' Hb''].
    destruct (Hb a b Ha' Hb'') as [_ B2]; destruct (B2 Hab) as [B3 B4].
    assert (Hle : (t i j <= t a b)%R) by (apply Hnb; [exact Hin | lra]).
    assert (Hr : (INR (rank a b) + 1 <= INR (rank i j))%R).
    { rewrite <- S_INR; apply le_INR; lia. }
    unfold fillincrement in *; lra.
  - unfold Rminus.
    rewrite <- (grid_total_madd nx ny (fill_room t) i j (- fillincrement))
      by assumption.
    apply grid_total_ext; intros a b Ha Hb'.
    unfold madd, mset, fill_room.
    destruct (Z.eqb_spec a i) as [->|]; [destruct (Z.eqb_spec b j) as [->|]|];
      cbn [andb]; try reflexivity.
    apply Rneb_true in H0; rewrite H0; lra.
Qed.

(** A call returns when the fuel covers the raises that are left. *)
Lemma fill_returns :
  forall (fuel : nat) (t : matrix) (i j : Z),
    fill_bounded t ->
    (grid_total nx ny (fill_room t) < fillincrement * INR fuel)%R ->
    exists t',
      fillinpitsandflats nb nx ny nodata min_junk fuel t i j = Some t'
      /\ fill_bounded t'
      /\ (grid_total nx ny (fill_room t') <= grid_total nx ny (fill_room t))%R.
Proof.
  induction fuel as [|fuel IH]; intros t i j Hb Hfuel.
  { pose proof (fill_room_nonneg t Hb); simpl in Hfuel; lra. }
  cbn [fillinpitsandflats]; cbv zeta.
  destruct (is_pit nb nx ny nodata min_junk t i j) eqn:Hpit.
  2:{ exists t; split; [reflexivity | split; [exact Hb | lra]]. }
  destruct (raise_bounded t i j Hb Hpit) as [Hb0 Hroom].
  set (t0 := mset t i j _) in *.
  assert (Hf0 : (grid_total nx ny (fill_room t0) < fillincrement * INR fuel)%R).
  { rewrite Hroom; rewrite S_INR in Hfuel; unfold fillincrement in *; lra. }
  assert (Hle0 : (grid_total nx ny (fill_room t0)
                  <= grid_total nx ny (fill_room t))%R)
    by (rewrite Hroom; unfold fillincrement; lra).
  assert (Hcall : forall (s : matrix) (a b : Z),
             fill_bounded s ->
             (grid_total nx ny (fill_room s) <= grid_total nx ny (fill_room t0))%R ->
             exists s',
               fillinpitsandflats nb nx ny nodata min_junk fuel s a b = Some s'
               /\ fill_bounded s'
               /\ (grid_total nx ny (fill_room s')
                   <= grid_total nx ny (fill_room t0))%R).
  { intros s a b Hs Hle.
    destruct (IH s a b Hs ltac:(lra)) as (s' & Hrun & Hs' & Hle').
    exists s'; split; [exact Hrun | split; [exact Hs' | lra]]. }
  destruct (Hcall t0 i j Hb0 ltac:(lra)) as (t1 & -> & B1 & L1); cbn [bind].
  destruct (Hcall t1 (iup nb i) j B1 L1) as (t2 & -> & B2 & L2); cbn [bind].
  destruct (Hcall t2 (idown nb i) j B2 L2) as (t3 & -> & B3 & L3); cbn [bind].
  destruct (Hcall t3 i (jup nb j) B3 L3) as (t4 & -> & B4 & L4); cbn [bind].
  destruct (Hcall t4 i (jdown nb j) B4 L4) as (t5 & -> & B5 & L5); cbn [bind].
  destruct (Hcall t5 (iup nb i) (jup nb j) B5 L5) as (t6 & -> & B6 & L6);
    cbn [bind].
  destruct (Hcall t6 (idown nb i) (jup nb j) B6 L6) as (t7 & -> & B7 & L7);
    cbn [bind].
  destruct (Hcall t7 (idown nb i) (jdown nb j) B7 L7) as (t8 & -> & B8 & L8);
    cbn [bind].
  destruct (Hcall t8 (iup nb i) (jdown nb j) B8 L8) as (t9 & -> & B9 & L9).
  exists t9; split; [reflexivity | split; [exact B9 | lra]].
Qed.

(** The pass returns when the fuel covers the raises of the whole
    lattice. *)
Lemma fill_pass_returns (fuel : nat) :
  fill_bounded topo0 ->
  (grid_total nx ny (fill_room topo0) < fillincrement * INR fuel)%R ->
  exists topo',
    fill_pass nb nx ny nodata min_junk fuel topo0 = Some topo'.
Proof.
  intros Hb Hfuel; unfold fill_pass.
  pose (Inv := fun t : matrix =>
     fill_bounded t
     /\ (grid_total nx ny (fill_room t) <= grid_total nx ny (fill_room topo0))%R).
  destruct (for_loopM_total Inv
              (fun j topo =>
                 for_loopM 1 nx
                   (fun i topo =>
                      fillinpitsandflats nb nx ny nodata min_junk fuel topo i j)
                   topo) 1 ny topo0) as (t & Hrun & _).
  - split; [exact Hb | lra].
  - intros j s Hj Hs.
    apply (for_loopM_total Inv); [exact Hs|].
    intros i s1 Hi [Hs1 Hle].
    destruct (fill_returns fuel s1 i j Hs1 ltac:(lra)) as (s2 & Hr & Hs2 & Hle2).
    exists s2; split; [exact Hr | split; [exact Hs2 | lra]].
  - exists t; exact Hrun.
Qed.

End FillTermination.

(** C2.  The pass of [fillinpitsandflats] over the whole lattice returns,
    and fills the lattice, when every interior cell with data is tied to
    the outer ring by cells with data: [rank] counts, for every cell, steps
    from neighbor to neighbor with data that go down to a cell of rank 0,
    which is then a cell of the ring (C8 is a lattice without such a tie),
    and the elevations are above [nodata].  With enough fuel for the depth
    of the recursion the pass returns a lattice in which every interior cell
    that holds data has a neighbor with data that is strictly lower, so that
    its elevation is strictly above the minimum of its valid neighbors;
    every cell that is not interior (the outer ring) has the elevation it
    had before the pass; and no elevation is below what it was before the
    pass. *)
Theorem fill_pass_filled (junk : ivector) (nx ny : Z) (nodata min_junk : R)
        (topo : matrix) (rank : Z -> Z -> nat) :
  (forall i j, 1 <= i <= nx -> 1 <= j <= ny ->
     topo i j = nodata \/ (nodata < topo i j)%R) ->
  (forall i j, interior nx ny i j -> topo i j <> nodata ->
     exists a b, In (a, b) (neighbors8 i j)
                 /\ topo a b <> nodata /\ (rank a b < rank i j)%nat) ->
  exists fuel0 : nat,
    forall fuel, (fuel0 <= fuel)%nat ->
      exists topo',
        fill_pass (setupgridneighbors junk nx ny) nx ny nodata min_junk fuel topo
        = Some topo'
        /\ (forall i j, interior nx ny i j -> topo' i j <> nodata ->
              exists a b, In (a, b) (neighbors8 i j)
                          /\ topo' a b <> nodata /\ (topo' a b < topo' i j)%R)
        /\ (forall i j, ~ interior nx ny i j -> topo' i j = topo i j)
        /\ (forall i j, (topo i j <= topo' i j)%R).
Proof.
  intros Hdata Hrank.
  assert (Hb : fill_bounded nx ny nodata topo rank topo).
  { intros i j Hi Hj; split; [auto | intros Hv].
    split; [destruct (Hdata i j Hi Hj); [contradiction | assumption]|].
    assert (Hc : (topo i j <= fill_ceiling nx ny topo)%R).
    { apply Rle_trans with (Rabs (topo i j)); [apply Rle_abs|].
      apply (grid_total_term nx ny (fun i j => Rabs (topo i j)) i j);
        [intros; apply Rabs_pos | exact Hi | exact Hj]. }
    pose proof (pos_INR (rank i j)); unfold fillincrement; nra. }
  set (room := grid_total nx ny (fill_room nx ny nodata topo rank topo)).
  pose proof (fill_room_nonneg nx ny nodata topo rank topo Hb) as Hroom.
  fold room in Hroom.
  exists (Z.to_nat (up (room / fillincrement))); intros fuel Hfuel.
  assert (Hup : (room / fillincrement < INR fuel)%R).
  { destruct (archimed (room / fillincrement)) as [Hup _].
    assert (H0 : (0 <= room / fillincrement)%R)
      by (unfold fillincrement; apply Rmult_le_pos; lra).
    assert (Hz : 0 <= up (room / fillincrement)).
    { apply le_IZR; lra. }
    apply Rlt_le_trans with (IZR (up (room / fillincrement))); [exact Hup|].
    rewrite <- (Z2Nat.id _ Hz), <- INR_IZR_INZ; apply le_INR; exact Hfuel. }
  assert (Hlt : (room < fillincrement * INR fuel)%R).
  { unfold fillincrement in *.
    apply Rmult_lt_compat_l with (r := 0.01%R) in Hup; [|lra].
    replace (0.01 * (room / 0.01))%R with room in Hup by (field; lra).
    exact Hup. }
  destruct (fill_pass_returns junk nx ny nodata min_junk topo rank Hrank
              fuel Hb Hlt) as (topo' & Hrun).
  exists topo'; split; [exact Hrun|].
  exact (fill_pass_returned junk nx ny nodata min_junk fuel topo topo' Hrun).
Qed.

(** In [pit_dem] the ring holds data: the pit is one step from it. *)
Lemma fill_pass_filled_witness :
  exists fuel0 : nat,
    forall fuel, (fuel0 <= fuel)%nat ->
      exists topo',
        fill_pass (setupgridneighbors (fun _ => 0) 3 3) 3 3 (-9999) 0 fuel pit_dem
        = Some topo'
        /\ (forall i j, interior 3 3 i j -> topo' i j <> (-9999)%R ->
              exists a b, In (a, b) (neighbors8 i j)
                          /\ topo' a b <> (-9999)%R /\ (topo' a b < topo' i j)%R)
        /\ (forall i j, ~ interior 3 3 i j -> topo' i j = pit_dem i j)
        /\ (forall i j, (pit_dem i j <= topo' i j)%R).
Proof.
  apply (fill_pass_filled (fun _ => 0) 3 3 (-9999) 0 pit_dem
           (fun i j => if (i =? 2) && (j =? 2) then 1%nat else 0%nat)).
  - intros i j _ _; right; unfold pit_dem.
    destruct ((i =? 2) && (j =? 2)), ((i =? 1) && (j =? 1)); lra.
  - intros i j [Hi Hj] _.
    assert (i = 2) by lia; assert (j = 2) by lia; subst.
    exists 3, 2; split; [simpl; tauto|].
    split; [unfold pit_dem; simpl; lra | simpl; lia].
Defined.

(** ** The wetland bins in single precision *)

Section SingleBins.

Variable VIC : matrix.
Variable n : Z.
Variable wetlandVeg : R.
Variable totalVeg : Z.
Variable option : string.

Let target := Single.areacriteria wetlandVeg.

(** Row 0 of [WetlandBin] and the counter after one turn of the loop. *)
Lemma single_bin_step_row0 (i : Z) (b : bins) :
  let c := counter b in
  let v := (WetlandBin b 0%Z c + 1)%R in
  let b' := Single.bin_step VIC n wetlandVeg totalVeg option i b in
  if Rleb target (v / IZR totalVeg) || (i =? n - 1)
  then counter b' = c + 1
       /\ forall k, WetlandBin b' 0 k
                    = if k =? c then (v / IZR totalVeg)%R else WetlandBin b 0 k
  else counter b' = c
       /\ forall k, WetlandBin b' 0 k = if k =? c then v else WetlandBin b 0 k.
Proof.
  intros c v b'; subst b'; unfold Single.bin_step, ROWS; fold c target.
  destruct (is_SEA option).
  - unfold for_loop; change (Z.to_nat (5 - 2 - 1 + 1)) with 3%nat.
    cbn [for_up]; unfold madd, mset; cbn [Z.eqb Z.sub Z.add Z.opp Z.pos_sub
                                          Pos.pred_double andb].
    rewrite !Z.eqb_refl; fold v.
    destruct (Rleb target (v / IZR totalVeg) || (i =? n - 1));
      cbn [counter WetlandBin]; (split; [reflexivity|]); intros k;
      cbn [Z.eqb andb]; destruct (k =? c); reflexivity.
  - unfold madd, mset; cbn [Z.eqb Z.sub Z.add Z.opp Z.pos_sub
                                          Pos.pred_double andb].
    rewrite !Z.eqb_refl; fold v.
    destruct (Rleb target (v / IZR totalVeg) || (i =? n - 1));
      cbn [counter WetlandBin]; (split; [reflexivity|]); intros k;
      cbn [Z.eqb andb]; destruct (k =? c); reflexivity.
Qed.

(** The state of the bins while cells remain: the bins below the counter
    are closed and hold the target or more, by less than the share of one
    cell; the bin at the counter holds a count that has not reached the
    target; the bins above are empty. *)
Definition single_bins_open (b : bins) : Prop :=
  0 <= counter b
  /\ (forall k, 0 <= k < counter b ->
        (target <= WetlandBin b 0%Z k < target + 1 / IZR totalVeg)%R)
  /\ (0 <= WetlandBin b 0%Z (counter b))%R
  /\ (WetlandBin b 0%Z (counter b) / IZR totalVeg < target)%R
  /\ (forall k, counter b < k -> WetlandBin b 0%Z k = 0%R).

(** The bins when the cells are through: the last bin is at
    [counter - 1]. *)
Definition single_bins_closed (b : bins) : Prop :=
  forall k, 0 <= k < counter b - 1 ->
    (target <= WetlandBin b 0%Z k < target + 1 / IZR totalVeg)%R.

Lemma single_bin_step_open (i : Z) (b : bins) :
  (0 < target)%R -> 0 < totalVeg ->
  i < n -> single_bins_open b ->
  let b' := Single.bin_step VIC n wetlandVeg totalVeg option i b in
  (i + 1 < n -> single_bins_open b') /\ (i + 1 = n -> single_bins_closed b').
Proof.
  intros Htarget HT Hi (Hc & Hclosed & Hpos & Hbelow & Hzero) b'.
  assert (HT' : (0 < IZR totalVeg)%R) by (apply IZR_lt; exact HT).
  assert (Hinv : (0 < / IZR totalVeg)%R) by (apply Rinv_0_lt_compat; exact HT').
  pose proof (single_bin_step_row0 i b) as Hrow; cbv zeta in Hrow;
    fold b' in Hrow.
  set (v := (WetlandBin b 0%Z (counter b) + 1)%R) in *.
  assert (Hv : (v / IZR totalVeg
                = WetlandBin b 0%Z (counter b) / IZR totalVeg + 1 / IZR totalVeg)%R)
    by (unfold v; field; lra).
  destruct (Rleb target (v / IZR totalVeg)) eqn:Etest;
    destruct (Z.eqb_spec i (n - 1)) as [Elast|Elast];
    cbn [orb] in Hrow; destruct Hrow as [Hcnt Hw]; rbool.
  - split; [lia | intros _].
    intros k Hk; rewrite Hcnt in Hk; rewrite Hw.
    replace (k =? counter b) with false by (symmetry; apply Z.eqb_neq; lia).
    apply Hclosed; lia.
  - split; [intros _ | lia].
    unfold single_bins_open; rewrite Hcnt; repeat split; try lia.
    + rewrite Hw; destruct (Z.eqb_spec k (counter b)); [lra|].
      apply Hclosed; lia.
    + rewrite Hw; destruct (Z.eqb_spec k (counter b)); [lra|].
      apply Hclosed; lia.
    + rewrite Hw.
      replace (counter b + 1 =? counter b) with false
        by (symmetry; apply Z.eqb_neq; lia).
      rewrite Hzero by lia; lra.
    + rewrite Hw.
      replace (counter b + 1 =? counter b) with false
        by (symmetry; apply Z.eqb_neq; lia).
      rewrite Hzero by lia; unfold Rdiv; rewrite Rmult_0_l; exact Htarget.
    + intros k Hk; rewrite Hw.
      replace (k =? counter b) with false by (symmetry; apply Z.eqb_neq; lia).
      apply Hzero; lia.
  - split; [lia | intros _].
    intros k Hk; rewrite Hcnt in Hk; rewrite Hw.
    replace (k =? counter b) with false by (symmetry; apply Z.eqb_neq; lia).
    apply Hclosed; lia.
  - split; [intros _ | lia].
    unfold single_bins_open; rewrite Hcnt; repeat split; try lia.
    + rewrite Hw.
      replace (k =? counter b) with false by (symmetry; apply Z.eqb_neq; lia).
      apply Hclosed; lia.
    + rewrite Hw.
      replace (k =? counter b) with false by (symmetry; apply Z.eqb_neq; lia).
      apply Hclosed; lia.
    + rewrite Hw, Z.eqb_refl; unfold v; lra.
    + rewrite Hw, Z.eqb_refl; exact Etest.
    + intros k Hk; rewrite Hw.
      replace (k =? counter b) with false by (symmetry; apply Z.eqb_neq; lia).
      apply Hzero; lia.
Qed.

Lemma single_fill_bins_closed :
  (0 < target)%R -> 0 < totalVeg ->
  single_bins_closed (Single.fill_bins VIC n wetlandVeg totalVeg option).
Proof.
  intros Htarget HT; unfold Single.fill_bins.
  set (b0 := mkBins (fun _ _ => 0%R) 0 0).
  destruct (Z_le_dec n 0) as [Hn|Hn].
  - rewrite for_loop_empty by lia.
    intros k Hk; simpl in Hk; lia.
  - pose (Inv := fun (i : Z) (b : bins) =>
       (i < n -> single_bins_open b) /\ (i = n -> single_bins_closed b)).
    assert (H : Inv (Z.max 0 (n - 1 + 1))
                  (for_loop 0 (n - 1)
                     (Single.bin_step VIC n wetlandVeg totalVeg option) b0)).
    { apply for_loop_invariant.
      - split; [intros _ | lia].
        unfold single_bins_open, b0; cbn [counter WetlandBin].
        repeat split; try lia; try lra.
      - intros i b Hi [Hopen _].
        destruct (single_bin_step_open i b Htarget HT) as [H1 H2];
          [lia | apply Hopen; lia|].
        split; intros; [apply H1 | apply H2]; lia. }
    apply H; lia.
Qed.

End SingleBins.

(** *** The number of bins and the target *)

Lemma float32_091 :
  (0.0909999 < float32 0.091 < 0.0910001)%R.
Proof.
  pose proof tiny_bound as Ht.
  pose proof (float32_bounds 0.091 ltac:(lra)) as H; lra.
Qed.

(** The quotient of a fraction by [0.091f] and its ceiling. *)
Lemma single_quotient (w : R) :
  (/ 16777216 <= w <= 1)%R ->
  let q := float32 (w / float32 0.091) in
  (w * 10.98898 <= q <= w * 10.98904)%R.
Proof.
  intros Hw q.
  pose proof float32_091 as [F1 F2].
  pose proof tiny_bound as Ht.
  set (f := float32 0.091) in *.
  assert (Hq1 : (w * 10.98899 <= w / f)%R).
  { apply Rmult_le_reg_r with f; [lra|].
    replace (w / f * f)%R with w by (field; lra); nra. }
  assert (Hq2 : (w / f <= w * 10.98903)%R).
  { apply Rmult_le_reg_r with f; [lra|].
    replace (w / f * f)%R with w by (field; lra); nra. }
  assert (Hmin : (powerRZ 2 (-126) <= w / f)%R) by nra.
  pose proof (float32_bounds (w / f) Hmin) as H; fold q in H.
  split; nra.
Qed.

Lemma single_WetBins_range (w : R) :
  (/ 16777216 <= w <= 1)%R -> 5 <= Single.WetBins w <= 11.
Proof.
  intros Hw; unfold Single.WetBins.
  replace (Rltb 0 w) with true by (symmetry; rbool; lra).
  pose proof (single_quotient w Hw) as Hq; cbv zeta in Hq.
  pose proof (ceil_bounds (float32 (w / float32 0.091))) as Hc.
  set (k := ceil (float32 (w / float32 0.091))) in *.
  destruct (Z.ltb_spec k 5); [lia|].
  split; [lia|].
  assert (IZR k - 1 < 11)%R by nra.
  assert (IZR k < 12)%R by lra.
  apply lt_IZR in H1; lia.
Qed.

Lemma single_target_pos (w : R) :
  (/ 16777216 <= w <= 1)%R ->
  let W := IZR (Single.WetBins w) in
  (w / W * (1 - / 16777216) <= Single.areacriteria w
   <= w / W * (1 + / 16777216))%R
  /\ (0 < Single.areacriteria w)%R.
Proof.
  intros Hw W.
  pose proof (single_WetBins_range w Hw) as HW.
  assert (H5 : (5 <= W <= 11)%R) by (unfold W; split; apply IZR_le; lia).
  unfold Single.areacriteria.
  replace (Rltb 0 w) with true by (symmetry; rbool; lra).
  rewrite float32_int by lia; fold W.
  pose proof tiny_bound as Ht.
  assert (Hq : (w / 11 <= w / W)%R).
  { apply Rmult_le_reg_r with W; [lra|].
    replace (w / W * W)%R with w by (field; lra); nra. }
  assert (Hmin : (powerRZ 2 (-126) <= w / W)%R) by lra.
  pose proof (float32_bounds (w / W) Hmin) as H.
  split; [exact H | nra].
Qed.

(** C9, as amended.  With a positive wetland fraction the number of
    wetland bins is the ceiling of the quotient [wetlandVeg / 0.091] as
    single precision gives it, raised to 5 if it is less, and the target
    fraction of a bin is recomputed as [wetlandVeg / WetBins], in single
    precision as well.  For a fraction between [2^-24] and 1 there are 5 to
    11 bins and the target is positive and within one part in [2^24] of the
    exact quotient.  A bin is closed as soon as its share of the cells
    reaches the target: every bin but the last holds at least the target,
    and less than the target plus the share [1 / totalVeg] of one cell. *)
Theorem wetland_bins_reach_target (VIC : matrix) (n : Z) (wetlandVeg : R)
        (totalVeg : Z) (option : string) :
  (/ 16777216 <= wetlandVeg <= 1)%R -> 0 < totalVeg ->
  let b := Single.fill_bins VIC n wetlandVeg totalVeg option in
  let W := Single.WetBins wetlandVeg in
  let target := Single.areacriteria wetlandVeg in
  W = Z.max 5 (ceil (float32 (wetlandVeg / float32 0.091)))
  /\ 5 <= W <= 11
  /\ target = float32 (wetlandVeg / float32 (IZR W))
  /\ (wetlandVeg / IZR W * (1 - / 16777216) <= target
      <= wetlandVeg / IZR W * (1 + / 16777216))%R
  /\ (0 < target)%R
  /\ forall k, 0 <= k < counter b - 1 ->
       (target <= WetlandBin b 0%Z k < target + 1 / IZR totalVeg)%R.
Proof.
  intros Hw HT b W target.
  pose proof (single_WetBins_range wetlandVeg Hw) as HW.
  destruct (single_target_pos wetlandVeg Hw) as [Hb Hpos].
  assert (Hwpos : Rltb 0 wetlandVeg = true) by (rbool; lra).
  split; [|split; [exact HW | split; [|split; [exact Hb | split; [exact Hpos|]]]]].
  - unfold W, Single.WetBins; rewrite Hwpos.
    destruct (Z.ltb_spec (ceil (float32 (wetlandVeg / float32 0.091))) 5); lia.
  - unfold target, Single.areacriteria; rewrite Hwpos; reflexivity.
  - apply (single_fill_bins_closed VIC n wetlandVeg totalVeg option);
      [exact Hpos | exact HT].
Qed.

(** *** Seven wetland cells out of ten *)

Lemma float32_7_10 : (0.6999999 < float32 (7 / 10) < 0.7000001)%R.
Proof.
  pose proof tiny_bound as Ht.
  pose proof (float32_bounds (7 / 10) ltac:(lra)) as H; lra.
Qed.

Lemma single_WetBins_7_10 : Single.WetBins (float32 (7 / 10)) = 8.
Proof.
  pose proof float32_7_10 as Hw.
  unfold Single.WetBins.
  replace (Rltb 0 (float32 (7 / 10))) with true by (symmetry; rbool; lra).
  pose proof (single_quotient (float32 (7 / 10)) ltac:(lra)) as Hq.
  cbv zeta in Hq.
  assert (E : ceil (float32 (float32 (7 / 10) / float32 0.091)) = 8).
  { apply ceil_unique; simpl; nra. }
  rewrite E; reflexivity.
Qed.

Lemma single_areacriteria_7_10 :
  (0.0874 < Single.areacriteria (float32 (7 / 10)) < 0.0876)%R.
Proof.
  pose proof float32_7_10 as Hw.
  destruct (single_target_pos (float32 (7 / 10)) ltac:(lra)) as [H _].
  cbv zeta in H; rewrite single_WetBins_7_10 in H; lra.
Qed.

(** Each of the seven cells closes a bin of its own. *)
Lemma single_fill_bins_7_10 :
  let b := Single.fill_bins (fun _ _ => 0%R) 7 (float32 (7 / 10)) 10 "LAKE" in
  counter b = 7 /\ WetlandBin b 0 0 = (1 / 10)%R.
Proof.
  intros b; subst b; unfold Single.fill_bins.
  pose proof single_areacriteria_7_10 as Ht.
  pose (Inv := fun (i : Z) (b : bins) =>
    counter b = i
    /\ (forall k, i <= k -> WetlandBin b 0 k = 0%R)
    /\ (1 <= i -> WetlandBin b 0 0 = (1 / 10)%R)).
  assert (H : Inv (Z.max 0 (7 - 1 + 1))
                (for_loop 0 (7 - 1)
                   (Single.bin_step (fun _ _ => 0%R) 7 (float32 (7 / 10)) 10 "LAKE")
                   (mkBins (fun _ _ => 0%R) 0 0))).
  { apply for_loop_invariant.
    - repeat split; intros; simpl; auto; lia.
    - intros i b Hi (Hc & Hz & H0).
      pose proof (single_bin_step_row0 (fun _ _ => 0%R) 7 (float32 (7 / 10)) 10
                    "LAKE" i b) as Hrow.
      cbv zeta in Hrow; rewrite Hc, (Hz i) in Hrow by lia.
      replace (Rleb (Single.areacriteria (float32 (7 / 10))) ((0 + 1) / IZR 10))
        with true in Hrow by (symmetry; rbool; lra).
      cbn [orb] in Hrow; destruct Hrow as [Hc' Hw].
      repeat split; [exact Hc' | |].
      + intros k Hk; rewrite Hw.
        replace (k =? i) with false by (symmetry; apply Z.eqb_neq; lia).
        apply Hz; lia.
      + intros _; rewrite Hw.
        destruct (Z.eqb_spec 0 i) as [E|E]; [lra | apply H0; lia]. }
  destruct H as (Hc & _ & H0); split; [exact Hc | apply H0; simpl; lia].
Qed.

(** C9, refuted as stated.  With 7 wetland cells among 10 cells the
    wetland fraction is the [float] next to 0.7, there are 8 bins and the
    recomputed fraction of a bin is 0.0875 within [10^-4]; each of the
    seven cells closes a bin, and the first of these bins, which is not the
    last one, holds the share 0.1 of one cell, more than the recomputed
    fraction. *)
Lemma wetland_bin_exceeds_fraction :
  let wetlandVeg := float32 (7 / 10) in
  let b := Single.fill_bins (fun _ _ => 0%R) 7 wetlandVeg 10 "LAKE" in
  Single.WetBins wetlandVeg = 8
  /\ (0.0874 < Single.areacriteria wetlandVeg < 0.0876)%R
  /\ counter b = 7
  /\ WetlandBin b 0%Z 0%Z = (1 / 10)%R
  /\ (Single.areacriteria wetlandVeg < WetlandBin b 0%Z 0%Z)%R.
Proof.
  intros wetlandVeg b; destruct single_fill_bins_7_10 as [Hc H0].
  fold wetlandVeg b in Hc, H0.
  pose proof single_areacriteria_7_10 as Ht; fold wetlandVeg in Ht.
  split; [apply single_WetBins_7_10|].
  split; [exact Ht|].
  split; [exact Hc|].
  split; [exact H0 | rewrite H0; lra].
Qed.

Lemma wetland_bins_reach_target_witness :
  let wetlandVeg := float32 (7 / 10) in
  let b := Single.fill_bins (fun _ _ => 0%R) 7 wetlandVeg 10 "LAKE" in
  let target := Single.areacriteria wetlandVeg in
  5 <= Single.WetBins wetlandVeg <= 11
  /\ (0 < target)%R
  /\ (target <= WetlandBin b 0%Z 0%Z < target + 1 / IZR 10)%R.
Proof.
  intros wetlandVeg b target.
  pose proof float32_7_10 as Hw.
  destruct (wetland_bins_reach_target (fun _ _ => 0%R) 7 (float32 (7 / 10)) 10
              "LAKE" ltac:(lra) ltac:(lia))
    as (_ & HW & _ & _ & Hpos & Hbins).
  split; [exact HW | split; [exact Hpos|]].
  apply Hbins.
  destruct single_fill_bins_7_10 as [Hc _]; rewrite Hc; lia.
Defined.

(** *** 91 wetland cells out of 100 *)

Lemma float32_91_100 : float32 (91 / 100) = (15267267 / 16777216)%R.
Proof.
  rewrite (float32_value (91 / 100) (-1) 15267267).
  - change (-1 - 23) with (-24); rewrite powerRZ_2_m24; lra.
  - rewrite Rabs_pos_eq by lra; simpl; lra.
  - lia.
  - change (-1 - 23) with (-24); rewrite powerRZ_2_m24.
    apply Rabs_def1; lra.
Qed.

Lemma float32_091_value : float32 0.091 = (12213813 / 134217728)%R.
Proof.
  rewrite (float32_value 0.091 (-4) 12213813).
  - change (-4 - 23) with (-27); rewrite powerRZ_2_m27; lra.
  - rewrite Rabs_pos_eq by lra; simpl; lra.
  - lia.
  - change (-4 - 23) with (-27); rewrite powerRZ_2_m27.
    apply Rabs_def1; lra.
Qed.

(** The number of bins is not the ceiling of the exact quotient: the
    [float] next to 0.91 divided by the [float] next to 0.091 is a little
    above 10 in single precision, which gives 11 bins, and
    [ceil (0.91 / 0.091)] is 10. *)
Lemma single_WetBins_91_100 :
  Single.WetBins (float32 (91 / 100)) = 11 /\ ceil (0.91 / 0.091) = 10.
Proof.
  split.
  - unfold Single.WetBins.
    rewrite float32_91_100, float32_091_value.
    replace (Rltb 0 (15267267 / 16777216)) with true by (symmetry; rbool; lra).
    assert (E : float32 (15267267 / 16777216 / (12213813 / 134217728))
                = (10485761 / 1048576)%R).
    { rewrite (float32_value _ 3 10485761).
      - change (3 - 23) with (-20); rewrite powerRZ_2_m20; lra.
      - rewrite Rabs_pos_eq by lra; simpl; lra.
      - lia.
      - change (3 - 23) with (-20); rewrite powerRZ_2_m20.
        apply Rabs_def1; lra. }
    rewrite E.
    assert (Ec : ceil (10485761 / 1048576) = 11) by (apply ceil_unique; simpl; lra).
    rewrite Ec; reflexivity.
  - apply ceil_unique; simpl; lra.
Qed.

(** ** The divisor of the SEA profile *)

(** Rows 0 and 1 of [WetlandBin], the counters after one turn of the loop
    with the option SEA. *)
Lemma single_bin_step_sea (VIC : matrix) (n : Z) (wetlandVeg : R)
      (totalVeg : Z) (i : Z) (b : bins) :
  let c := counter b in
  let v0 := (WetlandBin b 0%Z c + 1)%R in
  let v1 := (WetlandBin b 1%Z c + VIC 1%Z i)%R in
  let b' := Single.bin_step VIC n wetlandVeg totalVeg "SEA" i b in
  if Rleb (Single.areacriteria wetlandVeg) (v0 / IZR totalVeg) || (i =? n - 1)
  then counter b' = c + 1 /\ cnt b' = 0
       /\ (forall k, WetlandBin b' 0 k
                     = if k =? c then (v0 / IZR totalVeg)%R else WetlandBin b 0 k)
       /\ (forall k, WetlandBin b' 1 k
                     = if k =? c then (v1 / IZR (cnt b + 1))%R
                       else WetlandBin b 1 k)
  else counter b' = c /\ cnt b' = cnt b + 1
       /\ (forall k, WetlandBin b' 0 k = if k =? c then v0 else WetlandBin b 0 k)
       /\ (forall k, WetlandBin b' 1 k = if k =? c then v1 else WetlandBin b 1 k).
Proof.
  intros c v0 v1 b'; subst b'; unfold Single.bin_step, ROWS; fold c.
  change (is_SEA "SEA") with true; cbv iota.
  unfold for_loop; change (Z.to_nat (5 - 2 - 1 + 1)) with 3%nat.
  cbn [for_up]; unfold madd, mset; cbn [Z.eqb Z.sub Z.add Z.opp Z.pos_sub
                                        Pos.pred_double andb].
  rewrite !Z.eqb_refl; fold v0 v1.
  destruct (Rleb (Single.areacriteria wetlandVeg) (v0 / IZR totalVeg)
            || (i =? n - 1));
    cbn [counter cnt WetlandBin]; (split; [reflexivity|]);
    (split; [reflexivity|]); split; intros k;
    cbn [Z.eqb andb]; destruct (k =? c); reflexivity.
Qed.

(** A strip of 21 wetland cells that all have the wetness index 20000:
    every row of [VIC] is constant. *)
Definition flat_VIC : matrix := fun _ _ => 20000%R.

Lemma float32_1 : float32 (21 / 21) = 1%R.
Proof. replace (21 / 21)%R with (IZR 1) by lra; apply float32_int; simpl; lia. Qed.

Lemma single_WetBins_1 : Single.WetBins 1 = 11.
Proof.
  unfold Single.WetBins.
  replace (Rltb 0 1) with true by (symmetry; rbool; lra).
  pose proof (single_quotient 1 ltac:(lra)) as Hq; cbv zeta in Hq.
  assert (E : ceil (float32 (1 / float32 0.091)) = 11).
  { apply ceil_unique; simpl; lra. }
  rewrite E; reflexivity.
Qed.

Lemma single_areacriteria_1 : (1 / 21 < Single.areacriteria 1 <= 2 / 21)%R.
Proof.
  destruct (single_target_pos 1 ltac:(lra)) as [H _].
  cbv zeta in H; rewrite single_WetBins_1 in H; lra.
Qed.

(** The 21 cells fill ten bins of two cells and a last bin of one. *)
Lemma single_fill_bins_flat :
  let b := Single.fill_bins flat_VIC 21 1 21 "SEA" in
  counter b = 11 /\ WetlandBin b 1 10 = 20000%R.
Proof.
  intros b; subst b; unfold Single.fill_bins.
  pose proof single_areacriteria_1 as Ht.
  pose (Inv := fun (i : Z) (b : bins) =>
    (i < 21 ->
     counter b = i / 2 /\ cnt b = i mod 2
     /\ WetlandBin b 0 (i / 2) = IZR (i mod 2)
     /\ WetlandBin b 1 (i / 2) = (20000 * IZR (i mod 2))%R
     /\ forall k, i / 2 < k ->
          WetlandBin b 0 k = 0%R /\ WetlandBin b 1 k = 0%R)
    /\ (i = 21 -> counter b = 11 /\ WetlandBin b 1 10 = 20000%R)).
  assert (H : Inv (Z.max 0 (21 - 1 + 1))
                (for_loop 0 (21 - 1) (Single.bin_step flat_VIC 21 1 21 "SEA")
                   (mkBins (fun _ _ => 0%R) 0 0))).
  { apply for_loop_invariant.
    - split; [intros _ | lia].
      cbn [counter cnt WetlandBin].
      change (0 / 2) with 0; change (0 mod 2) with 0.
      split; [reflexivity | split; [reflexivity|]].
      split; [lra | split; [lra | intros; split; reflexivity]].
    - intros i b Hi [Hopen _].
      destruct (Hopen ltac:(lia)) as (Hc & Hn & H0 & H1 & Hz).
      pose proof (single_bin_step_sea flat_VIC 21 1 21 i b) as Hrow.
      cbv zeta in Hrow; rewrite Hc, H0, H1, Hn in Hrow.
      change (flat_VIC 1 i) with 20000%R in Hrow.
      assert (Hmod : i mod 2 = 0 \/ i mod 2 = 1)
        by (pose proof (Z.mod_pos_bound i 2); lia).
      pose proof (Z.div_mod i 2 ltac:(lia)) as Hdm.
      pose proof (Z.div_mod (i + 1) 2 ltac:(lia)) as Hdm1.
      pose proof (Z.mod_pos_bound (i + 1) 2 ltac:(lia)) as Hmb1.
      assert (Hz' : forall k, i / 2 < k ->
                WetlandBin (Single.bin_step flat_VIC 21 1 21 "SEA" i b) 0 k = 0%R
                /\ WetlandBin (Single.bin_step flat_VIC 21 1 21 "SEA" i b) 1 k
                   = 0%R).
      { intros k Hk.
        destruct (Rleb _ _ || _); destruct Hrow as (_ & _ & Hw0 & Hw1);
          rewrite Hw0, Hw1;
          replace (k =? i / 2) with false by (symmetry; apply Z.eqb_neq; lia);
          apply Hz; exact Hk. }
      destruct Hmod as [E|E]; rewrite E in Hrow.
      + (* the first cell of a bin *)
        replace (Rleb (Single.areacriteria 1) ((0 + 1) / IZR 21)) with false
          in Hrow by (symmetry; rbool; lra).
        cbn [orb] in Hrow.
        destruct (Z.eqb_spec i (21 - 1)) as [Elast|Elast].
        * destruct Hrow as (Hc' & _ & _ & Hw1).
          split; [lia | intros _].
          subst i; change ((21 - 1) / 2) with 10 in *.
          split; [lia|].
          rewrite Hw1; cbn [Z.eqb Pos.eqb]; simpl; lra.
        * destruct Hrow as (Hc' & Hn' & Hw0 & Hw1).
          split; [intros _ | lia].
          assert (Ediv : (i + 1) / 2 = i / 2) by lia.
          assert (Emod : (i + 1) mod 2 = 1) by lia.
          rewrite Ediv, Emod, Hw0, Hw1, Z.eqb_refl.
          split; [lia | split; [lia|]].
          split; [lra | split; [lra | exact Hz']].
      + (* the second cell closes the bin *)
        replace (Rleb (Single.areacriteria 1) ((IZR 1 + 1) / IZR 21)) with true
          in Hrow by (symmetry; rbool; lra).
        cbn [orb] in Hrow.
        destruct Hrow as (Hc' & Hn' & Hw0 & Hw1).
        assert (Hi20 : i + 1 < 21) by lia.
        split; [intros _ | lia].
        assert (Ediv : (i + 1) / 2 = i / 2 + 1) by lia.
        assert (Emod : (i + 1) mod 2 = 0) by lia.
        rewrite Ediv, Emod.
        destruct (Hz' (i / 2 + 1) ltac:(lia)) as [-> ->].
        split; [lia | split; [lia|]].
        split; [reflexivity | split; [lra|]].
        intros k Hk; apply Hz'; lia. }
  destruct H as [_ H]; apply H; reflexivity.
Qed.

(** C10, refuted as stated.  [VICcalculation] called with the option SEA
    for a strip of 21 cells that are all wetland cells with the same
    wetness index, as [Topindex] passes them ([n = 21], a wetland fraction
    of [21 / 21], no water, [totalVeg = 21]): there are 11 bins and no lake
    bin, the cells fill the 11 bins, the last bin holds the wetness index
    of the cells, and the divisor
    [VIC[1][0] - WetlandBin[1][WetBins-1]] of the turns [i = 2] to
    [i = 11] of the loop over the wetland bins is 0. *)
Lemma sea_divisor_zero :
  let wetlandVeg := float32 (21 / 21) in
  let b := Single.fill_bins flat_VIC 21 wetlandVeg 21 "SEA" in
  Single.WetBins wetlandVeg = 11
  /\ LakeBins 0 = 0
  /\ counter b = 11
  /\ (LakeBins 0 + 1 <= 2 <= Single.WetBins wetlandVeg + LakeBins 0 /\ 1 < 2)
  /\ Single.sea_divisor flat_VIC wetlandVeg (WetlandBin b) = 0%R.
Proof.
  intros wetlandVeg b; subst wetlandVeg b; rewrite float32_1.
  destruct single_fill_bins_flat as [Hc H1].
  assert (HL : LakeBins 0 = 0).
  { unfold LakeBins; replace (Rltb 0 0) with false by (symmetry; rbool; lra).
    reflexivity. }
  rewrite single_WetBins_1, HL.
  split; [reflexivity | split; [reflexivity | split; [exact Hc|]]].
  split; [lia|].
  unfold Single.sea_divisor; rewrite single_WetBins_1.
  change (11 - 1) with 10; rewrite H1; unfold flat_VIC; lra.
Qed.

(** * Further properties *)

(** ** Neighbor tables: how they compose *)

Lemma iup_values (junk : ivector) (nx ny i : Z) :
  1 <= i <= nx ->
  iup (setupgridneighbors junk nx ny) i = (if i =? nx then nx else i + 1).
Proof.
  intros Hi; rewrite iup_spec by lia.
  destruct (Z.eqb_spec i nx), (Z.leb_spec 1 i), (Z.leb_spec i nx); simpl; lia.
Qed.

Lemma idown_values (junk : ivector) (nx ny i : Z) :
  1 <= i <= nx ->
  idown (setupgridneighbors junk nx ny) i = (if i =? 1 then 1 else i - 1).
Proof.
  intros Hi; rewrite idown_spec by lia.
  destruct (Z.eqb_spec i 1), (Z.leb_spec 1 i), (Z.leb_spec i nx); simpl; lia.
Qed.

Lemma jup_values (junk : ivector) (nx ny j : Z) :
  1 <= j <= ny ->
  jup (setupgridneighbors junk nx ny) j = (if j =? ny then ny else j + 1).
Proof.
  intros Hj; rewrite jup_spec by lia.
  destruct (Z.eqb_spec j ny), (Z.leb_spec 1 j), (Z.leb_spec j ny); simpl; lia.
Qed.

Lemma jdown_values (junk : ivector) (nx ny j : Z) :
  1 <= j <= ny ->
  jdown (setupgridneighbors junk nx ny) j = (if j =? 1 then 1 else j - 1).
Proof.
  intros Hj; rewrite jdown_spec by lia.
  destruct (Z.eqb_spec j 1), (Z.leb_spec 1 j), (Z.leb_spec j ny); simpl; lia.
Qed.

(** X1.  On a lattice of at least one column and one row the tables never
    leave the lattice, [1 <= idown[i] <= i <= iup[i] <= size]; a step up
    followed by a step down comes back to the same index unless the step up
    was clamped at the last index, and a step down followed by a step up
    comes back unless the step down was clamped at index 1. *)
Theorem neighbor_tables_compose (junk : ivector) (nx ny : Z) :
  1 <= nx -> 1 <= ny ->
  let nb := setupgridneighbors junk nx ny in
  (forall i, 1 <= i <= nx ->
     1 <= idown nb i <= i /\ i <= iup nb i <= nx
     /\ (i < nx -> idown nb (iup nb i) = i)
     /\ (1 < i -> iup nb (idown nb i) = i)
     /\ (1 < nx -> idown nb (iup nb nx) = nx - 1 /\ iup nb (idown nb 1) = 2))
  /\ (forall j, 1 <= j <= ny ->
        1 <= jdown nb j <= j /\ j <= jup nb j <= ny
        /\ (j < ny -> jdown nb (jup nb j) = j)
        /\ (1 < j -> jup nb (jdown nb j) = j)
        /\ (1 < ny -> jdown nb (jup nb ny) = ny - 1 /\ jup nb (jdown nb 1) = 2)).
Proof.
  intros Hx Hy nb; subst nb; split; intros k Hk.
  - rewrite (iup_values junk nx ny k), (idown_values junk nx ny k) by lia.
    rewrite (iup_values junk nx ny nx), (idown_values junk nx ny 1) by lia.
    rewrite Z.eqb_refl; change (1 =? 1) with true; cbv iota.
    destruct (Z.eqb_spec k nx), (Z.eqb_spec k 1);
      repeat split; intros; try lia;
      repeat first [ rewrite idown_values by lia | rewrite iup_values by lia ];
      repeat match goal with
        | |- context [?a =? ?b] => destruct (Z.eqb_spec a b); try lia
        end; try lia.
  - rewrite (jup_values junk nx ny k), (jdown_values junk nx ny k) by lia.
    rewrite (jup_values junk nx ny ny), (jdown_values junk nx ny 1) by lia.
    rewrite Z.eqb_refl; change (1 =? 1) with true; cbv iota.
    destruct (Z.eqb_spec k ny), (Z.eqb_spec k 1);
      repeat split; intros; try lia;
      repeat first [ rewrite jdown_values by lia | rewrite jup_values by lia ];
      repeat match goal with
        | |- context [?a =? ?b] => destruct (Z.eqb_spec a b); try lia
        end; try lia.
Qed.

(** ** Sink/flat elimination: what a call may change *)

Section FillClosure.

Variable junk : ivector.
Variables nx ny : Z.
Variable nodata : R.
Variable min_junk : R.

Let nb := setupgridneighbors junk nx ny.

(** A relation between lattices that holds across every raise, and is
    reflexive and transitive, holds across every call and across the
    pass. *)
Variable Rel : matrix -> matrix -> Prop.
Hypothesis Rel_refl : forall t, Rel t t.
Hypothesis Rel_trans : forall t1 t2 t3, Rel t1 t2 -> Rel t2 t3 -> Rel t1 t3.
Hypothesis Rel_raise :
  forall topo i j,
    is_pit nb nx ny nodata min_junk topo i j = true ->
    Rel topo (mset topo i j (topo i j + fillincrement)).

Lemma fill_closure :
  forall (fuel : nat) (topo : matrix) (i j : Z) (topo' : matrix),
    fillinpitsandflats nb nx ny nodata min_junk fuel topo i j = Some topo' ->
    Rel topo topo'.
Proof.
  induction fuel as [|fuel IH]; intros topo i j topo' Hrun; [discriminate|].
  cbn [fillinpitsandflats] in Hrun; cbv zeta in Hrun.
  destruct (is_pit nb nx ny nodata min_junk topo i j) eqn:Hpit.
  2:{ injection Hrun as <-; apply Rel_refl. }
  pose proof (raise_amount junk nx ny nodata min_junk topo i j Hpit) as Hamt.
  fold nb in Hamt; rewrite Hamt in Hrun; clear Hamt.
  apply Rel_trans with (mset topo i j (topo i j + fillincrement));
    [apply Rel_raise; exact Hpit|].
  repeat match type of Hrun with
    | bind (fillinpitsandflats _ _ _ _ _ fuel ?t ?a ?b) _ = Some _ =>
        let E := fresh "E" in
        destruct (fillinpitsandflats nb nx ny nodata min_junk fuel t a b)
          as [?|] eqn:E; [|discriminate];
        apply IH in E; cbn [bind] in Hrun;
        eapply Rel_trans; [exact E|]
    end.
  apply IH in Hrun; exact Hrun.
Qed.

Lemma fill_pass_closure (fuel : nat) (topo topo' : matrix) :
  fill_pass nb nx ny nodata min_junk fuel topo = Some topo' -> Rel topo topo'.
Proof.
  intros Hrun; unfold fill_pass in Hrun.
  pose (Inv := fun (_ : Z) (t : matrix) => Rel topo t).
  refine (for_loopM_invariant Inv _ 1 ny topo topo' _ _ Hrun).
  - apply Rel_refl.
  - intros j s1 s2 _ Hs1 Hrow.
    refine (for_loopM_invariant Inv _ 1 nx s1 s2 Hs1 _ Hrow).
    intros i t1 t2 _ Ht1 Hcall.
    apply Rel_trans with t1; [exact Ht1 | eapply fill_closure; exact Hcall].
Qed.

End FillClosure.

(** A cell keeps the value [nodata], and every elevation moves by a whole
    number of increments. *)
Definition raised_by_increments (nodata : R) (t t' : matrix) : Prop :=
  forall a b,
    (t a b = nodata -> t' a b = nodata)
    /\ exists k : nat, t' a b = (t a b + INR k * fillincrement)%R.

Lemma raised_by_increments_refl (nodata : R) (t : matrix) :
  raised_by_increments nodata t t.
Proof. intros a b; split; auto; exists 0%nat; simpl; lra. Qed.

Lemma raised_by_increments_trans (nodata : R) (t1 t2 t3 : matrix) :
  raised_by_increments nodata t1 t2 -> raised_by_increments nodata t2 t3 ->
  raised_by_increments nodata t1 t3.
Proof.
  intros H12 H23 a b.
  destruct (H12 a b) as [N1 [k1 E1]], (H23 a b) as [N2 [k2 E2]].
  split; [auto|].
  exists (k1 + k2)%nat; rewrite E2, E1, plus_INR; lra.
Qed.

Lemma raised_by_increments_raise (junk : ivector) (nx ny : Z)
      (nodata min_junk : R) (topo : matrix) (i j : Z) :
  is_pit (setupgridneighbors junk nx ny) nx ny nodata min_junk topo i j = true ->
  raised_by_increments nodata topo (mset topo i j (topo i j + fillincrement)).
Proof.
  intros Hpit a b; apply is_pit_true in Hpit as (_ & Hvalid & _).
  destruct (Z.eq_dec a i) as [->|Ha], (Z.eq_dec b j) as [->|Hb];
    try (rewrite mset_other by auto; split; auto; exists 0%nat; simpl; lra).
  rewrite mset_same; split; [contradiction|].
  exists 1%nat; simpl; lra.
Qed.

Lemma fill_pass_raised_by_increments (junk : ivector) (nx ny : Z)
      (nodata min_junk : R) (fuel : nat) (topo topo' : matrix) :
  fill_pass (setupgridneighbors junk nx ny) nx ny nodata min_junk fuel topo
  = Some topo' ->
  raised_by_increments nodata topo topo'.
Proof.
  intros Hrun.
  apply (fill_pass_closure junk nx ny nodata min_junk
           (raised_by_increments nodata)) in Hrun.
  - exact Hrun.
  - apply raised_by_increments_refl.
  - apply raised_by_increments_trans.
  - apply raised_by_increments_raise.
Qed.

(** X2.  The pass of [fillinpitsandflats] leaves every cell that holds
    [nodata] at [nodata], and moves every other elevation up by a whole
    number of increments of 0.01 (zero for a cell it never raises). *)
Theorem fill_pass_whole_increments (junk : ivector) (nx ny : Z)
        (nodata min_junk : R) (fuel : nat) (topo topo' : matrix) :
  fill_pass (setupgridneighbors junk nx ny) nx ny nodata min_junk fuel topo
  = Some topo' ->
  forall i j,
    (topo i j = nodata -> topo' i j = nodata)
    /\ exists k : nat, topo' i j = (topo i j + INR k * 0.01)%R.
Proof.
  intros Hrun i j.
  exact (fill_pass_raised_by_increments junk nx ny nodata min_junk fuel
           topo topo' Hrun i j).
Qed.

(** X3.  A call raises its cell exactly when the cell is interior, holds
    data and has no neighbor with data strictly below it: any other call
    returns the lattice as it is, and a call that returns after a raise
    leaves the cell at least 0.01 higher. *)
Theorem fill_raises_exactly_pits (junk : ivector) (nx ny : Z)
        (nodata min_junk : R) (fuel : nat) (topo : matrix) (i j : Z) :
  let nb := setupgridneighbors junk nx ny in
  let pit :=
    interior nx ny i j /\ topo i j <> nodata
    /\ forall a b, In (a, b) (neighbors8 i j) -> topo a b <> nodata ->
                   (topo i j <= topo a b)%R in
  (~ pit ->
   fillinpitsandflats nb nx ny nodata min_junk (S fuel) topo i j = Some topo)
  /\ (pit ->
      forall topo',
        fillinpitsandflats nb nx ny nodata min_junk (S fuel) topo i j
        = Some topo' ->
        (topo i j + 0.01 <= topo' i j)%R).
Proof.
  intros nb pit; split.
  - intros Hnot; apply fill_not_pit.
    destruct (is_pit _ _ _ _ _ topo i j) eqn:E; [|reflexivity].
    apply is_pit_iff in E; contradiction.
  - intros Hpit topo' Hrun.
    unfold pit in Hpit.
    apply (is_pit_iff junk nx ny nodata min_junk) in Hpit; fold nb in Hpit.
    cbn [fillinpitsandflats] in Hrun; cbv zeta in Hrun.
    fold nb in Hrun; rewrite Hpit in Hrun.
    pose proof Hpit as Hamt; unfold nb in Hamt.
    apply (raise_amount junk nx ny nodata min_junk topo i j) in Hamt.
    fold nb in Hamt; rewrite Hamt in Hrun; clear Hamt.
    assert (Hmono : forall t t' a b,
               fillinpitsandflats nb nx ny nodata min_junk fuel t a b = Some t' ->
               (t i j <= t' i j)%R).
    { intros t t' a b H; apply fill_invariant in H as [_ (_ & Hm & _)]; apply Hm. }
    repeat match type of Hrun with
      | bind (fillinpitsandflats _ _ _ _ _ fuel ?t ?a ?b) _ = Some _ =>
          let E := fresh "E" in
          destruct (fillinpitsandflats nb nx ny nodata min_junk fuel t a b)
            as [?|] eqn:E; [|discriminate];
          apply Hmono in E; cbn [bind] in Hrun
      end.
    apply Hmono in Hrun.
    rewrite mset_same in *; unfold fillincrement in *; lra.
Qed.

(** ** Routing: where the flow of a visit goes *)

Section VisitProperties.

Variable nb : neighbors.
Variable topo : matrix.
Variable nodata : R.

Lemma mfd_fraction_range (st : flows) (i j : Z) (d : direction) :
  (0 <= fraction (mfdflowroute nb topo nodata st i j) d i j <= 1)%R.
Proof.
  rewrite mfd_fraction_value.
  destruct (Reqb (topo i j) nodata); [lra|].
  destruct (lower_target nb topo nodata i j d) eqn:Hd; [|lra].
  pose proof (sum8_pos nb topo nodata i j d Hd) as Hpos.
  pose proof (slope_proxy_pos nb topo nodata i j d Hd) as Hp.
  assert (Hle : (slope_proxy nb topo nodata i j d
                 <= sum8 (slope_proxy nb topo nodata i j))%R).
  { pose proof (slope_proxy_nonneg nb topo nodata i j D1).
    pose proof (slope_proxy_nonneg nb topo nodata i j D2).
    pose proof (slope_proxy_nonneg nb topo nodata i j D3).
    pose proof (slope_proxy_nonneg nb topo nodata i j D4).
    pose proof (slope_proxy_nonneg nb topo nodata i j D5).
    pose proof (slope_proxy_nonneg nb topo nodata i j D6).
    pose proof (slope_proxy_nonneg nb topo nodata i j D7).
    pose proof (slope_proxy_nonneg nb topo nodata i j D8).
    unfold sum8; destruct d; lra. }
  split.
  - apply Rlt_le, Rdiv_lt_0_compat; lra.
  - apply Rmult_le_reg_r with (sum8 (slope_proxy nb topo nodata i j)); [lra|].
    unfold Rdiv; rewrite Rmult_assoc, Rinv_l; lra.
Qed.

Lemma mfd_fraction_positive_iff (st : flows) (i j : Z) (d : direction) :
  (0 < fraction (mfdflowroute nb topo nodata st i j) d i j)%R
  <-> topo i j <> nodata /\ lower_target nb topo nodata i j d = true.
Proof.
  rewrite mfd_fraction_value.
  destruct (Reqb (topo i j) nodata) eqn:Ev; rbool.
  - split; [lra | intros [H _]; contradiction].
  - destruct (lower_target nb topo nodata i j d) eqn:Hd.
    + split; [auto|intros _].
      apply Rdiv_lt_0_compat;
        [apply slope_proxy_pos; exact Hd | eapply sum8_pos; exact Hd].
    + split; [lra | intros [_ H]; discriminate].
Qed.

(** One update [flow[a][b] += flow[i][j] * f] with [f = 0] for the cell
    itself: the cell keeps its flow, and no other cell loses flow when the
    product is not negative. *)
Lemma pour_value (i j : Z) (fl : matrix) (ab : Z * Z) (f : R) :
  (ab = (i, j) -> f = 0%R) ->
  pour i j fl ab f i j = fl i j
  /\ forall a b,
       pour i j fl ab f a b
       = if (a =? fst ab) && (b =? snd ab) then (fl a b + fl i j * f)%R
         else fl a b.
Proof.
  intros Hself; destruct ab as [a' b']; cbn [fst snd]; split.
  - unfold pour, madd, mset; cbn [fst snd].
    destruct (Z.eqb_spec i a') as [->|], (Z.eqb_spec j b') as [->|];
      cbn [andb]; try reflexivity.
    rewrite (Hself eq_refl); lra.
  - intros a b; unfold pour, madd, mset; cbn [fst snd].
    destruct (Z.eqb_spec a a') as [->|], (Z.eqb_spec b b') as [->|];
      cbn [andb]; reflexivity.
Qed.

Lemma fraction_self_any (st : flows) (i j : Z) (d : direction) :
  target nb i j d = (i, j) ->
  fraction (mfdflowroute nb topo nodata st i j) d i j = 0%R.
Proof.
  intros E; rewrite mfd_fraction_value.
  assert (Hl : lower_target nb topo nodata i j d = false).
  { unfold lower_target, downhill; rewrite E; cbn [fst snd].
    apply andb_false_iff; left; rbool; lra. }
  rewrite Hl; now destruct (Reqb (topo i j) nodata).
Qed.

Lemma mfd_flow_chain_any (st : flows) (i j : Z) :
  let st' := mfdflowroute nb topo nodata st i j in
  flow st'
  = pour i j (pour i j (pour i j (pour i j (pour i j (pour i j (pour i j
      (pour i j (flow st)
         (target nb i j D1) (fraction st' D1 i j))
         (target nb i j D2) (fraction st' D2 i j))
         (target nb i j D3) (fraction st' D3 i j))
         (target nb i j D4) (fraction st' D4 i j))
         (target nb i j D5) (fraction st' D5 i j))
         (target nb i j D6) (fraction st' D6 i j))
         (target nb i j D7) (fraction st' D7 i j))
         (target nb i j D8) (fraction st' D8 i j).
Proof.
  intros st'; subst st'; unfold mfdflowroute.
  destruct (Reqb (topo i j) nodata); reflexivity.
Qed.

(** The flow of a cell after a visit to [(i, j)]: what it had, plus the
    share of each direction that points to it. *)
Lemma mfd_flow_after (st : flows) (i j a b : Z) :
  let st' := mfdflowroute nb topo nodata st i j in
  let share := fun d =>
    if (a =? fst (target nb i j d)) && (b =? snd (target nb i j d))
    then (flow st i j * fraction st' d i j)%R else 0%R in
  flow st' a b = (flow st a b + sum8 share)%R.
Proof.
  intros st' share.
  pose proof (mfd_flow_chain_any st i j) as Hc; cbv zeta in Hc; fold st' in Hc.
  rewrite Hc; clear Hc.
  set (F := flow st i j).
  assert (Hstep : forall fl d,
             fl i j = F ->
             pour i j fl (target nb i j d) (fraction st' d i j) i j = F
             /\ pour i j fl (target nb i j d) (fraction st' d i j) a b
                = (fl a b + share d)%R).
  { intros fl d HF.
    destruct (pour_value i j fl (target nb i j d) (fraction st' d i j))
      as [Hv Hab].
    - intros E; apply fraction_self_any; exact E.
    - split; [rewrite Hv; exact HF|].
      rewrite Hab; unfold share; rewrite HF.
      destruct ((a =? fst (target nb i j d)) && (b =? snd (target nb i j d)));
        unfold F; lra. }
  destruct (Hstep (flow st) D1 eq_refl) as [V1 T1].
  destruct (Hstep _ D2 V1) as [V2 T2]. destruct (Hstep _ D3 V2) as [V3 T3].
  destruct (Hstep _ D4 V3) as [V4 T4]. destruct (Hstep _ D5 V4) as [V5 T5].
  destruct (Hstep _ D6 V5) as [V6 T6]. destruct (Hstep _ D7 V6) as [V7 T7].
  destruct (Hstep _ D8 V7) as [V8 T8].
  rewrite T8, T7, T6, T5, T4, T3, T2, T1; unfold sum8; ring.
Qed.

(** Either some direction points to the cell with a fraction that is not
    zero, or every share of the cell is zero. *)
Lemma classic_share (st' : flows) (i j a b : Z) :
  (exists d,
      ((a =? fst (target nb i j d)) && (b =? snd (target nb i j d))) = true
      /\ fraction st' d i j <> 0%R)
  \/ (forall (F : R) (d : direction),
        (if (a =? fst (target nb i j d)) && (b =? snd (target nb i j d))
         then (F * fraction st' d i j)%R else 0%R) = 0%R).
Proof.
  assert (Hd : forall d,
             (((a =? fst (target nb i j d)) && (b =? snd (target nb i j d))) = true
              /\ fraction st' d i j <> 0%R)
             \/ (forall F : R,
                   (if (a =? fst (target nb i j d)) && (b =? snd (target nb i j d))
                    then (F * fraction st' d i j)%R else 0%R) = 0%R)).
  { intros d.
    destruct ((a =? fst (target nb i j d)) && (b =? snd (target nb i j d)));
      [|right; reflexivity].
    destruct (Req_dec_T (fraction st' d i j) 0) as [E|E];
      [right; intros F; rewrite E; lra | left; auto]. }
  destruct (Hd D1) as [H1|H1]; [left; exists D1; exact H1|].
  destruct (Hd D2) as [H2|H2]; [left; exists D2; exact H2|].
  destruct (Hd D3) as [H3|H3]; [left; exists D3; exact H3|].
  destruct (Hd D4) as [H4|H4]; [left; exists D4; exact H4|].
  destruct (Hd D5) as [H5|H5]; [left; exists D5; exact H5|].
  destruct (Hd D6) as [H6|H6]; [left; exists D6; exact H6|].
  destruct (Hd D7) as [H7|H7]; [left; exists D7; exact H7|].
  destruct (Hd D8) as [H8|H8]; [left; exists D8; exact H8|].
  right; intros F d; destruct d; auto.
Qed.

(** A visit moves flow to strictly lower neighbors with data only. *)
Lemma mfd_flow_changes_downhill (st : flows) (i j a b : Z) :
  flow (mfdflowroute nb topo nodata st i j) a b <> flow st a b ->
  topo i j <> nodata
  /\ exists d, target nb i j d = (a, b)
               /\ lower_target nb topo nodata i j d = true.
Proof.
  intros Hneq.
  pose proof (mfd_flow_after st i j a b) as Hflow; cbv zeta in Hflow.
  set (st' := mfdflowroute nb topo nodata st i j) in *.
  assert (Hex : exists d,
             ((a =? fst (target nb i j d)) && (b =? snd (target nb i j d))) = true
             /\ fraction st' d i j <> 0%R).
  { destruct (classic_share st' i j a b) as [H | H]; [exact H|].
    exfalso; apply Hneq; rewrite Hflow.
    unfold sum8; rewrite !H; lra. }
  destruct Hex as (d & Hd & Hf).
  apply andb_true_iff in Hd as [Ha Hb]; apply Z.eqb_eq in Ha, Hb.
  assert (Hpos : (0 < fraction st' d i j)%R).
  { pose proof (mfd_fraction_range st i j d) as Hr; fold st' in Hr; lra. }
  apply mfd_fraction_positive_iff in Hpos as [Hv Hl].
  split; [exact Hv|]; exists d; split; [|exact Hl].
  destruct (target nb i j d); cbn [fst snd] in *; congruence.
Qed.

End VisitProperties.

(** X4.  The eight fractions that a visit writes are shares: each lies
    between 0 and 1, and a fraction is positive exactly when the visited cell
    holds data and the neighbor in that direction is strictly lower and
    holds data.  For a cell with data the eight fractions add up to 1 as
    soon as one neighbor is such; they add up to 0 for a cell without data
    and for a cell without such a neighbor. *)
Theorem mfd_fractions_are_shares (nb : neighbors) (topo : matrix) (nodata : R)
        (st : flows) (i j : Z) (d : direction) :
  let a := fst (target nb i j d) in
  let b := snd (target nb i j d) in
  let st' := mfdflowroute nb topo nodata st i j in
  let f := fraction st' d i j in
  let lower := fun d' : direction =>
    (topo (fst (target nb i j d')) (snd (target nb i j d')) < topo i j)%R
    /\ topo (fst (target nb i j d')) (snd (target nb i j d')) <> nodata in
  (0 <= f <= 1)%R
  /\ ((0 < f)%R
      <-> topo i j <> nodata /\ (topo a b < topo i j)%R /\ topo a b <> nodata)
  /\ (topo i j <> nodata -> (exists d', lower d') ->
      sum8 (fun d' => fraction st' d' i j) = 1%R)
  /\ (topo i j = nodata \/ (forall d', ~ lower d') ->
      sum8 (fun d' => fraction st' d' i j) = 0%R).
Proof.
  intros a b st' f lower.
  assert (Hlow : forall d', lower_target nb topo nodata i j d' = true
                            <-> lower d').
  { intros d'; unfold lower_target, downhill, lower.
    rewrite andb_true_iff, Rltb_true, Rneb_true; tauto. }
  split; [apply mfd_fraction_range|].
  split; [|split].
  - unfold f, st'; rewrite mfd_fraction_positive_iff, Hlow.
    unfold lower; fold a b; tauto.
  - intros Hdata (d' & Hd').
    apply (mfd_fractions_sum nb topo nodata st i j d' Hdata).
    apply Hlow; exact Hd'.
  - intros H.
    assert (Hz : forall d', fraction st' d' i j = 0%R).
    { apply mfd_fractions_zero.
      destruct H as [H | H]; [left; exact H | right; intros d'].
      destruct (lower_target nb topo nodata i j d') eqn:E; [|reflexivity].
      exfalso; apply (H d'), Hlow; exact E. }
    unfold sum8; rewrite !Hz; lra.
Qed.

(** The middle cell of [slope_dem] has a lower neighbor in direction 1. *)
Lemma mfd_fractions_are_shares_witness :
  sum8 (fun d' =>
          fraction (mfdflowroute (setupgridneighbors (fun _ => 0) 3 3) slope_dem
                      (-9999) no_flows 2 2) d' 2 2) = 1%R.
Proof.
  destruct (mfd_fractions_are_shares (setupgridneighbors (fun _ => 0) 3 3)
              slope_dem (-9999) no_flows 2 2 D1) as (_ & _ & Hsum & _).
  apply Hsum.
  - unfold slope_dem; simpl; lra.
  - exists D1.
    pose proof (slope_dem_lower D1) as H.
    unfold lower_target, downhill in H.
    apply andb_true_iff in H as [H1 H2].
    apply Rltb_true in H1; apply Rneb_true in H2; split; assumption.
Defined.

Lemma mfd_visit_flow (nb : neighbors) (topo : matrix) (nodata : R)
        (st : flows) (i j : Z) :
  let st' := mfdflowroute nb topo nodata st i j in
  (forall a b,
      flow st' a b <> flow st a b ->
      topo i j <> nodata
      /\ (topo a b < topo i j)%R /\ topo a b <> nodata
      /\ exists d, target nb i j d = (a, b))
  /\ flow st' i j = flow st i j
  /\ (forall a b, topo a b = nodata -> flow st' a b = flow st a b)
  /\ ((0 <= flow st i j)%R -> forall a b, (flow st a b <= flow st' a b)%R).
Proof.
  intros st'.
  assert (H1 : forall a b,
             flow st' a b <> flow st a b ->
             topo i j <> nodata
             /\ (topo a b < topo i j)%R /\ topo a b <> nodata
             /\ exists d, target nb i j d = (a, b)).
  { intros a b Hneq.
    apply mfd_flow_changes_downhill in Hneq as (Hv & d & Ht & Hl).
    unfold lower_target, downhill in Hl; rewrite Ht in Hl; cbn [fst snd] in Hl.
    apply andb_true_iff in Hl as [Hlt Hne]; rbool.
    repeat split; auto; exists d; exact Ht. }
  split; [exact H1 | split; [|split]].
  - destruct (Req_dec_T (flow st' i j) (flow st i j)) as [E|E]; [exact E|].
    apply H1 in E as (_ & Hlt & _); lra.
  - intros a b Hnd.
    destruct (Req_dec_T (flow st' a b) (flow st a b)) as [E|E]; [exact E|].
    apply H1 in E as (_ & _ & Hne & _); contradiction.
  - intros Hpos a b.
    pose proof (mfd_flow_after nb topo nodata st i j a b) as Hflow.
    cbv zeta in Hflow; fold st' in Hflow; rewrite Hflow.
    assert (Hs : forall d,
               (0 <= (if (a =? fst (target nb i j d)) && (b =? snd (target nb i j d))
                      then flow st i j * fraction st' d i j else 0))%R).
    { intros d; destruct (_ && _); [|lra].
      pose proof (mfd_fraction_range nb topo nodata st i j d) as Hr.
      fold st' in Hr; nra. }
    pose proof (Hs D1); pose proof (Hs D2); pose proof (Hs D3); pose proof (Hs D4).
    pose proof (Hs D5); pose proof (Hs D6); pose proof (Hs D7); pose proof (Hs D8).
    unfold sum8; lra.
Qed.

(** X5.  A visit changes the flow of a cell only if that cell is a neighbor
    of the visited cell, strictly lower, with data, and the visited cell
    holds data; in particular it never changes the flow of the visited cell
    or of a cell without data.  When the flow of the visited cell is not
    negative, no cell loses flow. *)
Theorem mfd_routes_downhill_only (nb : neighbors) (topo : matrix) (nodata : R)
        (st : flows) (i j : Z) :
  let st' := mfdflowroute nb topo nodata st i j in
  (forall a b,
      flow st' a b <> flow st a b ->
      topo i j <> nodata
      /\ (topo a b < topo i j)%R /\ topo a b <> nodata
      /\ exists d, target nb i j d = (a, b))
  /\ flow st' i j = flow st i j
  /\ (forall a b, topo a b = nodata -> flow st' a b = flow st a b)
  /\ ((0 <= flow st i j)%R -> forall a b, (flow st a b <= flow st' a b)%R).
Proof. exact (mfd_visit_flow nb topo nodata st i j). Qed.

(** ** The sweep of [fillin] *)

Lemma for_down_invariant {St : Type} (Inv : St -> Prop) (body : Z -> St -> St) :
  forall (n : nat) (s : St),
    Inv s ->
    (forall t s, 1 <= t <= Z.of_nat n -> Inv s -> Inv (body t s)) ->
    Inv (for_down n body s).
Proof.
  induction n as [|n IH]; intros s H0 Hstep; cbn [for_down]; [exact H0|].
  apply IH.
  - apply Hstep; [lia | exact H0].
  - intros t s' Ht; apply Hstep; lia.
Qed.

(** The rank of a cell in [topovec] and the cell of a rank. *)
Lemma sweep_cell_decode (nx ny : Z) (topovecind : ivector) (t : Z) :
  1 <= nx -> 1 <= topovecind t <= nx * ny ->
  let i := fst (sweep_cell nx topovecind t) in
  let j := snd (sweep_cell nx topovecind t) in
  1 <= i <= nx /\ 1 <= j <= ny /\ (j - 1) * nx + i = topovecind t.
Proof.
  intros Hx Hind; unfold sweep_cell; cbv zeta.
  set (ind := topovecind t) in *.
  rewrite Z.rem_mod_nonneg, Z.quot_div_nonneg by lia.
  pose proof (Z.div_mod ind nx) as Hdm.
  pose proof (Z.mod_pos_bound ind nx) as Hm.
  set (q := ind / nx) in *; set (r := ind mod nx) in *.
  destruct (Z.eqb_spec r 0) as [Hr|Hr]; cbn [fst snd].
  - rewrite Z.eqb_refl; cbn [fst snd]. nia.
  - destruct (Z.eqb_spec r nx); cbn [fst snd]; nia.
Qed.

Lemma sweep_cell_encode (nx : Z) (topovecind : ivector) (t i j : Z) :
  1 <= i <= nx -> 1 <= j ->
  topovecind t = (j - 1) * nx + i ->
  sweep_cell nx topovecind t = (i, j).
Proof.
  intros Hi Hj Hind.
  assert (Hrange : 1 <= topovecind t <= nx * j) by nia.
  destruct (sweep_cell_decode nx j topovecind t) as (Hi' & Hj' & E); [lia | lia|].
  destruct (sweep_cell nx topovecind t) as [i' j']; cbn [fst snd] in *.
  assert (j' = j) by nia.
  f_equal; nia.
Qed.

(** X6.  The sweep finds the cell of a rank by the inverse of the numbering
    [(j-1)*size_x + i] that fills [topovec]: a rank that numbers the cell
    [(i, j)] of the lattice is decoded to [(i, j)], and every rank between 1
    and [size_x * size_y] is decoded to a cell of the lattice that carries
    this number. *)
Theorem sweep_cell_round_trip (nx ny : Z) (topovecind : ivector) (t : Z) :
  1 <= nx ->
  (forall i j, 1 <= i <= nx -> 1 <= j ->
               topovecind t = (j - 1) * nx + i ->
               sweep_cell nx topovecind t = (i, j))
  /\ (1 <= topovecind t <= nx * ny ->
      let i := fst (sweep_cell nx topovecind t) in
      let j := snd (sweep_cell nx topovecind t) in
      1 <= i <= nx /\ 1 <= j <= ny /\ (j - 1) * nx + i = topovecind t).
Proof.
  intros Hx; split.
  - intros i j Hi Hj E; apply sweep_cell_encode; auto.
  - intros Hind; apply sweep_cell_decode; auto.
Qed.

Lemma sweep_cell_round_trip_witness :
  sweep_cell 3 (fun _ => 5) 1 = (2, 2).
Proof.
  destruct (sweep_cell_round_trip 3 2 (fun _ => 5) 1) as [H _]; [lia|].
  apply H; lia.
Defined.

(** What the sweep keeps: on the lattice, a flow of at least [area] in
    every cell, and of [area] exactly in a cell without data. *)
Definition flow_bounds (nx ny : Z) (topo : matrix) (nodata area : R)
           (st : flows) : Prop :=
  forall a b, 1 <= a <= nx -> 1 <= b <= ny ->
    (area <= flow st a b)%R /\ (topo a b = nodata -> flow st a b = area).

Lemma mfdflowroute_flow_bounds (nb : neighbors) (nx ny : Z) (topo : matrix)
      (nodata area : R) (st : flows) (i j : Z) :
  (0 <= area)%R -> 1 <= i <= nx -> 1 <= j <= ny ->
  flow_bounds nx ny topo nodata area st ->
  flow_bounds nx ny topo nodata area (mfdflowroute nb topo nodata st i j).
Proof.
  intros Harea Hi Hj Hst a b Ha Hb.
  destruct (Hst a b Ha Hb) as [Hge Hnd], (Hst i j Hi Hj) as [Hij _].
  destruct (mfd_visit_flow nb topo nodata st i j) as (_ & _ & Hkeep & Hmono).
  split.
  - specialize (Hmono ltac:(lra) a b); lra.
  - intros E; rewrite Hkeep by exact E; auto.
Qed.

Lemma routing_sweep_flow_bounds (nb : neighbors) (nx ny : Z) (topo : matrix)
      (nodata area : R) (topovecind : ivector) (st : flows) :
  (0 <= area)%R -> 1 <= nx ->
  (forall t, 1 <= t <= nx * ny -> 1 <= topovecind t <= nx * ny) ->
  flow_bounds nx ny topo nodata area st ->
  flow_bounds nx ny topo nodata area
    (routing_sweep nx ny nb topo nodata topovecind st).
Proof.
  intros Harea Hx Htab Hst; unfold routing_sweep.
  apply for_down_invariant; [exact Hst|].
  intros t s Ht Hs.
  destruct (sweep_cell_decode nx ny topovecind t Hx) as (Hi & Hj & _);
    [apply Htab; lia|].
  destruct (sweep_cell nx topovecind t) as [i j]; cbn [fst snd] in *.
  apply mfdflowroute_flow_bounds; auto.
Qed.

(** Two nested loops that write a value into every cell of a range of a
    field of the state. *)
Lemma for_loop2_spec {St : Type} (get : St -> Z -> Z -> R) (val : Z -> Z -> R)
      (body : Z -> Z -> St -> St) (lo1 hi1 lo2 hi2 : Z) (s : St) :
  (forall i j s, get (body i j s) i j = val i j) ->
  (forall i j s a b, a <> i \/ b <> j -> get (body i j s) a b = get s a b) ->
  forall a b,
    get (for_loop lo1 hi1 (fun i s => for_loop lo2 hi2 (body i) s) s) a b
    = if (lo1 <=? a) && (a <=? hi1) && (lo2 <=? b) && (b <=? hi2)
      then val a b else get s a b.
Proof.
  intros Hset Hother a b.
  pose (written := fun (a' b' : Z) =>
     (lo1 <=? a') && (a' <=? hi1) && (lo2 <=? b') && (b' <=? hi2)).
  pose (Row := fun (i hi : Z) (t : St) =>
     get t a b
     = if written a b && ((a <? i) || ((a =? i) && (b <? hi)))
       then val a b else get s a b).
  pose (Inv := fun (hi : Z) (t : St) =>
     get t a b = if written a b && (a <? hi) then val a b else get s a b).
  assert (H : Inv (Z.max lo1 (hi1 + 1))
                (for_loop lo1 hi1 (fun i s => for_loop lo2 hi2 (body i) s) s)).
  { apply for_loop_invariant.
    - unfold Inv, written.
      destruct (Z.leb_spec lo1 a), (Z.ltb_spec a lo1); cbn [andb];
        rewrite ?andb_false_r; try reflexivity; lia.
    - intros i t Hi Ht.
      assert (Hr : Row i (Z.max lo2 (hi2 + 1)) (for_loop lo2 hi2 (body i) t)).
      { apply for_loop_invariant.
        - unfold Row, Inv in *; rewrite Ht; unfold written.
          destruct (Z.ltb_spec a i), (Z.eqb_spec a i), (Z.ltb_spec b lo2),
            (Z.leb_spec lo2 b); cbn [andb orb];
            rewrite ?andb_false_r, ?andb_true_r; try reflexivity; lia.
        - intros j u Hj Hu; unfold Row in *.
          destruct (Z.eq_dec a i) as [->|Ha], (Z.eq_dec b j) as [->|Hb].
          + rewrite Hset; unfold written.
            replace (lo1 <=? i) with true by (symmetry; apply Z.leb_le; lia).
            replace (i <=? hi1) with true by (symmetry; apply Z.leb_le; lia).
            replace (lo2 <=? j) with true by (symmetry; apply Z.leb_le; lia).
            replace (j <=? hi2) with true by (symmetry; apply Z.leb_le; lia).
            rewrite Z.eqb_refl.
            replace (j <? j + 1) with true by (symmetry; apply Z.ltb_lt; lia).
            cbn [andb orb]; rewrite orb_true_r; reflexivity.
          + rewrite Hother, Hu by auto.
            rewrite Z.eqb_refl; cbn [andb].
            destruct (Z.ltb_spec b j), (Z.ltb_spec b (j + 1)); try reflexivity; lia.
          + rewrite Hother, Hu by auto.
            replace (a =? i) with false by (symmetry; apply Z.eqb_neq; lia).
            reflexivity.
          + rewrite Hother, Hu by auto.
            replace (a =? i) with false by (symmetry; apply Z.eqb_neq; lia).
            reflexivity. }
      unfold Row, Inv in *; rewrite Hr; unfold written.
      destruct (Z.ltb_spec a i), (Z.eqb_spec a i), (Z.ltb_spec a (i + 1)),
        (Z.ltb_spec b (Z.max lo2 (hi2 + 1))), (Z.leb_spec b hi2),
        (Z.leb_spec lo2 b); cbn [andb orb];
        rewrite ?andb_false_r, ?andb_true_r; try reflexivity; lia. }
  unfold Inv, written in H; rewrite H.
  destruct (Z.ltb_spec a (Z.max lo1 (hi1 + 1))), (Z.leb_spec a hi1),
    (Z.leb_spec lo1 a); cbn [andb];
    rewrite ?andb_false_r, ?andb_true_r; try reflexivity; lia.
Qed.

Lemma main_read_dem_spec (columns rows : Z) (nodata : R) (raw : matrix) (i j : Z) :
  main_read_dem columns rows nodata raw i j
  = if (0 <=? i) && (i <=? rows - 1) && (0 <=? j) && (j <=? columns - 1)
    then (if Rltb (raw i j) 0 then nodata else raw i j)
    else 0%R.
Proof.
  unfold main_read_dem.
  apply (for_loop2_spec (fun (dem : matrix) => dem)
           (fun i j => if Rltb (raw i j) 0 then nodata else raw i j)
           (fun i j dem =>
              let dem := mset dem i j (raw i j) in
              if Rltb (dem i j) 0 then mset dem i j nodata else dem)).
  - intros a b s; cbv zeta; rewrite mset_same.
    destruct (Rltb (raw a b) 0); now rewrite mset_same.
  - intros a b s a' b' Hne; cbv zeta; rewrite mset_same.
    destruct (Rltb (raw a b) 0); now rewrite !mset_other by auto.
Qed.

Lemma main_copy_back_spec (columns rows : Z) (topo flow dem flowacc : matrix)
      (i j : Z) :
  0 <= i < rows -> 0 <= j < columns ->
  fst (main_copy_back columns rows topo flow (dem, flowacc)) i j
  = topo (j + 1) (i + 1)
  /\ snd (main_copy_back columns rows topo flow (dem, flowacc)) i j
     = flow (j + 1) (i + 1).
Proof.
  intros Hi Hj; unfold main_copy_back.
  set (body := fun (i j : Z) '(dem, flowacc) =>
     (mset dem i j (topo (j + 1) (i + 1)),
      mset (flowacc : matrix) i j (flow (j + 1) (i + 1)))).
  assert (Hin : (0 <=? i) && (i <=? rows - 1) && (0 <=? j) && (j <=? columns - 1)
                = true).
  { rewrite !andb_true_iff, !Z.leb_le; lia. }
  split.
  - rewrite (for_loop2_spec (fun s : matrix * matrix => fst s)
               (fun i j => topo (j + 1) (i + 1)) body).
    + now rewrite Hin.
    + intros a b [d f]; cbn; apply mset_same.
    + intros a b [d f] a' b' Hne; cbn; now apply mset_other.
  - rewrite (for_loop2_spec (fun s : matrix * matrix => snd s)
               (fun i j => flow (j + 1) (i + 1)) body).
    + now rewrite Hin.
    + intros a b [d f]; cbn; apply mset_same.
    + intros a b [d f] a' b' Hne; cbn; now apply mset_other.
Qed.

(** ** [fillin] and [main]: from the file to the filled grid *)

Lemma fillin_inv (dem : matrix) (nx ny : Z) (deltax deltay : R)
      (indexx : Z -> vector -> ivector) (junk_i : ivector) (junk_v : vector)
      (junk_m : matrix) (min_junk : R) (fuel : nat) (nodata : R)
      (topo : matrix) (st : flows) :
  fillin dem nx ny deltax deltay indexx junk_i junk_v junk_m min_junk fuel nodata
  = Some (topo, st) ->
  let nb := setupgridneighbors junk_i nx ny in
  let init := fillin_init dem nx ny deltax deltay junk_m in
  fill_pass nb nx ny nodata min_junk fuel (fst init) = Some topo
  /\ st = routing_sweep nx ny nb topo nodata
            (indexx (nx * ny) (fillin_topovec nx ny junk_v topo))
            (mkFlows (snd init) junk_m junk_m junk_m junk_m
               junk_m junk_m junk_m junk_m).
Proof.
  unfold fillin; intros H; cbv zeta.
  destruct (fillin_init dem nx ny deltax deltay junk_m) as [topo0 fl0].
  cbn [fst snd].
  destruct (fill_pass _ nx ny nodata min_junk fuel topo0) as [t|];
    [|discriminate].
  cbn [bind] in H; injection H as <- <-; auto.
Qed.

Lemma fillin_flow_bounds (dem : matrix) (nx ny : Z) (deltax deltay : R)
      (indexx : Z -> vector -> ivector) (junk_i : ivector) (junk_v : vector)
      (junk_m : matrix) (min_junk : R) (fuel : nat) (nodata : R)
      (topo : matrix) (st : flows) :
  1 <= nx -> (0 <= deltax * deltay)%R ->
  (forall vec t, 1 <= t <= nx * ny -> 1 <= indexx (nx * ny) vec t <= nx * ny) ->
  fillin dem nx ny deltax deltay indexx junk_i junk_v junk_m min_junk fuel nodata
  = Some (topo, st) ->
  flow_bounds nx ny topo nodata (deltax * deltay) st.
Proof.
  intros Hx Harea Htab Hrun.
  apply fillin_inv in Hrun as [_ ->].
  apply routing_sweep_flow_bounds; auto.
  intros a b Ha Hb; cbn [flow].
  destruct (fillin_init_spec dem nx ny deltax deltay junk_m a b Ha Hb) as [_ ->].
  split; [lra | reflexivity].
Qed.

(** X7.  When [fillin] returns, the accumulated flow of every cell of the
    lattice is at least the area of one cell, [deltax * deltay], and is
    that area exactly in a cell without data: the sweep only ever adds
    flow, and never to a cell without data.  The table of [indexx] has to
    hold ranks of the lattice, and the area must not be negative. *)
Theorem fillin_flow_at_least_cell_area (dem : matrix) (nx ny : Z)
        (deltax deltay : R) (indexx : Z -> vector -> ivector)
        (junk_i : ivector) (junk_v : vector) (junk_m : matrix) (min_junk : R)
        (fuel : nat) (nodata : R) (topo : matrix) (st : flows) :
  1 <= nx -> (0 <= deltax * deltay)%R ->
  (forall vec t, 1 <= t <= nx * ny -> 1 <= indexx (nx * ny) vec t <= nx * ny) ->
  fillin dem nx ny deltax deltay indexx junk_i junk_v junk_m min_junk fuel nodata
  = Some (topo, st) ->
  forall i j, 1 <= i <= nx -> 1 <= j <= ny ->
    (deltax * deltay <= flow st i j)%R
    /\ (topo i j = nodata -> flow st i j = (deltax * deltay)%R).
Proof.
  intros Hx Harea Htab Hrun i j Hi Hj.
  exact (fillin_flow_bounds dem nx ny deltax deltay indexx junk_i junk_v junk_m
           min_junk fuel nodata topo st Hx Harea Htab Hrun i j Hi Hj).
Qed.

Lemma ramp_index_range (t : Z) : 1 <= t <= 2 * 1 -> 1 <= ramp_index t <= 2 * 1.
Proof. intros H; unfold ramp_index; destruct (t =? 1); lia. Qed.

Lemma ramp_fillin_returns :
  exists topo st,
    fillin ramp_dem 2 1 1 1 (fun _ _ => ramp_index)
      (fun _ => 0) (fun _ => 0%R) (fun _ _ => 0%R) 0 1 (-9999)
    = Some (topo, st).
Proof.
  unfold fillin.
  destruct (fillin_init ramp_dem 2 1 1 1 (fun _ _ => 0%R)) as [topo fl0].
  rewrite fill_pass_no_interior by lia; cbn [bind].
  eexists; eexists; reflexivity.
Defined.

Lemma fillin_flow_at_least_cell_area_witness :
  exists topo st,
    fillin ramp_dem 2 1 1 1 (fun _ _ => ramp_index)
      (fun _ => 0) (fun _ => 0%R) (fun _ _ => 0%R) 0 1 (-9999)
    = Some (topo, st)
    /\ (1 * 1 <= flow st 1%Z 1%Z)%R.
Proof.
  destruct ramp_fillin_returns as (topo & st & Hrun).
  exists topo, st; split; [exact Hrun|].
  apply (fillin_flow_at_least_cell_area ramp_dem 2 1 1 1 (fun _ _ => ramp_index)
           (fun _ => 0) (fun _ => 0%R) (fun _ _ => 0%R) 0 1 (-9999) topo st);
    try lia; try lra; try exact Hrun.
  intros _; exact ramp_index_range.
Defined.

Lemma get_dist_nonneg (lat1 long1 lat2 long2 : R) :
  (0 <= get_dist lat1 long1 lat2 long2)%R.
Proof.
  unfold get_dist; cbv zeta.
  match goal with |- (0 <= E_RADIUS * acos ?x)%R =>
    pose proof (acos_bound x) as [H _] end.
  apply Rmult_le_pos; [unfold E_RADIUS; lra | exact H].
Qed.

Lemma main_cell_size_nonneg (columns rows : Z) (xorig yorig delta : R) :
  (0 <= fst (main_cell_size columns rows xorig yorig delta))%R
  /\ (0 <= snd (main_cell_size columns rows xorig yorig delta))%R.
Proof.
  unfold main_cell_size; cbv zeta; cbn [fst snd].
  split; apply Rmult_le_pos; try lra; apply get_dist_nonneg.
Qed.

Lemma main_fill_inv (indexx : Z -> vector -> ivector)
      (junk_i : ivector) (junk_v : vector) (junk_m : matrix) (min_junk : R)
      (fuel : nat) (columns rows : Z) (xorig yorig delta nodata : R)
      (raw dem' flowacc : matrix) (deltax deltay : R) :
  main_fill indexx junk_i junk_v junk_m min_junk fuel columns rows
    xorig yorig delta nodata raw
  = Some (dem', flowacc, (deltax, deltay)) ->
  (deltax, deltay) = main_cell_size columns rows xorig yorig delta
  /\ exists topo st,
       fillin (main_read_dem columns rows nodata raw) columns rows deltax deltay
         indexx junk_i junk_v junk_m min_junk fuel nodata
       = Some (topo, st)
       /\ forall i j, 0 <= i < rows -> 0 <= j < columns ->
            dem' i j = topo (j + 1) (i + 1)
            /\ flowacc i j = flow st (j + 1) (i + 1).
Proof.
  unfold main_fill; intros H.
  destruct (main_cell_size columns rows xorig yorig delta) as [dx dy].
  cbv zeta in H.
  destruct (fillin _ columns rows dx dy indexx junk_i junk_v junk_m min_junk
              fuel nodata) as [[topo st]|] eqn:E; [|discriminate].
  cbn [bind] in H; injection H as Hcb <- <-.
  split; [reflexivity|].
  exists topo, st; split; [exact E|].
  intros i j Hi Hj.
  destruct (main_copy_back_spec columns rows topo (flow st)
              (main_read_dem columns rows nodata raw) (fun _ _ => 0%R) i j Hi Hj)
    as [A B].
  rewrite Hcb in A, B; auto.
Qed.

(** The value that [main] keeps of what it reads. *)
Definition cleaned (nodata : R) (raw : matrix) (i j : Z) : R :=
  if Rltb (raw i j) 0 then nodata else raw i j.

(** What [main_fill] returns, cell by cell. *)
Lemma main_fill_spec (indexx : Z -> vector -> ivector)
        (junk_i : ivector) (junk_v : vector) (junk_m : matrix) (min_junk : R)
        (fuel : nat) (columns rows : Z) (xorig yorig delta nodata : R)
        (raw dem' flowacc : matrix) (deltax deltay : R) :
  1 <= columns ->
  (forall vec t, 1 <= t <= columns * rows ->
                 1 <= indexx (columns * rows) vec t <= columns * rows) ->
  main_fill indexx junk_i junk_v junk_m min_junk fuel columns rows
    xorig yorig delta nodata raw
  = Some (dem', flowacc, (deltax, deltay)) ->
  forall i j, 0 <= i < rows -> 0 <= j < columns ->
    (exists k : nat, dem' i j = (cleaned nodata raw i j + INR k * 0.01)%R)
    /\ (cleaned nodata raw i j = nodata -> dem' i j = nodata)
    /\ (i = 0 \/ i = rows - 1 \/ j = 0 \/ j = columns - 1 ->
        dem' i j = cleaned nodata raw i j)
    /\ (0 < i < rows - 1 -> 0 < j < columns - 1 -> dem' i j <> nodata ->
        exists di dj, -1 <= di <= 1 /\ -1 <= dj <= 1 /\ (di <> 0 \/ dj <> 0)
          /\ dem' (i + di) (j + dj) <> nodata
          /\ (dem' (i + di)%Z (j + dj)%Z < dem' i j)%R)
    /\ (deltax * deltay <= flowacc i j)%R
    /\ (dem' i j = nodata -> flowacc i j = (deltax * deltay)%R).
Proof.
  intros Hc Htab Hrun i j Hi Hj.
  apply main_fill_inv in Hrun as (Hsize & topo & st & Hfill & Hcopy).
  assert (Harea : (0 <= deltax * deltay)%R).
  { pose proof (main_cell_size_nonneg columns rows xorig yorig delta) as [A B].
    rewrite <- Hsize in A, B; cbn [fst snd] in A, B.
    apply Rmult_le_pos; assumption. }
  pose proof (fillin_flow_bounds _ _ _ _ _ _ _ _ _ _ _ _ _ _ Hc Harea Htab Hfill)
    as Hflow.
  apply fillin_inv in Hfill as [Hpass _]; cbv zeta in Hpass.
  pose proof (fill_pass_raised_by_increments _ _ _ _ _ _ _ _ Hpass) as Hinc.
  pose proof (fill_pass_invariant _ _ _ _ _ _ _ _ Hpass)
    as [(_ & _ & Hring) Hpit].
  assert (Hinit : forall a b, 0 <= a < rows -> 0 <= b < columns ->
            fst (fillin_init (main_read_dem columns rows nodata raw)
                   columns rows deltax deltay junk_m) (b + 1) (a + 1)
            = cleaned nodata raw a b).
  { intros a b Ha Hb.
    destruct (fillin_init_spec (main_read_dem columns rows nodata raw)
                columns rows deltax deltay junk_m (b + 1) (a + 1)) as [-> _];
      try lia.
    replace (a + 1 - 1) with a by lia; replace (b + 1 - 1) with b by lia.
    rewrite main_read_dem_spec.
    replace ((0 <=? a) && (a <=? rows - 1) && (0 <=? b) && (b <=? columns - 1))
      with true; [reflexivity|].
    symmetry; rewrite !andb_true_iff, !Z.leb_le; lia. }
  destruct (Hcopy i j Hi Hj) as [Ed Ef]; rewrite Ed, Ef.
  destruct (Hinc (j + 1) (i + 1)) as [Hnd Hk]; rewrite Hinit in Hnd, Hk by lia.
  destruct (Hflow (j + 1) (i + 1)) as [Hge Heq]; try lia.
  split; [exact Hk|].
  split; [exact Hnd|].
  split.
  { intros Hb; rewrite Hring; [apply Hinit; lia|].
    unfold interior; lia. }
  split; [|split; [exact Hge | exact Heq]].
  intros Hi' Hj' Hvalid.
  destruct (not_pit_drains junk_i columns rows nodata min_junk topo
              (j + 1) (i + 1)) as (a & b & Hin & Hab & Hlt).
  { unfold interior; lia. }
  { exact Hvalid. }
  { apply Hpit. }
  exists (b - (i + 1)), (a - (j + 1)).
  assert (Hrange : j <= a <= j + 2 /\ i <= b <= i + 2
                   /\ (a <> j + 1 \/ b <> i + 1)).
  { unfold neighbors8 in Hin; cbn [In] in Hin.
    repeat destruct Hin as [Hin | Hin]; try contradiction;
      injection Hin as <- <-; lia. }
  destruct (Hcopy (i + (b - (i + 1))) (j + (a - (j + 1)))) as [Ed' _];
    try lia.
  rewrite Ed'.
  replace (j + (a - (j + 1)) + 1) with a by lia.
  replace (i + (b - (i + 1)) + 1) with b by lia.
  repeat split; try lia; auto.
Qed.

(** X8.  What [main] hands to [Topindex] when [fillin] returns, for every
    cell [(i, j)] of the grid, where [cleaned] is the value read with a
    negative value replaced by [nodata]: the filled elevation is the
    cleaned one plus a whole number of increments of 0.01; a cell without
    data stays without data; a cell of the outer ring keeps its cleaned
    value; a cell inside the ring that holds data has one of its eight
    neighbors strictly below it and with data; and the flow accumulation is
    at least the area of a cell, and that area exactly where the filled
    grid has no data. *)
Theorem main_hands_filled_grid (indexx : Z -> vector -> ivector)
        (junk_i : ivector) (junk_v : vector) (junk_m : matrix) (min_junk : R)
        (fuel : nat) (columns rows : Z) (xorig yorig delta nodata : R)
        (raw dem' flowacc : matrix) (deltax deltay : R) :
  1 <= columns ->
  (forall vec t, 1 <= t <= columns * rows ->
                 1 <= indexx (columns * rows) vec t <= columns * rows) ->
  main_fill indexx junk_i junk_v junk_m min_junk fuel columns rows
    xorig yorig delta nodata raw
  = Some (dem', flowacc, (deltax, deltay)) ->
  forall i j, 0 <= i < rows -> 0 <= j < columns ->
    (exists k : nat, dem' i j = (cleaned nodata raw i j + INR k * 0.01)%R)
    /\ (cleaned nodata raw i j = nodata -> dem' i j = nodata)
    /\ (i = 0 \/ i = rows - 1 \/ j = 0 \/ j = columns - 1 ->
        dem' i j = cleaned nodata raw i j)
    /\ (0 < i < rows - 1 -> 0 < j < columns - 1 -> dem' i j <> nodata ->
        exists di dj, -1 <= di <= 1 /\ -1 <= dj <= 1 /\ (di <> 0 \/ dj <> 0)
          /\ dem' (i + di) (j + dj) <> nodata
          /\ (dem' (i + di)%Z (j + dj)%Z < dem' i j)%R)
    /\ (deltax * deltay <= flowacc i j)%R
    /\ (dem' i j = nodata -> flowacc i j = (deltax * deltay)%R).
Proof.
  exact (main_fill_spec indexx junk_i junk_v junk_m min_junk fuel columns rows
           xorig yorig delta nodata raw dem' flowacc deltax deltay).
Qed.

Lemma ramp_main_returns :
  exists dem' flowacc deltax deltay,
    main_fill (fun _ _ => ramp_index) (fun _ => 0) (fun _ => 0%R)
      (fun _ _ => 0%R) 0 1 2 1 0 0 1 (-9999) ramp_dem
    = Some (dem', flowacc, (deltax, deltay)).
Proof.
  unfold main_fill.
  destruct (main_cell_size 2 1 0 0 1) as [dx dy]; cbv zeta.
  unfold fillin.
  destruct (fillin_init _ 2 1 dx dy (fun _ _ => 0%R)) as [topo fl0].
  rewrite fill_pass_no_interior by lia; cbn [bind].
  destruct (main_copy_back 2 1 _ _ _) as [d f].
  exists d, f, dx, dy; reflexivity.
Defined.

Lemma main_hands_filled_grid_witness :
  exists dem' flowacc deltax deltay,
    main_fill (fun _ _ => ramp_index) (fun _ => 0) (fun _ => 0%R)
      (fun _ _ => 0%R) 0 1 2 1 0 0 1 (-9999) ramp_dem
    = Some (dem', flowacc, (deltax, deltay))
    /\ dem' 0 0 = cleaned (-9999) ramp_dem 0 0
    /\ (deltax * deltay <= flowacc 0%Z 0%Z)%R.
Proof.
  destruct ramp_main_returns as (d & f & dx & dy & Hrun).
  exists d, f, dx, dy; split; [exact Hrun|].
  destruct (main_hands_filled_grid (fun _ _ => ramp_index) (fun _ => 0)
              (fun _ => 0%R) (fun _ _ => 0%R) 0 1 2 1 0 0 1 (-9999) ramp_dem
              d f dx dy ltac:(lia) (fun _ => ramp_index_range) Hrun 0 0
              ltac:(lia) ltac:(lia))
    as (_ & _ & Hring & _ & Hflow & _).
  split; [apply Hring; auto | exact Hflow].
Defined.

Lemma neighbor_tables_compose_witness :
  let nb := setupgridneighbors (fun _ => 0) 3 2 in
  idown nb (iup nb 2) = 2 /\ iup nb 3 = 3 /\ jdown nb 1 = 1.
Proof.
  intros nb.
  destruct (neighbor_tables_compose (fun _ => 0) 3 2 ltac:(lia) ltac:(lia))
    as [Hi Hj].
  destruct (Hi 2 ltac:(lia)) as (_ & _ & Hback & _).
  destruct (Hi 3 ltac:(lia)) as (_ & Hup & _).
  destruct (Hj 1 ltac:(lia)) as (Hdown & _).
  fold nb in Hback, Hup, Hdown.
  split; [apply Hback; lia | split; lia].
Defined.

Lemma fill_pass_whole_increments_witness :
  exists k : nat,
    mset pit_dem 2 2 (pit_dem 2%Z 2%Z + fillincrement)%R 2 2
    = (pit_dem 2%Z 2%Z + INR k * 0.01)%R.
Proof.
  exact (proj2 (fill_pass_whole_increments (fun _ => 0) 3 3 (-9999) 0 2 pit_dem
                  _ pit_dem_pass 2 2)).
Defined.

(** ** Distances: [get_dist] and the size of a cell *)

(** The macro [PI] of the source is below the number pi. *)
Lemma PI_macro_below_PI : (PI_macro < PI)%R.
Proof.
  pose proof (PI_2_3_7_ineq 2) as [H _].
  unfold sum_f_R0, tg_alt, PI_2_3_7_tg, Ratan_seq in H.
  simpl in H; unfold PI_macro; lra.
Qed.

Lemma acos_decreasing (x y : R) :
  (-1 <= x)%R -> (x <= y)%R -> (y <= 1)%R -> (acos y <= acos x)%R.
Proof.
  intros Hx Hxy Hy.
  destruct (Rle_or_lt (acos y) (acos x)) as [H | H]; [exact H|].
  pose proof (acos_bound x) as [Hx0 Hx1].
  pose proof (acos_bound y) as [Hy0 Hy1].
  apply cos_decreasing_1 in H; try assumption.
  rewrite !cos_acos in H by lra; lra.
Qed.

(** The cosine of the central angle, before the cut at 1. *)
Definition central_cos (phi1 theta1 phi2 theta2 : R) : R :=
  (cos phi1 * cos theta1 * cos phi2 * cos theta2
   + cos phi1 * sin theta1 * cos phi2 * sin theta2
   + sin phi1 * sin phi2)%R.

Lemma get_dist_central (lat1 long1 lat2 long2 : R) :
  let dtor := (2.0 * PI_macro / 360.0)%R in
  let c := central_cos (dtor * lat1) (dtor * long1) (dtor * lat2) (dtor * long2) in
  get_dist lat1 long1 lat2 long2
  = (E_RADIUS * acos (if Rltb 1.0 c then 1.0 else c))%R.
Proof. reflexivity. Qed.

Lemma central_cos_sym (phi1 theta1 phi2 theta2 : R) :
  central_cos phi1 theta1 phi2 theta2 = central_cos phi2 theta2 phi1 theta1.
Proof. unfold central_cos; ring. Qed.

Lemma central_cos_same (phi theta : R) : central_cos phi theta phi theta = 1%R.
Proof.
  unfold central_cos.
  pose proof (sin2_cos2 phi) as Hp; pose proof (sin2_cos2 theta) as Ht.
  unfold Rsqr in Hp, Ht.
  replace (cos phi * cos theta * cos phi * cos theta
           + cos phi * sin theta * cos phi * sin theta + sin phi * sin phi)%R
    with (cos phi * cos phi * (sin theta * sin theta + cos theta * cos theta)
          + sin phi * sin phi)%R by ring.
  rewrite Ht; lra.
Qed.

(** Along a meridian the central angle is the difference of the latitudes. *)
Lemma central_cos_meridian (phi1 phi2 theta : R) :
  central_cos phi1 theta phi2 theta = cos (phi2 - phi1).
Proof.
  unfold central_cos; rewrite cos_minus.
  pose proof (sin2_cos2 theta) as Ht; unfold Rsqr in Ht.
  replace (cos phi1 * cos theta * cos phi2 * cos theta
           + cos phi1 * sin theta * cos phi2 * sin theta + sin phi1 * sin phi2)%R
    with (cos phi1 * cos phi2 * (sin theta * sin theta + cos theta * cos theta)
          + sin phi1 * sin phi2)%R by ring.
  rewrite Ht; ring.
Qed.

(** Along a parallel the central angle is at most the difference of the
    longitudes. *)
Lemma central_cos_parallel (phi theta1 theta2 : R) :
  (cos (theta2 - theta1) <= central_cos phi theta1 phi theta2 <= 1)%R.
Proof.
  unfold central_cos.
  pose proof (sin2_cos2 phi) as Hp; unfold Rsqr in Hp.
  pose proof (COS_bound (theta2 - theta1)) as [Hlo Hhi].
  rewrite cos_minus in *.
  replace (cos phi * cos theta1 * cos phi * cos theta2
           + cos phi * sin theta1 * cos phi * sin theta2 + sin phi * sin phi)%R
    with (cos phi * cos phi * (cos theta2 * cos theta1 + sin theta2 * sin theta1)
          + sin phi * sin phi)%R by ring.
  set (c := (cos theta2 * cos theta1 + sin theta2 * sin theta1)%R) in *.
  assert (Hs : (0 <= sin phi * sin phi)%R) by nra.
  assert (Hc : (0 <= cos phi * cos phi)%R) by nra.
  split; nra.
Qed.

(** X9.  [get_dist] is symmetric in its two points, is zero from a point
    to itself, and lies between 0 and half the circumference of a circle
    of radius 6371, whatever the coordinates. *)
Theorem get_dist_symmetric_bounded (lat1 long1 lat2 long2 : R) :
  get_dist lat1 long1 lat2 long2 = get_dist lat2 long2 lat1 long1
  /\ get_dist lat1 long1 lat1 long1 = 0%R
  /\ (0 <= get_dist lat1 long1 lat2 long2 <= 6371 * PI)%R.
Proof.
  split; [|split].
  - rewrite !get_dist_central; cbv zeta.
    now rewrite central_cos_sym.
  - rewrite get_dist_central; cbv zeta.
    rewrite central_cos_same.
    replace (Rltb 1.0 1) with false by (symmetry; apply Rltb_false; lra).
    rewrite acos_1; ring.
  - split; [apply get_dist_nonneg|].
    rewrite get_dist_central; cbv zeta.
    match goal with |- (E_RADIUS * acos ?x <= _)%R =>
      pose proof (acos_bound x) as [H0 H1] end.
    unfold E_RADIUS; nra.
Qed.

Lemma get_dist_meridian (lat long delta : R) :
  (0 <= delta <= 180)%R ->
  get_dist lat long (lat + delta) long
  = (E_RADIUS * (2.0 * PI_macro / 360.0 * delta))%R.
Proof.
  intros Hd; rewrite get_dist_central; cbv zeta.
  rewrite central_cos_meridian.
  replace (2.0 * PI_macro / 360.0 * (lat + delta) - 2.0 * PI_macro / 360.0 * lat)%R
    with (2.0 * PI_macro / 360.0 * delta)%R by (unfold PI_macro; lra).
  pose proof PI_macro_below_PI as Hpi.
  assert (Hang : (0 <= 2.0 * PI_macro / 360.0 * delta <= PI)%R).
  { unfold PI_macro in *; split; nra. }
  pose proof (COS_bound (2.0 * PI_macro / 360.0 * delta)) as [_ Hhi].
  replace (Rltb 1.0 (cos (2.0 * PI_macro / 360.0 * delta))) with false
    by (symmetry; apply Rltb_false; lra).
  now rewrite acos_cos.
Qed.

Lemma get_dist_parallel (lat long delta : R) :
  (0 <= delta <= 180)%R ->
  (get_dist lat long lat (long + delta)
   <= E_RADIUS * (2.0 * PI_macro / 360.0 * delta))%R.
Proof.
  intros Hd; rewrite get_dist_central; cbv zeta.
  pose proof (central_cos_parallel (2.0 * PI_macro / 360.0 * lat)
                (2.0 * PI_macro / 360.0 * long)
                (2.0 * PI_macro / 360.0 * (long + delta))) as [Hlo Hhi].
  replace (2.0 * PI_macro / 360.0 * (long + delta) - 2.0 * PI_macro / 360.0 * long)%R
    with (2.0 * PI_macro / 360.0 * delta)%R in Hlo by (unfold PI_macro; lra).
  match goal with |- context [Rltb 1.0 ?c] =>
    replace (Rltb 1.0 c) with false by (symmetry; apply Rltb_false; lra) end.
  pose proof PI_macro_below_PI as Hpi.
  assert (Hang : (0 <= 2.0 * PI_macro / 360.0 * delta <= PI)%R).
  { unfold PI_macro in *; split; nra. }
  pose proof (COS_bound (2.0 * PI_macro / 360.0 * delta)) as [Hm _].
  apply Rmult_le_compat_l; [unfold E_RADIUS; lra|].
  apply Rle_trans with (acos (cos (2.0 * PI_macro / 360.0 * delta))).
  - apply acos_decreasing; lra.
  - rewrite acos_cos by exact Hang; lra.
Qed.

(** X10.  For a resolution [delta] between 0 and 180 degrees, the height
    of a cell that [main] computes is [1000 * 6371 * (2 * 3.1415 / 360) *
    delta] metres wherever the grid lies, and the width is between 0 and
    that height. *)
Theorem main_cell_size_closed_form (columns rows : Z) (xorig yorig delta : R) :
  (0 <= delta <= 180)%R ->
  let '(deltax, deltay) := main_cell_size columns rows xorig yorig delta in
  deltay = (1000 * 6371 * (2 * 3.1415 / 360) * delta)%R
  /\ (0 <= deltax <= deltay)%R.
Proof.
  intros Hd; unfold main_cell_size; cbv beta iota zeta.
  rewrite get_dist_meridian by exact Hd.
  split; [unfold E_RADIUS, PI_macro; lra|].
  split.
  - apply Rmult_le_pos; [lra | apply get_dist_nonneg].
  - apply Rmult_le_compat_l; [lra|].
    apply get_dist_parallel; exact Hd.
Qed.

Lemma main_cell_size_closed_form_witness :
  snd (main_cell_size 4 4 20 45 1) = (1000 * 6371 * (2 * 3.1415 / 360) * 1)%R.
Proof.
  pose proof (main_cell_size_closed_form 4 4 20 45 1 ltac:(lra)) as H.
  destruct (main_cell_size 4 4 20 45 1) as [dx dy]; exact (proj1 H).
Defined.

(** ** The bins of [VICcalculation]: every cell is in one bin *)

Section BinAccounts.

Variable VIC : matrix.
Variable n : Z.
Variable wetlandVeg : R.
Variable totalVeg : Z.
Variable option : string.

(** The counter [cnt] and the last row of [WetlandBin] after one turn of
    the loop. *)
Lemma bin_step_rest (i : Z) (b : bins) :
  let c := counter b in
  let v := (WetlandBin b 0%Z c + 1)%R in
  let b' := bin_step VIC n wetlandVeg totalVeg option i b in
  cnt b' = (if Rleb (areacriteria wetlandVeg) (v / IZR totalVeg) || (i =? n - 1)
            then 0 else cnt b + 1)
  /\ forall k, WetlandBin b' (ROWS option - 1) k
               = if k =? c then VIC 4 i else WetlandBin b (ROWS option - 1) k.
Proof.
  intros c v b'; subst b'; unfold bin_step, ROWS; fold c.
  destruct (is_SEA option).
  - unfold for_loop; change (Z.to_nat (5 - 2 - 1 + 1)) with 3%nat.
    cbn [for_up]; unfold madd, mset; cbn [Z.eqb Z.sub Z.add Z.opp Z.pos_sub
                                          Pos.pred_double andb].
    rewrite !Z.eqb_refl; fold v.
    destruct (Rleb (areacriteria wetlandVeg) (v / IZR totalVeg) || (i =? n - 1));
      cbn [counter cnt WetlandBin]; (split; [reflexivity|]); intros k;
      cbn [Z.eqb Pos.eqb andb]; destruct (k =? c); reflexivity.
  - unfold madd, mset; cbn [Z.eqb Z.sub Z.add Z.opp Z.pos_sub
                                          Pos.pred_double andb].
    rewrite !Z.eqb_refl; fold v.
    destruct (Rleb (areacriteria wetlandVeg) (v / IZR totalVeg) || (i =? n - 1));
      cbn [counter cnt WetlandBin]; (split; [reflexivity|]); intros k;
      cbn [Z.eqb Pos.eqb andb]; destruct (k =? c); reflexivity.
Qed.

(** The sum of row 0 over the bins [0 .. c-1]. *)
Definition bins_sum (W : matrix) (c : Z) : R :=
  sum_upto (Z.to_nat c) (fun k => W 0 (k - 1)).

Lemma bins_sum_succ (W : matrix) (c : Z) :
  0 <= c -> bins_sum W (c + 1) = (bins_sum W c + W 0%Z c)%R.
Proof.
  intros Hc; unfold bins_sum.
  replace (Z.to_nat (c + 1)) with (S (Z.to_nat c)) by lia.
  cbn [sum_upto].
  replace (Z.of_nat (S (Z.to_nat c)) - 1) with c by lia.
  reflexivity.
Qed.

Lemma bins_sum_ext (W W' : matrix) (c : Z) :
  (forall k, 0 <= k < c -> W' 0 k = W 0 k) ->
  bins_sum W' c = bins_sum W c.
Proof.
  intros H; unfold bins_sum; apply sum_upto_ext.
  intros k Hk; apply H; lia.
Qed.

(** Beyond the bins in use the sum stays as it is. *)
Lemma bins_sum_flat (W : matrix) (c c' : Z) :
  0 <= c <= c' -> (forall k, c <= k -> W 0 k = 0%R) ->
  bins_sum W c' = bins_sum W c.
Proof.
  intros [Hc Hcc] Hz.
  replace c' with (c + Z.of_nat (Z.to_nat (c' - c))) by lia.
  induction (Z.to_nat (c' - c)) as [|m IH].
  - now rewrite Z.add_0_r.
  - replace (c + Z.of_nat (S m)) with (c + Z.of_nat m + 1) by lia.
    rewrite bins_sum_succ, IH, Hz by lia; lra.
Qed.

(** The account of the cells when [i] of them are through: the closed
    bins hold their share of [totalVeg], the open bin at [counter] holds
    the [cnt] cells that it has taken, the bins above are empty. *)
Definition bins_account (i : Z) (b : bins) : Prop :=
  let W := WetlandBin b in
  0 <= counter b <= i
  /\ 0 <= cnt b
  /\ W 0 (counter b) = IZR (cnt b)
  /\ (forall k, counter b < k -> W 0 k = 0%R)
  /\ (forall k, 0 <= k < counter b -> (0 < W 0%Z k)%R)
  /\ (bins_sum W (counter b) * IZR totalVeg + IZR (cnt b) = IZR i)%R
  /\ (forall k, counter b < k -> W (ROWS option - 1) k = 0%R)
  /\ (cnt b = 0 -> W (ROWS option - 1) (counter b) = 0%R)
  /\ (forall k, 0 <= k < counter b ->
        exists e, k <= e < i /\ W (ROWS option - 1) k = VIC 4 e)
  /\ (i = n -> cnt b = 0 /\ (1 <= i -> 1 <= counter b)).

Lemma bin_step_account (i : Z) (b : bins) :
  0 < totalVeg -> 0 <= i ->
  bins_account i b ->
  bins_account (i + 1) (bin_step VIC n wetlandVeg totalVeg option i b).
Proof.
  intros HT Hi (Hc & Hcnt & Hopen & Hzero & Hpos & Hsum & Hrz & _ & Hre & _).
  assert (HT' : (0 < IZR totalVeg)%R) by (apply IZR_lt; exact HT).
  pose proof (bin_step_row0 VIC n wetlandVeg totalVeg option i b) as Hrow.
  pose proof (bin_step_rest i b) as [Hcnt' Hlast].
  cbv zeta in Hrow, Hcnt', Hlast.
  set (b' := bin_step VIC n wetlandVeg totalVeg option i b) in *.
  set (c := counter b) in *.
  rewrite Hopen in Hrow, Hcnt'.
  assert (Hone : (IZR (cnt b) + 1 = IZR (cnt b + 1))%R) by (rewrite plus_IZR; lra).
  destruct (Rleb (areacriteria wetlandVeg) ((IZR (cnt b) + 1) / IZR totalVeg)
            || (i =? n - 1)) eqn:Etest;
    destruct Hrow as [Hcount Hw]; unfold bins_account; cbv zeta;
    rewrite Hcount, Hcnt'.
  - (* the bin is closed *)
    assert (Hshare : (0 < (IZR (cnt b) + 1) / IZR totalVeg)%R).
    { apply Rdiv_lt_0_compat; [|exact HT'].
      rewrite Hone; apply IZR_lt; lia. }
    repeat split; try lia.
    + rewrite Hw.
      replace (c + 1 =? c) with false by (symmetry; apply Z.eqb_neq; lia).
      apply Hzero; lia.
    + intros k Hk; rewrite Hw.
      replace (k =? c) with false by (symmetry; apply Z.eqb_neq; lia).
      apply Hzero; lia.
    + intros k Hk; rewrite Hw.
      destruct (Z.eqb_spec k c); [exact Hshare | apply Hpos; lia].
    + rewrite bins_sum_succ by lia.
      rewrite (bins_sum_ext (WetlandBin b) (WetlandBin b') c).
      2:{ intros k Hk; rewrite Hw.
          replace (k =? c) with false by (symmetry; apply Z.eqb_neq; lia).
          reflexivity. }
      rewrite Hw, Z.eqb_refl, plus_IZR.
      replace (((bins_sum (WetlandBin b) c
                 + (IZR (cnt b) + 1) / IZR totalVeg) * IZR totalVeg + 0)%R)
        with ((bins_sum (WetlandBin b) c * IZR totalVeg
               + (IZR (cnt b) + 1))%R) by (field; lra).
      lra.
    + intros k Hk; rewrite Hlast.
      replace (k =? c) with false by (symmetry; apply Z.eqb_neq; lia).
      apply Hrz; lia.
    + intros _; rewrite Hlast.
      replace (c + 1 =? c) with false by (symmetry; apply Z.eqb_neq; lia).
      apply Hrz; lia.
    + intros k Hk; rewrite Hlast.
      destruct (Z.eqb_spec k c) as [->|Hne].
      * exists i; split; [lia | reflexivity].
      * destruct (Hre k) as (e & He & Ee); [lia|].
        exists e; split; [lia | exact Ee].
  - (* the bin stays open *)
    apply orb_false_iff in Etest as [_ Elast]; apply Z.eqb_neq in Elast.
    repeat split; try lia.
    + rewrite Hw, Z.eqb_refl; exact Hone.
    + intros k Hk; rewrite Hw.
      replace (k =? c) with false by (symmetry; apply Z.eqb_neq; lia).
      apply Hzero; lia.
    + intros k Hk; rewrite Hw.
      replace (k =? c) with false by (symmetry; apply Z.eqb_neq; lia).
      apply Hpos; lia.
    + rewrite (bins_sum_ext (WetlandBin b) (WetlandBin b') c).
      2:{ intros k Hk; rewrite Hw.
          replace (k =? c) with false by (symmetry; apply Z.eqb_neq; lia).
          reflexivity. }
      rewrite !plus_IZR; lra.
    + intros k Hk; rewrite Hlast.
      replace (k =? c) with false by (symmetry; apply Z.eqb_neq; lia).
      apply Hrz; lia.
    + intros k Hk; rewrite Hlast.
      replace (k =? c) with false by (symmetry; apply Z.eqb_neq; lia).
      destruct (Hre k) as (e & He & Ee); [lia|].
      exists e; split; [lia | exact Ee].
Qed.

Lemma fill_bins_account :
  0 < totalVeg -> 0 <= n ->
  bins_account n (fill_bins VIC n wetlandVeg totalVeg option).
Proof.
  intros HT Hn; unfold fill_bins.
  replace n with (Z.max 0 (n - 1 + 1)) at 1 by lia.
  apply for_loop_invariant.
  - unfold bins_account; cbn [counter cnt WetlandBin].
    repeat split; try lia; try reflexivity; try lra.
    + unfold bins_sum; simpl; lra.
  - intros i b Hi Hb; apply bin_step_account; auto; lia.
Qed.

(** The bins when the loop is through. *)
Lemma fill_bins_final :
  0 < totalVeg -> 0 <= n ->
  let b := fill_bins VIC n wetlandVeg totalVeg option in
  let W := WetlandBin b in
  0 <= counter b <= n
  /\ (1 <= n -> 1 <= counter b)
  /\ bins_sum W (counter b) = (IZR n / IZR totalVeg)%R
  /\ (forall k, 0 <= k < counter b -> (0 < W 0%Z k)%R)
  /\ (forall k, counter b <= k ->
        W 0 k = 0%R /\ W (ROWS option - 1) k = 0%R)
  /\ (forall k, 0 <= k < counter b ->
        exists e, k <= e < n /\ W (ROWS option - 1) k = VIC 4 e).
Proof.
  intros HT Hn b W.
  destruct (fill_bins_account HT Hn)
    as (Hc & Hcnt & Hopen & Hzero & Hpos & Hsum & Hrz & Hrc & Hre & Hend).
  fold b in Hc, Hcnt, Hopen, Hzero, Hpos, Hsum, Hrz, Hrc, Hre, Hend.
  cbv zeta in Hopen, Hzero, Hpos, Hsum, Hrz, Hrc, Hre.
  fold W in Hopen, Hzero, Hpos, Hsum, Hrz, Hrc, Hre.
  destruct (Hend eq_refl) as [Hcnt0 Hc1].
  assert (HT' : (0 < IZR totalVeg)%R) by (apply IZR_lt; exact HT).
  split; [lia|].
  split; [exact Hc1|].
  split.
  { rewrite Hcnt0 in Hsum.
    apply Rmult_eq_reg_r with (IZR totalVeg); [|lra].
    unfold Rdiv; rewrite Rmult_assoc, Rinv_l by lra; lra. }
  split; [exact Hpos|].
  split; [|exact Hre].
  intros k Hk; destruct (Z.eq_dec k (counter b)) as [->|Hne].
  - split; [rewrite Hopen, Hcnt0; reflexivity | apply Hrc; exact Hcnt0].
  - split; [apply Hzero | apply Hrz]; lia.
Qed.

End BinAccounts.

(** X11.  With at least one cell and a positive [totalVeg], the loop over
    the cells closes between 1 and [n] bins; the shares of the closed bins
    are positive and add up to [n / totalVeg], so that every cell is in
    one bin; the bins from [counter] on are left at zero; and the last row
    of a closed bin holds the elevation [VIC[4][e]] of a cell [e] that is
    not before the bin.  This holds whatever the wetland fraction is. *)
Theorem bins_hold_every_cell (VIC : matrix) (n : Z) (wetlandVeg : R)
        (totalVeg : Z) (option : string) :
  0 < totalVeg -> 1 <= n ->
  let b := fill_bins VIC n wetlandVeg totalVeg option in
  let W := WetlandBin b in
  1 <= counter b <= n
  /\ bins_sum W (counter b) = (IZR n / IZR totalVeg)%R
  /\ (forall k, 0 <= k < counter b -> (0 < W 0%Z k)%R)
  /\ (forall k, counter b <= k ->
        W 0 k = 0%R /\ W (ROWS option - 1) k = 0%R)
  /\ (forall k, 0 <= k < counter b ->
        exists e, k <= e < n /\ W (ROWS option - 1) k = VIC 4 e).
Proof.
  intros HT Hn b W.
  destruct (fill_bins_final VIC n wetlandVeg totalVeg option HT)
    as (Hc & Hc1 & Hsum & Hpos & Hzero & Hre); [lia|].
  fold b in Hc, Hc1, Hsum, Hpos, Hzero, Hre; cbv zeta in Hsum, Hpos, Hzero, Hre.
  fold W in Hsum, Hpos, Hzero, Hre.
  split; [specialize (Hc1 Hn); lia|].
  repeat split; auto; apply Hzero; auto.
Qed.

Lemma bins_hold_every_cell_witness :
  let b := fill_bins (fun _ _ => 0%R) 7 0.7 10 "LAKE" in
  1 <= counter b <= 7
  /\ bins_sum (WetlandBin b) (counter b) = (IZR 7 / IZR 10)%R.
Proof.
  intros b.
  destruct (bins_hold_every_cell (fun _ _ => 0%R) 7 0.7 10 "LAKE"
              ltac:(lia) ltac:(lia)) as (H1 & H2 & _).
  split; [exact H1 | exact H2].
Defined.

(** X12.  Without a wetland fraction no bin is allocated ([WetBins = 0]),
    yet with at least one cell the loop counts the cells into bin 0 and
    closes it: the counter ends above [WetBins]. *)
Theorem bins_used_without_wetland (VIC : matrix) (n : Z) (wetlandVeg : R)
        (totalVeg : Z) (option : string) :
  0 < totalVeg -> 1 <= n -> (wetlandVeg <= 0)%R ->
  let b := fill_bins VIC n wetlandVeg totalVeg option in
  WetBins wetlandVeg = 0
  /\ WetBins wetlandVeg < counter b
  /\ (0 < WetlandBin b 0%Z 0%Z)%R.
Proof.
  intros HT Hn Hw b.
  destruct (fill_bins_final VIC n wetlandVeg totalVeg option HT)
    as (_ & Hc1 & _ & Hpos & _); [lia|].
  fold b in Hc1, Hpos; cbv zeta in Hpos; specialize (Hc1 Hn).
  assert (H0 : WetBins wetlandVeg = 0).
  { unfold WetBins; apply Rltb_false in Hw; now rewrite Hw. }
  rewrite H0; split; [reflexivity | split; [lia | apply Hpos; lia]].
Qed.

Lemma bins_used_without_wetland_witness :
  let b := fill_bins (fun _ _ => 0%R) 3 0 10 "LAKE" in
  WetBins 0 = 0 /\ WetBins 0 < counter b /\ (0 < WetlandBin b 0%Z 0%Z)%R.
Proof.
  apply (bins_used_without_wetland (fun _ _ => 0%R) 3 0 10 "LAKE"); [lia | lia | lra].
Defined.

(** ** The assembled profile *)

Section ProfileProperties.

Variable VIC : matrix.
Variable n : Z.
Variables wetlandVeg waterVeg : R.
Variable totalVeg : Z.
Variables deltax deltay : R.
Variable option : string.
Variable ElevRange : R.

(** The loop over the lake bins: [BATHSUM] rises like [DEMSUM], and
    index 0 is left as it is. *)
Definition lake_bath (hi : Z) (p0 p : profile) : Prop :=
  AREASUM p 0 = AREASUM p0 0
  /\ BATHSUM p 0 = BATHSUM p0 0
  /\ forall k, 1 <= k < hi ->
       BATHSUM p k
       = (BATHSUM p0 0%Z
          + IZR k * (LakeDepth waterVeg totalVeg deltax deltay
                     / IZR (LakeBins waterVeg)))%R.

Lemma lake_loop_bath (p0 : profile) :
  lake_bath (Z.max 1 (LakeBins waterVeg + 1)) p0
    (for_loop 1 (LakeBins waterVeg)
       (lake_step VIC waterVeg totalVeg deltax deltay option) p0).
Proof.
  apply (for_loop_invariant (fun hi p => lake_bath hi p0 p)).
  - repeat split; intros; lia.
  - intros i p Hi (Ha & Hb & Hk).
    assert (Hprev : BATHSUM p (i - 1)
              = (BATHSUM p0 0%Z
                 + IZR (i - 1) * (LakeDepth waterVeg totalVeg deltax deltay
                                  / IZR (LakeBins waterVeg)))%R).
    { destruct (Z.eq_dec i 1) as [->|]; [simpl; rewrite Hb; lra|].
      apply Hk; lia. }
    unfold lake_bath, lake_step.
    destruct (is_SEA option); cbn [AREASUM BATHSUM]; unfold vset;
      replace (0 =? i) with false by (symmetry; apply Z.eqb_neq; lia);
      (split; [exact Ha | split; [exact Hb|]]);
      intros k Hk'; destruct (Z.eqb_spec k i) as [->|Hne];
      try (apply Hk; lia);
      rewrite Hprev, minus_IZR; lra.
Qed.

(** The loop over the wetland bins, for [AREASUM] and [BATHSUM]. *)
Definition wet_filled (W : matrix) (lo hi : Z) (p0 p : profile) : Prop :=
  (forall k, k < lo ->
     AREASUM p k = AREASUM p0 k /\ BATHSUM p k = BATHSUM p0 k
     /\ DEMSUM p k = DEMSUM p0 k)
  /\ forall i, lo <= i < hi ->
       AREASUM p i
       = (AREASUM p (i - 1)%Z + W 0%Z (i - (LakeBins waterVeg + 1))%Z)%R
       /\ BATHSUM p i
          = (W (ROWS option - 1)%Z (i - (LakeBins waterVeg + 1))%Z - VIC 4%Z 0%Z
             + (if 1 <? i then BATHSUM p0 (LakeBins waterVeg) else 0))%R
       /\ (is_SEA option = false -> DEMSUM p i = BATHSUM p i).

Lemma wet_loop_filled (W : matrix) (hi : Z) (p0 : profile) :
  wet_filled W (LakeBins waterVeg + 1)
    (Z.max (LakeBins waterVeg + 1) (hi + 1)) p0
    (for_loop (LakeBins waterVeg + 1) hi
       (wet_step VIC wetlandVeg waterVeg option ElevRange W) p0).
Proof.
  apply (for_loop_invariant
           (fun j p => wet_filled W (LakeBins waterVeg + 1) j p0 p)).
  - split; [auto | intros; lia].
  - intros i p Hi [Hlow Hin].
    assert (Hbase : BATHSUM p (LakeBins waterVeg)
                    = BATHSUM p0 (LakeBins waterVeg))
      by (apply Hlow; lia).
    unfold wet_filled, wet_step.
    destruct (is_SEA option), (1 <? i) eqn:E1;
      cbn [AREASUM BATHSUM DEMSUM]; unfold vset;
      (split;
       [ intros k Hk;
         replace (k =? i) with false by (symmetry; apply Z.eqb_neq; lia);
         apply Hlow; exact Hk
       | intros j Hj;
         replace (j - 1 =? i) with false by (symmetry; apply Z.eqb_neq; lia);
         replace (LakeBins waterVeg =? i) with false
           by (symmetry; apply Z.eqb_neq; lia);
         destruct (Z.eqb_spec j i) as [->|Hne];
         [ rewrite ?Z.eqb_refl, ?E1, ?Hbase;
           repeat split; try reflexivity; try lra; try discriminate
         | destruct (Hin j) as (A & B & C); [lia|];
           repeat split; auto ] ]).
Qed.

(** The parts of the assembled profile. *)
Lemma assemble_parts :
  let p := assemble VIC n wetlandVeg waterVeg totalVeg deltax deltay option
             ElevRange in
  let W := WetlandBin (fill_bins VIC n wetlandVeg totalVeg option) in
  let L := LakeBins waterVeg in
  let depth := LakeDepth waterVeg totalVeg deltax deltay in
  AREASUM p 0 = 0%R
  /\ (forall i, L + 1 <= i <= WetBins wetlandVeg + L ->
        AREASUM p i = (AREASUM p (i - 1)%Z + W 0%Z (i - (L + 1))%Z)%R
        /\ BATHSUM p i = (W (ROWS option - 1)%Z (i - (L + 1))%Z - VIC 4%Z 0%Z
                          + depth)%R
        /\ (is_SEA option = false -> DEMSUM p i = BATHSUM p i)).
Proof.
  intros p W L depth; subst p; unfold assemble; fold W L.
  set (p0 := mkProfile _ _ _ _ _).
  pose proof (lake_loop_bath p0) as (Ha1 & Hb1 & Hk1); fold L in Ha1, Hb1, Hk1.
  set (p1 := for_loop 1 L _ p0) in *.
  set (p2 := if is_SEA option then _ else p1).
  assert (H2 : forall k, AREASUM p2 k = AREASUM p1 k
                         /\ BATHSUM p2 k = BATHSUM p1 k).
  { intros k; subst p2; destruct (is_SEA option); [|auto].
    pose (Inv := fun (_ : Z) (q : profile) =>
      AREASUM q k = AREASUM p1 k /\ BATHSUM q k = BATHSUM p1 k).
    apply (for_loop_invariant Inv); [split; reflexivity|].
    intros i q _ Hq; unfold twi_step; cbn [AREASUM BATHSUM]; exact Hq. }
  pose proof (wet_loop_filled W (WetBins wetlandVeg + L) p2) as [Hlow Hin];
    fold L in Hlow, Hin.
  set (p3 := for_loop (L + 1) (WetBins wetlandVeg + L) _ p2) in *.
  assert (HL : 0 <= L) by (unfold L, LakeBins; destruct (Rltb 0 waterVeg); lia).
  assert (Hbase : BATHSUM p2 L = depth).
  { destruct (H2 L) as [_ ->].
    unfold L, depth, LakeBins, LakeDepth in *.
    destruct (Rltb 0 waterVeg) eqn:Ew.
    - rewrite Hk1 by (simpl; lia).
      unfold p0; cbn [BATHSUM]; simpl IZR; field.
    - rewrite Hb1; reflexivity. }
  split.
  - destruct (Hlow 0) as [-> _]; [lia|].
    destruct (H2 0) as [-> _]; rewrite Ha1; reflexivity.
  - intros i Hi; destruct (Hin i) as (A & B & C); [lia|].
    split; [exact A | split; [|exact C]].
    rewrite B; destruct (Z.ltb_spec 1 i) as [H1|H1]; [rewrite Hbase; reflexivity|].
    assert (L = 0) by lia.
    assert (Hd : depth = 0%R).
    { unfold L, depth, LakeBins, LakeDepth in *.
      destruct (Rltb 0 waterVeg); [lia | reflexivity]. }
    rewrite Hd; reflexivity.
Qed.

End ProfileProperties.

Lemma bins_sum_lower (W : matrix) (t : R) (m : nat) :
  (forall k, 0 <= k < Z.of_nat m -> (t <= W 0%Z k)%R) ->
  (INR m * t <= bins_sum W (Z.of_nat m))%R.
Proof.
  induction m as [|m IH]; intros H.
  - unfold bins_sum; simpl; lra.
  - replace (Z.of_nat (S m)) with (Z.of_nat m + 1) by lia.
    rewrite bins_sum_succ, S_INR by lia.
    assert (t <= W 0%Z (Z.of_nat m))%R by (apply H; lia).
    assert (INR m * t <= bins_sum W (Z.of_nat m))%R by (apply IH; intros; apply H; lia).
    lra.
Qed.

Lemma WetBins_nonneg (wetlandVeg : R) : 0 <= WetBins wetlandVeg.
Proof.
  unfold WetBins; destruct (Rltb 0 wetlandVeg); [|lia].
  destruct (Z.ltb_spec (ceil (wetlandVeg / 0.091)) 5); lia.
Qed.

Lemma LakeBins_cases (waterVeg : R) :
  ((0 < waterVeg)%R /\ LakeBins waterVeg = 4)
  \/ ((waterVeg <= 0)%R /\ LakeBins waterVeg = 0).
Proof.
  unfold LakeBins; destruct (Rltb 0 waterVeg) eqn:E; rbool; auto.
Qed.

(** With the wetland fraction that the cells give, the bins in use are
    not more than the bins allocated. *)
Lemma bins_fit (VIC : matrix) (n : Z) (wetlandVeg : R) (totalVeg : Z)
      (option : string) :
  0 < totalVeg -> 0 <= n -> (0 < wetlandVeg)%R ->
  wetlandVeg = (IZR n / IZR totalVeg)%R ->
  counter (fill_bins VIC n wetlandVeg totalVeg option) <= WetBins wetlandVeg.
Proof.
  intros HT Hn Hw Hfrac.
  assert (HT' : (0 < IZR totalVeg)%R) by (apply IZR_lt; exact HT).
  destruct (wetland_bins wetlandVeg Hw) as (Hnum & Htarget & Htpos & _).
  pose proof (fill_bins_closed VIC n wetlandVeg totalVeg option Htpos HT)
    as Hclosed; unfold bins_closed in Hclosed.
  destruct (fill_bins_final VIC n wetlandVeg totalVeg option HT Hn)
    as (Hc & _ & Hsum & Hpos & _); cbv zeta in Hsum, Hpos.
  set (b := fill_bins VIC n wetlandVeg totalVeg option) in *.
  destruct (Z_le_dec (counter b) 0) as [H0|H0].
  { pose proof (WetBins_nonneg wetlandVeg); lia. }
  assert (HWB : (0 < IZR (WetBins wetlandVeg))%R).
  { apply IZR_lt; rewrite Hnum; lia. }
  assert (Hlow : (INR (Z.to_nat (counter b - 1)) * areacriteria wetlandVeg
                  <= bins_sum (WetlandBin b) (Z.of_nat (Z.to_nat (counter b - 1))))%R).
  { apply bins_sum_lower; intros k Hk; apply Hclosed; lia. }
  rewrite Z2Nat.id in Hlow by lia.
  rewrite INR_IZR_INZ, Z2Nat.id in Hlow by lia.
  assert (Hlast : (0 < WetlandBin b 0%Z (counter b - 1)%Z)%R) by (apply Hpos; lia).
  replace (counter b) with (counter b - 1 + 1) in Hsum at 1 by lia.
  rewrite bins_sum_succ in Hsum by lia.
  assert (Htot : (wetlandVeg = IZR (WetBins wetlandVeg) * areacriteria wetlandVeg)%R).
  { rewrite Htarget; field; lra. }
  assert (Hlt : (IZR (counter b - 1) * areacriteria wetlandVeg
                 < IZR (WetBins wetlandVeg) * areacriteria wetlandVeg)%R) by lra.
  apply Rmult_lt_reg_r in Hlt; [|lra].
  apply lt_IZR in Hlt; lia.
Qed.

Section ProfileTheorems.

Variable VIC : matrix.
Variable n : Z.
Variables wetlandVeg waterVeg : R.
Variable totalVeg : Z.
Variables deltax deltay : R.
Variable option : string.
Variable ElevRange : R.

(** The cumulated area over the wetland bins. *)
Lemma assemble_wet_area (m : nat) :
  let p := assemble VIC n wetlandVeg waterVeg totalVeg deltax deltay option
             ElevRange in
  let W := WetlandBin (fill_bins VIC n wetlandVeg totalVeg option) in
  Z.of_nat m <= WetBins wetlandVeg ->
  AREASUM p (LakeBins waterVeg + Z.of_nat m)
  = (AREASUM p (LakeBins waterVeg) + bins_sum W (Z.of_nat m))%R.
Proof.
  intros p W.
  destruct (assemble_parts VIC n wetlandVeg waterVeg totalVeg deltax deltay
              option ElevRange) as [_ Hwet]; fold p W in Hwet.
  induction m as [|m IH]; intros Hm.
  - rewrite Z.add_0_r; unfold bins_sum; simpl; lra.
  - replace (Z.of_nat (S m)) with (Z.of_nat m + 1) in * by lia.
    rewrite bins_sum_succ by lia.
    destruct (Hwet (LakeBins waterVeg + (Z.of_nat m + 1))) as [-> _]; [lia|].
    replace (LakeBins waterVeg + (Z.of_nat m + 1) - 1)
      with (LakeBins waterVeg + Z.of_nat m) by lia.
    replace (LakeBins waterVeg + (Z.of_nat m + 1) - (LakeBins waterVeg + 1))
      with (Z.of_nat m) by lia.
    rewrite IH by lia; lra.
Qed.

(** The cumulated area at the last lake bin is the water fraction. *)
Lemma assemble_lake_area :
  (0 <= waterVeg)%R ->
  AREASUM (assemble VIC n wetlandVeg waterVeg totalVeg deltax deltay option
             ElevRange) (LakeBins waterVeg) = waterVeg.
Proof.
  intros Hw.
  destruct (LakeBins_cases waterVeg) as [[Hpos ->] | [Hneg ->]].
  - destruct (assemble_lake VIC n wetlandVeg waterVeg totalVeg deltax deltay
                option ElevRange Hpos 4 ltac:(lia)) as (Hd & _ & ->).
    destruct (lake_parameters waterVeg totalVeg deltax deltay Hpos)
      as (_ & _ & _ & Hdepth).
    rewrite Hd.
    replace (4 * (LakeDepth waterVeg totalVeg deltax deltay / 4)
             / LakeDepth waterVeg totalVeg deltax deltay)%R with 1%R
      by (field; lra).
    rewrite sqrt_1; lra.
  - destruct (assemble_parts VIC n wetlandVeg waterVeg totalVeg deltax deltay
                option ElevRange) as [-> _]; lra.
Qed.

End ProfileTheorems.

(** The total of the profile for consistent fractions. *)
Lemma assemble_total (VIC : matrix) (n : Z) (wetlandVeg waterVeg : R)
      (totalVeg : Z) (deltax deltay : R) (option : string) (ElevRange : R) :
  0 < totalVeg -> 0 <= n ->
  (0 <= waterVeg)%R -> (0 <= wetlandVeg)%R ->
  ((0 < wetlandVeg)%R -> wetlandVeg = (IZR n / IZR totalVeg)%R) ->
  let p := assemble VIC n wetlandVeg waterVeg totalVeg deltax deltay option
             ElevRange in
  ((0 < wetlandVeg)%R ->
   counter (fill_bins VIC n wetlandVeg totalVeg option) <= WetBins wetlandVeg)
  /\ AREASUM p (WetBins wetlandVeg + LakeBins waterVeg)
     = (waterVeg + wetlandVeg)%R
  /\ VICcalculation VIC n wetlandVeg waterVeg totalVeg deltax deltay option
       ElevRange <> Exit0.
Proof.
  intros HT Hn Hwater Hwet Hfrac p.
  assert (Hfit : (0 < wetlandVeg)%R ->
                 counter (fill_bins VIC n wetlandVeg totalVeg option)
                 <= WetBins wetlandVeg).
  { intros Hpos; apply bins_fit; auto. }
  assert (Htotal : AREASUM p (WetBins wetlandVeg + LakeBins waterVeg)
                   = (waterVeg + wetlandVeg)%R).
  { pose proof (WetBins_nonneg wetlandVeg) as HWB.
    replace (WetBins wetlandVeg + LakeBins waterVeg)
      with (LakeBins waterVeg + Z.of_nat (Z.to_nat (WetBins wetlandVeg))) by lia.
    unfold p; rewrite assemble_wet_area by lia.
    rewrite assemble_lake_area by exact Hwater.
    rewrite Z2Nat.id by lia.
    destruct (Rle_lt_or_eq_dec 0 wetlandVeg Hwet) as [Hpos | Hzero].
    - destruct (fill_bins_final VIC n wetlandVeg totalVeg option HT Hn)
        as (Hc & _ & Hsum & _ & Hz & _); cbv zeta in Hsum, Hz.
      rewrite (bins_sum_flat _
                 (counter (fill_bins VIC n wetlandVeg totalVeg option))).
      + rewrite Hsum, <- (Hfrac Hpos); reflexivity.
      + split; [lia | apply Hfit; exact Hpos].
      + intros k Hk; apply Hz; exact Hk.
    - unfold WetBins; replace (Rltb 0 wetlandVeg) with false
        by (symmetry; apply Rltb_false; lra).
      unfold bins_sum; simpl; lra. }
  split; [exact Hfit | split; [exact Htotal|]].
  intros Hexit; apply exit_iff_excess in Hexit; fold p in Hexit.
  rewrite Htotal in Hexit; lra.
Qed.

(** X13.  For the fractions that [Topindex] passes, water and wetland
    fractions that are not negative and a wetland fraction, when there is
    one, that is the share [n / totalVeg] of the [n] wetland cells, the
    bins in use fit in the [WetBins] bins, the last cumulated area is
    [waterVeg + wetlandVeg] exactly, and the call does not stop on the
    check of the total. *)
Theorem profile_total_matches (VIC : matrix) (n : Z) (wetlandVeg waterVeg : R)
        (totalVeg : Z) (deltax deltay : R) (option : string) (ElevRange : R) :
  0 < totalVeg -> 0 <= n ->
  (0 <= waterVeg)%R -> (0 <= wetlandVeg)%R ->
  ((0 < wetlandVeg)%R -> wetlandVeg = (IZR n / IZR totalVeg)%R) ->
  let p := assemble VIC n wetlandVeg waterVeg totalVeg deltax deltay option
             ElevRange in
  ((0 < wetlandVeg)%R ->
   counter (fill_bins VIC n wetlandVeg totalVeg option) <= WetBins wetlandVeg)
  /\ AREASUM p (WetBins wetlandVeg + LakeBins waterVeg)
     = (waterVeg + wetlandVeg)%R
  /\ VICcalculation VIC n wetlandVeg waterVeg totalVeg deltax deltay option
       ElevRange <> Exit0.
Proof.
  intros HT Hn Hwater Hwet Hfrac.
  exact (assemble_total VIC n wetlandVeg waterVeg totalVeg deltax deltay option
           ElevRange HT Hn Hwater Hwet Hfrac).
Qed.

Lemma profile_total_matches_witness :
  AREASUM (assemble (fun _ _ => 0%R) 7 0.7 0.2 10 30 30 "LAKE" 0)
    (WetBins 0.7 + LakeBins 0.2)
  = (0.2 + 0.7)%R.
Proof.
  apply (profile_total_matches (fun _ _ => 0%R) 7 0.7 0.2 10 30 30 "LAKE" 0);
    try lia; try lra.
Defined.

(** X14.  The cumulated area of the profile starts at 0 and never goes
    down from one node to the next, over the lake bins and the wetland
    bins alike. *)
Theorem profile_area_monotone (VIC : matrix) (n : Z) (wetlandVeg waterVeg : R)
        (totalVeg : Z) (deltax deltay : R) (option : string) (ElevRange : R) :
  0 < totalVeg -> 0 <= n ->
  let p := assemble VIC n wetlandVeg waterVeg totalVeg deltax deltay option
             ElevRange in
  AREASUM p 0 = 0%R
  /\ forall i, 1 <= i <= WetBins wetlandVeg + LakeBins waterVeg ->
       (AREASUM p (i - 1)%Z <= AREASUM p i)%R.
Proof.
  intros HT Hn p.
  destruct (assemble_parts VIC n wetlandVeg waterVeg totalVeg deltax deltay
              option ElevRange) as [H0 Hwet]; fold p in H0, Hwet.
  split; [exact H0|].
  intros i Hi.
  destruct (Z_le_dec i (LakeBins waterVeg)) as [Hlake|Hlake].
  - (* a lake bin *)
    destruct (LakeBins_cases waterVeg) as [[Hpos HL] | [Hneg HL]];
      rewrite HL in *; [|lia].
    destruct (lake_parameters waterVeg totalVeg deltax deltay Hpos)
      as (_ & _ & _ & Hdepth).
    destruct (assemble_lake VIC n wetlandVeg waterVeg totalVeg deltax deltay
                option ElevRange Hpos i ltac:(lia)) as (Hd & _ & Ha).
    fold p in Hd, Ha; rewrite Ha.
    destruct (Z.eq_dec i 1) as [->|Hne].
    + simpl; rewrite H0.
      apply Rmult_le_pos; [lra | apply sqrt_pos].
    + destruct (assemble_lake VIC n wetlandVeg waterVeg totalVeg deltax deltay
                  option ElevRange Hpos (i - 1) ltac:(lia)) as (Hd' & _ & Ha').
      fold p in Hd', Ha'; rewrite Ha'.
      apply Rmult_le_compat_l; [lra|].
      apply sqrt_le_1_alt; rewrite Hd, Hd', minus_IZR.
      unfold Rdiv; apply Rmult_le_compat_r.
      * apply Rlt_le, Rinv_0_lt_compat; lra.
      * nra.
  - (* a wetland bin *)
    destruct (Hwet i) as [-> _]; [lia|].
    destruct (fill_bins_final VIC n wetlandVeg totalVeg option HT Hn)
      as (_ & _ & _ & Hpos & Hz & _); cbv zeta in Hpos, Hz.
    set (k := i - (LakeBins waterVeg + 1)).
    set (b := fill_bins VIC n wetlandVeg totalVeg option) in *.
    assert (0 <= WetlandBin b 0%Z k)%R.
    { destruct (Z_lt_dec k (counter b)).
      - apply Rlt_le, Hpos; unfold k; lia.
      - destruct (Hz k) as [-> _]; [lia | lra]. }
    lra.
Qed.

Lemma profile_area_monotone_witness :
  let p := assemble (fun _ _ => 0%R) 7 0.7 0.2 10 30 30 "LAKE" 0 in
  AREASUM p 0 = 0%R /\ (AREASUM p (5 - 1)%Z <= AREASUM p 5%Z)%R.
Proof.
  intros p.
  destruct (profile_area_monotone (fun _ _ => 0%R) 7 0.7 0.2 10 30 30 "LAKE" 0
              ltac:(lia) ltac:(lia)) as [H0 Hmono].
  split; [exact H0|].
  apply Hmono.
  pose proof (WetBins_nonneg 0.7) as HWB.
  destruct (LakeBins_cases 0.2) as [[_ ->] | [Hneg _]]; [|lra].
  unfold WetBins in *.
  replace (Rltb 0 0.7) with true in * by (symmetry; apply Rltb_true; lra).
  destruct (ceil (0.7 / 0.091) <? 5) eqn:E; [lia|].
  apply Z.ltb_ge in E; lia.
Defined.

(** X15.  In the LAKE format (any option but SEA), the elevation of the
    node of wetland bin [k] is the last row of the bin, less the first
    elevation [VIC[4][0]], plus the lake depth.  For a bin in use that is
    the elevation of one of the cells, [VIC[4][e] - VIC[4][0] + LakeDepth];
    for a bin that the cells did not reach, the row is 0, so that the
    node is at [LakeDepth - VIC[4][0]] and adds no area. *)
Theorem lake_format_nodes (VIC : matrix) (n : Z) (wetlandVeg waterVeg : R)
        (totalVeg : Z) (deltax deltay : R) (option : string) (ElevRange : R) :
  0 < totalVeg -> 0 <= n -> is_SEA option = false ->
  let p := assemble VIC n wetlandVeg waterVeg totalVeg deltax deltay option
             ElevRange in
  let b := fill_bins VIC n wetlandVeg totalVeg option in
  let depth := LakeDepth waterVeg totalVeg deltax deltay in
  forall k, 0 <= k < WetBins wetlandVeg ->
    let i := LakeBins waterVeg + 1 + k in
    DEMSUM p i = (WetlandBin b 1%Z k - VIC 4%Z 0%Z + depth)%R
    /\ (k < counter b ->
        exists e, k <= e < n
                  /\ DEMSUM p i = (VIC 4%Z e - VIC 4%Z 0%Z + depth)%R)
    /\ (counter b <= k ->
        DEMSUM p i = (depth - VIC 4%Z 0%Z)%R
        /\ AREASUM p i = AREASUM p (i - 1)%Z).
Proof.
  intros HT Hn Hlake p b depth k Hk i.
  destruct (assemble_parts VIC n wetlandVeg waterVeg totalVeg deltax deltay
              option ElevRange) as [_ Hwet]; fold p b depth in Hwet.
  destruct (Hwet i) as (Ha & Hb & Hd); [unfold i; lia|].
  specialize (Hd Hlake).
  replace (i - (LakeBins waterVeg + 1)) with k in Ha, Hb by (unfold i; lia).
  assert (Hrows : ROWS option - 1 = 1) by (unfold ROWS; rewrite Hlake; reflexivity).
  rewrite Hrows in Hb.
  destruct (fill_bins_final VIC n wetlandVeg totalVeg option HT Hn)
    as (_ & _ & _ & _ & Hz & He); fold b in Hz, He; cbv zeta in Hz, He.
  rewrite Hrows in Hz, He.
  split; [rewrite Hd; exact Hb|].
  split.
  - intros Hused; destruct (He k) as (e & Hrange & Ee); [lia|].
    exists e; split; [exact Hrange|].
    rewrite Hd, Hb, Ee; reflexivity.
  - intros Hfree; destruct (Hz k Hfree) as [Z0 Z1].
    split; [rewrite Hd, Hb, Z1; lra | rewrite Ha, Z0; lra].
Qed.

Lemma lake_format_nodes_witness :
  let p := assemble (fun _ _ => 0%R) 7 0.7 0.2 10 30 30 "LAKE" 0 in
  DEMSUM p (LakeBins 0.2 + 1 + 7) = (LakeDepth 0.2 10 30 30 - 0)%R.
Proof.
  intros p.
  assert (Hk : 0 <= 7 < WetBins 0.7).
  { unfold WetBins.
    replace (Rltb 0 0.7) with true by (symmetry; apply Rltb_true; lra).
    rewrite ceil_7_10; simpl; lia. }
  destruct (lake_format_nodes (fun _ _ => 0%R) 7 0.7 0.2 10 30 30 "LAKE" 0
              ltac:(lia) ltac:(lia) eq_refl 7 Hk) as (_ & _ & Hfree).
  destruct Hfree as [Hd _]; [|exact Hd].
  destruct fill_bins_7_10 as [-> _]; lia.
Defined.

(** ** The check of the total in single precision *)

Section SingleAccounts.

Variable VIC : matrix.
Variable n : Z.
Variable wetlandVeg : R.
Variable totalVeg : Z.
Variable option : string.

(** Row 0 of the bins when [i] cells are through: the closed bins hold
    the share of one cell at least, the open bin at [counter] holds the
    number [m] of cells that it has taken, the bins above are empty. *)
Definition single_account (i : Z) (b : bins) : Prop :=
  let W := WetlandBin b in
  0 <= counter b <= i
  /\ (forall k, counter b < k -> W 0 k = 0%R)
  /\ (forall k, 0 <= k < counter b -> (1 / IZR totalVeg <= W 0%Z k)%R)
  /\ exists m,
       0 <= m /\ W 0 (counter b) = IZR m
       /\ (bins_sum W (counter b) * IZR totalVeg + IZR m = IZR i)%R
       /\ (i = n -> m = 0).

Lemma single_bin_step_account (i : Z) (b : bins) :
  0 < totalVeg -> 0 <= i ->
  single_account i b ->
  single_account (i + 1) (Single.bin_step VIC n wetlandVeg totalVeg option i b).
Proof.
  intros HT Hi (Hc & Hzero & Hone & m & Hm & Hopen & Hsum & _).
  assert (HT' : (0 < IZR totalVeg)%R) by (apply IZR_lt; exact HT).
  pose proof (single_bin_step_row0 VIC n wetlandVeg totalVeg option i b) as Hrow.
  cbv zeta in Hrow.
  set (b' := Single.bin_step VIC n wetlandVeg totalVeg option i b) in *.
  set (c := counter b) in *.
  rewrite Hopen in Hrow.
  assert (Hm1 : (1 <= IZR m + 1)%R).
  { assert (0 <= IZR m)%R by (apply IZR_le; exact Hm); lra. }
  destruct (Rleb (Single.areacriteria wetlandVeg) ((IZR m + 1) / IZR totalVeg)
            || (i =? n - 1)) eqn:Etest;
    destruct Hrow as [Hcount Hw]; unfold single_account; cbv zeta;
    rewrite Hcount.
  - (* the bin is closed *)
    split; [lia | split; [|split]].
    + intros k Hk; rewrite Hw.
      replace (k =? c) with false by (symmetry; apply Z.eqb_neq; lia).
      apply Hzero; lia.
    + intros k Hk; rewrite Hw.
      destruct (Z.eqb_spec k c); [|apply Hone; lia].
      unfold Rdiv; apply Rmult_le_compat_r; [|exact Hm1].
      apply Rlt_le, Rinv_0_lt_compat; exact HT'.
    + exists 0; split; [lia | split; [|split; [|reflexivity]]].
      * rewrite Hw.
        replace (c + 1 =? c) with false by (symmetry; apply Z.eqb_neq; lia).
        apply Hzero; lia.
      * rewrite bins_sum_succ by lia.
        rewrite (bins_sum_ext (WetlandBin b) (WetlandBin b') c).
        2:{ intros k Hk; rewrite Hw.
            replace (k =? c) with false by (symmetry; apply Z.eqb_neq; lia).
            reflexivity. }
        rewrite Hw, Z.eqb_refl, plus_IZR.
        replace (((bins_sum (WetlandBin b) c
                   + (IZR m + 1) / IZR totalVeg) * IZR totalVeg + 0)%R)
          with ((bins_sum (WetlandBin b) c * IZR totalVeg
                 + (IZR m + 1))%R) by (field; lra).
        lra.
  - (* the bin stays open *)
    apply orb_false_iff in Etest as [_ Elast]; apply Z.eqb_neq in Elast.
    split; [lia | split; [|split]].
    + intros k Hk; rewrite Hw.
      replace (k =? c) with false by (symmetry; apply Z.eqb_neq; lia).
      apply Hzero; lia.
    + intros k Hk; rewrite Hw.
      replace (k =? c) with false by (symmetry; apply Z.eqb_neq; lia).
      apply Hone; lia.
    + exists (m + 1); split; [lia | split; [|split; [|lia]]].
      * rewrite Hw, Z.eqb_refl, plus_IZR; reflexivity.
      * rewrite (bins_sum_ext (WetlandBin b) (WetlandBin b') c).
        2:{ intros k Hk; rewrite Hw.
            replace (k =? c) with false by (symmetry; apply Z.eqb_neq; lia).
            reflexivity. }
        rewrite !plus_IZR; lra.
Qed.

(** Row 0 of the bins when the loop is through. *)
Lemma single_fill_bins_final :
  0 < totalVeg -> 0 <= n ->
  let b := Single.fill_bins VIC n wetlandVeg totalVeg option in
  let W := WetlandBin b in
  0 <= counter b <= n
  /\ bins_sum W (counter b) = (IZR n / IZR totalVeg)%R
  /\ (forall k, 0 <= k < counter b -> (1 / IZR totalVeg <= W 0%Z k)%R)
  /\ (forall k, counter b <= k -> W 0 k = 0%R).
Proof.
  intros HT Hn b W.
  assert (H : single_account n b).
  { unfold b, Single.fill_bins.
    replace n with (Z.max 0 (n - 1 + 1)) at 1 by lia.
    apply for_loop_invariant.
    - unfold single_account; cbn [counter WetlandBin].
      split; [lia | split; [reflexivity | split; [intros; lia|]]].
      exists 0; split; [lia | split; [reflexivity | split; [|reflexivity]]].
      unfold bins_sum; simpl; lra.
    - intros i b0 Hi Hb; apply single_bin_step_account; auto; lia. }
  destruct H as (Hc & Hzero & Hone & m & Hm & Hopen & Hsum & Hend).
  cbv zeta in Hzero, Hone, Hopen, Hsum; fold W in Hzero, Hone, Hopen, Hsum.
  assert (HT' : (0 < IZR totalVeg)%R) by (apply IZR_lt; exact HT).
  rewrite (Hend eq_refl) in Hopen, Hsum.
  split; [exact Hc | split; [|split; [exact Hone|]]].
  - apply Rmult_eq_reg_r with (IZR totalVeg); [|lra].
    unfold Rdiv; rewrite Rmult_assoc, Rinv_l by lra; lra.
  - intros k Hk; destruct (Z.eq_dec k (counter b)) as [->|Hne];
      [exact Hopen | apply Hzero; lia].
Qed.

End SingleAccounts.

(** With the wetland fraction that [n] cells out of [totalVeg] give, the
    bins in use are not more than the bins allocated. *)
Lemma single_bins_fit (VIC : matrix) (n totalVeg : Z) (option : string) :
  1 <= n <= 8388608 -> n <= totalVeg <= 16777216 ->
  let wetlandVeg := float32 (IZR n / IZR totalVeg) in
  counter (Single.fill_bins VIC n wetlandVeg totalVeg option)
  <= Single.WetBins wetlandVeg.
Proof.
  intros Hn HT wetlandVeg.
  assert (HT' : (1 <= IZR totalVeg <= 16777216)%R) by (split; apply IZR_le; lia).
  assert (Hn' : (1 <= IZR n <= 8388608)%R) by (split; apply IZR_le; lia).
  destruct (float32_share n totalVeg ltac:(lia) ltac:(lia))
    as (Hw1 & _ & Hw2 & Hw3); cbv zeta in Hw1, Hw2, Hw3.
  fold wetlandVeg in Hw1, Hw2, Hw3.
  specialize (Hw2 ltac:(lia)).
  apply Rabs_le_between in Hw3.
  pose proof (single_WetBins_range wetlandVeg ltac:(lra)) as HW.
  destruct (single_target_pos wetlandVeg ltac:(lra)) as [Htb Htpos].
  cbv zeta in Htb.
  pose proof (single_fill_bins_closed VIC n wetlandVeg totalVeg option
                Htpos ltac:(lia)) as Hclosed.
  unfold single_bins_closed in Hclosed.
  destruct (single_fill_bins_final VIC n wetlandVeg totalVeg option
              ltac:(lia) ltac:(lia)) as (Hc & Hsum & Hone & _).
  cbv zeta in Hsum, Hone.
  set (b := Single.fill_bins VIC n wetlandVeg totalVeg option) in *.
  set (W := IZR (Single.WetBins wetlandVeg)) in *.
  set (t := Single.areacriteria wetlandVeg) in *.
  assert (HW' : (5 <= W <= 11)%R) by (unfold W; split; apply IZR_le; lia).
  destruct (Z_le_dec (counter b) (Single.WetBins wetlandVeg)) as [Hle|Hgt];
    [exact Hle | exfalso].
  (* the first [WetBins] bins are closed on the target *)
  assert (Hlow : (INR (Z.to_nat (Single.WetBins wetlandVeg)) * t
                  <= bins_sum (WetlandBin b)
                       (Z.of_nat (Z.to_nat (Single.WetBins wetlandVeg))))%R).
  { apply bins_sum_lower; intros k Hk; apply Hclosed; lia. }
  rewrite Z2Nat.id in Hlow by lia.
  rewrite INR_IZR_INZ, Z2Nat.id in Hlow by lia; fold W in Hlow.
  (* and one more bin holds a cell *)
  assert (Hrest : (bins_sum (WetlandBin b) (Single.WetBins wetlandVeg)
                   + 1 / IZR totalVeg
                   <= bins_sum (WetlandBin b) (counter b))%R).
  { replace (counter b)
      with (Single.WetBins wetlandVeg + 1
            + Z.of_nat (Z.to_nat (counter b - (Single.WetBins wetlandVeg + 1))))
      by lia.
    assert (Hk1 : Single.WetBins wetlandVeg + 1
                  + Z.of_nat (Z.to_nat (counter b - (Single.WetBins wetlandVeg + 1)))
                  <= counter b) by lia.
    revert Hk1.
    induction (Z.to_nat (counter b - (Single.WetBins wetlandVeg + 1)))
      as [|m IH]; intros Hk1.
    - rewrite Z.add_0_r, bins_sum_succ by lia.
      assert (1 / IZR totalVeg
              <= WetlandBin b 0%Z (Single.WetBins wetlandVeg))%R
        by (apply Hone; lia).
      lra.
    - replace (Single.WetBins wetlandVeg + 1 + Z.of_nat (S m))
        with (Single.WetBins wetlandVeg + 1 + Z.of_nat m + 1) by lia.
      rewrite bins_sum_succ by lia.
      assert (1 / IZR totalVeg
              <= WetlandBin b 0%Z (Single.WetBins wetlandVeg + 1 + Z.of_nat m)%Z)%R
        by (apply Hone; lia).
      assert (0 < 1 / IZR totalVeg)%R
        by (apply Rdiv_lt_0_compat; lra).
      specialize (IH ltac:(lia)); lra. }
  rewrite Hsum in Hrest.
  (* W * t <= (n - 1) / totalVeg, with t within 2^-24 of n / (totalVeg * W) *)
  assert (Hq : (IZR n / IZR totalVeg * (1 - / 16777216) <= wetlandVeg)%R) by lra.
  assert (Ht : (wetlandVeg * (1 - / 16777216) <= W * t)%R).
  { destruct Htb as [Htb _].
    apply Rmult_le_compat_l with (r := W) in Htb; [|lra].
    replace (W * (wetlandVeg / W * (1 - / 16777216)))%R
      with (wetlandVeg * (1 - / 16777216))%R in Htb by (field; lra).
    exact Htb. }
  assert (Hfin : (IZR n / IZR totalVeg * (1 - / 16777216) * (1 - / 16777216)
                  + 1 / IZR totalVeg <= IZR n / IZR totalVeg)%R) by nra.
  assert (Hmul : (IZR n * (1 - / 16777216) * (1 - / 16777216) + 1 <= IZR n)%R).
  { apply Rmult_le_compat_r with (r := IZR totalVeg) in Hfin; [|lra].
    replace ((IZR n / IZR totalVeg * (1 - / 16777216) * (1 - / 16777216)
              + 1 / IZR totalVeg) * IZR totalVeg)%R
      with (IZR n * (1 - / 16777216) * (1 - / 16777216) + 1)%R in Hfin
      by (field; lra).
    replace (IZR n / IZR totalVeg * IZR totalVeg)%R with (IZR n) in Hfin
      by (field; lra).
    exact Hfin. }
  nra.
Qed.

Section SingleProfile.

Variable VIC : matrix.
Variable n : Z.
Variables wetlandVeg waterVeg : R.
Variable totalVeg : Z.
Variables deltax deltay : R.
Variable option : string.
Variable ElevRange : R.

Lemma single_LakeDepth_pos :
  (0 < waterVeg)%R ->
  (4.17 <= Single.LakeDepth waterVeg totalVeg deltax deltay)%R.
Proof.
  intros Hw; apply Rltb_true in Hw.
  unfold Single.LakeDepth; rewrite Hw.
  destruct (Rltb _ 40.9375) eqn:E; rbool; lra.
Qed.

(** The lake bins after the loop over them. *)
Definition single_lake_filled (hi : Z) (p0 p : profile) : Prop :=
  let depth := Single.LakeDepth waterVeg totalVeg deltax deltay in
  DEMSUM p 0 = DEMSUM p0 0 /\ AREASUM p 0 = AREASUM p0 0
  /\ forall k, 1 <= k < hi ->
       DEMSUM p k = (DEMSUM p0 0%Z + IZR k * (depth / IZR (LakeBins waterVeg)))%R
       /\ AREASUM p k = (waterVeg * sqrt (DEMSUM p k / depth))%R.

Lemma single_lake_loop_filled (p0 : profile) :
  single_lake_filled (Z.max 1 (LakeBins waterVeg + 1)) p0
    (for_loop 1 (LakeBins waterVeg)
       (Single.lake_step VIC waterVeg totalVeg deltax deltay option) p0).
Proof.
  apply (for_loop_invariant (fun hi p => single_lake_filled hi p0 p)).
  - split; [reflexivity | split; [reflexivity | intros; lia]].
  - intros i p Hi (H0 & Ha & Hk).
    set (depth := Single.LakeDepth waterVeg totalVeg deltax deltay) in *.
    assert (Hprev : DEMSUM p (i - 1)
              = (DEMSUM p0 0%Z
                 + IZR (i - 1) * (depth / IZR (LakeBins waterVeg)))%R).
    { destruct (Z.eq_dec i 1) as [->|]; [simpl; rewrite H0; lra|].
      apply Hk; lia. }
    assert (Hnew : (DEMSUM p (i - 1)%Z + depth / IZR (LakeBins waterVeg)
                    = DEMSUM p0 0%Z
                      + IZR i * (depth / IZR (LakeBins waterVeg)))%R).
    { rewrite Hprev, minus_IZR; lra. }
    unfold single_lake_filled, Single.lake_step; cbv zeta; fold depth.
    destruct (is_SEA option); cbn [DEMSUM AREASUM]; unfold vset;
      replace (0 =? i) with false by (symmetry; apply Z.eqb_neq; lia);
      (split; [exact H0 | split; [exact Ha|]]);
      intros k Hk'; destruct (Z.eqb_spec k i) as [->|Hne];
      try (apply Hk; lia);
      rewrite ?Z.eqb_refl; (split; [exact Hnew | reflexivity]).
Qed.

(** The loop over the wetland bins, for [AREASUM]. *)
Definition single_wet_filled (W : matrix) (lo hi : Z) (p0 p : profile) : Prop :=
  (forall k, k < lo -> AREASUM p k = AREASUM p0 k)
  /\ forall i, lo <= i < hi ->
       AREASUM p i
       = (AREASUM p (i - 1)%Z + W 0%Z (i - (LakeBins waterVeg + 1))%Z)%R.

Lemma single_wet_loop_filled (W : matrix) (hi : Z) (p0 : profile) :
  single_wet_filled W (LakeBins waterVeg + 1)
    (Z.max (LakeBins waterVeg + 1) (hi + 1)) p0
    (for_loop (LakeBins waterVeg + 1) hi
       (Single.wet_step VIC wetlandVeg waterVeg option ElevRange W) p0).
Proof.
  apply (for_loop_invariant
           (fun j p => single_wet_filled W (LakeBins waterVeg + 1) j p0 p)).
  - split; [auto | intros; lia].
  - intros i p Hi [Hlow Hin].
    unfold single_wet_filled, Single.wet_step; cbv zeta.
    destruct (is_SEA option), (1 <? i);
      cbn [AREASUM]; unfold vset;
      (split;
       [ intros k Hk;
         replace (k =? i) with false by (symmetry; apply Z.eqb_neq; lia);
         apply Hlow; exact Hk
       | intros j Hj;
         replace (j - 1 =? i) with false by (symmetry; apply Z.eqb_neq; lia);
         destruct (Z.eqb_spec j i) as [->|Hne];
         [ reflexivity | apply Hin; lia ] ]).
Qed.

(** The cumulated area of the assembled profile: the water fraction at
    the last lake bin, and the bins on top of it. *)
Lemma single_assemble_area (m : nat) :
  (0 <= waterVeg)%R ->
  let p := Single.assemble VIC n wetlandVeg waterVeg totalVeg deltax deltay
             option ElevRange in
  let W := WetlandBin (Single.fill_bins VIC n wetlandVeg totalVeg option) in
  Z.of_nat m <= Single.WetBins wetlandVeg ->
  AREASUM p (LakeBins waterVeg + Z.of_nat m)
  = (waterVeg + bins_sum W (Z.of_nat m))%R.
Proof.
  intros Hwater p W; subst p; unfold Single.assemble; cbv zeta; fold W.
  set (L := LakeBins waterVeg).
  set (p0 := mkProfile _ _ _ _ _).
  pose proof (single_lake_loop_filled p0) as (Hd1 & Ha1 & Hk1);
    fold L in Hd1, Ha1, Hk1.
  set (p1 := for_loop 1 L _ p0) in *.
  set (p2 := if is_SEA option then _ else p1).
  assert (H2 : forall k, AREASUM p2 k = AREASUM p1 k).
  { intros k; subst p2; destruct (is_SEA option); [|auto].
    pose (Inv := fun (_ : Z) (q : profile) => AREASUM q k = AREASUM p1 k).
    apply (for_loop_invariant Inv); [reflexivity|].
    intros i q _ Hq; unfold twi_step; cbn [AREASUM]; exact Hq. }
  pose proof (single_wet_loop_filled W (Single.WetBins wetlandVeg + L) p2)
    as [Hlow Hin]; fold L in Hlow, Hin.
  set (p3 := for_loop (L + 1) (Single.WetBins wetlandVeg + L) _ p2) in *.
  assert (Hbase : AREASUM p3 L = waterVeg).
  { rewrite Hlow, H2 by lia.
    destruct (LakeBins_cases waterVeg) as [[Hpos E] | [Hneg E]]; fold L in E.
    - pose proof (single_LakeDepth_pos Hpos) as Hdepth.
      destruct (Hk1 L) as [Hdem ->]; [rewrite E; simpl; lia|].
      rewrite Hdem, E; unfold p0; cbn [DEMSUM]; unfold vset; cbn [Z.eqb].
      replace ((0 + IZR 4 * (Single.LakeDepth waterVeg totalVeg deltax deltay
                             / IZR 4))
               / Single.LakeDepth waterVeg totalVeg deltax deltay)%R
        with 1%R by (field; lra).
      rewrite sqrt_1; lra.
    - rewrite E, Ha1; unfold p0; cbn [AREASUM]; unfold vset; cbn [Z.eqb]; lra. }
  induction m as [|m IH]; intros Hm.
  - rewrite Z.add_0_r, Hbase; unfold bins_sum; simpl; lra.
  - replace (Z.of_nat (S m)) with (Z.of_nat m + 1) in * by lia.
    rewrite bins_sum_succ by lia.
    rewrite (Hin (L + (Z.of_nat m + 1))) by lia.
    replace (L + (Z.of_nat m + 1) - 1) with (L + Z.of_nat m) by lia.
    replace (L + (Z.of_nat m + 1) - (L + 1)) with (Z.of_nat m) by lia.
    rewrite IH by lia; lra.
Qed.

(** The call stops without a profile exactly when the cumulated area
    exceeds the sum of the two fractions by more than the tolerance. *)
Lemma single_exit_iff_excess :
  let p := Single.assemble VIC n wetlandVeg waterVeg totalVeg deltax deltay
             option ElevRange in
  Single.VICcalculation VIC n wetlandVeg waterVeg totalVeg deltax deltay
    option ElevRange = Exit0
  <-> (0.00001
       < AREASUM p (Single.WetBins wetlandVeg + LakeBins waterVeg)%Z
         - float32 (waterVeg + wetlandVeg))%R.
Proof.
  intros p; unfold Single.VICcalculation; cbv zeta; fold p.
  unfold Single.fraction_mismatch.
  destruct (Rltb 0.00001 _) eqn:E; rbool.
  - split; auto.
  - split; [|lra].
    repeat match goal with
      | |- context [if ?c then _ else _] => destruct c
      end; discriminate.
Qed.

End SingleProfile.




(** *** A total that exceeds the fractions *)

(** When the share of one cell reaches the target, every cell closes a
    bin. *)
Lemma single_fill_bins_one_each (VIC : matrix) (n : Z) (wetlandVeg : R)
      (totalVeg : Z) (option : string) :
  0 <= n ->
  (Single.areacriteria wetlandVeg <= 1 / IZR totalVeg)%R ->
  let b := Single.fill_bins VIC n wetlandVeg totalVeg option in
  counter b = n
  /\ forall k, WetlandBin b 0 k
               = if (0 <=? k) && (k <? n) then (1 / IZR totalVeg)%R else 0%R.
Proof.
  intros Hn Ht b; subst b; unfold Single.fill_bins.
  pose (Inv := fun (i : Z) (b : bins) =>
    counter b = i
    /\ forall k, WetlandBin b 0 k
                 = if (0 <=? k) && (k <? i) then (1 / IZR totalVeg)%R else 0%R).
  assert (H : Inv (Z.max 0 (n - 1 + 1))
                (for_loop 0 (n - 1)
                   (Single.bin_step VIC n wetlandVeg totalVeg option)
                   (mkBins (fun _ _ => 0%R) 0 0))).
  { apply for_loop_invariant.
    - split; [reflexivity | intros k; cbn [WetlandBin]].
      destruct (0 <=? k) eqn:E1, (k <? 0) eqn:E2; try reflexivity.
      apply Z.leb_le in E1; apply Z.ltb_lt in E2; lia.
    - intros i b Hi (Hc & Hw).
      pose proof (single_bin_step_row0 VIC n wetlandVeg totalVeg option i b)
        as Hrow.
      cbv zeta in Hrow; rewrite Hc, (Hw i) in Hrow.
      replace (i <? i) with false in Hrow by (symmetry; apply Z.ltb_ge; lia).
      rewrite andb_false_r in Hrow.
      replace (Rleb (Single.areacriteria wetlandVeg) ((0 + 1) / IZR totalVeg))
        with true in Hrow
        by (symmetry; rbool; replace (0 + 1)%R with 1%R by lra; exact Ht).
      cbn [orb] in Hrow; destruct Hrow as [Hc' Hw'].
      split; [exact Hc'|].
      intros k; rewrite Hw', Hw.
      destruct (Z.eqb_spec k i) as [->|Hne].
      + replace (0 <=? i) with true by (symmetry; apply Z.leb_le; lia).
        replace (i <? i + 1) with true by (symmetry; apply Z.ltb_lt; lia).
        cbn [andb]; f_equal; lra.
      + destruct (0 <=? k) eqn:E1; cbn [andb]; [|reflexivity].
        destruct (Z.ltb_spec k i), (Z.ltb_spec k (i + 1)); try reflexivity; lia. }
  replace (Z.max 0 (n - 1 + 1)) with n in H by lia.
  exact H.
Qed.

Lemma float32_half : float32 (1 / 2) = (1 / 2)%R.
Proof.
  apply (float32_exact (1 / 2) (-1) 8388608).
  - rewrite Rabs_pos_eq by lra; simpl; lra.
  - lia.
  - change (-1 - 23) with (-24); rewrite powerRZ_2_m24; lra.
Qed.

(** Called with ten cells in the bins, a wetland fraction of a half and
    no water, which is not a call that [Topindex] makes: there are six
    bins, each cell closes a bin, the six bins that are summed hold 0.6,
    which exceeds the fraction by 0.1, and the call stops without a
    profile. *)
Lemma area_excess_detected :
  Single.WetBins (1 / 2) = 6
  /\ AREASUM (Single.assemble (fun _ _ => 0%R) 10 (1 / 2) 0 10 30 30 "LAKE" 0)
       (Single.WetBins (1 / 2) + LakeBins 0)
     = (6 / 10)%R
  /\ Single.VICcalculation (fun _ _ => 0%R) 10 (1 / 2) 0 10 30 30 "LAKE" 0
     = Exit0.
Proof.
  assert (HW : Single.WetBins (1 / 2) = 6).
  { unfold Single.WetBins.
    replace (Rltb 0 (1 / 2)) with true by (symmetry; rbool; lra).
    pose proof (single_quotient (1 / 2) ltac:(lra)) as Hq; cbv zeta in Hq.
    assert (E : ceil (float32 (1 / 2 / float32 0.091)) = 6).
    { apply ceil_unique; simpl; lra. }
    rewrite E; reflexivity. }
  assert (Ht : (Single.areacriteria (1 / 2) <= 1 / IZR 10)%R).
  { destruct (single_target_pos (1 / 2) ltac:(lra)) as [H _].
    cbv zeta in H; rewrite HW in H; lra. }
  destruct (single_fill_bins_one_each (fun _ _ => 0%R) 10 (1 / 2) 10 "LAKE"
              ltac:(lia) Ht) as [_ Hbins].
  assert (HL : LakeBins 0 = 0).
  { unfold LakeBins; replace (Rltb 0 0) with false by (symmetry; rbool; lra).
    reflexivity. }
  assert (Harea :
    AREASUM (Single.assemble (fun _ _ => 0%R) 10 (1 / 2) 0 10 30 30 "LAKE" 0)
      (Single.WetBins (1 / 2) + LakeBins 0) = (6 / 10)%R).
  { rewrite HW.
    replace (6 + LakeBins 0) with (LakeBins 0 + Z.of_nat 6)
      by (rewrite HL; reflexivity).
    rewrite single_assemble_area by (try lra; rewrite HW; simpl; lia).
    unfold bins_sum; simpl Z.of_nat; change (Z.to_nat 6) with 6%nat.
    cbn [sum_upto]; rewrite !Hbins; simpl; lra. }
  split; [exact HW | split; [exact Harea|]].
  apply single_exit_iff_excess; cbv zeta.
  rewrite Harea, Rplus_0_l, float32_half; lra.
Qed.

(** X30.  The bins in single precision, for the wetland fraction that
    [Topindex] passes: with [n] wetland cells, up to [2^23], among
    [totalVeg] cells, up to [2^24], and the fraction [n / totalVeg] rounded
    to [float], the loop over the cells closes at least one bin and not
    more than the [WetBins] bins that are allocated, the closed bins hold
    the share of one cell at least and their shares add up to
    [n / totalVeg], and the bins from [counter] on are left at zero. *)
Theorem single_bins_within_block (VIC : matrix) (n totalVeg : Z)
        (option : string) :
  1 <= n <= 8388608 -> n <= totalVeg <= 16777216 ->
  let wetlandVeg := float32 (IZR n / IZR totalVeg) in
  let b := Single.fill_bins VIC n wetlandVeg totalVeg option in
  1 <= counter b <= Single.WetBins wetlandVeg
  /\ Single.WetBins wetlandVeg <= 11
  /\ bins_sum (WetlandBin b) (counter b) = (IZR n / IZR totalVeg)%R
  /\ (forall k, 0 <= k < counter b ->
        (1 / IZR totalVeg <= WetlandBin b 0%Z k)%R)
  /\ (forall k, counter b <= k -> WetlandBin b 0 k = 0%R).
Proof.
  intros Hn HT wetlandVeg b.
  pose proof (single_bins_fit VIC n totalVeg option Hn HT) as Hfit.
  cbv zeta in Hfit; fold wetlandVeg b in Hfit.
  destruct (single_fill_bins_final VIC n wetlandVeg totalVeg option
              ltac:(lia) ltac:(lia)) as (Hc & Hs & Hone & Hz).
  cbv zeta in Hs, Hone, Hz; fold b in Hc, Hs, Hone, Hz.
  destruct (float32_share n totalVeg ltac:(lia) ltac:(lia))
    as (Hw1 & _ & Hw2 & _); cbv zeta in Hw1, Hw2; fold wetlandVeg in Hw1, Hw2.
  pose proof (single_WetBins_range wetlandVeg
                ltac:(split; [apply Hw2; lia | apply Hw1])) as HW.
  split; [split; [|exact Hfit] | split; [lia | split; [exact Hs|]]].
  - destruct (Z_le_dec 1 (counter b)) as [H|H]; [exact H | exfalso].
    assert (E : counter b = 0) by lia.
    rewrite E in Hs; unfold bins_sum in Hs; simpl in Hs.
    assert (0 < IZR n / IZR totalVeg)%R.
    { apply Rdiv_lt_0_compat; apply IZR_lt; lia. }
    lra.
  - split; [exact Hone | exact Hz].
Qed.

Lemma single_bins_within_block_witness :
  let b := Single.fill_bins (fun _ _ => 0%R) 7 (float32 (IZR 7 / IZR 10)) 10
             "LAKE" in
  1 <= counter b <= Single.WetBins (float32 (IZR 7 / IZR 10))
  /\ bins_sum (WetlandBin b) (counter b) = (IZR 7 / IZR 10)%R.
Proof.
  intros b.
  destruct (single_bins_within_block (fun _ _ => 0%R) 7 10 "LAKE"
              ltac:(lia) ltac:(lia)) as (H1 & _ & H2 & _).
  split; [exact H1 | exact H2].
Defined.

(** ** The neighbors that [Topindex] counts as lower *)

Lemma neighbor_elev_cases (dem : matrix) (columns rows : Z) (nodata : R)
      (x y : Z) (n : nat) :
  let xn := x + nth n xneighbor 0 in
  let yn := y + nth n yneighbor 0 in
  neighbor_elev dem columns rows nodata x y n
  = if (0 <=? xn) && (0 <=? yn) && (xn <? columns) && (yn <? rows)
       && Rneb (dem yn xn) nodata && Rneb (dem yn xn) OUTSIDEBASIN
    then dem yn xn else nodata.
Proof.
  intros xn yn; unfold neighbor_elev; fold xn yn.
  destruct ((0 <=? xn) && (0 <=? yn) && (xn <? columns) && (yn <? rows));
    cbn [andb].
  - destruct (Rneb (dem yn xn) nodata) eqn:E1; cbn [andb].
    + destruct (Reqb (dem yn xn) OUTSIDEBASIN) eqn:E2,
        (Rneb (dem yn xn) OUTSIDEBASIN) eqn:E3; rbool; try reflexivity; lra.
    + replace (Reqb OUTSIDEBASIN OUTSIDEBASIN) with true
        by (symmetry; rbool; reflexivity).
      reflexivity.
  - replace (Reqb OUTSIDEBASIN OUTSIDEBASIN) with true
      by (symmetry; rbool; reflexivity).
    reflexivity.
Qed.

(** X16.  [Topindex] counts neighbor [n] of a cell as lower exactly when
    the neighbor is in the grid, its elevation is neither [nodata] nor
    the mark -99 of [OUTSIDEBASIN], and it is strictly below the cell. *)
Theorem lower_neighbor_iff (dem : matrix) (columns rows : Z) (nodata : R)
        (x y : Z) (n : nat) :
  let xn := x + nth n xneighbor 0 in
  let yn := y + nth n yneighbor 0 in
  lower_neighbor dem columns rows nodata x y n = true
  <-> (0 <= xn < columns /\ 0 <= yn < rows)
      /\ dem yn xn <> nodata /\ dem yn xn <> (-99)%R
      /\ (dem yn xn < dem y x)%R.
Proof.
  intros xn yn; unfold lower_neighbor.
  rewrite neighbor_elev_cases; fold xn yn.
  assert (Hself : Rneb nodata nodata = false) by (apply Rneb_false; reflexivity).
  destruct ((0 <=? xn) && (0 <=? yn) && (xn <? columns) && (yn <? rows)
            && Rneb (dem yn xn) nodata && Rneb (dem yn xn) OUTSIDEBASIN) eqn:E.
  - rewrite !andb_true_iff, !Z.leb_le, !Z.ltb_lt, !Rneb_true in E.
    rewrite andb_true_iff, Rltb_true, Rneb_true.
    unfold OUTSIDEBASIN in E; split; intros H; repeat split; try tauto; lia.
  - rewrite Hself, andb_false_r.
    split; [discriminate|].
    intros ([Hx Hy] & Hd & Ho & _).
    assert (Hin : (0 <=? xn) && (0 <=? yn) && (xn <? columns) && (yn <? rows)
                  && Rneb (dem yn xn) nodata && Rneb (dem yn xn) OUTSIDEBASIN
                  = true).
    { rewrite !andb_true_iff, !Z.leb_le, !Z.ltb_lt, !Rneb_true.
      unfold OUTSIDEBASIN; repeat split; auto; lia. }
    rewrite Hin in E; discriminate.
Qed.

(** ** The mean slope towards wetter neighbors *)

Section AveDelevProperties.

Variables dem wetnessindex : matrix.
Variables columns rows : Z.
Variables deltax deltay : R.
Variable nodata : R.

(** The slope from the cell down to neighbor [n]. *)
Definition slope_down (x y : Z) (n : nat) : R :=
  ((dem y x
    - fst (neighbor_elev_twi dem wetnessindex columns rows nodata x y n))
   / neighbor_distance deltax deltay n)%R.

Definition wetter_among (x y : Z) (l : list nat) : list nat :=
  filter (lower_wetter dem wetnessindex columns rows nodata x y) l.

Lemma delev_step_spec (x y : Z) (delev : R) (low : Z) (n : nat) :
  (n < 8)%nat ->
  delev_step dem wetnessindex columns rows deltax deltay nodata x y (delev, low) n
  = if lower_wetter dem wetnessindex columns rows nodata x y n
    then ((delev + slope_down x y n)%R, low + 1)
    else (delev, low).
Proof.
  intros Hn; unfold delev_step.
  destruct (lower_wetter dem wetnessindex columns rows nodata x y n);
    [|reflexivity].
  unfold slope_down, neighbor_distance.
  do 8 (destruct n as [|n]; [reflexivity|]).
  lia.
Qed.

Lemma delev_fold_spec (x y : Z) (l : list nat) :
  Forall (fun n => (n < 8)%nat) l ->
  forall (delev : R) (low : Z),
    fold_left (delev_step dem wetnessindex columns rows deltax deltay nodata x y)
      l (delev, low)
    = ((delev + Rsum (map (slope_down x y) (wetter_among x y l)))%R,
       low + Z.of_nat (List.length (wetter_among x y l))).
Proof.
  induction 1 as [|n l Hn Hl IH]; intros delev low.
  - simpl; apply (f_equal2 pair); [lra | lia].
  - cbn [fold_left]; rewrite delev_step_spec by exact Hn.
    unfold wetter_among in *; cbn [filter].
    destruct (lower_wetter dem wetnessindex columns rows nodata x y n);
      rewrite IH; [|reflexivity].
    cbn [map Rsum List.length]; apply (f_equal2 pair); [lra | lia].
Qed.

Lemma slope_down_pos (x y : Z) (n : nat) :
  (0 < deltax)%R -> (0 < deltay)%R ->
  lower_wetter dem wetnessindex columns rows nodata x y n = true ->
  (0 < slope_down x y n)%R.
Proof.
  intros Hx Hy Hq; unfold slope_down.
  unfold lower_wetter in Hq.
  destruct (neighbor_elev_twi dem wetnessindex columns rows nodata x y n)
    as [ne nt]; cbn [fst].
  apply andb_true_iff in Hq as [Hq _]; apply andb_true_iff in Hq as [Hlt _].
  rbool.
  apply Rdiv_lt_0_compat; [lra|].
  unfold neighbor_distance.
  destruct (Nat.even n); [apply length_diagonal_pos; assumption|].
  destruct ((n =? 1)%nat || (n =? 5)%nat); assumption.
Qed.

Lemma Rsum_slopes_pos (x y : Z) (l : list nat) :
  (0 < deltax)%R -> (0 < deltay)%R ->
  Forall (fun n => lower_wetter dem wetnessindex columns rows nodata x y n = true) l ->
  l <> [] -> (0 < Rsum (map (slope_down x y) l))%R.
Proof.
  intros Hx Hy Hall; induction Hall as [|n l Hn Hl IH]; intros Hne;
    [contradiction|].
  cbn [map Rsum].
  pose proof (slope_down_pos x y n Hx Hy Hn).
  destruct l as [|m l]; [simpl; lra|].
  assert (0 < Rsum (map (slope_down x y) (m :: l)))%R by (apply IH; discriminate).
  lra.
Qed.

Lemma ave_delev_spec (x y : Z) :
  let l := wetter_among x y (seq 0 8) in
  ave_delev dem wetnessindex columns rows deltax deltay nodata x y
  = if Z.of_nat (List.length l) =? 0 then 0%R
    else (Rsum (map (slope_down x y) l) / IZR (Z.of_nat (List.length l)))%R.
Proof.
  intros l; unfold ave_delev.
  rewrite delev_fold_spec by apply seq8_bound; fold l.
  rewrite Z.add_0_l, Rplus_0_l; reflexivity.
Qed.

End AveDelevProperties.

(** X17.  [AveDelev] of a cell is 0 when no neighbor is both strictly
    lower with data and wetter than the cell; otherwise it is the mean,
    over those neighbors, of the drop to the neighbor divided by the
    distance to it, and it is strictly positive. *)
Theorem ave_delev_mean_slope (dem wetnessindex : matrix) (columns rows : Z)
        (dx dy nodata : R) (x y : Z) :
  (0 < dx)%R -> (0 < dy)%R ->
  let a := ave_delev dem wetnessindex columns rows dx dy nodata x y in
  let l := wetter_among dem wetnessindex columns rows nodata x y (seq 0 8) in
  ((forall n, (n < 8)%nat ->
      lower_wetter dem wetnessindex columns rows nodata x y n = false) ->
   a = 0%R)
  /\ ((exists n, (n < 8)%nat
         /\ lower_wetter dem wetnessindex columns rows nodata x y n = true) ->
      a = (Rsum (map (slope_down dem wetnessindex columns rows dx dy nodata x y) l)
           / INR (List.length l))%R
      /\ (0 < a)%R).
Proof.
  intros Hx Hy a l.
  pose proof (ave_delev_spec dem wetnessindex columns rows dx dy nodata x y)
    as Hspec; cbv zeta in Hspec; fold a l in Hspec.
  split.
  - intros Hnone.
    assert (El : l = []).
    { unfold l, wetter_among.
      destruct (filter _ (seq 0 8)) as [|n l'] eqn:E; [reflexivity|].
      assert (Hin : In n (filter
                (lower_wetter dem wetnessindex columns rows nodata x y) (seq 0 8)))
        by (rewrite E; left; reflexivity).
      apply filter_In in Hin as [Hin Hq]; apply in_seq in Hin.
      rewrite Hnone in Hq by lia; discriminate. }
    rewrite Hspec, El; reflexivity.
  - intros (n & Hn & Hq).
    assert (Hin : In n l).
    { unfold l, wetter_among; apply filter_In; split; [apply in_seq; lia | exact Hq]. }
    assert (Hne : l <> []) by (intros E; rewrite E in Hin; destruct Hin).
    assert (Hlen : (0 < List.length l)%nat) by (destruct l; [contradiction | simpl; lia]).
    assert (Hall : Forall (fun n =>
               lower_wetter dem wetnessindex columns rows nodata x y n = true) l).
    { apply Forall_forall; intros m Hm; unfold l, wetter_among in Hm.
      apply filter_In in Hm; tauto. }
    replace (Z.of_nat (List.length l) =? 0) with false in Hspec
      by (symmetry; apply Z.eqb_neq; lia).
    rewrite <- INR_IZR_INZ in Hspec.
    split; [exact Hspec|].
    rewrite Hspec; apply Rdiv_lt_0_compat.
    + apply Rsum_slopes_pos; assumption.
    + apply lt_0_INR; exact Hlen.
Qed.

(** A wetness index that is higher at the lower neighbor of [step_dem]. *)
Definition step_twi : matrix :=
  fun y x => if (x =? 1) && (y =? 2) then 2%R else 1%R.

Lemma step_dem_lower_wetter :
  lower_wetter step_dem step_twi 3 3 (-9999) 1 1 1 = true.
Proof.
  assert (H1 : Rneb 5 (-9999) = true) by (rbool; lra).
  assert (H2 : Rneb 2 (-9999) = true) by (rbool; lra).
  assert (H3 : Rltb 5 10 = true) by (rbool; lra).
  assert (H4 : Rltb 1 2 = true) by (rbool; lra).
  unfold lower_wetter, neighbor_elev_twi, step_dem, step_twi; simpl.
  repeat (first [rewrite H1 | rewrite H2 | rewrite H3 | rewrite H4];
          cbv beta iota; cbn [fst snd]).
  reflexivity.
Qed.

Lemma ave_delev_mean_slope_witness :
  (0 < ave_delev step_dem step_twi 3 3 30 30 (-9999) 1 1)%R.
Proof.
  destruct (ave_delev_mean_slope step_dem step_twi 3 3 30 30 (-9999) 1 1
              ltac:(lra) ltac:(lra)) as [_ H].
  apply H; exists 1%nat; split; [lia | exact step_dem_lower_wetter].
Defined.

(** ** Sorting the cells *)

(** [b] holds the items of [a], moved around inside of [lo .. hi] by a
    one-to-one map [sigma] of the indices, and left in place elsewhere. *)
Definition rearranges (lo hi : Z) (a b : items) : Prop :=
  exists sigma tau : Z -> Z,
    (forall k, tau (sigma k) = k)
    /\ (forall k, sigma (tau k) = k)
    /\ (forall k, lo <= k <= hi -> lo <= sigma k <= hi)
    /\ (forall k, ~ lo <= k <= hi -> sigma k = k)
    /\ forall k, b k = a (sigma k).

Lemma rearranges_refl (lo hi : Z) (a : items) : rearranges lo hi a a.
Proof. exists (fun k => k), (fun k => k); repeat split; auto; lia. Qed.

Lemma rearranges_outside (lo hi : Z) (a b : items) (k : Z) :
  rearranges lo hi a b -> ~ lo <= k <= hi -> b k = a k.
Proof. intros (s & t & _ & _ & _ & Hout & Hb) Hk; rewrite Hb, Hout; auto. Qed.

Lemma rearranges_inside (lo hi : Z) (a b : items) (k : Z) :
  rearranges lo hi a b -> lo <= k <= hi ->
  exists k', lo <= k' <= hi /\ b k = a k'.
Proof. intros (s & t & _ & _ & Hin & _ & Hb) Hk; exists (s k); auto. Qed.

Lemma rearranges_trans (lo hi : Z) (a b c : items) :
  rearranges lo hi a b -> rearranges lo hi b c -> rearranges lo hi a c.
Proof.
  intros (s1 & t1 & A1 & B1 & C1 & D1 & E1) (s2 & t2 & A2 & B2 & C2 & D2 & E2).
  exists (fun k => s1 (s2 k)), (fun k => t2 (t1 k)); repeat split.
  - intros k; now rewrite A1, A2.
  - intros k; now rewrite B2, B1.
  - apply C1, C2; auto.
  - apply C1, C2; auto.
  - intros k Hk; now rewrite D2, D1.
  - intros k; now rewrite E2, E1.
Qed.

Lemma rearranges_widen (lo hi lo' hi' : Z) (a b : items) :
  lo' <= lo -> hi <= hi' -> rearranges lo hi a b -> rearranges lo' hi' a b.
Proof.
  intros Hlo Hhi (s & t & A & B & C & D & E).
  exists s, t; repeat split; auto.
  - destruct (Z_le_dec lo k), (Z_le_dec k hi);
      try (rewrite D by lia; lia).
    specialize (C k); lia.
  - destruct (Z_le_dec lo k), (Z_le_dec k hi);
      try (rewrite D by lia; lia).
    specialize (C k); lia.
  - intros k Hk; apply D; lia.
Qed.

Lemma rearranges_swap (lo hi : Z) (a : items) (i j : Z) :
  lo <= i <= hi -> lo <= j <= hi -> rearranges lo hi a (swap_items a i j).
Proof.
  intros Hi Hj.
  pose (s := fun k => if k =? j then i else if k =? i then j else k).
  assert (Hs : forall k, s (s k) = k).
  { intros k; unfold s.
    destruct (Z.eqb_spec k j), (Z.eqb_spec k i); subst;
      repeat match goal with
        | |- context [?u =? ?v] => destruct (Z.eqb_spec u v)
        end; lia. }
  exists s, s; repeat split; auto.
  - unfold s; destruct (k =? j), (k =? i); lia.
  - unfold s; destruct (k =? j), (k =? i); lia.
  - intros k Hk; unfold s.
    destruct (Z.eqb_spec k j), (Z.eqb_spec k i); lia.
  - intros k; unfold swap_items, item_set, s.
    destruct (Z.eqb_spec k j), (Z.eqb_spec k i); subst; reflexivity.
Qed.

Lemma swap_items_at (a : items) (i j k : Z) :
  swap_items a i j k
  = if k =? j then a i else if k =? i then a j else a k.
Proof. reflexivity. Qed.

(** *** The two scans *)

Lemma scan_up_spec (item : items) (xRank : R) (right : Z) :
  forall (turns : nat) (i : Z),
    right - i <= Z.of_nat turns ->
    let i' := scan_up turns item xRank right i in
    i <= i'
    /\ (i <= right -> i' <= right)
    /\ (forall k, i <= k < i' -> (Rank (item k) < xRank)%R)
    /\ ((xRank <= Rank (item i'))%R \/ right <= i').
Proof.
  induction turns as [|turns IH]; intros i Hturns; cbn [scan_up].
  - repeat split; try lia; right; lia.
  - destruct (Rltb (Rank (item i)) xRank) eqn:Ev; cbn [andb].
    + destruct (Z.ltb_spec i right) as [Hlt|Hge].
      * destruct (IH (i + 1)) as (H1 & H2 & H3 & H4); [lia|].
        repeat split; try lia; auto.
        intros k Hk; destruct (Z.eq_dec k i) as [->|]; [rbool; exact Ev|].
        apply H3; lia.
      * repeat split; try lia; right; lia.
    + rbool; repeat split; try lia; left; exact Ev.
Qed.

Lemma scan_down_spec (item : items) (xRank : R) (left : Z) :
  forall (turns : nat) (j : Z),
    j - left <= Z.of_nat turns ->
    let j' := scan_down turns item xRank left j in
    j' <= j
    /\ (left <= j -> left <= j')
    /\ (forall k, j' < k <= j -> (xRank < Rank (item k))%R)
    /\ ((Rank (item j') <= xRank)%R \/ j' <= left).
Proof.
  induction turns as [|turns IH]; intros j Hturns; cbn [scan_down].
  - repeat split; try lia; right; lia.
  - destruct (Rltb xRank (Rank (item j))) eqn:Ev; cbn [andb].
    + destruct (Z.ltb_spec left j) as [Hlt|Hge].
      * destruct (IH (j - 1)) as (H1 & H2 & H3 & H4); [lia|].
        repeat split; try lia; auto.
        intros k Hk; destruct (Z.eq_dec k j) as [->|]; [rbool; exact Ev|].
        apply H3; lia.
      * repeat split; try lia; right; lia.
    + rbool; repeat split; try lia; left; exact Ev.
Qed.

(** *** The partition *)

Section Partition.

Variable xRank : R.
Variables left right : Z.

(** At the head of a turn of the loop: the items before [i] are not above
    the pivot value, the items after [j] are not below it, and both scans
    have an item that stops them. *)
Definition partition_head (item : items) (i j : Z) : Prop :=
  left <= i <= j /\ j <= right
  /\ (forall k, left <= k < i -> (Rank (item k) <= xRank)%R)
  /\ (forall k, j < k <= right -> (xRank <= Rank (item k))%R)
  /\ (exists p, i <= p <= right /\ (xRank <= Rank (item p))%R)
  /\ (exists q, left <= q <= j /\ (Rank (item q) <= xRank)%R)
  /\ ((left < i /\ j < right)
      \/ exists m, i <= m <= j /\ Rank (item m) = xRank).

(** When the loop is left. *)
Definition partition_done (item : items) (i j : Z) : Prop :=
  j < i /\ left < i /\ j < right
  /\ (forall k, left <= k < i -> (Rank (item k) <= xRank)%R)
  /\ (forall k, j < k <= right -> (xRank <= Rank (item k))%R).

Lemma qs_partition_spec :
  forall (fuel : nat) (item : items) (i j : Z),
    partition_head item i j ->
    j - i + 1 <= Z.of_nat fuel ->
    exists item' i' j',
      qs_partition fuel item xRank left right i j = Some (item', i', j')
      /\ partition_done item' i' j'
      /\ rearranges left right item item'.
Proof.
  induction fuel as [|fuel IH]; intros item i j Hhead Hfuel.
  { destruct Hhead as (Hij & _); lia. }
  destruct Hhead as (Hij & Hjr & Hlow & Hhigh & (p & Hp & Hpv) & (q & Hq & Hqv) & Hfirst).
  cbn [qs_partition].
  destruct (scan_up_spec item xRank right (Z.to_nat (right - i)) i ltac:(lia))
    as (U1 & U2 & U3 & U4).
  destruct (scan_down_spec item xRank left (Z.to_nat (j - left)) j ltac:(lia))
    as (D1 & D2 & D3 & D4).
  set (i1 := scan_up (Z.to_nat (right - i)) item xRank right i) in *.
  set (j1 := scan_down (Z.to_nat (j - left)) item xRank left j) in *.
  cbv zeta in U1, U2, U3, U4, D1, D2, D3, D4.
  (* the scans stop on an item *)
  assert (Hi1p : i1 <= p).
  { destruct (Z_le_dec i1 p); [assumption|].
    specialize (U3 p ltac:(lia)); lra. }
  assert (Hj1q : q <= j1).
  { destruct (Z_le_dec q j1); [assumption|].
    specialize (D3 q ltac:(lia)); lra. }
  assert (Hi1v : (xRank <= Rank (item i1))%R).
  { destruct U4 as [H|H]; [exact H|].
    replace i1 with p by lia; exact Hpv. }
  assert (Hj1v : (Rank (item j1) <= xRank)%R).
  { destruct D4 as [H|H]; [exact H|].
    replace j1 with q by lia; exact Hqv. }
  assert (Hlow1 : forall k, left <= k < i1 -> (Rank (item k) <= xRank)%R).
  { intros k Hk; destruct (Z_lt_dec k i); [apply Hlow; lia|].
    apply Rlt_le, U3; lia. }
  assert (Hhigh1 : forall k, j1 < k <= right -> (xRank <= Rank (item k))%R).
  { intros k Hk; destruct (Z_lt_dec j k); [apply Hhigh; lia|].
    apply Rlt_le, D3; lia. }
  destruct (Z.leb_spec i1 j1) as [Hswap|Hnoswap].
  - (* the two items are exchanged *)
    set (item1 := swap_items item i1 j1).
    assert (Hre : rearranges left right item item1)
      by (apply rearranges_swap; lia).
    assert (Hlow2 : forall k, left <= k < i1 + 1 -> (Rank (item1 k) <= xRank)%R).
    { intros k Hk; unfold item1; rewrite swap_items_at.
      destruct (Z.eqb_spec k j1); [subst; replace i1 with j1 in * by lia; exact Hj1v|].
      destruct (Z.eqb_spec k i1); [exact Hj1v|].
      apply Hlow1; lia. }
    assert (Hhigh2 : forall k, j1 - 1 < k <= right -> (xRank <= Rank (item1 k))%R).
    { intros k Hk; unfold item1; rewrite swap_items_at.
      destruct (Z.eqb_spec k j1); [exact Hi1v|].
      destruct (Z.eqb_spec k i1); [subst; lia|].
      apply Hhigh1; lia. }
    destruct (Z.leb_spec (i1 + 1) (j1 - 1)) as [Hmore|Hstop].
    + destruct (IH item1 (i1 + 1) (j1 - 1)) as (item' & i' & j' & Hrun & Hdone & Hre').
      * unfold partition_head; repeat split; try lia; auto.
        -- exists j1; split; [lia|].
           unfold item1; rewrite swap_items_at, Z.eqb_refl; exact Hi1v.
        -- exists i1; split; [lia|].
           unfold item1; rewrite swap_items_at.
           replace (i1 =? j1) with false by (symmetry; apply Z.eqb_neq; lia).
           rewrite Z.eqb_refl; exact Hj1v.
      * lia.
      * exists item', i', j'; split; [exact Hrun | split; [exact Hdone|]].
        eapply rearranges_trans; eauto.
    + exists item1, (i1 + 1), (j1 - 1); split; [reflexivity | split; [|exact Hre]].
      unfold partition_done; repeat split; try lia; auto.
  - (* the loop is left without an exchange *)
    replace (i1 <=? j1) with false by (symmetry; apply Z.leb_gt; lia).
    exists item, i1, j1; split; [reflexivity | split; [|apply rearranges_refl]].
    destruct Hfirst as [[Hl Hr] | (m & Hm & Hmv)].
    + unfold partition_done; repeat split; try lia; auto.
    + (* in the first turn both scans stop at the pivot at the latest *)
      assert (i1 <= m).
      { destruct (Z_le_dec i1 m); [assumption|].
        specialize (U3 m ltac:(lia)); lra. }
      assert (m <= j1).
      { destruct (Z_le_dec m j1); [assumption|].
        specialize (D3 m ltac:(lia)); lra. }
      lia.
Qed.

End Partition.

(** *** The recursion *)

Definition sorted (item : items) (lo hi : Z) : Prop :=
  forall a b, lo <= a <= b -> b <= hi -> (Rank (item a) <= Rank (item b))%R.

Lemma qs_spec :
  forall (fuel : nat) (item : items) (left right : Z),
    0 <= left <= right ->
    right - left + 1 <= Z.of_nat fuel ->
    exists item',
      qs fuel item left right = Some item'
      /\ sorted item' left right
      /\ rearranges left right item item'.
Proof.
  induction fuel as [|fuel IH]; intros item left right Hlr Hfuel; [lia|].
  cbn [qs]; cbv zeta.
  set (m := Z.quot (left + right) 2).
  assert (Hm : left <= m <= right).
  { unfold m; pose proof (Z.quot_pos (left + right) 2 ltac:(lia) ltac:(lia)).
    rewrite Z.quot_div_nonneg by lia.
    pose proof (Z.div_mod (left + right) 2 ltac:(lia)).
    pose proof (Z.mod_pos_bound (left + right) 2 ltac:(lia)).
    lia. }
  set (xRank := Rank (item m)).
  destruct (qs_partition_spec xRank left right (S fuel) item left right)
    as (item1 & i & j & Hrun & Hdone & Hre1).
  { unfold partition_head; repeat split; try lia.
    - exists m; split; [lia | unfold xRank; lra].
    - exists m; split; [lia | unfold xRank; lra].
    - right; exists m; split; [lia | reflexivity]. }
  { lia. }
  rewrite Hrun; cbn [bind].
  destruct Hdone as (Hji & Hli & Hjr & Hlow & Hhigh).
  (* the part up to [j] *)
  assert (H2 : exists item2,
             (if left <? j then qs fuel item1 left j else Some item1) = Some item2
             /\ sorted item2 left j /\ rearranges left j item1 item2).
  { destruct (Z.ltb_spec left j) as [Hlt|Hge].
    - apply IH; lia.
    - exists item1; split; [reflexivity | split; [|apply rearranges_refl]].
      intros a b Hab Hb; replace b with a by lia; lra. }
  destruct H2 as (item2 & -> & Hs2 & Hre2); cbn [bind].
  (* the part from [i] on *)
  assert (H3 : exists item3,
             (if i <? right then qs fuel item2 i right else Some item2) = Some item3
             /\ sorted item3 i right /\ rearranges i right item2 item3).
  { destruct (Z.ltb_spec i right) as [Hlt|Hge].
    - apply IH; lia.
    - exists item2; split; [reflexivity | split; [|apply rearranges_refl]].
      intros a b Hab Hb; replace b with a by lia; lra. }
  destruct H3 as (item3 & -> & Hs3 & Hre3).
  exists item3; split; [reflexivity|].
  (* the values on the two sides of the pivot value *)
  assert (Hlow2 : forall k, left <= k < i -> (Rank (item2 k) <= xRank)%R).
  { intros k Hk; destruct (Z_le_dec k j).
    - destruct (rearranges_inside _ _ _ _ k Hre2) as (k' & Hk' & ->); [lia|].
      apply Hlow; lia.
    - rewrite (rearranges_outside _ _ _ _ k Hre2) by lia; apply Hlow; lia. }
  assert (Hhigh2 : forall k, j < k <= right -> (xRank <= Rank (item2 k))%R).
  { intros k Hk; rewrite (rearranges_outside _ _ _ _ k Hre2) by lia.
    apply Hhigh; lia. }
  assert (Hlow3 : forall k, left <= k < i -> (Rank (item3 k) <= xRank)%R).
  { intros k Hk; rewrite (rearranges_outside _ _ _ _ k Hre3) by lia.
    apply Hlow2; lia. }
  assert (Hhigh3 : forall k, j < k <= right -> (xRank <= Rank (item3 k))%R).
  { intros k Hk; destruct (Z_le_dec i k).
    - destruct (rearranges_inside _ _ _ _ k Hre3) as (k' & Hk' & ->); [lia|].
      apply Hhigh2; lia.
    - rewrite (rearranges_outside _ _ _ _ k Hre3) by lia; apply Hhigh2; lia. }
  split.
  - intros a b Hab Hb.
    destruct (Z_le_dec b j) as [Hbj|Hbj].
    + rewrite (rearranges_outside _ _ _ _ a Hre3),
        (rearranges_outside _ _ _ _ b Hre3) by lia.
      apply Hs2; lia.
    + destruct (Z_le_dec i a) as [Hia|Hia].
      * apply Hs3; lia.
      * apply Rle_trans with xRank; [apply Hlow3 | apply Hhigh3]; lia.
  - apply rearranges_trans with item1; [exact Hre1|].
    apply rearranges_trans with item2.
    + apply (rearranges_widen left j); [lia | lia | exact Hre2].
    + apply (rearranges_widen i right); [lia | lia | exact Hre3].
Qed.

(** X18.  With at least one item and fuel for [count] levels, [quick]
    returns; the items [0 .. count-1] are then in ascending order of
    [Rank], and they are the items that were there, moved by a one-to-one
    map of the indices [0 .. count-1]; the items elsewhere are not
    touched. *)
Theorem quick_sorts_ascending (fuel : nat) (item : items) (count : Z) :
  1 <= count -> count <= Z.of_nat fuel ->
  exists item',
    quick fuel item count = Some item'
    /\ (forall a b, 0 <= a <= b -> b < count ->
          (Rank (item' a) <= Rank (item' b))%R)
    /\ rearranges 0 (count - 1) item item'
    /\ (forall k, ~ 0 <= k < count -> item' k = item k).
Proof.
  intros Hcount Hfuel; unfold quick.
  destruct (qs_spec fuel item 0 (count - 1)) as (item' & Hrun & Hsorted & Hre);
    try lia.
  exists item'; split; [exact Hrun|].
  split; [|split; [exact Hre|]].
  - intros a b Hab Hb; apply Hsorted; lia.
  - intros k Hk; apply (rearranges_outside 0 (count - 1)); [exact Hre | lia].
Qed.

Lemma quick_sorts_ascending_witness :
  exists item',
    quick 2 (fun k => mkITEM (if k =? 0 then 5 else 3) k 0) 2 = Some item'
    /\ (Rank (item' 0%Z) <= Rank (item' 1%Z))%R.
Proof.
  destruct (quick_sorts_ascending 2
              (fun k => mkITEM (if k =? 0 then 5 else 3) k 0) 2
              ltac:(lia) ltac:(lia)) as (item' & Hrun & Hsorted & _).
  exists item'; split; [exact Hrun | apply Hsorted; lia].
Defined.

(** ** The order of the sweep *)

(** [topovec] holds the elevation of cell [(i, j)] at
    [(j-1)*lattice_size_x + i]. *)
Lemma fillin_topovec_spec (nx ny : Z) (junk : vector) (topo : matrix) (i j : Z) :
  1 <= i <= nx -> 1 <= j <= ny ->
  fillin_topovec nx ny junk topo ((j - 1) * nx + i) = topo i j.
Proof.
  intros Hi Hj; unfold fillin_topovec.
  pose (Row := fun (b hi : Z) (v : vector) =>
     forall a' b', (1 <= b' < b /\ 1 <= a' <= nx) \/ (b' = b /\ 1 <= a' < hi) ->
                   v ((b' - 1) * nx + a') = topo a' b').
  pose (Inv := fun (hi : Z) (v : vector) =>
     forall a' b', 1 <= b' < hi -> 1 <= a' <= nx ->
                   v ((b' - 1) * nx + a') = topo a' b').
  assert (H : Inv (Z.max 1 (ny + 1))
                (for_loop 1 ny
                   (fun j v => for_loop 1 nx
                      (fun i v => vset v ((j - 1) * nx + i) (topo i j)) v) junk)).
  { apply for_loop_invariant.
    - intros a' b' Hb; lia.
    - intros b v Hb Hv.
      assert (Hr : Row b (Z.max 1 (nx + 1))
                     (for_loop 1 nx
                        (fun i v => vset v ((b - 1) * nx + i) (topo i b)) v)).
      { apply for_loop_invariant.
        - intros a' b' [[H1 H2] | [H1 H2]]; [apply Hv; lia | lia].
        - intros a w Ha Hw a' b' Hcell; unfold vset.
          destruct (Z.eqb_spec ((b' - 1) * nx + a') ((b - 1) * nx + a)) as [E|E].
          + assert (b' = b) by (destruct Hcell as [[? ?] | [? ?]]; nia).
            subst b'; assert (a' = a) by lia; subst a'; reflexivity.
          + apply Hw; destruct Hcell as [[? ?] | [? ?]]; [left; lia|].
            right; split; [lia|].
            destruct (Z.eq_dec a' a); [subst; contradiction E; reflexivity | lia]. }
      intros a' b' Hb' Ha'; apply Hr.
      destruct (Z.eq_dec b' b); [right | left]; lia. }
  apply H; lia.
Qed.

(** X19.  The sweep of [fillin] handles the ranks from the last to the
    first.  For a table of ranks of the lattice, the cell visited for
    rank [t] is the cell whose elevation is [topovec[topovecind[t]]]; so
    for a table in ascending order of elevation, as [indexx] is meant to
    give, a cell is never visited before a cell that is strictly
    higher. *)
Theorem sweep_follows_index (nx ny : Z) (junk : vector) (topo : matrix)
        (topovecind : ivector) :
  1 <= nx ->
  (forall t, 1 <= t <= nx * ny -> 1 <= topovecind t <= nx * ny) ->
  let topovec := fillin_topovec nx ny junk topo in
  let elevation := fun t =>
    topo (fst (sweep_cell nx topovecind t)) (snd (sweep_cell nx topovecind t)) in
  (forall t, 1 <= t <= nx * ny -> elevation t = topovec (topovecind t))
  /\ ((forall t t', 1 <= t <= t' -> t' <= nx * ny ->
         (topovec (topovecind t) <= topovec (topovecind t'))%R) ->
      forall t t', 1 <= t <= t' -> t' <= nx * ny ->
        (elevation t <= elevation t')%R).
Proof.
  intros Hx Htab topovec elevation.
  assert (Hcell : forall t, 1 <= t <= nx * ny ->
                            elevation t = topovec (topovecind t)).
  { intros t Ht; unfold elevation, topovec.
    destruct (sweep_cell_decode nx ny topovecind t Hx (Htab t Ht))
      as (Hi & Hj & Henc).
    cbv zeta in Hi, Hj, Henc; rewrite <- Henc.
    symmetry; apply fillin_topovec_spec; assumption. }
  split; [exact Hcell|].
  intros Hsorted t t' Ht Ht'.
  rewrite !Hcell by lia; apply Hsorted; lia.
Qed.

(** The two cells of [ramp_dem], seen as a lattice. *)
Definition topo_of_ramp : matrix := fun i j => ramp_dem (j - 1) (i - 1).

Lemma sweep_follows_index_witness :
  topo_of_ramp (fst (sweep_cell 2 ramp_index 1)) (snd (sweep_cell 2 ramp_index 1))
  = fillin_topovec 2 1 (fun _ => 0%R) topo_of_ramp (ramp_index 1).
Proof.
  destruct (sweep_follows_index 2 1 (fun _ => 0%R) topo_of_ramp ramp_index
              ltac:(lia) ramp_index_range) as [H _].
  apply H; lia.
Defined.

(** ** Least squares *)

(** The sum of [f 0 .. f (n-1)]. *)
Fixpoint sum_below (n : nat) (f : Z -> R) : R :=
  match n with
  | O => 0%R
  | S n' => (sum_below n' f + f (Z.of_nat n'))%R
  end.

Lemma sum_below_ext (n : nat) (f g : Z -> R) :
  (forall i, 0 <= i < Z.of_nat n -> f i = g i) ->
  sum_below n f = sum_below n g.
Proof.
  induction n as [|n IH]; intros H; [reflexivity|].
  cbn [sum_below]; rewrite IH, H; auto; [lia | intros; apply H; lia].
Qed.

Lemma sum_below_plus (n : nat) (f g : Z -> R) :
  sum_below n (fun i => f i + g i)%R = (sum_below n f + sum_below n g)%R.
Proof. induction n as [|n IH]; cbn [sum_below]; [lra | rewrite IH; lra]. Qed.

Lemma sum_below_scal (n : nat) (c : R) (f : Z -> R) :
  sum_below n (fun i => c * f i)%R = (c * sum_below n f)%R.
Proof. induction n as [|n IH]; cbn [sum_below]; [lra | rewrite IH; lra]. Qed.

Lemma sum_below_const (n : nat) (c : R) :
  sum_below n (fun _ => c) = (INR n * c)%R.
Proof.
  induction n as [|n IH]; [simpl; lra|].
  cbn [sum_below]; rewrite IH, S_INR; lra.
Qed.

Lemma sum_below_nonneg (n : nat) (f : Z -> R) :
  (forall i, (0 <= f i)%R) -> (0 <= sum_below n f)%R.
Proof.
  intros H; induction n as [|n IH]; cbn [sum_below]; [lra|].
  specialize (H (Z.of_nat n)); lra.
Qed.

(** [n] times the sum of the squares is at least the square of the sum. *)
Lemma sum_below_squares (n : nat) (u : Z -> R) :
  (sum_below n u * sum_below n u <= INR n * sum_below n (fun i => u i * u i))%R.
Proof.
  induction n as [|n IH]; [simpl; lra|].
  cbn [sum_below]; rewrite S_INR.
  set (S := sum_below n u) in *.
  set (Q := sum_below n (fun i => u i * u i)%R) in *.
  set (v := u (Z.of_nat n)).
  assert (Hd : (0 <= Q - 2 * v * S + INR n * (v * v))%R).
  { replace (Q - 2 * v * S + INR n * (v * v))%R
      with (sum_below n (fun i => (u i - v) * (u i - v))%R).
    - apply sum_below_nonneg; intros i.
      pose proof (Rle_0_sqr (u i - v)) as Hs; unfold Rsqr in Hs; exact Hs.
    - unfold Q, S.
      rewrite (sum_below_ext n _
                 (fun i => u i * u i + (-2 * v) * u i + v * v)%R)
        by (intros; ring).
      rewrite !sum_below_plus, sum_below_scal, sum_below_const; ring. }
  nra.
Qed.

(** The sums of the first loop. *)
Lemma correlation_sums_spec (xs ys : vector) (n : Z) :
  0 <= n ->
  let s := correlation_sums xs ys n in
  let m := Z.to_nat n in
  SUMx s = sum_below m xs
  /\ SUMy s = sum_below m ys
  /\ SUMxy s = sum_below m (fun i => xs i * ys i)%R
  /\ SUMxx s = sum_below m (fun i => xs i * xs i)%R
  /\ SUMyy s = sum_below m (fun i => ys i * ys i)%R.
Proof.
  intros Hn s m; subst s m; unfold correlation_sums.
  pose (Inv := fun (i : Z) (s : sums) =>
    0 <= i
    /\ SUMx s = sum_below (Z.to_nat i) xs
    /\ SUMy s = sum_below (Z.to_nat i) ys
    /\ SUMxy s = sum_below (Z.to_nat i) (fun i => xs i * ys i)%R
    /\ SUMxx s = sum_below (Z.to_nat i) (fun i => xs i * xs i)%R
    /\ SUMyy s = sum_below (Z.to_nat i) (fun i => ys i * ys i)%R).
  assert (H : Inv (Z.max 0 (n - 1 + 1))
                (for_loop 0 (n - 1)
                   (fun i s =>
                      mkSums (SUMx s + xs i) (SUMy s + ys i)
                        (SUMxy s + xs i * ys i) (SUMxx s + xs i * xs i)
                        (SUMyy s + ys i * ys i))
                   (mkSums 0 0 0 0 0))).
  { apply for_loop_invariant.
    - unfold Inv; cbn; repeat split; lia.
    - intros i s Hi (H0 & H1 & H2 & H3 & H4 & H5); unfold Inv.
      replace (Z.to_nat (i + 1)) with (S (Z.to_nat i)) by lia.
      cbn [SUMx SUMy SUMxy SUMxx SUMyy sum_below].
      rewrite Z2Nat.id by lia.
      rewrite H1, H2, H3, H4, H5; repeat split; lia. }
  replace (Z.max 0 (n - 1 + 1)) with n in H by lia.
  destruct H as (_ & H); exact H.
Qed.

(** A quadratic that is never negative has no positive discriminant. *)
Lemma discriminant (A B C : R) :
  (forall t, 0 <= A * (t * t) + 2 * B * t + C)%R -> (B * B <= A * C)%R.
Proof.
  intros H.
  assert (HA : (0 <= A)%R).
  { destruct (Rle_or_lt 0 A) as [|HA]; [assumption|].
    (* for a large [t] the square term takes over *)
    pose (t := ((2 * Rabs B + Rabs C + 1) / - A + 1)%R).
    assert (Hq : (0 < / - A)%R) by (apply Rinv_0_lt_compat; lra).
    pose proof (Rabs_pos B); pose proof (Rabs_pos C).
    pose proof (Rle_abs B); pose proof (Rle_abs C).
    assert (Ht1 : (1 <= t)%R).
    { unfold t, Rdiv.
      assert (0 <= (2 * Rabs B + Rabs C + 1) * / - A)%R
        by (apply Rmult_le_pos; lra).
      lra. }
    assert (Ht2 : (- A * t = 2 * Rabs B + Rabs C + 1 - A)%R).
    { unfold t; field; lra. }
    specialize (H t).
    replace (A * (t * t))%R with (- (- A * t) * t)%R in H by ring.
    rewrite Ht2 in H.
    assert (Hm : ((Rabs C + 1) * 1
                  <= (2 * Rabs B - 2 * B + Rabs C + 1 - A) * t)%R)
      by (apply Rmult_le_compat; lra).
    lra. }
  destruct (Req_dec A 0) as [HA0|HA0].
  - subst A.
    assert (HB : B = 0%R).
    { destruct (Req_dec B 0) as [|HB]; [assumption|].
      specialize (H ((- C - 1) / (2 * B))%R).
      replace (2 * B * ((- C - 1) / (2 * B)))%R with (- C - 1)%R in H
        by (field; exact HB).
      lra. }
    subst B; lra.
  - specialize (H (- B / A)%R).
    replace (A * (- B / A * (- B / A)) + 2 * B * (- B / A) + C)%R
      with (C - B * B / A)%R in H by (field; exact HA0).
    assert (HApos : (0 < A)%R) by lra.
    assert (B * B / A <= C)%R by lra.
    apply Rmult_le_compat_r with (r := A) in H0; [|lra].
    unfold Rdiv in H0; rewrite Rmult_assoc, Rinv_l, Rmult_1_r in H0 by lra.
    lra.
Qed.

Section Correlation.

Variables xs ys : vector.
Variable n : Z.
Hypothesis n_nonneg : 0 <= n.

Lemma correlation_cauchy_schwarz :
  let s := correlation_sums xs ys n in
  let A := (IZR n * SUMxx s - SUMx s * SUMx s)%R in
  let B := (IZR n * SUMxy s - SUMx s * SUMy s)%R in
  let C := (IZR n * SUMyy s - SUMy s * SUMy s)%R in
  (B * B <= A * C)%R.
Proof.
  intros s A B C.
  destruct (correlation_sums_spec xs ys n n_nonneg)
    as (H1 & H2 & H3 & H4 & H5); fold s in H1, H2, H3, H4, H5.
  apply discriminant; intros t.
  pose proof (sum_below_squares (Z.to_nat n) (fun i => t * xs i + ys i)%R) as Hsq.
  cbv beta in Hsq.
  rewrite (sum_below_ext (Z.to_nat n)
             (fun i => (t * xs i + ys i) * (t * xs i + ys i))%R
             (fun i => (t * t) * (xs i * xs i)
                       + ((2 * t) * (xs i * ys i) + ys i * ys i))%R)
    in Hsq by (intros; ring).
  rewrite !sum_below_plus, !sum_below_scal in Hsq.
  rewrite <- H1, <- H2, <- H3, <- H4, <- H5 in Hsq.
  rewrite INR_IZR_INZ, Z2Nat.id in Hsq by exact n_nonneg.
  unfold A, B, C; nra.
Qed.

End Correlation.

(** X20.  For [n >= 0], [correlation] is symmetric in its two series;
    when the two spreads [n*SUMxx - SUMx^2] and [n*SUMyy - SUMy^2] have a
    positive product it returns a value between -1 and 1; and for values
    [y = a*x + b] on a line, with [x] not constant, it returns 1 when the
    line rises and -1 when it falls. *)
Theorem correlation_is_a_correlation (xs ys : vector) (n : Z) :
  0 <= n ->
  let s := correlation_sums xs ys n in
  let A := (IZR n * SUMxx s - SUMx s * SUMx s)%R in
  let C := (IZR n * SUMyy s - SUMy s * SUMy s)%R in
  correlation xs ys n = correlation ys xs n
  /\ ((0 < A * C)%R -> (-1 <= correlation xs ys n <= 1)%R)
  /\ (forall a b : R,
        (0 < A)%R -> a <> 0%R ->
        (forall i, 0 <= i < n -> ys i = (a * xs i + b)%R) ->
        correlation xs ys n = if Rltb 0 a then 1%R else (-1)%R).
Proof.
  intros Hn s A C.
  destruct (correlation_sums_spec xs ys n Hn) as (H1 & H2 & H3 & H4 & H5).
  fold s in H1, H2, H3, H4, H5.
  split; [|split].
  - destruct (correlation_sums_spec ys xs n Hn) as (G1 & G2 & G3 & G4 & G5).
    unfold correlation; fold s.
    rewrite G1, G2, G3, G4, G5.
    rewrite (sum_below_ext _ (fun i => ys i * xs i)%R (fun i => xs i * ys i)%R)
      by (intros; ring).
    rewrite <- H1, <- H2, <- H3, <- H4, <- H5.
    f_equal; [ring | f_equal; ring].
  - intros HAC.
    pose proof (correlation_cauchy_schwarz xs ys n Hn) as Hcs.
    cbv zeta in Hcs; fold s in Hcs; fold A C in Hcs.
    unfold correlation; fold s; fold A C.
    set (B := (IZR n * SUMxy s - SUMx s * SUMy s)%R) in *.
    assert (Hr : (0 < sqrt (A * C))%R) by (apply sqrt_lt_R0; exact HAC).
    assert (Hrr : (sqrt (A * C) * sqrt (A * C) = A * C)%R)
      by (apply sqrt_sqrt; lra).
    assert (Hb : (- sqrt (A * C) <= B <= sqrt (A * C))%R) by (split; nra).
    split.
    + apply Rmult_le_reg_r with (sqrt (A * C)); [exact Hr|].
      unfold Rdiv; rewrite Rmult_assoc, Rinv_l by lra; lra.
    + apply Rmult_le_reg_r with (sqrt (A * C)); [exact Hr|].
      unfold Rdiv; rewrite Rmult_assoc, Rinv_l by lra; lra.
  - intros a b HA Ha Hline.
    assert (Gy : SUMy s = (a * SUMx s + IZR n * b)%R).
    { rewrite H2, (sum_below_ext _ ys (fun i => a * xs i + b)%R)
        by (intros; apply Hline; lia).
      rewrite sum_below_plus, sum_below_scal, sum_below_const, <- H1.
      rewrite INR_IZR_INZ, Z2Nat.id by exact Hn; reflexivity. }
    assert (Gxy : SUMxy s = (a * SUMxx s + b * SUMx s)%R).
    { rewrite H3, (sum_below_ext _ (fun i => xs i * ys i)%R
                     (fun i => a * (xs i * xs i) + b * xs i)%R)
        by (intros i Hi; rewrite (Hline i) by lia; ring).
      rewrite sum_below_plus, !sum_below_scal, <- H1, <- H4; reflexivity. }
    assert (Gyy : SUMyy s
                  = (a * a * SUMxx s + 2 * a * b * SUMx s + IZR n * (b * b))%R).
    { rewrite H5, (sum_below_ext _ (fun i => ys i * ys i)%R
                     (fun i => (a * a) * (xs i * xs i)
                               + ((2 * a * b) * xs i + b * b))%R)
        by (intros i Hi; rewrite (Hline i) by lia; ring).
      rewrite !sum_below_plus, !sum_below_scal, sum_below_const, <- H1, <- H4.
      rewrite INR_IZR_INZ, Z2Nat.id by exact Hn; ring. }
    unfold correlation; fold s.
    replace (IZR n * SUMxy s - SUMx s * SUMy s)%R with (a * A)%R
      by (unfold A; rewrite Gxy, Gy; ring).
    replace (IZR n * SUMyy s - SUMy s * SUMy s)%R with (a * a * A)%R
      by (unfold A; rewrite Gyy, Gy; ring).
    fold A.
    destruct (Rltb 0 a) eqn:Ea; rbool.
    + replace (A * (a * a * A))%R with ((a * A) * (a * A))%R by ring.
      rewrite sqrt_square by nra.
      field; split; lra.
    + replace (A * (a * a * A))%R with ((- a * A) * (- a * A))%R by ring.
      rewrite sqrt_square by nra.
      field; split; lra.
Qed.

Lemma correlation_is_a_correlation_witness :
  correlation (fun i => IZR i) (fun i => 2 * IZR i + 1)%R 2
  = correlation (fun i => 2 * IZR i + 1)%R (fun i => IZR i) 2.
Proof.
  exact (proj1 (correlation_is_a_correlation
                  (fun i => IZR i) (fun i => 2 * IZR i + 1)%R 2 ltac:(lia))).
Defined.

(** ** Counting cells *)

(** The sum of [f 0 .. f (n-1)], in [Z]. *)
Fixpoint zsum_below (n : nat) (f : Z -> Z) : Z :=
  match n with
  | O => 0
  | S n' => zsum_below n' f + f (Z.of_nat n')
  end.

Lemma zsum_below_ext (n : nat) (f g : Z -> Z) :
  (forall k, 0 <= k < Z.of_nat n -> f k = g k) ->
  zsum_below n f = zsum_below n g.
Proof.
  induction n as [|n IH]; intros H; [reflexivity|].
  cbn [zsum_below]; rewrite IH, H; auto; [lia | intros; apply H; lia].
Qed.

Lemma zsum_below_nonneg (n : nat) (f : Z -> Z) :
  (forall k, 0 <= k < Z.of_nat n -> 0 <= f k) -> 0 <= zsum_below n f.
Proof.
  induction n as [|n IH]; intros H; cbn [zsum_below]; [lia|].
  assert (0 <= zsum_below n f) by (apply IH; intros; apply H; lia).
  assert (0 <= f (Z.of_nat n)) by (apply H; lia).
  lia.
Qed.

Lemma zsum_below_term (n : nat) (f : Z -> Z) (k : Z) :
  (forall k, 0 <= k < Z.of_nat n -> 0 <= f k) ->
  0 <= k < Z.of_nat n -> f k <= zsum_below n f.
Proof.
  induction n as [|n IH]; intros H Hk; [lia|].
  cbn [zsum_below].
  assert (0 <= zsum_below n f) by (apply zsum_below_nonneg; intros; apply H; lia).
  assert (0 <= f (Z.of_nat n)) by (apply H; lia).
  destruct (Z.eq_dec k (Z.of_nat n)) as [->|]; [lia|].
  assert (f k <= zsum_below n f) by (apply IH; [intros; apply H|]; lia).
  lia.
Qed.

(** Two terms of a sum of terms that are not negative. *)
Lemma zsum_below_two_terms (n : nat) (f : Z -> Z) (k k' : Z) :
  (forall k, 0 <= k < Z.of_nat n -> 0 <= f k) ->
  0 <= k < Z.of_nat n -> 0 <= k' < Z.of_nat n -> k <> k' ->
  f k + f k' <= zsum_below n f.
Proof.
  induction n as [|n IH]; intros H Hk Hk' Hne; [lia|].
  cbn [zsum_below].
  assert (Hpos : forall k, 0 <= k < Z.of_nat n -> 0 <= f k)
    by (intros; apply H; lia).
  assert (0 <= f (Z.of_nat n)) by (apply H; lia).
  destruct (Z.eq_dec k (Z.of_nat n)) as [->|],
           (Z.eq_dec k' (Z.of_nat n)) as [->|]; try lia.
  - pose proof (zsum_below_term n f k' Hpos ltac:(lia)); lia.
  - pose proof (zsum_below_term n f k Hpos ltac:(lia)); lia.
  - assert (f k + f k' <= zsum_below n f) by (apply IH; auto; lia).
    lia.
Qed.

Lemma zsum_below_pos (n : nat) (f : Z -> Z) :
  0 < zsum_below n f -> exists k, 0 <= k < Z.of_nat n /\ 0 < f k.
Proof.
  induction n as [|n IH]; cbn [zsum_below]; intros H; [lia|].
  destruct (Z_lt_dec 0 (f (Z.of_nat n))) as [Hn|Hn].
  - exists (Z.of_nat n); split; [lia | exact Hn].
  - destruct IH as (k & Hk & Hf); [lia|].
    exists k; split; [lia | exact Hf].
Qed.

Lemma zsum_below_plus (n : nat) (f g : Z -> Z) :
  zsum_below n (fun k => f k + g k) = zsum_below n f + zsum_below n g.
Proof. induction n as [|n IH]; cbn [zsum_below]; [lia | rewrite IH; lia]. Qed.

Lemma zsum_below_zero (n : nat) : zsum_below n (fun _ => 0) = 0.
Proof. induction n as [|n IH]; cbn [zsum_below]; lia. Qed.

Lemma zsum_below_const (n : nat) (c : Z) :
  zsum_below n (fun _ => c) = Z.of_nat n * c.
Proof. induction n as [|n IH]; cbn [zsum_below]; [lia | rewrite IH; lia]. Qed.

(** One term changed. *)
Lemma zsum_below_update (n : nat) (g : Z -> Z) (p v : Z) :
  0 <= p < Z.of_nat n ->
  zsum_below n (fun k => if k =? p then v else g k)
  = zsum_below n g - g p + v.
Proof.
  induction n as [|n IH]; intros Hp; [lia|].
  cbn [zsum_below].
  destruct (Z.eqb_spec (Z.of_nat n) p) as [E|E].
  - subst p; rewrite (zsum_below_ext n _ g); [lia|].
    intros k Hk; destruct (Z.eqb_spec k (Z.of_nat n)); [lia | reflexivity].
  - rewrite IH by lia; lia.
Qed.

(** The indicator of one index. *)
Lemma zsum_below_point (n : nat) (p : Z) :
  zsum_below n (fun k => if k =? p then 1 else 0)
  = if (0 <=? p) && (p <? Z.of_nat n) then 1 else 0.
Proof.
  induction n as [|n IH]; cbn [zsum_below].
  - destruct (Z.leb_spec 0 p), (Z.ltb_spec p (Z.of_nat 0)); cbn [andb]; lia.
  - rewrite IH.
    destruct (Z.leb_spec 0 p), (Z.ltb_spec p (Z.of_nat n)),
      (Z.ltb_spec p (Z.of_nat (S n))), (Z.eqb_spec (Z.of_nat n) p);
      cbn [andb]; lia.
Qed.

(** A sum does not depend on the order of its terms. *)
Lemma zsum_below_bijection :
  forall (n : nat) (sigma tau : Z -> Z) (f : Z -> Z),
    (forall k, 0 <= k < Z.of_nat n ->
               0 <= sigma k < Z.of_nat n /\ tau (sigma k) = k) ->
    (forall k, 0 <= k < Z.of_nat n ->
               0 <= tau k < Z.of_nat n /\ sigma (tau k) = k) ->
    zsum_below n (fun k => f (sigma k)) = zsum_below n f.
Proof.
  induction n as [|n IH]; intros sigma tau f Hs Ht; [reflexivity|].
  cbn [zsum_below].
  remember (Z.of_nat n) as m eqn:Em.
  assert (Hm : Z.of_nat (S n) = m + 1) by lia.
  rewrite Hm in Hs, Ht.
  assert (Hm0 : 0 <= m) by lia.
  destruct (Ht m ltac:(lia)) as [Hp Hsp].
  remember (tau m) as p eqn:Ep.
  destruct (Hs m ltac:(lia)) as [Hq Htq].
  remember (sigma m) as q eqn:Eq.
  assert (Hinj : forall k k', 0 <= k < m + 1 -> 0 <= k' < m + 1 ->
                              sigma k = sigma k' -> k = k').
  { intros k k' Hk Hk' E.
    destruct (Hs k Hk) as [_ <-], (Hs k' Hk') as [_ <-]; now rewrite E. }
  assert (Hinj' : forall k k', 0 <= k < m + 1 -> 0 <= k' < m + 1 ->
                               tau k = tau k' -> k = k').
  { intros k k' Hk Hk' E.
    destruct (Ht k Hk) as [_ <-], (Ht k' Hk') as [_ <-]; now rewrite E. }
  destruct (Z.eq_dec p m) as [Epm|Epm].
  - (* the last index stays *)
    assert (Eqm : q = m) by (rewrite Eq, <- Epm at 1; exact Hsp).
    rewrite Eqm, (IH sigma tau f); [reflexivity | |].
    + intros k Hk; destruct (Hs k ltac:(lia)) as [H1 H2]; split; [|exact H2].
      assert (sigma k <> m); [|lia].
      intros E; rewrite <- Eqm, Eq in E; apply Hinj in E; lia.
    + intros k Hk; destruct (Ht k ltac:(lia)) as [H1 H2]; split; [|exact H2].
      assert (tau k <> m); [|lia].
      intros E; rewrite <- Epm, Ep in E; apply Hinj' in E; lia.
  - (* the index that goes to the last one takes the image of the last *)
    assert (Hqm : q <> m).
    { intros E; rewrite <- Hsp, Eq in E; apply Hinj in E; lia. }
    pose (sigma' := fun k => if k =? p then q else sigma k).
    pose (tau' := fun k => if k =? q then p else tau k).
    assert (IH' : zsum_below n (fun k => f (sigma' k)) = zsum_below n f).
    { apply (IH sigma' tau').
      - intros k Hk; unfold sigma', tau'.
        destruct (Z.eqb_spec k p) as [->|Hkp].
        + rewrite Z.eqb_refl; split; [lia | reflexivity].
        + destruct (Hs k ltac:(lia)) as [H1 H2].
          assert (sigma k <> m).
          { intros E; rewrite <- Hsp in E; apply Hinj in E; lia. }
          assert (sigma k <> q).
          { intros E; rewrite Eq in E; apply Hinj in E; lia. }
          replace (sigma k =? q) with false by (symmetry; apply Z.eqb_neq; lia).
          split; [lia | exact H2].
      - intros k Hk; unfold sigma', tau'.
        destruct (Z.eqb_spec k q) as [->|Hkq].
        + rewrite Z.eqb_refl; split; [lia | reflexivity].
        + destruct (Ht k ltac:(lia)) as [H1 H2].
          assert (tau k <> m).
          { intros E; rewrite <- Htq in E; apply Hinj' in E; lia. }
          assert (tau k <> p).
          { intros E; rewrite Ep in E; apply Hinj' in E; lia. }
          replace (tau k =? p) with false by (symmetry; apply Z.eqb_neq; lia).
          split; [lia | exact H2]. }
    rewrite <- IH'.
    rewrite (zsum_below_ext n (fun k => f (sigma' k))
               (fun k => if k =? p then f q else f (sigma k))).
    2:{ intros k Hk; unfold sigma'; destruct (k =? p); reflexivity. }
    rewrite (zsum_below_update n (fun k => f (sigma k)) p (f q)) by lia.
    rewrite Hsp; lia.
Qed.

(** What [rearranges] keeps: every sum over the items of the range. *)
Lemma rearranges_sum (count : Z) (a b : items) (g : ITEM -> Z) :
  rearranges 0 (count - 1) a b ->
  zsum_below (Z.to_nat count) (fun k => g (b k))
  = zsum_below (Z.to_nat count) (fun k => g (a k)).
Proof.
  intros (s & t & A & B & C & D & E).
  rewrite (zsum_below_ext _ (fun k => g (b k)) (fun k => g (a (s k))))
    by (intros; rewrite E; reflexivity).
  apply (zsum_below_bijection (Z.to_nat count) s t (fun k => g (a k))).
  - intros k Hk; split; [|apply A].
    specialize (C k); lia.
  - intros k Hk; split; [|apply B].
    destruct (Z_le_dec 0 (t k)), (Z_le_dec (t k) (count - 1)); try lia;
      specialize (D (t k) ltac:(lia)); rewrite B in D; lia.
Qed.

(** ** Loops over the grid *)

(** Two nested loops over the rows and the columns of the grid, with an
    invariant on the cell that comes next. *)
Lemma grid_loop_invariant {St : Type} (Inv : Z -> Z -> St -> Prop)
      (body : Z -> Z -> St -> St) (rows columns : Z) (s : St) :
  Inv 0 0 s ->
  (forall i j s, 0 <= i < rows -> 0 <= j < columns ->
                 Inv i j s -> Inv i (j + 1) (body i j s)) ->
  (forall i s, 0 <= i < rows -> Inv i (Z.max 0 columns) s -> Inv (i + 1) 0 s) ->
  Inv (Z.max 0 rows) 0
    (for_loop 0 (rows - 1) (fun i s => for_loop 0 (columns - 1) (body i) s) s).
Proof.
  intros H0 Hcell Hrow.
  replace (Z.max 0 rows) with (Z.max 0 (rows - 1 + 1)) by lia.
  apply (for_loop_invariant (fun i s => Inv i 0 s)); [exact H0|].
  intros i t Hi Ht; apply Hrow; [lia|].
  replace (Z.max 0 columns) with (Z.max 0 (columns - 1 + 1)) by lia.
  apply (for_loop_invariant (fun j s => Inv i j s)); [exact Ht|].
  intros j u Hj Hu; apply Hcell; auto; lia.
Qed.

Section GridSums.

Variables columns rows : Z.

(** The sum of [h] over the cells of the grid. *)
Definition grid_zsum (h : Z -> Z -> Z) : Z :=
  zsum_below (Z.to_nat rows)
    (fun i => zsum_below (Z.to_nat columns) (fun j => h i j)).

(** The sum over the cells before [(i, j)], row by row. *)
Definition grid_zsum_before (h : Z -> Z -> Z) (i j : Z) : Z :=
  zsum_below (Z.to_nat i)
    (fun i => zsum_below (Z.to_nat columns) (fun j => h i j))
  + zsum_below (Z.to_nat j) (fun j => h i j).

Lemma grid_zsum_before_start (h : Z -> Z -> Z) : grid_zsum_before h 0 0 = 0.
Proof. reflexivity. Qed.

Lemma grid_zsum_before_cell (h : Z -> Z -> Z) (i j : Z) :
  0 <= j ->
  grid_zsum_before h i (j + 1) = grid_zsum_before h i j + h i j.
Proof.
  intros Hj; unfold grid_zsum_before.
  replace (Z.to_nat (j + 1)) with (S (Z.to_nat j)) by lia.
  cbn [zsum_below]; rewrite Z2Nat.id by lia; lia.
Qed.

Lemma grid_zsum_before_row (h : Z -> Z -> Z) (i : Z) :
  0 <= i ->
  grid_zsum_before h (i + 1) 0 = grid_zsum_before h i (Z.max 0 columns).
Proof.
  intros Hi; unfold grid_zsum_before.
  replace (Z.to_nat (i + 1)) with (S (Z.to_nat i)) by lia.
  replace (Z.to_nat (Z.max 0 columns)) with (Z.to_nat columns) by lia.
  change (Z.to_nat 0) with 0%nat.
  cbn [zsum_below]; rewrite Z2Nat.id by lia; lia.
Qed.

Lemma grid_zsum_before_end (h : Z -> Z -> Z) :
  grid_zsum_before h (Z.max 0 rows) 0 = grid_zsum h.
Proof.
  unfold grid_zsum_before, grid_zsum.
  replace (Z.to_nat (Z.max 0 rows)) with (Z.to_nat rows) by lia.
  change (Z.to_nat 0) with 0%nat; cbn [zsum_below]; lia.
Qed.

Lemma grid_zsum_ext (h h' : Z -> Z -> Z) :
  (forall i j, 0 <= i < rows -> 0 <= j < columns -> h i j = h' i j) ->
  grid_zsum h = grid_zsum h'.
Proof.
  intros H; unfold grid_zsum.
  apply zsum_below_ext; intros i Hi.
  apply zsum_below_ext; intros j Hj.
  apply H; lia.
Qed.

Lemma grid_zsum_nonneg (h : Z -> Z -> Z) :
  (forall i j, 0 <= i < rows -> 0 <= j < columns -> 0 <= h i j) ->
  0 <= grid_zsum h.
Proof.
  intros H; apply zsum_below_nonneg; intros i Hi.
  apply zsum_below_nonneg; intros j Hj; apply H; lia.
Qed.

Lemma grid_zsum_plus (h h' : Z -> Z -> Z) :
  grid_zsum (fun i j => h i j + h' i j) = grid_zsum h + grid_zsum h'.
Proof.
  unfold grid_zsum.
  rewrite <- zsum_below_plus; apply zsum_below_ext; intros i _.
  apply zsum_below_plus.
Qed.

(** The indicator of one cell. *)
Lemma grid_zsum_point (a b : Z) :
  grid_zsum (fun i j => if (i =? a) && (j =? b) then 1 else 0)
  = if (0 <=? a) && (a <? rows) && (0 <=? b) && (b <? columns) then 1 else 0.
Proof.
  unfold grid_zsum.
  assert (Hrow : forall i,
             zsum_below (Z.to_nat columns)
               (fun j => if (i =? a) && (j =? b) then 1 else 0)
             = if i =? a
               then (if (0 <=? b) && (b <? columns) then 1 else 0)
               else 0).
  { intros i; destruct (Z.eqb_spec i a) as [->|Hne]; cbn [andb].
    - rewrite zsum_below_point.
      destruct (Z.leb_spec 0 b), (Z.ltb_spec b columns),
        (Z.ltb_spec b (Z.of_nat (Z.to_nat columns))); cbn [andb]; lia.
    - apply zsum_below_zero. }
  rewrite (zsum_below_ext _ _ _ (fun i _ => Hrow i)).
  destruct (Z.leb_spec 0 b), (Z.ltb_spec b columns); cbn [andb];
    rewrite ?andb_false_r, ?andb_true_r.
  - rewrite zsum_below_point.
    destruct (Z.leb_spec 0 a), (Z.ltb_spec a rows),
      (Z.ltb_spec a (Z.of_nat (Z.to_nat rows))); cbn [andb]; lia.
  - rewrite (zsum_below_ext _ _ (fun _ => 0))
      by (intros i _; destruct (i =? a); reflexivity).
    apply zsum_below_zero.
  - rewrite (zsum_below_ext _ _ (fun _ => 0))
      by (intros i _; destruct (i =? a); reflexivity).
    apply zsum_below_zero.
  - rewrite (zsum_below_ext _ _ (fun _ => 0))
      by (intros i _; destruct (i =? a); reflexivity).
    apply zsum_below_zero.
Qed.

Lemma grid_zsum_term (h : Z -> Z -> Z) (a b : Z) :
  (forall i j, 0 <= i < rows -> 0 <= j < columns -> 0 <= h i j) ->
  0 <= a < rows -> 0 <= b < columns -> h a b <= grid_zsum h.
Proof.
  intros H Ha Hb; unfold grid_zsum.
  apply Z.le_trans with (zsum_below (Z.to_nat columns) (fun j => h a j)).
  - apply (zsum_below_term _ (fun j => h a j)); [intros; apply H|]; lia.
  - apply (zsum_below_term _
             (fun i => zsum_below (Z.to_nat columns) (fun j => h i j)));
      [|lia].
    intros i Hi; apply zsum_below_nonneg; intros j Hj; apply H; lia.
Qed.

End GridSums.

Lemma for_down_indexed {St : Type} (Inv : Z -> St -> Prop)
      (body : Z -> St -> St) :
  forall (n : nat) (s : St),
    Inv (Z.of_nat n) s ->
    (forall t s, 1 <= t <= Z.of_nat n -> Inv t s -> Inv (t - 1) (body t s)) ->
    Inv 0 (for_down n body s).
Proof.
  induction n as [|n IH]; intros s H0 Hstep; cbn [for_down]; [exact H0|].
  apply IH.
  - replace (Z.of_nat n) with (Z.of_nat (S n) - 1) by lia.
    apply Hstep; [lia | exact H0].
  - intros t s' Ht; apply Hstep; lia.
Qed.

(** ** The cells that [Topindex] goes through *)

Section TopindexCells.

Variables dem flowacc : matrix.
Variables columns rows : Z.
Variables deltax deltay : R.
Variable nodata : R.

(** The sum of [g] over the cells of the grid that hold data. *)
Definition active_zsum (g : ITEM -> Z) : Z :=
  grid_zsum columns rows
    (fun i j => if Rneb (dem i j) nodata then g (mkITEM (dem i j) j i) else 0).

(** [cells] holds each cell with data once in its first [count] items:
    a sum over the items is the sum over the cells with data. *)
Definition lists_active_cells (cells : items) (count : Z) : Prop :=
  0 <= count
  /\ forall g : ITEM -> Z,
       zsum_below (Z.to_nat count) (fun k => g (cells k)) = active_zsum g.

Lemma collect_cells_lists (cells0 : items) :
  let s := collect_cells dem columns rows nodata cells0 in
  lists_active_cells (fst s) (snd s).
Proof.
  intros s; subst s; unfold collect_cells.
  pose (h := fun (g : ITEM -> Z) (i j : Z) =>
     if Rneb (dem i j) nodata then g (mkITEM (dem i j) j i) else 0).
  pose (Inv := fun (i j : Z) (s : items * Z) =>
     0 <= snd s
     /\ forall g : ITEM -> Z,
          zsum_below (Z.to_nat (snd s)) (fun k => g (fst s k))
          = grid_zsum_before columns (h g) i j).
  pose (body := fun (i j : Z) '((cells, count) : items * Z) =>
     if Rneb (dem i j) nodata
     then (item_set cells count (mkITEM (dem i j) j i), count + 1)
     else (cells, count)).
  assert (H : Inv (Z.max 0 rows) 0
                (for_loop 0 (rows - 1)
                   (fun i s => for_loop 0 (columns - 1) (body i) s)
                   (cells0, 0))).
  { apply (grid_loop_invariant Inv body).
    - split; [cbn; lia | intros g; reflexivity].
    - intros i j [cells count] Hi Hj [Hc Hsum]; cbn [fst snd] in *.
      unfold Inv, body.
      destruct (Rneb (dem i j) nodata) eqn:E; cbn [fst snd].
      + split; [lia | intros g].
        rewrite grid_zsum_before_cell by lia.
        unfold h at 2; rewrite E, <- Hsum.
        replace (Z.to_nat (count + 1)) with (S (Z.to_nat count)) by lia.
        cbn [zsum_below]; rewrite Z2Nat.id by lia.
        unfold item_set at 2; rewrite Z.eqb_refl.
        f_equal; apply zsum_below_ext; intros k Hk.
        unfold item_set.
        replace (k =? count) with false by (symmetry; apply Z.eqb_neq; lia).
        reflexivity.
      + split; [lia | intros g].
        rewrite grid_zsum_before_cell by lia.
        unfold h at 2; rewrite E, <- Hsum; lia.
    - intros i s Hi [Hc Hsum]; split; [exact Hc | intros g].
      rewrite grid_zsum_before_row by lia; apply Hsum. }
  destruct H as [Hc Hsum]; split; [exact Hc | intros g].
  rewrite Hsum, grid_zsum_before_end; reflexivity.
Qed.

Section Listed.

Variable cells : items.
Variable count : Z.
Hypothesis listed : lists_active_cells cells count.

Lemma listed_count : count = active_zsum (fun _ => 1).
Proof.
  destruct listed as [Hc Hsum].
  rewrite <- (Hsum (fun _ => 1)), zsum_below_const; lia.
Qed.

(** Every item is a cell of the grid with data, ranked by its elevation. *)
Lemma listed_in_grid (k : Z) :
  0 <= k < count ->
  0 <= y (cells k) < rows /\ 0 <= x (cells k) < columns
  /\ dem (y (cells k)) (x (cells k)) <> nodata
  /\ Rank (cells k) = dem (y (cells k)) (x (cells k)).
Proof.
  intros Hk; destruct listed as [Hc Hsum].
  pose (good := fun c : ITEM =>
     (0 <=? y c) && (y c <? rows) && (0 <=? x c) && (x c <? columns)
     && Rneb (dem (y c) (x c)) nodata && Reqb (Rank c) (dem (y c) (x c))).
  pose (g := fun c : ITEM => if good c then 0 else 1).
  assert (H0 : active_zsum g = 0).
  { unfold active_zsum.
    rewrite (grid_zsum_ext columns rows _ (fun _ _ => 0)).
    - unfold grid_zsum.
      rewrite (zsum_below_ext _ _ (fun _ => 0))
        by (intros; apply zsum_below_zero).
      apply zsum_below_zero.
    - intros i j Hi Hj; destruct (Rneb (dem i j) nodata) eqn:E; [|reflexivity].
      unfold g, good; cbn [x y Rank]; rewrite E.
      replace (Reqb (dem i j) (dem i j)) with true
        by (symmetry; apply Reqb_true; reflexivity).
      destruct (Z.leb_spec 0 i), (Z.ltb_spec i rows), (Z.leb_spec 0 j),
        (Z.ltb_spec j columns); cbn [andb]; lia. }
  rewrite <- (Hsum g) in H0.
  assert (Hterm : g (cells k) <= 0).
  { rewrite <- H0.
    apply (zsum_below_term _ (fun k => g (cells k))); [|lia].
    intros k' _; unfold g; destruct (good (cells k')); lia. }
  unfold g in Hterm; destruct (good (cells k)) eqn:E; [|lia].
  unfold good in E.
  rewrite !andb_true_iff, !Z.leb_le, !Z.ltb_lt, Rneb_true, Reqb_true in E.
  tauto.
Qed.

(** No cell is listed twice. *)
Lemma listed_once (k k' : Z) :
  0 <= k < count -> 0 <= k' < count ->
  x (cells k) = x (cells k') -> y (cells k) = y (cells k') -> k = k'.
Proof.
  intros Hk Hk' Ex Ey; destruct listed as [Hc Hsum].
  destruct (Z.eq_dec k k') as [|Hne]; [assumption | exfalso].
  pose (g := fun c : ITEM =>
     if (y c =? y (cells k)) && (x c =? x (cells k)) then 1 else 0).
  assert (H1 : active_zsum g <= 1).
  { unfold active_zsum.
    apply Z.le_trans with
      (grid_zsum columns rows
         (fun i j => if (i =? y (cells k)) && (j =? x (cells k)) then 1 else 0)).
    - unfold grid_zsum.
      assert (Hle : forall (n : nat) (f f' : Z -> Z),
                 (forall i, f i <= f' i) -> zsum_below n f <= zsum_below n f').
      { induction n as [|n IH]; intros f f' H; cbn [zsum_below]; [lia|].
        specialize (IH f f' H); specialize (H (Z.of_nat n)); lia. }
      apply Hle; intros i; apply Hle; intros j.
      unfold g; cbn [x y].
      destruct (Rneb (dem i j) nodata),
        ((i =? y (cells k)) && (j =? x (cells k))); lia.
    - rewrite grid_zsum_point.
      destruct ((0 <=? y (cells k)) && (y (cells k) <? rows)
                && (0 <=? x (cells k)) && (x (cells k) <? columns)); lia. }
  rewrite <- (Hsum g) in H1.
  pose proof (zsum_below_two_terms (Z.to_nat count) (fun k => g (cells k)) k k')
    as H2.
  cbv beta in H2.
  assert (g (cells k) = 1) by (unfold g; rewrite !Z.eqb_refl; reflexivity).
  assert (g (cells k') = 1)
    by (unfold g; rewrite <- Ex, <- Ey, !Z.eqb_refl; reflexivity).
  assert (g (cells k) + g (cells k')
          <= zsum_below (Z.to_nat count) (fun k => g (cells k))).
  { apply H2; try lia.
    intros k0 _; unfold g; destruct (_ && _); lia. }
  lia.
Qed.

(** Every cell of the grid with data is listed. *)
Lemma listed_all (i j : Z) :
  0 <= i < rows -> 0 <= j < columns -> dem i j <> nodata ->
  exists k, 0 <= k < count /\ y (cells k) = i /\ x (cells k) = j.
Proof.
  intros Hi Hj Hd; destruct listed as [Hc Hsum].
  pose (g := fun c : ITEM => if (y c =? i) && (x c =? j) then 1 else 0).
  assert (H1 : 1 <= active_zsum g).
  { unfold active_zsum.
    pose (h := fun i' j' =>
       if Rneb (dem i' j') nodata then g (mkITEM (dem i' j') j' i') else 0).
    change (1 <= grid_zsum columns rows h).
    replace 1 with (h i j).
    - apply grid_zsum_term; auto.
      intros i' j' _ _; unfold h, g; cbn [x y].
      destruct (Rneb (dem i' j') nodata), ((i' =? i) && (j' =? j)); lia.
    - unfold h, g; cbn [x y].
      apply Rneb_true in Hd; rewrite Hd, !Z.eqb_refl; reflexivity. }
  rewrite <- (Hsum g) in H1.
  destruct (zsum_below_pos (Z.to_nat count) (fun k => g (cells k)))
    as (k & Hk & Hg); [lia|].
  exists k; split; [lia|].
  unfold g in Hg.
  destruct (Z.eqb_spec (y (cells k)) i), (Z.eqb_spec (x (cells k)) j);
    cbn [andb] in Hg; try lia; auto.
Qed.

(** A cell without data, or outside of the grid, is not listed. *)
Lemma listed_none (i j : Z) (k : Z) :
  0 <= k < count -> y (cells k) = i -> x (cells k) = j ->
  0 <= i < rows /\ 0 <= j < columns /\ dem i j <> nodata.
Proof.
  intros Hk <- <-.
  destruct (listed_in_grid k Hk) as (H1 & H2 & H3 & _); auto.
Qed.

End Listed.

(** Sorting keeps the list. *)
Lemma lists_active_cells_rearranged (cells cells' : items) (count : Z) :
  lists_active_cells cells count ->
  rearranges 0 (count - 1) cells cells' ->
  lists_active_cells cells' count.
Proof.
  intros [Hc Hsum] Hre; split; [exact Hc | intros g].
  rewrite (rearranges_sum count cells cells' g Hre); apply Hsum.
Qed.

End TopindexCells.

(** ** The first loop of [Topindex] *)

(** The three tests on the wetness index of a cell. *)
Definition water_class (w : R) : Z := if Rleb WATERTHRESH w then 1 else 0.

Definition wetland_class (w : R) : Z :=
  if Rleb WATERTHRESH w then 0
  else if Rleb WETLANDTHRESH w && Rltb w WATERTHRESH then 1 else 0.

Definition counted_class (nodata w : R) : Z := if Rneb w nodata then 1 else 0.

(** A [float] counter after a cell of class [k]. *)
Definition count_class (c : R) (k : Z) : R :=
  if k =? 0 then c else float_incr c.

(** While a counter is below [2^24] it counts. *)
Lemma count_class_exact (m k : Z) :
  0 <= m -> 0 <= k <= 1 -> m + k <= 16777216 ->
  count_class (IZR m) k = IZR (m + k).
Proof.
  intros Hm Hk Hb; unfold count_class, float_incr.
  destruct (Z.eqb_spec k 0) as [->|Hne]; [f_equal; lia|].
  assert (k = 1) by lia; subst k.
  rewrite <- plus_IZR; apply float32_int; lia.
Qed.

Lemma zsum_below_bound (n : nat) (f : Z -> Z) :
  (forall k, 0 <= f k <= 1) -> 0 <= zsum_below n f <= Z.of_nat n.
Proof.
  intros H; induction n as [|n IH]; cbn [zsum_below]; [lia|].
  specialize (H (Z.of_nat n)); lia.
Qed.

Lemma zsum_below_mono (n m : nat) (f : Z -> Z) :
  (forall k, 0 <= f k) -> (n <= m)%nat -> zsum_below n f <= zsum_below m f.
Proof.
  intros H Hnm; induction Hnm as [|m Hnm IH]; [lia|].
  cbn [zsum_below]; specialize (H (Z.of_nat m)); lia.
Qed.

Lemma zsum_below_le (n : nat) (f f' : Z -> Z) :
  (forall k, 0 <= k < Z.of_nat n -> f k <= f' k) ->
  zsum_below n f <= zsum_below n f'.
Proof.
  induction n as [|n IH]; intros H; cbn [zsum_below]; [lia|].
  assert (zsum_below n f <= zsum_below n f') by (apply IH; intros; apply H; lia).
  assert (f (Z.of_nat n) <= f' (Z.of_nat n)) by (apply H; lia).
  lia.
Qed.

Lemma wetland_class_range (w : R) :
  wetland_class w
  = if Rleb WETLANDTHRESH w && Rltb w WATERTHRESH then 1 else 0.
Proof.
  unfold wetland_class.
  destruct (Rleb WATERTHRESH w) eqn:E1; [|reflexivity].
  destruct (Rltb w WATERTHRESH) eqn:E2; [rbool; lra|].
  now rewrite andb_false_r.
Qed.

Lemma classes_disjoint (nodata w : R) :
  0 <= water_class w /\ 0 <= wetland_class w
  /\ 0 <= counted_class nodata w <= 1
  /\ water_class w + wetland_class w <= 1.
Proof.
  unfold water_class, wetland_class, counted_class.
  destruct (Rleb WATERTHRESH w), (Rleb WETLANDTHRESH w && Rltb w WATERTHRESH),
    (Rneb w nodata); lia.
Qed.

Section FirstLoop.

Variables dem flowacc : matrix.
Variables columns rows : Z.
Variables deltax deltay : R.
Variable nodata : R.

(** What the loop over the neighbors gives for a cell whose sums start
    from zero. *)
Definition cell_index_of (a b : Z) : cell_index :=
  topindex_cell dem flowacc columns rows deltax deltay nodata a b.

Definition cell_twi (c : ITEM) : R :=
  wetnessindex (cell_index_of (x c) (y c)).

Lemma topindex_visit_fresh (a b : Z) (g : grids) :
  contour_length_grid g b a = 0%R -> tanbeta_grid g b a = 0%R ->
  let c := cell_index_of a b in
  topindex_visit dem flowacc columns rows deltax deltay nodata a b g
  = mkGrids (mset (tanbeta_grid g) b a (tanbeta c))
            (mset (tanbeta_pixel_grid g) b a (tanbeta_pixel c))
            (mset (contour_length_grid g) b a (contour_length c))
            (mset (wetnessindex_grid g) b a (wetnessindex c))
            (count_class (waterVeg_count g) (water_class (wetnessindex c)))
            (count_class (wetlandVeg_count g) (wetland_class (wetnessindex c)))
            (count_class (totalVeg_count g)
               (counted_class nodata (wetnessindex c))).
Proof.
  intros Hcl Htb c; subst c.
  unfold topindex_visit, cell_index_of, topindex_cell, neighbor_sums.
  rewrite Hcl, Htb.
  destruct (fold_left _ (seq 0 8) (0%R, 0%R, 0)) as [[cl tb] low].
  destruct (low =? 0); cbn [tanbeta tanbeta_pixel contour_length wetnessindex];
    unfold water_class, wetland_class, counted_class, count_class;
    match goal with
    | |- context [Rneb ?w nodata] =>
        destruct (Rleb WATERTHRESH w),
          (Rleb WETLANDTHRESH w && Rltb w WATERTHRESH), (Rneb w nodata)
    end;
    cbn [Z.eqb]; reflexivity.
Qed.

Variable cells : items.
Variable count : Z.
Hypothesis listed : lists_active_cells dem columns rows nodata cells count.

(** The grids when the cells from rank [t] on are through. *)
Definition visited_from (t : Z) (g : grids) : Prop :=
  (forall k, t <= k < count ->
     let c := cell_index_of (x (cells k)) (y (cells k)) in
     tanbeta_grid g (y (cells k)) (x (cells k)) = tanbeta c
     /\ tanbeta_pixel_grid g (y (cells k)) (x (cells k)) = tanbeta_pixel c
     /\ contour_length_grid g (y (cells k)) (x (cells k)) = contour_length c
     /\ wetnessindex_grid g (y (cells k)) (x (cells k)) = wetnessindex c)
  /\ (forall i j,
        (forall k, t <= k < count -> ~ (y (cells k) = i /\ x (cells k) = j)) ->
        tanbeta_grid g i j = 0%R /\ tanbeta_pixel_grid g i j = 0%R
        /\ contour_length_grid g i j = 0%R /\ wetnessindex_grid g i j = 0%R)
  /\ (count <= 16777216 ->
      waterVeg_count g
      = IZR (zsum_below (Z.to_nat count)
               (fun k => water_class (cell_twi (cells k)))
             - zsum_below (Z.to_nat t)
                 (fun k => water_class (cell_twi (cells k))))
      /\ wetlandVeg_count g
         = IZR (zsum_below (Z.to_nat count)
                  (fun k => wetland_class (cell_twi (cells k)))
                - zsum_below (Z.to_nat t)
                    (fun k => wetland_class (cell_twi (cells k))))
      /\ totalVeg_count g
         = IZR (zsum_below (Z.to_nat count)
                  (fun k => counted_class nodata (cell_twi (cells k)))
                - zsum_below (Z.to_nat t)
                    (fun k => counted_class nodata (cell_twi (cells k))))).

Lemma first_loop_visited :
  visited_from 0
    (first_loop dem flowacc columns rows deltax deltay nodata cells count).
Proof.
  destruct listed as [Hc _].
  unfold first_loop.
  apply (for_down_indexed visited_from).
  - rewrite Z2Nat.id by lia.
    unfold visited_from;
      cbn [tanbeta_grid tanbeta_pixel_grid contour_length_grid
             wetnessindex_grid waterVeg_count wetlandVeg_count totalVeg_count].
    split; [intros; lia | split; [intros; repeat split; reflexivity|]].
    intros _; rewrite !Z.sub_diag; repeat split; reflexivity.
  - intros t g Ht (Hin & Hout & Hcnt).
    rewrite Z2Nat.id in Ht by lia.
    set (a := x (cells (t - 1))).
    set (b := y (cells (t - 1))).
    assert (Hnew : forall k, t <= k < count ->
                             ~ (y (cells k) = b /\ x (cells k) = a)).
    { intros k Hk [Ey Ex].
      assert (k = t - 1); [|lia].
      apply (listed_once dem columns rows nodata cells count listed); auto; lia. }
    destruct (Hout b a Hnew) as (Z1 & Z2 & Z3 & Z4).
    rewrite (topindex_visit_fresh a b g Z3 Z1); cbv zeta.
    assert (Hsplit : forall f : Z -> Z,
               zsum_below (Z.to_nat t) f
               = zsum_below (Z.to_nat (t - 1)) f + f (t - 1)).
    { intros f; replace (Z.to_nat t) with (S (Z.to_nat (t - 1))) by lia.
      cbn [zsum_below]; rewrite Z2Nat.id by lia; reflexivity. }
    unfold visited_from;
      cbn [tanbeta_grid tanbeta_pixel_grid contour_length_grid
             wetnessindex_grid waterVeg_count wetlandVeg_count totalVeg_count].
    split; [|split].
    + intros k Hk.
      destruct (Z.eq_dec k (t - 1)) as [->|Hne].
      * fold a b; rewrite !mset_same; auto.
      * assert (Hother : y (cells k) <> b \/ x (cells k) <> a).
        { destruct (Z.eq_dec (y (cells k)) b), (Z.eq_dec (x (cells k)) a);
            auto.
          exfalso; apply (Hnew k); [lia | auto]. }
        rewrite !mset_other by exact Hother.
        apply Hin; lia.
    + intros i j Hnot.
      assert (Hother : i <> b \/ j <> a).
      { destruct (Z.eq_dec i b), (Z.eq_dec j a); auto.
        exfalso; apply (Hnot (t - 1)); [lia | auto]. }
      rewrite !mset_other by exact Hother.
      apply Hout; intros k Hk; apply Hnot; lia.
    + intros Hb; destruct (Hcnt Hb) as (Hwater & Hwet & Htot).
      change (wetnessindex (cell_index_of a b)) with (cell_twi (cells (t - 1))).
      assert (Hstep : forall (f : Z -> Z) (c : R),
                 (forall k, 0 <= f k <= 1) ->
                 c = IZR (zsum_below (Z.to_nat count) f
                          - zsum_below (Z.to_nat t) f) ->
                 count_class c (f (t - 1))
                 = IZR (zsum_below (Z.to_nat count) f
                        - zsum_below (Z.to_nat (t - 1)) f)).
      { intros f c Hf ->.
        pose proof (zsum_below_bound (Z.to_nat count) f Hf) as B1.
        pose proof (zsum_below_nonneg (Z.to_nat (t - 1)) f
                      ltac:(intros k _; apply Hf)) as B2.
        pose proof (zsum_below_mono (Z.to_nat t) (Z.to_nat count) f
                      ltac:(intros k; apply Hf) ltac:(lia)) as B3.
        pose proof (Hsplit f) as E.
        rewrite count_class_exact; [f_equal; lia | lia | apply Hf | lia]. }
      split; [|split].
      * apply (Hstep (fun k => water_class (cell_twi (cells k)))); [|exact Hwater].
        intros k; pose proof (classes_disjoint nodata (cell_twi (cells k))); lia.
      * apply (Hstep (fun k => wetland_class (cell_twi (cells k)))); [|exact Hwet].
        intros k; pose proof (classes_disjoint nodata (cell_twi (cells k))); lia.
      * apply (Hstep (fun k => counted_class nodata (cell_twi (cells k))));
          [|exact Htot].
        intros k; pose proof (classes_disjoint nodata (cell_twi (cells k))); lia.
Qed.

End FirstLoop.

Section FirstLoopResult.

Variables dem flowacc : matrix.
Variables columns rows : Z.
Variables deltax deltay : R.
Variable nodata : R.
Variable cells : items.
Variable count : Z.
Hypothesis listed : lists_active_cells dem columns rows nodata cells count.

(** After the first loop: a cell with data holds its index, any other
    cell holds zero, and the counters count the cells with data as long
    as there are [2^24] of them at most. *)
Lemma first_loop_result :
  let g := first_loop dem flowacc columns rows deltax deltay nodata cells count in
  let twi := cell_twi dem flowacc columns rows deltax deltay nodata in
  (forall i j, 0 <= i < rows -> 0 <= j < columns -> dem i j <> nodata ->
     let c := topindex_cell dem flowacc columns rows deltax deltay nodata j i in
     tanbeta_grid g i j = tanbeta c
     /\ tanbeta_pixel_grid g i j = tanbeta_pixel c
     /\ contour_length_grid g i j = contour_length c
     /\ wetnessindex_grid g i j = wetnessindex c)
  /\ (forall i j, ~ (0 <= i < rows /\ 0 <= j < columns /\ dem i j <> nodata) ->
        tanbeta_grid g i j = 0%R /\ tanbeta_pixel_grid g i j = 0%R
        /\ contour_length_grid g i j = 0%R /\ wetnessindex_grid g i j = 0%R)
  /\ (count <= 16777216 ->
      waterVeg_count g
      = IZR (active_zsum dem columns rows nodata (fun c => water_class (twi c)))
      /\ wetlandVeg_count g
         = IZR (active_zsum dem columns rows nodata
                  (fun c => wetland_class (twi c)))
      /\ totalVeg_count g
         = IZR (active_zsum dem columns rows nodata
                  (fun c => counted_class nodata (twi c)))).
Proof.
  intros g twi.
  destruct (first_loop_visited dem flowacc columns rows deltax deltay nodata
              cells count listed) as (Hin & Hout & Hcnt).
  fold g in Hin, Hout, Hcnt.
  change (Z.to_nat 0) with 0%nat in Hcnt.
  cbn [zsum_below] in Hcnt.
  destruct listed as [Hc Hsum].
  split; [|split; [|intros Hb; destruct (Hcnt Hb) as (Hwater & Hwet & Htot);
                    split; [|split]]].
  - intros i j Hi Hj Hd.
    destruct (listed_all dem columns rows nodata cells count listed i j Hi Hj Hd)
      as (k & Hk & Ey & Ex).
    specialize (Hin k ltac:(lia)); cbv zeta in Hin.
    rewrite Ey, Ex in Hin; exact Hin.
  - intros i j Hnot; apply Hout; intros k Hk [Ey Ex].
    apply Hnot.
    apply (listed_none dem columns rows nodata cells count listed i j k);
      auto; lia.
  - rewrite Hwater, Z.sub_0_r; f_equal.
    apply (Hsum (fun c => water_class (twi c))).
  - rewrite Hwet, Z.sub_0_r; f_equal.
    apply (Hsum (fun c => wetland_class (twi c))).
  - rewrite Htot, Z.sub_0_r; f_equal.
    apply (Hsum (fun c => counted_class nodata (twi c))).
Qed.

End FirstLoopResult.

(** X21.  [Topindex] collects the cells with data, sorts them with
    [quick] and goes through the sorted cells.  With at least one such
    cell and fuel for their number, every cell with data is visited once,
    so that the sums over its neighbors start from zero: [tanbeta_pixel],
    [contour_length] and [wetnessindex] of the cell hold what the loop
    over the neighbors gives for the cell alone, and the arrays are zero
    at every other cell. *)
Theorem first_loop_visits_each_cell_once (dem flowacc : matrix)
        (columns rows : Z) (dx dy nodata : R) (fuel : nat) :
  let s := collect_cells dem columns rows nodata (fun _ => zero_item) in
  1 <= snd s -> snd s <= Z.of_nat fuel ->
  exists cells,
    quick fuel (fst s) (snd s) = Some cells
    /\ let g := first_loop dem flowacc columns rows dx dy nodata cells (snd s) in
       (forall i j, 0 <= i < rows -> 0 <= j < columns -> dem i j <> nodata ->
          let c := topindex_cell dem flowacc columns rows dx dy nodata j i in
          tanbeta_pixel_grid g i j = tanbeta_pixel c
          /\ contour_length_grid g i j = contour_length c
          /\ wetnessindex_grid g i j = wetnessindex c)
       /\ (forall i j,
             ~ (0 <= i < rows /\ 0 <= j < columns /\ dem i j <> nodata) ->
             tanbeta_pixel_grid g i j = 0%R
             /\ contour_length_grid g i j = 0%R
             /\ wetnessindex_grid g i j = 0%R).
Proof.
  intros s Hcount Hfuel.
  pose proof (collect_cells_lists dem columns rows nodata (fun _ => zero_item))
    as Hlisted; cbv zeta in Hlisted; fold s in Hlisted.
  destruct (qs_spec fuel (fst s) 0 (snd s - 1)) as (cells & Hrun & _ & Hre);
    try lia.
  exists cells; split; [exact Hrun|].
  pose proof (lists_active_cells_rearranged dem columns rows nodata
                (fst s) cells (snd s) Hlisted Hre) as Hsorted.
  destruct (first_loop_result dem flowacc columns rows dx dy nodata
              cells (snd s) Hsorted) as (Hin & Hout & _).
  split.
  - intros i j Hi Hj Hd; destruct (Hin i j Hi Hj Hd) as (_ & H2 & H3 & H4).
    auto.
  - intros i j Hnot; destruct (Hout i j Hnot) as (_ & H2 & H3 & H4); auto.
Qed.

(** ** From the grids to the call of [VICcalculation] *)

(** [contour_length] and [tanbeta_pixel] of a cell are positive. *)
Lemma cell_index_positive (dem flowacc : matrix) (columns rows : Z)
      (dx dy nodata : R) (a b : Z) :
  (0 < dx)%R -> (0 < dy)%R ->
  let c := topindex_cell dem flowacc columns rows dx dy nodata a b in
  (0 < contour_length c)%R /\ (0 < tanbeta_pixel c)%R
  /\ wetnessindex c = (flowacc b a / (contour_length c * tanbeta_pixel c))%R.
Proof.
  intros Hx Hy c.
  pose proof (tanbeta_floor_pos dx dy Hx Hy) as Hf.
  destruct (topindex_cell_spec dem flowacc columns rows dx dy nodata a b)
    as (Hlow & Hnil & Hcons); fold c in Hlow, Hnil, Hcons.
  set (l := lower_among dem columns rows nodata a b (seq 0 8)) in *.
  split; [|split].
  - destruct l as [|n l'] eqn:El.
    + destruct (Hnil eq_refl) as [_ ->]; lra.
    + destruct Hcons as [_ ->]; [discriminate|].
      apply Rdiv_lt_0_compat.
      * apply Rsum_weights_pos; auto; discriminate.
      * apply IZR_lt; simpl List.length; lia.
  - destruct l as [|n l'] eqn:El.
    + destruct (Hnil eq_refl) as [-> _]; exact Hf.
    + destruct Hcons as [-> _]; [discriminate|].
      eapply Rlt_le_trans; [exact Hf | apply Rmax_r].
  - subst c; unfold topindex_cell.
    destruct (neighbor_sums dem columns rows dx dy nodata a b) as [[cl tb] low].
    destruct (low =? 0); reflexivity.
Qed.

Section TopindexArguments.

Variables dem flowacc : matrix.
Variables columns rows : Z.
Variables deltax deltay : R.
Variable nodata : R.

Hypothesis rows_nonneg : 0 <= rows.
Hypothesis columns_nonneg : 0 <= columns.

Lemma Norow_spec :
  Norow dem columns rows nodata
  = grid_zsum columns rows (fun i j => if Reqb (dem i j) nodata then 1 else 0).
Proof.
  unfold Norow.
  pose (h := fun i j : Z => if Reqb (dem i j) nodata then 1 else 0).
  pose (Inv := fun (i j c : Z) => c = grid_zsum_before columns h i j).
  pose (body := fun (i j c : Z) => if Reqb (dem i j) nodata then c + 1 else c).
  assert (H : Inv (Z.max 0 rows) 0
                (for_loop 0 (rows - 1)
                   (fun i c => for_loop 0 (columns - 1) (body i) c) 0)).
  { apply (grid_loop_invariant Inv body).
    - reflexivity.
    - intros i j c Hi Hj Hc; unfold Inv, body in *.
      rewrite grid_zsum_before_cell by lia; unfold h at 2.
      destruct (Reqb (dem i j) nodata); lia.
    - intros i c Hi Hc; unfold Inv in *.
      rewrite grid_zsum_before_row by lia; exact Hc. }
  etransitivity; [exact H | apply grid_zsum_before_end].
Qed.

(** The cells with data and the cells without make up the grid. *)
Lemma active_count :
  active_zsum dem columns rows nodata (fun _ => 1)
  = rows * columns - Norow dem columns rows nodata.
Proof.
  rewrite Norow_spec; unfold active_zsum.
  assert (Hall : grid_zsum columns rows (fun _ _ => 1) = rows * columns).
  { unfold grid_zsum.
    rewrite (zsum_below_ext _ _ (fun _ => columns)).
    - rewrite zsum_below_const; lia.
    - intros i _; rewrite zsum_below_const; lia. }
  rewrite <- Hall, <- (Z.add_simpl_r (grid_zsum columns rows _)
                         (grid_zsum columns rows (fun i j => if Reqb (dem i j) nodata then 1 else 0))).
  rewrite <- grid_zsum_plus.
  f_equal; apply grid_zsum_ext; intros i j _ _.
  unfold Rneb; destruct (Reqb (dem i j) nodata); reflexivity.
Qed.

Lemma Norow_bounds :
  0 <= Norow dem columns rows nodata <= rows * columns.
Proof.
  split.
  - rewrite Norow_spec; apply grid_zsum_nonneg.
    intros i j _ _; destruct (Reqb (dem i j) nodata); lia.
  - pose proof active_count as H.
    assert (0 <= active_zsum dem columns rows nodata (fun _ => 1)); [|lia].
    apply grid_zsum_nonneg.
    intros i j _ _; destruct (Rneb (dem i j) nodata); lia.
Qed.

(** The wetland cells that the second collection finds, and what the two
    lists hold. *)
Lemma collect_wetland_spec (g : grids) (twi0 cells0 : items) :
  let s := collect_wetland dem columns rows g twi0 cells0 in
  let twi := fst (fst s) in
  let cells := snd (fst s) in
  let count := snd s in
  count
  = grid_zsum columns rows
      (fun i j =>
         if Rleb WETLANDTHRESH (wetnessindex_grid g i j)
            && Rltb (wetnessindex_grid g i j) WATERTHRESH
         then 1 else 0)
  /\ 0 <= count
  /\ forall k, 0 <= k < count ->
       0 <= y (twi k) < rows /\ 0 <= x (twi k) < columns
       /\ Rank (twi k) = wetnessindex_grid g (y (twi k)) (x (twi k))
       /\ (WETLANDTHRESH <= Rank (twi k) < WATERTHRESH)%R
       /\ 0 <= y (cells k) < rows /\ 0 <= x (cells k) < columns
       /\ (WETLANDTHRESH <= wetnessindex_grid g (y (cells k)) (x (cells k))
           < WATERTHRESH)%R
       /\ Rank (cells k) = dem (y (cells k)) (x (cells k)).
Proof.
  intros s twi cells count; subst twi cells count s; unfold collect_wetland.
  pose (h := fun i j : Z =>
     if Rleb WETLANDTHRESH (wetnessindex_grid g i j)
        && Rltb (wetnessindex_grid g i j) WATERTHRESH
     then 1 else 0).
  pose (Inv := fun (i j : Z) (s : items * items * Z) =>
     snd s = grid_zsum_before columns h i j
     /\ 0 <= snd s
     /\ forall k, 0 <= k < snd s ->
          0 <= y (fst (fst s) k) < rows /\ 0 <= x (fst (fst s) k) < columns
          /\ Rank (fst (fst s) k)
             = wetnessindex_grid g (y (fst (fst s) k)) (x (fst (fst s) k))
          /\ (WETLANDTHRESH <= Rank (fst (fst s) k) < WATERTHRESH)%R
          /\ 0 <= y (snd (fst s) k) < rows /\ 0 <= x (snd (fst s) k) < columns
          /\ (WETLANDTHRESH
              <= wetnessindex_grid g (y (snd (fst s) k)) (x (snd (fst s) k))
              < WATERTHRESH)%R
          /\ Rank (snd (fst s) k)
             = dem (y (snd (fst s) k)) (x (snd (fst s) k))).
  pose (body := fun (i j : Z) '((twi, cells, count) : items * items * Z) =>
     let w := wetnessindex_grid g i j in
     if Rleb WETLANDTHRESH w && Rltb w WATERTHRESH
     then (item_set twi count (mkITEM w j i),
           item_set cells count (mkITEM (dem i j) j i),
           count + 1)
     else (twi, cells, count)).
  assert (H : Inv (Z.max 0 rows) 0
                (for_loop 0 (rows - 1)
                   (fun i s => for_loop 0 (columns - 1) (body i) s)
                   (twi0, cells0, 0))).
  { apply (grid_loop_invariant Inv body).
    - unfold Inv; cbn [fst snd]; repeat split; try lia.
    - intros i j [[twi cells] count] Hi Hj (Hc & Hpos & Hk).
      cbn [fst snd] in *; unfold Inv, body; cbv zeta.
      rewrite grid_zsum_before_cell by lia; unfold h at 2.
      destruct (Rleb WETLANDTHRESH (wetnessindex_grid g i j)
                && Rltb (wetnessindex_grid g i j) WATERTHRESH) eqn:Ew;
        cbn [fst snd].
      + split; [lia | split; [lia|]].
        apply andb_true_iff in Ew as [E1 E2]; rbool.
        intros k Hk'; unfold item_set.
        destruct (Z.eqb_spec k count) as [->|Hne]; cbn [x y Rank].
        * repeat split; try lia; lra.
        * apply Hk; lia.
      + split; [lia | split; [lia | exact Hk]].
    - intros i s Hi (Hc & Hpos & Hk); unfold Inv.
      rewrite grid_zsum_before_row by lia; auto. }
  destruct H as (Hc & Hpos & Hk).
  rewrite grid_zsum_before_end in Hc; auto.
Qed.

End TopindexArguments.

(** What [fill_VIC] leaves in the five rows. *)
Lemma fill_VIC_spec (dem flowacc : matrix) (g : grids) (AveDelev : matrix)
      (twi cells : items) (count : Z) (k : Z) :
  0 <= k < count ->
  let V := fill_VIC dem flowacc g AveDelev twi cells count in
  let c := twi (count - 1 - k) in
  V 0 k = flowacc (y c) (x c)
  /\ V 1 k = wetnessindex_grid g (y c) (x c)
  /\ V 2 k = tanbeta_pixel_grid g (y c) (x c)
  /\ V 3 k = AveDelev (y c) (x c)
  /\ V 4 k = dem (y (cells k)) (x (cells k)).
Proof.
  intros Hk V c; subst V c; unfold fill_VIC.
  pose (Inv := fun (hi : Z) (V : matrix) =>
    forall k, 0 <= k < hi ->
      V 0 k = flowacc (y (twi (count - 1 - k))) (x (twi (count - 1 - k)))
      /\ V 1 k = wetnessindex_grid g (y (twi (count - 1 - k)))
                   (x (twi (count - 1 - k)))
      /\ V 2 k = tanbeta_pixel_grid g (y (twi (count - 1 - k)))
                   (x (twi (count - 1 - k)))
      /\ V 3 k = AveDelev (y (twi (count - 1 - k))) (x (twi (count - 1 - k)))
      /\ V 4 k = dem (y (cells k)) (x (cells k))).
  refine (for_loop_invariant Inv _ 0 (count - 1) _ _ _ k ltac:(lia)).
  - intros k' Hk'; lia.
  - intros i V Hi HV k' Hk'; cbv zeta.
    destruct (Z.eq_dec k' i) as [->|Hne].
    + unfold mset; cbn [Z.eqb Pos.eqb andb]; rewrite !Z.eqb_refl; cbn [andb].
      repeat split; reflexivity.
    + rewrite !mset_other by lia; apply HV; lia.
Qed.

Lemma sorted_rearranged_facts (P : ITEM -> Prop) (a b : items) (count : Z) :
  rearranges 0 (count - 1) a b ->
  (forall k, 0 <= k < count -> P (a k)) ->
  forall k, 0 <= k < count -> P (b k).
Proof.
  intros Hre Ha k Hk.
  destruct (rearranges_inside 0 (count - 1) a b k Hre) as (k' & Hk' & ->);
    [lia|].
  apply Ha; lia.
Qed.

(** The tests on the wetness index of the cells of a grid. *)
Definition wetland_cells (columns rows : Z) (w : matrix) : Z :=
  grid_zsum columns rows
    (fun i j =>
       if Rleb WETLANDTHRESH (w i j) && Rltb (w i j) WATERTHRESH
       then 1 else 0).

Definition water_cells (columns rows : Z) (w : matrix) : Z :=
  grid_zsum columns rows (fun i j => if Rleb WATERTHRESH (w i j) then 1 else 0).

Section FirstLoopCounters.

Variables dem flowacc : matrix.
Variables columns rows : Z.
Variables deltax deltay : R.
Variable nodata : R.

(** The counters of the first loop for a list of the cells with data,
    [2^24] of them at most. *)
Lemma first_loop_counters (cells : items) (count : Z) :
  lists_active_cells dem columns rows nodata cells count ->
  count <= 16777216 ->
  let g := first_loop dem flowacc columns rows deltax deltay nodata cells count in
  let water := water_cells columns rows (wetnessindex_grid g) in
  let wet := wetland_cells columns rows (wetnessindex_grid g) in
  waterVeg_count g = IZR water /\ wetlandVeg_count g = IZR wet
  /\ 0 <= water /\ 0 <= wet /\ water + wet <= count
  /\ exists total, totalVeg_count g = IZR total /\ 0 <= total <= count.
Proof.
  intros Hlisted Hb g water wet.
  destruct (first_loop_result dem flowacc columns rows deltax deltay nodata
              cells count Hlisted) as (Hin & Hout & Hcnt).
  fold g in Hin, Hout, Hcnt.
  destruct (Hcnt Hb) as (Hwater & Hwet & Htot).
  pose proof (listed_count dem columns rows nodata cells count Hlisted) as Hcount.
  set (twi := cell_twi dem flowacc columns rows deltax deltay nodata) in *.
  assert (Hle : forall f f' : ITEM -> Z,
             (forall c, f c <= f' c) ->
             active_zsum dem columns rows nodata f
             <= active_zsum dem columns rows nodata f').
  { intros f f' H; unfold active_zsum, grid_zsum.
    apply zsum_below_le; intros i _; apply zsum_below_le; intros j _.
    destruct (Rneb (dem i j) nodata); [apply H | lia]. }
  assert (Hzero : active_zsum dem columns rows nodata (fun _ => 0) = 0).
  { unfold active_zsum, grid_zsum.
    rewrite (zsum_below_ext _ _ (fun _ => 0)); [apply zsum_below_zero|].
    intros i _; rewrite (zsum_below_ext _ _ (fun _ => 0));
      [apply zsum_below_zero|].
    intros j _; destruct (Rneb (dem i j) nodata); reflexivity. }
  assert (Hplus : forall f f' : ITEM -> Z,
             active_zsum dem columns rows nodata (fun c => f c + f' c)
             = active_zsum dem columns rows nodata f
               + active_zsum dem columns rows nodata f').
  { intros f f'; unfold active_zsum; rewrite <- grid_zsum_plus.
    apply grid_zsum_ext; intros i j _ _.
    destruct (Rneb (dem i j) nodata); lia. }
  assert (Ewater : active_zsum dem columns rows nodata
                     (fun c => water_class (twi c)) = water).
  { unfold active_zsum, water, water_cells.
    apply grid_zsum_ext; intros i j Hi Hj.
    destruct (Rneb (dem i j) nodata) eqn:E.
    - apply Rneb_true in E.
      destruct (Hin i j Hi Hj E) as (_ & _ & _ & ->).
      unfold twi, cell_twi, cell_index_of; cbn [x y]; reflexivity.
    - apply Rneb_false in E.
      destruct (Hout i j) as (_ & _ & _ & ->); [tauto|].
      replace (Rleb WATERTHRESH 0) with false; [reflexivity|].
      symmetry; apply Rleb_false; unfold WATERTHRESH; lra. }
  assert (Ewet : active_zsum dem columns rows nodata
                   (fun c => wetland_class (twi c)) = wet).
  { unfold active_zsum, wet, wetland_cells.
    apply grid_zsum_ext; intros i j Hi Hj.
    destruct (Rneb (dem i j) nodata) eqn:E.
    - apply Rneb_true in E.
      destruct (Hin i j Hi Hj E) as (_ & _ & _ & ->).
      unfold twi, cell_twi, cell_index_of; cbn [x y].
      apply wetland_class_range.
    - apply Rneb_false in E.
      destruct (Hout i j) as (_ & _ & _ & ->); [tauto|].
      replace (Rleb WETLANDTHRESH 0) with false; [reflexivity|].
      symmetry; apply Rleb_false; unfold WETLANDTHRESH; lra. }
  rewrite Ewater in Hwater; rewrite Ewet in Hwet.
  split; [exact Hwater | split; [exact Hwet|]].
  split; [|split; [|split]].
  - rewrite <- Ewater, <- Hzero; apply Hle; intros c.
    apply (classes_disjoint nodata (twi c)).
  - rewrite <- Ewet, <- Hzero; apply Hle; intros c.
    apply (classes_disjoint nodata (twi c)).
  - rewrite <- Ewater, <- Ewet, <- Hplus, Hcount; apply Hle; intros c.
    apply (classes_disjoint nodata (twi c)).
  - eexists; split; [exact Htot|]; split.
    + rewrite <- Hzero; apply Hle; intros c.
      apply (classes_disjoint nodata (twi c)).
    + rewrite Hcount; apply Hle; intros c.
      apply (classes_disjoint nodata (twi c)).
Qed.

End FirstLoopCounters.

(** The number of wetland cells is at most the number of cells. *)
Lemma wetland_cells_bounds (columns rows : Z) (w : matrix) :
  0 <= rows -> 0 <= columns ->
  0 <= wetland_cells columns rows w <= rows * columns.
Proof.
  intros Hr Hc; unfold wetland_cells; split.
  - apply grid_zsum_nonneg; intros i j _ _.
    destruct (Rleb _ _ && Rltb _ _); lia.
  - assert (Hall : grid_zsum columns rows (fun _ _ => 1) = rows * columns).
    { unfold grid_zsum.
      rewrite (zsum_below_ext _ _ (fun _ => columns)).
      - rewrite zsum_below_const; lia.
      - intros i _; rewrite zsum_below_const; lia. }
    rewrite <- Hall; unfold grid_zsum.
    apply zsum_below_le; intros i _; apply zsum_below_le; intros j _.
    destruct (Rleb _ _ && Rltb _ _); lia.
Qed.

(** A loop whose first turn fails. *)
Lemma reset_twi_out_of_block (twi : items) (count : Z) :
  1 <= count -> reset_twi twi count = None.
Proof.
  intros Hc; unfold reset_twi, for_loopM.
  replace (Z.to_nat (count - 1 - 0 + 1)) with (S (Z.to_nat (count - 1))) by lia.
  cbn [for_upM]; unfold store_item.
  replace (count <? count) with false by (symmetry; apply Z.ltb_ge; lia).
  rewrite andb_false_r; reflexivity.
Qed.

Lemma reset_twi_no_turn (twi : items) (count : Z) :
  count <= 0 -> reset_twi twi count = Some twi.
Proof.
  intros Hc; unfold reset_twi, for_loopM.
  replace (Z.to_nat (count - 1 - 0 + 1)) with 0%nat by lia; reflexivity.
Qed.

Section TopindexWhole.

Variables dem flowacc : matrix.
Variables columns rows : Z.
Variables deltax deltay : R.
Variable nodata : R.
Variable fuel : nat.

Hypothesis rows_nonneg : 0 <= rows.
Hypothesis columns_nonneg : 0 <= columns.
Hypothesis enough_fuel : rows * columns <= Z.of_nat fuel.

(** How far [Topindex] gets. *)
Lemma Topindex_arguments_spec :
  let count := rows * columns - Norow dem columns rows nodata in
  (count = 0 ->
   Topindex_arguments dem flowacc columns rows deltax deltay nodata fuel
   = inl NoData)
  /\ (count <> 0 ->
      Topindex_arguments dem flowacc columns rows deltax deltay nodata fuel
      = inl OutOfBlock).
Proof.
  intros count.
  pose proof (active_count dem columns rows nodata rows_nonneg columns_nonneg)
    as Hactive.
  pose proof (Norow_bounds dem columns rows nodata rows_nonneg columns_nonneg)
    as HNorow.
  fold count in Hactive.
  unfold Topindex_arguments; fold count.
  split.
  { intros E; rewrite E; reflexivity. }
  intros Hne.
  replace (count =? 0) with false by (symmetry; apply Z.eqb_neq; exact Hne).
  pose proof (collect_cells_lists dem columns rows nodata (fun _ => zero_item))
    as Hlisted0; cbv zeta in Hlisted0.
  destruct (collect_cells dem columns rows nodata (fun _ => zero_item))
    as [cells0 count0]; cbn [fst snd] in Hlisted0.
  assert (Hcount0 : count0 = count).
  { rewrite (listed_count dem columns rows nodata cells0 count0 Hlisted0).
    exact Hactive. }
  subst count0.
  destruct (qs_spec fuel cells0 0 (count - 1)) as (cells & Hrun & Hsorted & Hre);
    try lia.
  unfold quick; rewrite Hrun.
  rewrite reset_twi_out_of_block by lia; reflexivity.
Qed.

(** The rows of [VIC] that the block of the wetland cells fills. *)
Lemma wetland_rows_spec (g : grids) (AveDelev : matrix) (twi0 cells0 : items) :
  let n := wetland_cells columns rows (wetnessindex_grid g) in
  1 <= n ->
  exists twi wet,
    wetland_rows dem flowacc columns rows fuel g AveDelev twi0 cells0
    = Some (fill_VIC dem flowacc g AveDelev twi wet n, n)
    /\ sorted twi 0 (n - 1) /\ sorted wet 0 (n - 1)
    /\ forall k, 0 <= k < n ->
         0 <= y (twi k) < rows /\ 0 <= x (twi k) < columns
         /\ Rank (twi k) = wetnessindex_grid g (y (twi k)) (x (twi k))
         /\ (WETLANDTHRESH <= Rank (twi k) < WATERTHRESH)%R
         /\ 0 <= y (wet k) < rows /\ 0 <= x (wet k) < columns
         /\ (WETLANDTHRESH <= wetnessindex_grid g (y (wet k)) (x (wet k))
             < WATERTHRESH)%R
         /\ Rank (wet k) = dem (y (wet k)) (x (wet k)).
Proof.
  intros n Hn1.
  pose proof (wetland_cells_bounds columns rows (wetnessindex_grid g)
                rows_nonneg columns_nonneg) as Hnb; fold n in Hnb.
  unfold wetland_rows.
  pose proof (collect_wetland_spec dem columns rows g twi0 cells0) as Hcw.
  cbv zeta in Hcw.
  destruct (collect_wetland dem columns rows g twi0 cells0)
    as [[twi1 wet1] n0]; cbn [fst snd] in Hcw.
  destruct Hcw as (Hn0 & _ & Hfacts).
  fold (wetland_cells columns rows (wetnessindex_grid g)) in Hn0; fold n in Hn0.
  subst n0.
  destruct (qs_spec fuel twi1 0 (n - 1)) as (twi & Hrun1 & Hs1 & Hre1); try lia.
  destruct (qs_spec fuel wet1 0 (n - 1)) as (wet & Hrun2 & Hs2 & Hre2); try lia.
  unfold quick; rewrite Hrun1, Hrun2.
  exists twi, wet; split; [reflexivity|].
  split; [exact Hs1 | split; [exact Hs2|]].
  intros k Hk.
  pose proof (sorted_rearranged_facts
                (fun c => 0 <= y c < rows /\ 0 <= x c < columns
                          /\ Rank c = wetnessindex_grid g (y c) (x c)
                          /\ (WETLANDTHRESH <= Rank c < WATERTHRESH)%R)
                twi1 twi n Hre1) as H1.
  pose proof (sorted_rearranged_facts
                (fun c => 0 <= y c < rows /\ 0 <= x c < columns
                          /\ (WETLANDTHRESH <= wetnessindex_grid g (y c) (x c)
                              < WATERTHRESH)%R
                          /\ Rank c = dem (y c) (x c))
                wet1 wet n Hre2) as H2.
  cbv beta in H1, H2.
  destruct (H1 ltac:(intros k' Hk';
                     destruct (Hfacts k' Hk') as (A & B & C & D & _); auto) k Hk)
    as (A1 & A2 & A3 & A4).
  destruct (H2 ltac:(intros k' Hk';
                     destruct (Hfacts k' Hk') as (_ & _ & _ & _ & E & F & G & H);
                     repeat split; try tauto; try lra) k Hk)
    as (B1 & B2 & B3 & B4).
  repeat split; auto; try lia; try lra.
Qed.

End TopindexWhole.

(** No cell is left after [Norow] exactly when the grid holds no data. *)
Lemma no_data_iff (dem : matrix) (columns rows : Z) (nodata : R)
      (rows_nonneg : 0 <= rows) (columns_nonneg : 0 <= columns) :
  rows * columns - Norow dem columns rows nodata = 0
  <-> forall i j, 0 <= i < rows -> 0 <= j < columns -> dem i j = nodata.
Proof.
  rewrite <- (active_count dem columns rows nodata rows_nonneg columns_nonneg).
  unfold active_zsum; split.
  - intros H0 i j Hi Hj.
    pose proof (grid_zsum_term columns rows
                  (fun i j => if Rneb (dem i j) nodata then 1 else 0) i j) as Ht.
    cbv beta in Ht.
    destruct (Rneb (dem i j) nodata) eqn:E; [|apply Rneb_false in E; exact E].
    assert (1 <= 0); [|lia].
    rewrite <- H0; apply Ht; auto.
    intros i' j' _ _; destruct (Rneb (dem i' j') nodata); lia.
  - intros Hall.
    rewrite (grid_zsum_ext columns rows _ (fun _ _ => 0)).
    + unfold grid_zsum.
      rewrite (zsum_below_ext _ _ (fun _ => 0))
        by (intros; apply zsum_below_zero).
      apply zsum_below_zero.
    + intros i j Hi Hj.
      replace (Rneb (dem i j) nodata) with false; [reflexivity|].
      symmetry; apply Rneb_false; apply Hall; assumption.
Qed.

Section TopindexPasses.

Variables dem flowacc : matrix.
Variables columns rows : Z.
Variables deltax deltay : R.
Variable nodata : R.

Hypothesis rows_nonneg : 0 <= rows.
Hypothesis columns_nonneg : 0 <= columns.
Hypothesis deltax_pos : (0 < deltax)%R.
Hypothesis deltay_pos : (0 < deltay)%R.
Hypothesis nodata_neg : (nodata < 0)%R.
Hypothesis flowacc_nonneg :
  forall i j, 0 <= i < rows -> 0 <= j < columns -> (0 <= flowacc i j)%R.

(** The wetness index of a cell of the grid is not negative, and so is
    not [nodata]: every cell with data is counted in [totalVeg], as long as
    the [float] counts. *)
Lemma all_cells_counted (cells : items) (count : Z) :
  lists_active_cells dem columns rows nodata cells count ->
  count <= 16777216 ->
  totalVeg_count
    (first_loop dem flowacc columns rows deltax deltay nodata cells count)
  = IZR count.
Proof.
  intros Hlisted Hb.
  destruct (first_loop_result dem flowacc columns rows deltax deltay nodata
              cells count Hlisted) as (_ & _ & Hcnt).
  destruct (Hcnt Hb) as (_ & _ & Htot).
  rewrite Htot, (listed_count dem columns rows nodata cells count Hlisted).
  f_equal.
  unfold active_zsum; apply grid_zsum_ext; intros i j Hi Hj.
  destruct (Rneb (dem i j) nodata); [|reflexivity].
  unfold counted_class, cell_twi, cell_index_of; cbn [x y].
  destruct (cell_index_positive dem flowacc columns rows deltax deltay nodata
              j i deltax_pos deltay_pos) as (Hcl & Htb & ->).
  replace (Rneb _ nodata) with true; [reflexivity|].
  symmetry; apply Rneb_true.
  assert (0 <= flowacc i j
               / (contour_length
                    (topindex_cell dem flowacc columns rows deltax deltay nodata j i)
                  * tanbeta_pixel
                      (topindex_cell dem flowacc columns rows deltax deltay nodata j i)))%R.
  { apply Rmult_le_pos; [apply flowacc_nonneg; assumption|].
    apply Rlt_le, Rinv_0_lt_compat, Rmult_lt_0_compat; assumption. }
  lra.
Qed.

End TopindexPasses.

Lemma data_gives_count (dem : matrix) (columns rows : Z) (nodata : R) :
  0 <= rows -> 0 <= columns ->
  (exists i j, 0 <= i < rows /\ 0 <= j < columns /\ dem i j <> nodata) ->
  rows * columns - Norow dem columns rows nodata <> 0.
Proof.
  intros Hr Hc (i & j & Hi & Hj & Hd) H0.
  apply Hd, (proj1 (no_data_iff dem columns rows nodata Hr Hc) H0); assumption.
Qed.

(** The state of the grids after the first loop of [Topindex]. *)
Lemma first_loop_fractions (dem flowacc : matrix) (columns rows : Z)
      (dx dy nodata : R) (fuel : nat) :
  0 <= rows -> 0 <= columns -> rows * columns <= Z.of_nat fuel ->
  rows * columns <= 16777216 ->
  (0 < dx)%R -> (0 < dy)%R -> (nodata < 0)%R ->
  (forall i j, 0 <= i < rows -> 0 <= j < columns -> (0 <= flowacc i j)%R) ->
  (exists i j, 0 <= i < rows /\ 0 <= j < columns /\ dem i j <> nodata) ->
  let s := collect_cells dem columns rows nodata (fun _ => zero_item) in
  exists cells,
    quick fuel (fst s) (snd s) = Some cells
    /\ let g := first_loop dem flowacc columns rows dx dy nodata cells (snd s) in
       let total := rows * columns - Norow dem columns rows nodata in
       let water := water_cells columns rows (wetnessindex_grid g) in
       let wet := wetland_cells columns rows (wetnessindex_grid g) in
       (forall i j, 0 <= i < rows -> 0 <= j < columns -> dem i j <> nodata ->
          wetnessindex_grid g i j
          = wetnessindex
              (topindex_cell dem flowacc columns rows dx dy nodata j i))
       /\ snd s = total
       /\ 1 <= total /\ 0 <= water /\ 0 <= wet /\ water + wet <= total
       /\ totalVeg_count g = IZR total /\ to_int (totalVeg_count g) = total
       /\ waterVeg_count g = IZR water /\ wetlandVeg_count g = IZR wet
       /\ waterVeg g = float32 (IZR water / IZR total)
       /\ wetlandVeg g = float32 (IZR wet / IZR total)
       /\ uplandVeg g = float32 (IZR (total - water - wet) / IZR total)
       /\ ((0 < waterVeg g)%R <-> 1 <= water)
       /\ ((0 < wetlandVeg g)%R <-> 1 <= wet)
       /\ (1 <= wet -> (/ 16777216 <= wetlandVeg g <= 1)%R)
       /\ (0 <= waterVeg g <= 1)%R
       /\ (Rabs (uplandVeg g + wetlandVeg g + waterVeg g - 1)
           <= / 16777216)%R.
Proof.
  intros Hr Hc Hfuel Hbig Hx Hy Hnd Hflow Hdata s.
  pose proof (data_gives_count dem columns rows nodata Hr Hc Hdata) as Hne.
  pose proof (active_count dem columns rows nodata Hr Hc) as Hactive.
  pose proof (Norow_bounds dem columns rows nodata Hr Hc) as HNorow.
  pose proof (collect_cells_lists dem columns rows nodata (fun _ => zero_item))
    as Hlisted0; cbv zeta in Hlisted0; fold s in Hlisted0.
  assert (Hcount : snd s = rows * columns - Norow dem columns rows nodata).
  { rewrite (listed_count dem columns rows nodata _ _ Hlisted0); exact Hactive. }
  destruct (qs_spec fuel (fst s) 0 (snd s - 1)) as (cells & Hrun & _ & Hre);
    try lia.
  exists cells; split; [exact Hrun|].
  pose proof (lists_active_cells_rearranged dem columns rows nodata
                (fst s) cells (snd s) Hlisted0 Hre) as Hlisted.
  intros g total water wet.
  destruct (first_loop_result dem flowacc columns rows dx dy nodata
              cells (snd s) Hlisted) as (Hin & _ & _); fold g in Hin.
  destruct (first_loop_counters dem flowacc columns rows dx dy nodata
              cells (snd s) Hlisted ltac:(lia))
    as (Hwater & Hwet & Hw0 & Hwet0 & Hsum & _).
  fold g water wet in Hwater, Hwet, Hw0, Hwet0, Hsum.
  pose proof (all_cells_counted dem flowacc columns rows dx dy nodata
                Hx Hy Hnd Hflow cells (snd s) Hlisted ltac:(lia)) as Htot.
  fold g in Htot; rewrite Hcount in Htot, Hsum; fold total in Htot, Hsum, Hcount.
  assert (Htotal : 1 <= total <= 16777216) by (unfold total in *; lia).
  destruct (float32_share water total ltac:(lia) Htotal) as (A1 & A2 & _ & A4).
  destruct (float32_share wet total ltac:(lia) Htotal) as (B1 & B2 & B3 & B4).
  destruct (float32_share (total - water - wet) total ltac:(lia) Htotal)
    as (C1 & _ & _ & C4).
  assert (Eup : uplandVeg g = float32 (IZR (total - water - wet) / IZR total)).
  { unfold uplandVeg; rewrite Htot, Hwater, Hwet.
    rewrite <- minus_IZR, float32_int by lia.
    rewrite <- minus_IZR, float32_int by lia; reflexivity. }
  assert (Ewet : wetlandVeg g = float32 (IZR wet / IZR total))
    by (unfold wetlandVeg; rewrite Htot, Hwet; reflexivity).
  assert (Ewater : waterVeg g = float32 (IZR water / IZR total))
    by (unfold waterVeg; rewrite Htot, Hwater; reflexivity).
  split; [intros i j Hi Hj Hd; apply (Hin i j Hi Hj Hd)|].
  split; [exact Hcount|].
  split; [lia | split; [exact Hw0 | split; [exact Hwet0 | split; [exact Hsum|]]]].
  split; [exact Htot|].
  split.
  { rewrite Htot; unfold to_int.
    replace (Rltb (IZR total) 0) with false
      by (symmetry; apply Rltb_false, IZR_le; lia).
    apply to_int_IZR; lia. }
  split; [exact Hwater | split; [exact Hwet|]].
  split; [exact Ewater | split; [exact Ewet | split; [exact Eup|]]].
  rewrite Eup, Ewet, Ewater.
  split; [exact A2 | split; [exact B2 | split; [intros H; split; [apply B3; exact H | apply B1]|]]].
  split; [exact A1|].
  cbv zeta in A4, B4, C4.
  assert (HT : (1 <= IZR total)%R) by (apply IZR_le; lia).
  assert (Esum : (IZR (total - water - wet) / IZR total + IZR wet / IZR total
                  + IZR water / IZR total = 1)%R).
  { rewrite !minus_IZR; field; lra. }
  assert (P1 : (0 <= IZR water / IZR total)%R).
  { apply Rmult_le_pos; [apply IZR_le; lia | apply Rlt_le, Rinv_0_lt_compat; lra]. }
  assert (P2 : (0 <= IZR wet / IZR total)%R).
  { apply Rmult_le_pos; [apply IZR_le; lia | apply Rlt_le, Rinv_0_lt_compat; lra]. }
  assert (P3 : (0 <= IZR (total - water - wet) / IZR total)%R).
  { apply Rmult_le_pos; [apply IZR_le; lia | apply Rlt_le, Rinv_0_lt_compat; lra]. }
  apply Rabs_le_between in A4, B4, C4.
  apply Rabs_le; lra.
Qed.

(** X22.  The counters and the fractions of [Topindex].  For a grid of
    at most [2^24] cells, one of them at least with data, cell sizes that are
    positive, a flow accumulation that is not negative and a negative
    [nodata]: the sort of the cells returns, and after the first loop over
    the cells the wetness index of a cell with data is the one of the cell
    alone, the [float] counters hold the number of cells with data, of water
    cells and of wetland cells, and [(int) totalVeg] is the number of cells
    with data.  The fractions of water, wetland and upland cells are the
    shares of these cells rounded to single precision: a fraction is
    positive exactly when there is such a cell, a wetland fraction that is
    positive lies between [2^-24] and 1, and the three fractions add up to 1
    within [2^-24]. *)
Theorem topindex_fractions (dem flowacc : matrix) (columns rows : Z)
        (dx dy nodata : R) (fuel : nat) :
  0 <= rows -> 0 <= columns -> rows * columns <= Z.of_nat fuel ->
  rows * columns <= 16777216 ->
  (0 < dx)%R -> (0 < dy)%R -> (nodata < 0)%R ->
  (forall i j, 0 <= i < rows -> 0 <= j < columns -> (0 <= flowacc i j)%R) ->
  (exists i j, 0 <= i < rows /\ 0 <= j < columns /\ dem i j <> nodata) ->
  let s := collect_cells dem columns rows nodata (fun _ => zero_item) in
  exists cells,
    quick fuel (fst s) (snd s) = Some cells
    /\ let g := first_loop dem flowacc columns rows dx dy nodata cells (snd s) in
       let total := rows * columns - Norow dem columns rows nodata in
       let water := water_cells columns rows (wetnessindex_grid g) in
       let wet := wetland_cells columns rows (wetnessindex_grid g) in
       (forall i j, 0 <= i < rows -> 0 <= j < columns -> dem i j <> nodata ->
          wetnessindex_grid g i j
          = wetnessindex
              (topindex_cell dem flowacc columns rows dx dy nodata j i))
       /\ snd s = total
       /\ 1 <= total /\ 0 <= water /\ 0 <= wet /\ water + wet <= total
       /\ totalVeg_count g = IZR total /\ to_int (totalVeg_count g) = total
       /\ waterVeg_count g = IZR water /\ wetlandVeg_count g = IZR wet
       /\ waterVeg g = float32 (IZR water / IZR total)
       /\ wetlandVeg g = float32 (IZR wet / IZR total)
       /\ uplandVeg g = float32 (IZR (total - water - wet) / IZR total)
       /\ ((0 < waterVeg g)%R <-> 1 <= water)
       /\ ((0 < wetlandVeg g)%R <-> 1 <= wet)
       /\ (1 <= wet -> (/ 16777216 <= wetlandVeg g <= 1)%R)
       /\ (0 <= waterVeg g <= 1)%R
       /\ (Rabs (uplandVeg g + wetlandVeg g + waterVeg g - 1)
           <= / 16777216)%R.
Proof.
  exact (first_loop_fractions dem flowacc columns rows dx dy nodata fuel).
Qed.

(** X29.  A [float] counter of [Topindex] that is incremented by [++]
    counts up to [2^24]: from a whole number [c] below [2^24] it goes to
    [c + 1], and from [2^24] it goes to [2^24] again, the next whole number
    being half way between two values of a [float]. *)
Theorem float_counter_stops (c : Z) :
  0 <= c <= 16777216 ->
  float_incr (IZR c) = IZR (if c <? 16777216 then c + 1 else c).
Proof.
  intros Hc; unfold float_incr.
  destruct (Z.ltb_spec c 16777216) as [Hlt|Hge].
  - rewrite <- plus_IZR; apply float32_int; lia.
  - assert (c = 16777216) by lia; subst c; apply float32_stops.
Qed.

Lemma float_counter_stops_witness :
  float_incr (IZR 16777216) = IZR 16777216.
Proof.
  apply (float_counter_stops 16777216); lia.
Defined.

(** *** A flat strip of two wetland cells *)

(** A grid whose cells all hold the elevation 10. *)
Definition one_cell : matrix := fun _ _ => 10%R.

Lemma one_cell_data :
  exists i j, 0 <= i < 1 /\ 0 <= j < 1 /\ one_cell i j <> (-9999)%R.
Proof. exists 0, 0; repeat split; try lia; unfold one_cell; lra. Qed.

(** On a flat grid no cell has a lower neighbor: [tanbeta_pixel] is the
    floor and the wetness index is the flow accumulation over
    [(2 dx + 2 dy) * floor]. *)
Lemma flat_cell_index (flowacc : matrix) (columns rows : Z)
      (dx dy nodata : R) (a b : Z) :
  (0 < dx)%R -> (0 < dy)%R ->
  wetnessindex (topindex_cell one_cell flowacc columns rows dx dy nodata a b)
  = (flowacc b a / ((2 * dx + 2 * dy) * tanbeta_floor dx dy))%R.
Proof.
  intros Hx Hy.
  destruct (cell_index_positive one_cell flowacc columns rows dx dy nodata a b
              Hx Hy) as (_ & _ & ->).
  destruct (topindex_cell_spec one_cell flowacc columns rows dx dy nodata a b)
    as (_ & Hnil & _).
  destruct Hnil as [-> ->]; [|reflexivity].
  apply lower_among_nil; intros n Hn.
  unfold lower_neighbor, neighbor_elev, one_cell.
  repeat match goal with
    | |- context [if ?c then _ else _] => destruct c eqn:?
    end; rbool; try reflexivity;
    try (apply andb_false_iff; left; rbool; lra);
    try (apply andb_false_iff; right; rbool; reflexivity).
Qed.

Definition wet_flowacc : matrix :=
  fun _ j =>
    if j =? 0 then (20000 * (120 * tanbeta_floor 30 30))%R
    else (30000 * (120 * tanbeta_floor 30 30))%R.

Lemma wet_flowacc_nonneg (i j : Z) : (0 <= wet_flowacc i j)%R.
Proof.
  pose proof (tanbeta_floor_pos 30 30 ltac:(lra) ltac:(lra)).
  unfold wet_flowacc; destruct (j =? 0); nra.
Qed.

Lemma wet_strip_data :
  exists i j, 0 <= i < 1 /\ 0 <= j < 2 /\ one_cell i j <> (-9999)%R.
Proof. exists 0, 0; repeat split; try lia; unfold one_cell; lra. Qed.

Lemma wet_strip_index (j : Z) :
  wetnessindex (topindex_cell one_cell wet_flowacc 2 1 30 30 (-9999) j 0)
  = if j =? 0 then 20000%R else 30000%R.
Proof.
  rewrite flat_cell_index by lra.
  pose proof (tanbeta_floor_pos 30 30 ltac:(lra) ltac:(lra)).
  unfold wet_flowacc; destruct (j =? 0); field; lra.
Qed.

Lemma topindex_fractions_witness :
  let s := collect_cells one_cell 2 1 (-9999) (fun _ => zero_item) in
  exists cells,
    quick 2 (fst s) (snd s) = Some cells
    /\ let g := first_loop one_cell wet_flowacc 2 1 30 30 (-9999) cells (snd s) in
       wetland_cells 2 1 (wetnessindex_grid g) = 2
       /\ (0 < wetlandVeg g)%R.
Proof.
  intros s.
  destruct (topindex_fractions one_cell wet_flowacc 2 1 30 30 (-9999) 2
              ltac:(lia) ltac:(lia) ltac:(simpl; lia) ltac:(lia)
              ltac:(lra) ltac:(lra) ltac:(lra)
              ltac:(intros; apply wet_flowacc_nonneg) wet_strip_data)
    as (cells & Hrun & Hin & _ & _ & _ & _ & _ & _ & _ & _ & _ & _ & _ & _ & _
        & Hwet & _).
  fold s in Hrun, Hin, Hwet.
  exists cells; split; [exact Hrun|].
  intros g; fold g in Hin, Hwet.
  assert (E : wetland_cells 2 1 (wetnessindex_grid g) = 2).
  { unfold wetland_cells, grid_zsum.
    change (Z.to_nat 1) with 1%nat; change (Z.to_nat 2) with 2%nat.
    cbn [zsum_below Z.of_nat Pos.of_succ_nat Pos.succ].
    rewrite (Hin 0 0), (Hin 0 1) by (try lia; unfold one_cell; lra).
    rewrite !wet_strip_index; cbn [Z.eqb].
    replace (Rleb WETLANDTHRESH 20000) with true
      by (symmetry; rbool; unfold WETLANDTHRESH; lra).
    replace (Rltb 20000 WATERTHRESH) with true
      by (symmetry; rbool; unfold WATERTHRESH; lra).
    replace (Rleb WETLANDTHRESH 30000) with true
      by (symmetry; rbool; unfold WETLANDTHRESH; lra).
    replace (Rltb 30000 WATERTHRESH) with true
      by (symmetry; rbool; unfold WATERTHRESH; lra).
    reflexivity. }
  split; [exact E | apply Hwet; lia].
Defined.

Lemma zsum_below_pos_term (n : nat) (f : Z -> Z) :
  (forall k, 0 <= f k) -> 0 < zsum_below n f ->
  exists k, 0 <= k < Z.of_nat n /\ 0 < f k.
Proof.
  intros Hf; induction n as [|n IH]; cbn [zsum_below]; [lia|].
  intros Hpos.
  destruct (Z_lt_le_dec 0 (f (Z.of_nat n))) as [H|H].
  - exists (Z.of_nat n); split; [lia | exact H].
  - destruct IH as (k & Hk & Hfk); [specialize (Hf (Z.of_nat n)); lia|].
    exists k; split; [lia | exact Hfk].
Qed.

(** A grid holds no data or has a cell with data. *)
Lemma grid_cell_with_data (dem : matrix) (columns rows : Z) (nodata : R) :
  0 <= rows -> 0 <= columns ->
  (forall i j, 0 <= i < rows -> 0 <= j < columns -> dem i j = nodata)
  \/ (exists i j, 0 <= i < rows /\ 0 <= j < columns /\ dem i j <> nodata).
Proof.
  intros Hr Hc.
  pose proof (active_count dem columns rows nodata Hr Hc) as Hactive.
  pose proof (Norow_bounds dem columns rows nodata Hr Hc) as HNorow.
  destruct (Z.eq_dec (rows * columns - Norow dem columns rows nodata) 0)
    as [H0|Hne].
  - left; apply (no_data_iff dem columns rows nodata Hr Hc); exact H0.
  - right.
    unfold active_zsum, grid_zsum in Hactive.
    destruct (zsum_below_pos_term (Z.to_nat rows)
                (fun i => zsum_below (Z.to_nat columns)
                            (fun j => if Rneb (dem i j) nodata then 1 else 0)))
      as (i & Hi & Hrow).
    + intros k; apply zsum_below_nonneg; intros j _.
      destruct (Rneb (dem k j) nodata); lia.
    + lia.
    + destruct (zsum_below_pos_term (Z.to_nat columns)
                  (fun j => if Rneb (dem i j) nodata then 1 else 0))
        as (j & Hj & Hcell).
      * intros k; destruct (Rneb (dem i k) nodata); lia.
      * exact Hrow.
      * exists i, j; split; [lia | split; [lia|]].
        destruct (Rneb (dem i j) nodata) eqn:E; [rbool; exact E | lia].
Qed.

(** How [Topindex] ends. *)
Lemma Topindex_ends (dem flowacc : matrix) (columns rows : Z)
        (dx dy nodata : R) (option : string) (fuel : nat) :
  0 <= rows -> 0 <= columns -> rows * columns <= Z.of_nat fuel ->
  let r := Topindex dem flowacc columns rows dx dy nodata option fuel in
  (r = NoData
   <-> forall i j, 0 <= i < rows -> 0 <= j < columns -> dem i j = nodata)
  /\ (r = OutOfBlock
      <-> exists i j, 0 <= i < rows /\ 0 <= j < columns /\ dem i j <> nodata).
Proof.
  intros Hr Hc Hfuel r; subst r; unfold Topindex.
  destruct (Topindex_arguments_spec dem flowacc columns rows dx dy nodata
              fuel Hr Hc Hfuel) as [Hnone Hsome]; cbv zeta in Hnone, Hsome.
  pose proof (no_data_iff dem columns rows nodata Hr Hc) as Hiff.
  destruct (Z.eq_dec (rows * columns - Norow dem columns rows nodata) 0)
    as [H0|Hne].
  - rewrite (Hnone H0).
    split; [split; [intros _; apply Hiff; exact H0 | reflexivity]|].
    split; [discriminate|].
    intros (i & j & Hi & Hj & Hd); exfalso.
    apply Hd, (proj1 Hiff H0); assumption.
  - rewrite (Hsome Hne).
    split.
    + split; [discriminate|].
      intros Hall; exfalso; apply Hne, Hiff; exact Hall.
    + split; [intros _ | reflexivity].
      destruct (grid_cell_with_data dem columns rows nodata Hr Hc) as [H|H];
        [exfalso; apply Hne, Hiff; exact H | exact H].
Qed.

(** X23.  With fuel for [rows * columns] levels of [quick], [Topindex]
    ends on "No data" exactly when no cell of the grid holds data.  When a
    cell holds data, the cells are collected and sorted, the two loops over
    the cells are run, and the loop that follows them stores an item at the
    index [count] of [OrderedCellsTWI], a block of [count] items: the run
    leaves the block before the wetland cells are collected and before
    [VICcalculation] is called. *)
Theorem Topindex_stores_out_of_block (dem flowacc : matrix) (columns rows : Z)
        (dx dy nodata : R) (option : string) (fuel : nat) :
  0 <= rows -> 0 <= columns -> rows * columns <= Z.of_nat fuel ->
  let r := Topindex dem flowacc columns rows dx dy nodata option fuel in
  (r = NoData
   <-> forall i j, 0 <= i < rows -> 0 <= j < columns -> dem i j = nodata)
  /\ (r = OutOfBlock
      <-> exists i j, 0 <= i < rows /\ 0 <= j < columns /\ dem i j <> nodata).
Proof.
  exact (Topindex_ends dem flowacc columns rows dx dy nodata option fuel).
Qed.

Lemma Topindex_stores_out_of_block_witness :
  Topindex one_cell wet_flowacc 2 1 30 30 (-9999) "LAKE" 2 = OutOfBlock.
Proof.
  apply (Topindex_stores_out_of_block one_cell wet_flowacc 2 1 30 30 (-9999)
           "LAKE" 2 ltac:(lia) ltac:(lia) ltac:(simpl; lia)).
  exact wet_strip_data.
Defined.

(** X24.  The block of [Topindex] that fills [VIC] when there is a
    wetland fraction, run on any state of the grids with at least one
    wetland cell and with fuel for [rows * columns] levels of [quick]: the
    two sorts return and the block gives, as [n], the number of wetland
    cells.  The rows of [VIC] are in order: the elevations [VIC[4][k]]
    ascend with [k] and the wetness indices [VIC[1][k]] descend, all of
    them between [WETLANDTHRESH] and [WATERTHRESH].  [VIC[0..3][k]] are the
    flow accumulation, the wetness index, [tanbeta_pixel] and [AveDelev] of
    one wetland cell, [VIC[4][k]] is the elevation of a wetland cell.  The
    [ElevRange] passed, [2 * VIC[1][0] / WATERTHRESH], is at least
    [2 * WETLANDTHRESH / WATERTHRESH] and less than 2. *)
Theorem VIC_rows_in_order (dem flowacc : matrix) (columns rows : Z)
        (g : grids) (AveDelev : matrix) (twi0 cells0 : items) (fuel : nat) :
  0 <= rows -> 0 <= columns -> rows * columns <= Z.of_nat fuel ->
  let n := wetland_cells columns rows (wetnessindex_grid g) in
  1 <= n ->
  exists VIC,
    wetland_rows dem flowacc columns rows fuel g AveDelev twi0 cells0
    = Some (VIC, n)
    /\ (forall k k', 0 <= k <= k' -> k' < n ->
          (VIC 4%Z k <= VIC 4%Z k')%R /\ (VIC 1%Z k' <= VIC 1%Z k)%R)
    /\ (forall k, 0 <= k < n ->
          (WETLANDTHRESH <= VIC 1%Z k < WATERTHRESH)%R)
    /\ (forall k, 0 <= k < n ->
          exists i j,
            0 <= i < rows /\ 0 <= j < columns
            /\ VIC 0 k = flowacc i j
            /\ VIC 1 k = wetnessindex_grid g i j
            /\ VIC 2 k = tanbeta_pixel_grid g i j
            /\ VIC 3 k = AveDelev i j)
    /\ (forall k, 0 <= k < n ->
          exists i j,
            0 <= i < rows /\ 0 <= j < columns
            /\ (WETLANDTHRESH <= wetnessindex_grid g i j < WATERTHRESH)%R
            /\ VIC 4 k = dem i j)
    /\ (2 * WETLANDTHRESH / WATERTHRESH
        <= 2.0 * VIC 1%Z 0%Z / WATERTHRESH < 2)%R.
Proof.
  intros Hr Hc Hfuel n Hn.
  destruct (wetland_rows_spec dem flowacc columns rows fuel Hr Hc Hfuel
              g AveDelev twi0 cells0 Hn)
    as (twi & wet & Hrun & Hs1 & Hs2 & Hfacts); fold n in Hrun, Hs1, Hs2, Hfacts.
  exists (fill_VIC dem flowacc g AveDelev twi wet n); split; [exact Hrun|].
  set (VIC := fill_VIC dem flowacc g AveDelev twi wet n).
  assert (Hrow : forall k, 0 <= k < n ->
             VIC 0 k = flowacc (y (twi (n - 1 - k))) (x (twi (n - 1 - k)))
             /\ VIC 1 k = Rank (twi (n - 1 - k))
             /\ VIC 2 k = tanbeta_pixel_grid g (y (twi (n - 1 - k)))
                            (x (twi (n - 1 - k)))
             /\ VIC 3 k = AveDelev (y (twi (n - 1 - k))) (x (twi (n - 1 - k)))
             /\ VIC 4 k = Rank (wet k)).
  { intros k Hk.
    destruct (fill_VIC_spec dem flowacc g AveDelev twi wet n k Hk)
      as (V0 & V1 & V2 & V3 & V4).
    destruct (Hfacts (n - 1 - k) ltac:(lia)) as (_ & _ & E1 & _).
    destruct (Hfacts k Hk) as (_ & _ & _ & _ & _ & _ & _ & E4).
    fold VIC in V0, V1, V2, V3, V4.
    rewrite V0, V1, V2, V3, V4, E1, E4; repeat split; reflexivity. }
  assert (Hrange : forall k, 0 <= k < n ->
             (WETLANDTHRESH <= VIC 1%Z k < WATERTHRESH)%R).
  { intros k Hk; destruct (Hrow k Hk) as (_ & -> & _).
    destruct (Hfacts (n - 1 - k) ltac:(lia)) as (_ & _ & _ & H & _); exact H. }
  split; [|split; [exact Hrange | split; [|split]]].
  - intros k k' Hk Hk'.
    destruct (Hrow k ltac:(lia)) as (_ & -> & _ & _ & ->).
    destruct (Hrow k' ltac:(lia)) as (_ & -> & _ & _ & ->).
    split; [apply Hs2 | apply Hs1]; lia.
  - intros k Hk.
    destruct (fill_VIC_spec dem flowacc g AveDelev twi wet n k Hk)
      as (V0 & V1 & V2 & V3 & _); fold VIC in V0, V1, V2, V3.
    destruct (Hfacts (n - 1 - k) ltac:(lia)) as (Hy & Hx & _).
    exists (y (twi (n - 1 - k))), (x (twi (n - 1 - k))).
    repeat split; auto; lia.
  - intros k Hk.
    destruct (fill_VIC_spec dem flowacc g AveDelev twi wet n k Hk)
      as (_ & _ & _ & _ & V4); fold VIC in V4.
    destruct (Hfacts k Hk) as (_ & _ & _ & _ & Hy & Hx & Hw & _).
    exists (y (wet k)), (x (wet k)).
    repeat split; auto; try lia; lra.
  - destruct (Hrange 0 ltac:(lia)) as [Hlo Hhi].
    unfold WETLANDTHRESH, WATERTHRESH in *; split.
    + apply Rmult_le_compat_r; lra.
    + apply Rmult_lt_reg_r with 216623%R; [lra|].
      unfold Rdiv; rewrite Rmult_assoc, Rinv_l; lra.
Qed.

(** Two wetland cells, the second one wetter than the first. *)
Definition two_wet_cells : grids :=
  mkGrids (fun _ _ => 0%R) (fun _ _ => 0%R) (fun _ _ => 0%R)
    (fun _ j => if j =? 0 then 20000%R else 30000%R) 0 2 2.

Lemma two_wet_cells_count :
  wetland_cells 2 1 (wetnessindex_grid two_wet_cells) = 2.
Proof.
  unfold wetland_cells, grid_zsum, two_wet_cells.
  change (Z.to_nat 1) with 1%nat; change (Z.to_nat 2) with 2%nat.
  cbn [zsum_below Z.of_nat Pos.of_succ_nat Pos.succ wetnessindex_grid Z.eqb].
  replace (Rleb WETLANDTHRESH 20000) with true
    by (symmetry; rbool; unfold WETLANDTHRESH; lra).
  replace (Rltb 20000 WATERTHRESH) with true
    by (symmetry; rbool; unfold WATERTHRESH; lra).
  replace (Rleb WETLANDTHRESH 30000) with true
    by (symmetry; rbool; unfold WETLANDTHRESH; lra).
  replace (Rltb 30000 WATERTHRESH) with true
    by (symmetry; rbool; unfold WATERTHRESH; lra).
  reflexivity.
Qed.

Lemma VIC_rows_in_order_witness :
  exists VIC,
    wetland_rows one_cell wet_flowacc 2 1 2 two_wet_cells (fun _ _ => 0%R)
      (fun _ => zero_item) (fun _ => zero_item)
    = Some (VIC, 2)
    /\ (VIC 1%Z 1%Z <= VIC 1%Z 0%Z)%R
    /\ (WETLANDTHRESH <= VIC 1%Z 1%Z)%R.
Proof.
  destruct (VIC_rows_in_order one_cell wet_flowacc 2 1 two_wet_cells
              (fun _ _ => 0%R) (fun _ => zero_item) (fun _ => zero_item) 2
              ltac:(lia) ltac:(lia) ltac:(simpl; lia))
    as (VIC & Hrun & Horder & Hrange & _).
  - rewrite two_wet_cells_count; lia.
  - rewrite two_wet_cells_count in Hrun, Horder, Hrange.
    exists VIC; split; [exact Hrun|].
    split; [apply (Horder 0 1); lia | apply (Hrange 1); lia].
Defined.

Lemma one_cell_count :
  snd (collect_cells one_cell 1 1 (-9999) (fun _ => zero_item)) = 1.
Proof.
  pose proof (collect_cells_lists one_cell 1 1 (-9999) (fun _ => zero_item))
    as Hlisted; cbv zeta in Hlisted.
  rewrite (listed_count one_cell 1 1 (-9999) _ _ Hlisted).
  rewrite (active_count one_cell 1 1 (-9999)) by lia.
  assert (H0 : Norow one_cell 1 1 (-9999) = 0); [|rewrite H0; reflexivity].
  pose proof (Norow_bounds one_cell 1 1 (-9999) ltac:(lia) ltac:(lia)) as Hb.
  destruct (Z.eq_dec (Norow one_cell 1 1 (-9999)) 0) as [E|E]; [exact E|].
  assert (E1 : 1 * 1 - Norow one_cell 1 1 (-9999) = 0) by lia.
  pose proof (proj1 (no_data_iff one_cell 1 1 (-9999) ltac:(lia) ltac:(lia)) E1
                0 0 ltac:(lia) ltac:(lia)) as Hd.
  unfold one_cell in Hd; lra.
Qed.

Lemma first_loop_visits_each_cell_once_witness :
  exists cells,
    quick 1 (fst (collect_cells one_cell 1 1 (-9999) (fun _ => zero_item)))
          (snd (collect_cells one_cell 1 1 (-9999) (fun _ => zero_item)))
    = Some cells.
Proof.
  destruct (first_loop_visits_each_cell_once one_cell (fun _ _ => 900%R)
              1 1 30 30 (-9999) 1)
    as (cells & Hrun & _).
  - rewrite one_cell_count; lia.
  - rewrite one_cell_count; simpl; lia.
  - exists cells; exact Hrun.
Defined.

(** ** The index sort *)

(** [b] holds the entries of [a], moved around inside of [lo .. hi] by a
    one-to-one map of the positions, and left in place elsewhere. *)
Definition reorders (lo hi : Z) (a b : ivector) : Prop :=
  exists sigma tau : Z -> Z,
    (forall k, tau (sigma k) = k)
    /\ (forall k, sigma (tau k) = k)
    /\ (forall k, lo <= k <= hi -> lo <= sigma k <= hi)
    /\ (forall k, ~ lo <= k <= hi -> sigma k = k)
    /\ forall k, b k = a (sigma k).

Lemma reorders_refl (lo hi : Z) (a : ivector) : reorders lo hi a a.
Proof. exists (fun k => k), (fun k => k); repeat split; auto; lia. Qed.

Lemma reorders_ext (lo hi : Z) (a b b' : ivector) :
  (forall k, b' k = b k) -> reorders lo hi a b -> reorders lo hi a b'.
Proof.
  intros Hext (s & t & A & B & C & D & E).
  exists s, t; repeat split; auto; try apply C; auto.
  intros k; rewrite Hext; apply E.
Qed.

Lemma reorders_outside (lo hi : Z) (a b : ivector) (k : Z) :
  reorders lo hi a b -> ~ lo <= k <= hi -> b k = a k.
Proof. intros (s & t & _ & _ & _ & Hout & Hb) Hk; rewrite Hb, Hout; auto. Qed.

Lemma reorders_inside (lo hi : Z) (a b : ivector) (k : Z) :
  reorders lo hi a b -> lo <= k <= hi ->
  exists k', lo <= k' <= hi /\ b k = a k'.
Proof. intros (s & t & _ & _ & Hin & _ & Hb) Hk; exists (s k); auto. Qed.

Lemma reorders_from (lo hi : Z) (a b : ivector) (k : Z) :
  reorders lo hi a b -> lo <= k <= hi ->
  exists k', lo <= k' <= hi /\ b k' = a k.
Proof.
  intros (s & t & A & B & Hin & Hout & Hb) Hk; exists (t k); split.
  - destruct (Z_le_dec lo (t k)) as [H1|H1];
      [destruct (Z_le_dec (t k) hi) as [H2|H2]; [lia|] |];
      (assert (E : s (t k) = t k) by (apply Hout; lia));
      rewrite B in E; lia.
  - rewrite Hb, B; reflexivity.
Qed.

Lemma reorders_trans (lo hi : Z) (a b c : ivector) :
  reorders lo hi a b -> reorders lo hi b c -> reorders lo hi a c.
Proof.
  intros (s1 & t1 & A1 & B1 & C1 & D1 & E1) (s2 & t2 & A2 & B2 & C2 & D2 & E2).
  exists (fun k => s1 (s2 k)), (fun k => t2 (t1 k)); repeat split.
  - intros k; now rewrite A1, A2.
  - intros k; now rewrite B2, B1.
  - apply C1, C2; auto.
  - apply C1, C2; auto.
  - intros k Hk; now rewrite D2, D1.
  - intros k; now rewrite E2, E1.
Qed.

Lemma reorders_widen (lo hi lo' hi' : Z) (a b : ivector) :
  lo' <= lo -> hi <= hi' -> reorders lo hi a b -> reorders lo' hi' a b.
Proof.
  intros Hlo Hhi (s & t & A & B & C & D & E).
  exists s, t; repeat split; auto.
  - destruct (Z_le_dec lo k), (Z_le_dec k hi);
      try (rewrite D by lia; lia).
    specialize (C k); lia.
  - destruct (Z_le_dec lo k), (Z_le_dec k hi);
      try (rewrite D by lia; lia).
    specialize (C k); lia.
  - intros k Hk; apply D; lia.
Qed.

Lemma swap_index_at (a : ivector) (i j k : Z) :
  swap_index a i j k
  = if k =? j then a i else if k =? i then a j else a k.
Proof. reflexivity. Qed.

Lemma reorders_swap (lo hi : Z) (a : ivector) (i j : Z) :
  lo <= i <= hi -> lo <= j <= hi -> reorders lo hi a (swap_index a i j).
Proof.
  intros Hi Hj.
  pose (s := fun k => if k =? j then i else if k =? i then j else k).
  assert (Hs : forall k, s (s k) = k).
  { intros k; unfold s.
    destruct (Z.eqb_spec k j), (Z.eqb_spec k i); subst;
      repeat match goal with
        | |- context [?u =? ?v] => destruct (Z.eqb_spec u v)
        end; lia. }
  exists s, s; repeat split; auto.
  - unfold s; destruct (k =? j), (k =? i); lia.
  - unfold s; destruct (k =? j), (k =? i); lia.
  - intros k Hk; unfold s.
    destruct (Z.eqb_spec k j), (Z.eqb_spec k i); lia.
  - intros k; rewrite swap_index_at; unfold s.
    destruct (Z.eqb_spec k j), (Z.eqb_spec k i); subst; reflexivity.
Qed.

(** The entry at [hi] moved down to [lo], the entries between them up by
    one. *)
Lemma reorders_rotate (lo hi : Z) (a b : ivector) :
  lo <= hi ->
  (forall k, b k = if k =? lo then a hi
                   else if (lo + 1 <=? k) && (k <=? hi) then a (k - 1)
                   else a k) ->
  reorders lo hi a b.
Proof.
  intros Hle Hb.
  exists (fun k => if k =? lo then hi
                   else if (lo + 1 <=? k) && (k <=? hi) then k - 1 else k),
         (fun k => if k =? hi then lo
                   else if (lo <=? k) && (k <=? hi - 1) then k + 1 else k).
  repeat split.
  - intros k.
    destruct (Z.eqb_spec k lo) as [->|H1].
    + rewrite Z.eqb_refl; reflexivity.
    + destruct (Z.leb_spec (lo + 1) k), (Z.leb_spec k hi); cbn [andb];
        repeat match goal with
          | |- context [?u =? ?v] => destruct (Z.eqb_spec u v)
          | |- context [?u <=? ?v] => destruct (Z.leb_spec u v)
          end; cbn [andb]; lia.
  - intros k.
    destruct (Z.eqb_spec k hi) as [->|H1].
    + rewrite Z.eqb_refl; reflexivity.
    + destruct (Z.leb_spec lo k), (Z.leb_spec k (hi - 1)); cbn [andb];
        repeat match goal with
          | |- context [?u =? ?v] => destruct (Z.eqb_spec u v)
          | |- context [?u <=? ?v] => destruct (Z.leb_spec u v)
          end; cbn [andb]; lia.
  - destruct (Z.eqb_spec k lo); [lia|].
    destruct (Z.leb_spec (lo + 1) k), (Z.leb_spec k hi); cbn [andb]; lia.
  - destruct (Z.eqb_spec k lo); [lia|].
    destruct (Z.leb_spec (lo + 1) k), (Z.leb_spec k hi); cbn [andb]; lia.
  - intros k Hk.
    destruct (Z.eqb_spec k lo); [lia|].
    destruct (Z.leb_spec (lo + 1) k), (Z.leb_spec k hi); cbn [andb]; lia.
  - intros k; rewrite Hb.
    destruct (Z.eqb_spec k lo); [reflexivity|].
    destruct ((lo + 1 <=? k) && (k <=? hi)); reflexivity.
Qed.

Section IndexSort.

Variable arr : vector.

(** The entries [lo .. hi] of the table point to values of [arr] in
    ascending order. *)
Definition ascending (indx : ivector) (lo hi : Z) : Prop :=
  forall p q, lo <= p -> p <= q -> q <= hi ->
              (arr (indx p) <= arr (indx q))%R.

(** *** The straight insertion *)

Lemma insert_down_spec (a : R) (l : Z) :
  forall (turns : nat) (indx : ivector) (i : Z),
    i <= Z.of_nat turns -> l - 1 <= i -> 1 <= l ->
    (1 <= l - 1 -> (arr (indx (l - 1)%Z) <= a)%R) ->
    let r := insert_down turns arr a indx i in
    l - 1 <= snd r <= i
    /\ (forall k, snd r < k <= i -> (a < arr (indx k))%R)
    /\ (l <= snd r -> (arr (indx (snd r)) <= a)%R)
    /\ forall k, fst r k = if (snd r + 2 <=? k) && (k <=? i + 1)
                           then indx (k - 1) else indx k.
Proof.
  induction turns as [|turns IH]; intros indx i Hturns Hi Hl Hpre;
    cbn [insert_down].
  - cbn [fst snd]; repeat split; try lia.
    intros k; destruct (Z.leb_spec (i + 2) k), (Z.leb_spec k (i + 1));
      cbn [andb]; try reflexivity; lia.
  - destruct (Z.leb_spec 1 i) as [H1|H1].
    + destruct (Rleb (arr (indx i)) a) eqn:Ev.
      * rbool; cbn [fst snd]; repeat split; try lia; auto.
        intros k; destruct (Z.leb_spec (i + 2) k), (Z.leb_spec k (i + 1));
          cbn [andb]; try reflexivity; lia.
      * rbool.
        assert (Hil : l <= i).
        { destruct (Z_le_dec l i) as [|Hn]; [assumption|].
          assert (i = l - 1) by lia; subst i.
          specialize (Hpre H1); lra. }
        destruct (IH (iset indx (i + 1) (indx i)) (i - 1))
          as (A & B & C & D); try lia.
        { intros H; unfold iset.
          destruct (Z.eqb_spec (l - 1) (i + 1)); [lia | auto]. }
        set (r := insert_down turns arr a (iset indx (i + 1) (indx i)) (i - 1))
          in *.
        repeat split; try lia.
        -- intros k Hk; destruct (Z.eq_dec k i) as [->|Hne]; [exact Ev|].
           specialize (B k ltac:(lia)); unfold iset in B.
           destruct (Z.eqb_spec k (i + 1)); [lia | exact B].
        -- intros H; specialize (C H); unfold iset in C.
           destruct (Z.eqb_spec (snd r) (i + 1)); [lia | exact C].
        -- intros k; rewrite D; unfold iset.
           destruct (Z.leb_spec (snd r + 2) k), (Z.leb_spec k (i - 1 + 1)),
             (Z.leb_spec k (i + 1)); cbn [andb];
             repeat match goal with
               | |- context [?u =? ?v] => destruct (Z.eqb_spec u v)
               end; try reflexivity; try lia.
           ++ replace k with (i + 1) by lia.
              replace (i + 1 - 1) with i by lia; reflexivity.
    + cbn [fst snd]; repeat split; try lia.
      intros k; destruct (Z.leb_spec (i + 2) k), (Z.leb_spec k (i + 1));
        cbn [andb]; try reflexivity; lia.
Qed.

Lemma insertion_spec (l ir : Z) (indx : ivector) :
  1 <= l -> l <= ir ->
  (forall q, 1 <= l - 1 -> l <= q <= ir ->
             (arr (indx (l - 1)%Z) <= arr (indx q))%R) ->
  let indx' := insertion arr l ir indx in
  reorders l ir indx indx' /\ ascending indx' l ir.
Proof.
  intros Hl Hle Hpre indx'; subst indx'; unfold insertion.
  pose (Inv := fun (j : Z) (t : ivector) =>
     reorders l ir indx t /\ ascending t l (j - 1)).
  match goal with
  | |- reorders _ _ _ (for_loop ?lo ?hi ?body ?s) /\ _ =>
      assert (H : Inv (Z.max lo (hi + 1)) (for_loop lo hi body s))
  end.
  { apply for_loop_invariant.
    - split; [apply reorders_refl|].
      intros p q Hp Hpq Hq; replace q with p by lia; lra.
    - intros j t Hj [Hre Hasc].
      assert (Hbound : 1 <= l - 1 -> (arr (t (l - 1)%Z) <= arr (t j))%R).
      { intros H1.
        rewrite (reorders_outside l ir indx t (l - 1) Hre) by lia.
        destruct (reorders_inside l ir indx t j Hre ltac:(lia))
          as (j' & Hj' & ->).
        apply Hpre; assumption. }
      destruct (insert_down_spec (arr (t j)) l (Z.to_nat (j - 1)) t (j - 1))
        as (A & B & C & D); try lia; [exact Hbound|].
      destruct (insert_down (Z.to_nat (j - 1)) arr (arr (t j)) t (j - 1))
        as [t' i] eqn:Er; cbn [fst snd] in A, B, C, D.
      assert (Hnew : forall k,
                 iset t' (i + 1) (t j) k
                 = if k =? i + 1 then t j
                   else if (i + 1 + 1 <=? k) && (k <=? j) then t (k - 1)
                   else t k).
      { intros k; unfold iset; destruct (Z.eqb_spec k (i + 1)); [reflexivity|].
        rewrite D.
        replace (i + 1 + 1) with (i + 2) by lia.
        replace (j - 1 + 1) with j by lia; reflexivity. }
      split.
      + apply reorders_trans with t; [exact Hre|].
        apply reorders_widen with (i + 1) j; try lia.
        apply reorders_rotate; [lia | exact Hnew].
      + intros p q Hp Hpq Hq; rewrite !Hnew.
        assert (Hin : forall u v, l <= u -> u <= v -> v <= j - 1 ->
                                  (arr (t u) <= arr (t v))%R)
          by (intros u v Hu Huv Hv; apply Hasc; lia).
        destruct (Z.eqb_spec p (i + 1)) as [Ep|Ep];
          destruct (Z.eqb_spec q (i + 1)) as [Eq|Eq].
        * lra.
        * replace ((i + 1 + 1 <=? q) && (q <=? j)) with true
            by (symmetry; apply andb_true_iff; split; apply Z.leb_le; lia).
          apply Rlt_le, B; lia.
        * replace ((i + 1 + 1 <=? p) && (p <=? j)) with false
            by (symmetry; apply andb_false_iff; left; apply Z.leb_gt; lia).
          apply Rle_trans with (arr (t i)); [apply Hin; lia | apply C; lia].
        * destruct (Z.leb_spec (i + 1 + 1) p), (Z.leb_spec p j),
            (Z.leb_spec (i + 1 + 1) q), (Z.leb_spec q j); cbn [andb];
            try lia; apply Hin; lia. }
  replace (Z.max (l + 1) (ir + 1)) with (ir + 1) in H by lia.
  destruct H as [Hre Hasc]; split; [exact Hre|].
  replace (ir + 1 - 1) with ir in Hasc by lia; exact Hasc.
Qed.

(** *** The partition *)

Lemma median_of_three_spec (l ir : Z) (indx : ivector) :
  0 <= l -> l + 1 < ir ->
  let indx' := median_of_three arr l ir indx in
  reorders l ir indx indx'
  /\ (arr (indx' (l + 1)%Z) <= arr (indx' l))%R
  /\ (arr (indx' l) <= arr (indx' ir))%R.
Proof.
  intros Hl Hir indx'; subst indx'; unfold median_of_three.
  assert (Hk : l <= Z.shiftr (l + ir) 1 <= ir).
  { rewrite Z.shiftr_div_pow2 by lia; change (2 ^ 1) with 2.
    pose proof (Z.div_mod (l + ir) 2 ltac:(lia)).
    pose proof (Z.mod_pos_bound (l + ir) 2 ltac:(lia)); lia. }
  set (t1 := swap_index indx (Z.shiftr (l + ir) 1) (l + 1)).
  assert (R1 : reorders l ir indx t1)
    by (apply reorders_swap; lia).
  set (t2 := if Rltb (arr (t1 ir)) (arr (t1 (l + 1)))
             then swap_index t1 (l + 1) ir else t1).
  assert (R2 : reorders l ir t1 t2
               /\ (arr (t2 (l + 1)%Z) <= arr (t2 ir))%R).
  { subst t2; destruct (Rltb (arr (t1 ir)) (arr (t1 (l + 1)))) eqn:E; rbool.
    - split; [apply reorders_swap; lia|].
      rewrite !swap_index_at.
      destruct (Z.eqb_spec (l + 1) ir); [lia|].
      rewrite !Z.eqb_refl; lra.
    - split; [apply reorders_refl | exact E]. }
  destruct R2 as [R2 O2].
  set (t3 := if Rltb (arr (t2 ir)) (arr (t2 l))
             then swap_index t2 l ir else t2).
  assert (R3 : reorders l ir t2 t3
               /\ (arr (t3 (l + 1)%Z) <= arr (t3 ir))%R
               /\ (arr (t3 l) <= arr (t3 ir))%R).
  { subst t3; destruct (Rltb (arr (t2 ir)) (arr (t2 l))) eqn:E; rbool.
    - split; [apply reorders_swap; lia|].
      rewrite !swap_index_at.
      destruct (Z.eqb_spec (l + 1) ir); [lia|].
      destruct (Z.eqb_spec (l + 1) l); [lia|].
      destruct (Z.eqb_spec l ir); [lia|].
      rewrite !Z.eqb_refl; lra.
    - split; [apply reorders_refl | split; assumption]. }
  destruct R3 as (R3 & O3 & O3').
  destruct (Rltb (arr (t3 l)) (arr (t3 (l + 1)))) eqn:E; rbool.
  - split; [|split].
    + apply reorders_trans with t1; [exact R1|].
      apply reorders_trans with t2; [exact R2|].
      apply reorders_trans with t3; [exact R3|].
      apply reorders_swap; lia.
    + rewrite !swap_index_at.
      destruct (Z.eqb_spec (l + 1) l); [lia|].
      rewrite !Z.eqb_refl; lra.
    + rewrite !swap_index_at.
      destruct (Z.eqb_spec ir l); [lia|].
      destruct (Z.eqb_spec ir (l + 1)); [lia|].
      rewrite !Z.eqb_refl; exact O3.
  - split; [|split; assumption].
    apply reorders_trans with t1; [exact R1|].
    apply reorders_trans with t2; [exact R2|exact R3].
Qed.

Lemma scan_right_spec (a : R) (indx : ivector) (s : Z) :
  (a <= arr (indx s))%R ->
  forall (turns : nat) (i : Z),
    i < s -> s - i <= Z.of_nat turns ->
    exists i', scan_right turns arr a indx i = Some i'
               /\ i < i' <= s
               /\ (forall k, i < k < i' -> (arr (indx k) < a)%R)
               /\ (a <= arr (indx i'))%R.
Proof.
  intros Hs; induction turns as [|turns IH]; intros i Hi Hturns; [lia|].
  cbn [scan_right].
  destruct (Rltb (arr (indx (i + 1))) a) eqn:E; rbool.
  - assert (i + 1 < s).
    { destruct (Z.eq_dec (i + 1) s) as [Es|]; [rewrite Es in E; lra | lia]. }
    destruct (IH (i + 1)) as (i' & Hrun & Hi' & Hlt & Hge); try lia.
    exists i'; split; [exact Hrun|].
    split; [lia | split; [|exact Hge]].
    intros k Hk; destruct (Z.eq_dec k (i + 1)) as [->|]; [exact E|].
    apply Hlt; lia.
  - exists (i + 1); split; [reflexivity|].
    split; [lia | split; [intros; lia | exact E]].
Qed.

Lemma scan_left_spec (a : R) (indx : ivector) (s : Z) :
  (arr (indx s) <= a)%R ->
  forall (turns : nat) (j : Z),
    s < j -> j - s <= Z.of_nat turns ->
    exists j', scan_left turns arr a indx j = Some j'
               /\ s <= j' < j
               /\ (forall k, j' < k < j -> (a < arr (indx k))%R)
               /\ (arr (indx j') <= a)%R.
Proof.
  intros Hs; induction turns as [|turns IH]; intros j Hj Hturns; [lia|].
  cbn [scan_left].
  destruct (Rltb a (arr (indx (j - 1)))) eqn:E; rbool.
  - assert (s < j - 1).
    { destruct (Z.eq_dec (j - 1) s) as [Es|]; [rewrite Es in E; lra | lia]. }
    destruct (IH (j - 1)) as (j' & Hrun & Hj' & Hlt & Hge); try lia.
    exists j'; split; [exact Hrun|].
    split; [lia | split; [|exact Hge]].
    intros k Hk; destruct (Z.eq_dec k (j - 1)) as [->|]; [exact E|].
    apply Hlt; lia.
  - exists (j - 1); split; [reflexivity|].
    split; [lia | split; [intros; lia | exact E]].
Qed.

(** At the head of a turn of the inner loop of the partition. *)
Definition partition_turn (a : R) (l ir : Z) (indx : ivector) (i j : Z) : Prop :=
  l + 1 <= i /\ i <= j /\ j <= ir /\ i < ir /\ l + 1 < j
  /\ (forall k, l + 1 <= k <= i -> (arr (indx k) <= a)%R)
  /\ (forall k, j <= k <= ir -> (a <= arr (indx k))%R).

Lemma indexx_partition_spec (a : R) (l ir : Z) (turns : nat) :
  ir - l <= Z.of_nat turns ->
  forall (fuel : nat) (indx : ivector) (i j : Z),
    partition_turn a l ir indx i j ->
    j - i < Z.of_nat fuel ->
    exists indx' i' j',
      indexx_partition fuel turns arr a indx i j = Some (indx', i', j')
      /\ reorders (l + 2) (ir - 1) indx indx'
      /\ l + 1 <= j' /\ j' < i' /\ i' <= ir
      /\ (forall k, l + 1 <= k < i' -> (arr (indx' k) <= a)%R)
      /\ (forall k, j' < k <= ir -> (a <= arr (indx' k))%R).
Proof.
  intros Hturns; induction fuel as [|fuel IH];
    intros indx i j (H1 & H2 & H3 & H4 & H5 & Hlow & Hhigh) Hfuel; [lia|].
  cbn [indexx_partition].
  destruct (scan_right_spec a indx ir (Hhigh ir ltac:(lia)) turns i)
    as (i' & Hri & Hi' & Hlt & Hge); try lia.
  destruct (scan_left_spec a indx (l + 1) (Hlow (l + 1) ltac:(lia)) turns j)
    as (j' & Hrj & Hj' & Hgt & Hle); try lia.
  rewrite Hri, Hrj; cbn [bind].
  destruct (Z.ltb_spec j' i') as [Hbreak|Hcont].
  - exists indx, i', j'; split; [reflexivity|].
    split; [apply reorders_refl|].
    repeat split; try lia.
    + intros k Hk; destruct (Z_le_dec k i); [apply Hlow; lia|].
      apply Rlt_le, Hlt; lia.
    + intros k Hk; destruct (Z_le_dec j k); [apply Hhigh; lia|].
      apply Rlt_le, Hgt; lia.
  - destruct (IH (swap_index indx i' j') i' j')
      as (indx' & i2 & j2 & Hrun & Hre & A & B & C & D & E); [|lia|].
    { repeat split; try lia.
      - intros k Hk; rewrite swap_index_at.
        destruct (Z.eqb_spec k j'); [apply Rle_trans with a; [|lra]|].
        + subst k; assert (i' = j') by lia; subst i'; exact Hle.
        + destruct (Z.eqb_spec k i'); [exact Hle|].
          destruct (Z_le_dec k i); [apply Hlow; lia|].
          apply Rlt_le, Hlt; lia.
      - intros k Hk; rewrite swap_index_at.
        destruct (Z.eqb_spec k j'); [exact Hge|].
        destruct (Z.eqb_spec k i'); [lia|].
        destruct (Z_le_dec j k); [apply Hhigh; lia|].
        apply Rlt_le, Hgt; lia. }
    exists indx', i2, j2; split; [exact Hrun|].
    split; [|repeat split; assumption].
    apply reorders_trans with (swap_index indx i' j'); [|exact Hre].
    apply reorders_swap; lia.
Qed.

(** *** The ranges that wait to be sorted *)

(** No two of the ranges share a position. *)
Fixpoint disjoint_ranges (rs : list (Z * Z)) : Prop :=
  match rs with
  | [] => True
  | R :: rest =>
      (forall R', In R' rest -> snd R < fst R' \/ snd R' < fst R)
      /\ disjoint_ranges rest
  end.

(** The ranges [rs] lie in [1 .. n] and hold at least one position each;
    two positions that no range of [rs] holds together are in order. *)
Definition ordered_outside (n : Z) (indx : ivector) (rs : list (Z * Z)) : Prop :=
  (forall R, In R rs -> 1 <= fst R /\ fst R <= snd R /\ snd R <= n)
  /\ disjoint_ranges rs
  /\ forall p q, 1 <= p -> p < q -> q <= n ->
       (arr (indx p) <= arr (indx q))%R
       \/ exists R, In R rs /\ fst R <= p /\ q <= snd R.

Lemma disjoint_app (rs rs' : list (Z * Z)) :
  disjoint_ranges rs -> disjoint_ranges rs' ->
  (forall R R', In R rs -> In R' rs' -> snd R < fst R' \/ snd R' < fst R) ->
  disjoint_ranges (rs ++ rs').
Proof.
  induction rs as [|R rs IH]; intros H1 H2 H; cbn [app]; [exact H2|].
  destruct H1 as [Ha Hb]; split.
  - intros R' HR'; apply in_app_iff in HR'; destruct HR' as [HR'|HR'].
    + apply Ha; exact HR'.
    + apply H; [left; reflexivity | exact HR'].
  - apply IH; auto.
    intros R1 R2 HR1 HR2; apply H; [right; exact HR1 | exact HR2].
Qed.

(** The first range, once its entries are reordered so that the ranges
    [news] inside of it hold what is left to sort, gives way to them. *)
Lemma ordered_refine (n : Z) (indx indx' : ivector) (cur : Z * Z)
      (pend news : list (Z * Z)) :
  ordered_outside n indx (cur :: pend) ->
  reorders (fst cur) (snd cur) indx indx' ->
  (forall R, In R news ->
             fst cur <= fst R /\ fst R <= snd R /\ snd R <= snd cur) ->
  disjoint_ranges news ->
  (forall p q, fst cur <= p -> p < q -> q <= snd cur ->
     (arr (indx' p) <= arr (indx' q))%R
     \/ exists R, In R news /\ fst R <= p /\ q <= snd R) ->
  ordered_outside n indx' (news ++ pend).
Proof.
  intros (Hb & [Hdc Hdp] & Hord) Hre Hsub Hdn Hnew.
  pose proof (Hb cur (or_introl eq_refl)) as Hcur.
  split; [|split].
  - intros R HR; apply in_app_iff in HR; destruct HR as [HR|HR].
    + specialize (Hsub R HR); lia.
    + apply Hb; right; exact HR.
  - apply disjoint_app; auto.
    intros R R' HR HR'; specialize (Hsub R HR); specialize (Hdc R' HR'); lia.
  - intros p q Hp Hpq Hq.
    assert (Hold : forall p' q', 1 <= p' -> p' < q' -> q' <= n ->
               ~ (fst cur <= p' /\ q' <= snd cur) ->
               (arr (indx p') <= arr (indx q'))%R
               \/ exists R, In R pend /\ fst R <= p' /\ q' <= snd R).
    { intros p' q' H1 H2 H3 Hnot.
      destruct (Hord p' q' H1 H2 H3) as [H|(R & [<-|HR] & H)];
        [left; exact H | tauto | right; exists R; auto]. }
    assert (Hpend : forall p' q',
               (arr (indx p') <= arr (indx q'))%R
               \/ (exists R, In R pend /\ fst R <= p' /\ q' <= snd R) ->
               (arr (indx p') <= arr (indx q'))%R
               \/ exists R, In R (news ++ pend) /\ fst R <= p' /\ q' <= snd R).
    { intros p' q' [H|(R & HR & H)]; [left; exact H|].
      right; exists R; split; [apply in_app_iff; right; exact HR | exact H]. }
    destruct (Z_le_dec (fst cur) p) as [Hp1|Hp1];
      destruct (Z_le_dec q (snd cur)) as [Hq1|Hq1].
    + destruct (Hnew p q Hp1 Hpq Hq1) as [H|(R & HR & H)]; [left; exact H|].
      right; exists R; split; [apply in_app_iff; left; exact HR | exact H].
    + rewrite (reorders_outside _ _ _ _ q Hre) by lia.
      destruct (Z_le_dec p (snd cur)) as [Hp2|Hp2].
      * destruct (reorders_inside _ _ _ _ p Hre ltac:(lia)) as (p' & Hp' & ->).
        destruct (Hold p' q) as [H|(R & HR & H1 & H2)]; try lia;
          [left; exact H|].
        exfalso; specialize (Hdc R HR); specialize (Hb R (or_intror HR)); lia.
      * rewrite (reorders_outside _ _ _ _ p Hre) by lia.
        apply Hpend, Hold; lia.
    + rewrite (reorders_outside _ _ _ _ p Hre) by lia.
      destruct (Z_le_dec (fst cur) q) as [Hq2|Hq2].
      * destruct (reorders_inside _ _ _ _ q Hre ltac:(lia)) as (q' & Hq' & ->).
        destruct (Hold p q') as [H|(R & HR & H1 & H2)]; try lia;
          [left; exact H|].
        exfalso; specialize (Hdc R HR); specialize (Hb R (or_intror HR)); lia.
      * rewrite (reorders_outside _ _ _ _ q Hre) by lia.
        apply Hpend, Hold; lia.
    + rewrite (reorders_outside _ _ _ _ p Hre) by lia.
      rewrite (reorders_outside _ _ _ _ q Hre) by lia.
      apply Hpend, Hold; lia.
Qed.

(** What lies before the first range is not above what the range holds. *)
Lemma ordered_before (n : Z) (indx : ivector) (l ir : Z) (pend : list (Z * Z))
      (q : Z) :
  ordered_outside n indx ((l, ir) :: pend) ->
  1 <= l - 1 -> l <= q <= ir ->
  (arr (indx (l - 1)%Z) <= arr (indx q))%R.
Proof.
  intros (Hb & [Hdc _] & Hord) Hl Hq.
  pose proof (Hb _ (or_introl eq_refl)) as Hcur; cbn [fst snd] in Hcur.
  destruct (Hord (l - 1) q) as [H|(R & [<-|HR] & H1 & H2)]; try lia.
  - exact H.
  - cbn [fst snd] in *; lia.
  - specialize (Hdc R HR); cbn [fst snd] in Hdc; lia.
Qed.

End IndexSort.

(** [istack[1 .. jstack]] holds the ranges [pend], the last one pushed
    first in the list, as [istack[jstack-1]] and [istack[jstack]]. *)
Fixpoint stack_holds (istack : ivector) (pend : list (Z * Z)) : Prop :=
  match pend with
  | [] => True
  | R :: rest =>
      istack (2 * Z.of_nat (List.length rest) + 1) = fst R
      /\ istack (2 * Z.of_nat (List.length rest) + 2) = snd R
      /\ stack_holds istack rest
  end.

Lemma stack_holds_above (istack : ivector) (k v : Z) :
  forall pend, 2 * Z.of_nat (List.length pend) < k ->
               stack_holds istack pend ->
               stack_holds (iset istack k v) pend.
Proof.
  induction pend as [|R rest IH]; intros Hk H; [exact I|].
  cbn [stack_holds List.length] in *; destruct H as (H1 & H2 & H3).
  unfold iset at 1 2.
  destruct (Z.eqb_spec (2 * Z.of_nat (List.length rest) + 1) k); [lia|].
  destruct (Z.eqb_spec (2 * Z.of_nat (List.length rest) + 2) k); [lia|].
  repeat split; auto; apply IH; [lia | exact H3].
Qed.

(** The turns of the outer loop that the ranges can still take. *)
Fixpoint work (rs : list (Z * Z)) : Z :=
  match rs with
  | [] => 0
  | R :: rest => 2 * (snd R - fst R) + 1 + work rest
  end.

Lemma work_nonneg (rs : list (Z * Z)) :
  (forall R, In R rs -> fst R <= snd R) -> 0 <= work rs.
Proof.
  induction rs as [|R rs IH]; intros H; cbn [work]; [lia|].
  pose proof (H R (or_introl eq_refl)).
  assert (0 <= work rs) by (apply IH; intros R' HR'; apply H; right; exact HR').
  lia.
Qed.

(** A range is at most half as long as the one from which it was split
    off, the range on the stack below it. *)
Fixpoint shallow (n : Z) (rs : list (Z * Z)) : Prop :=
  match rs with
  | [] => True
  | R :: rest =>
      2 ^ Z.of_nat (List.length rest) * (snd R - fst R + 1) <= n
      /\ shallow n rest
  end.

Lemma shallow_depth (n s : Z) (d : nat) :
  2 ^ Z.of_nat d * s <= n -> 1 <= s -> n < 2 ^ 31 -> Z.of_nat d < 31.
Proof.
  intros H Hs Hn.
  destruct (Z_lt_dec (Z.of_nat d) 31) as [|Hge]; [assumption|].
  assert (2 ^ 31 <= 2 ^ Z.of_nat d) by (apply Z.pow_le_mono_r; lia).
  nia.
Qed.

(** *** The outer loop *)

(** After the partition: the pivot is at [j], what is before it is not
    above it and what is after it is not below it. *)
Lemma partition_split (arr : vector) (l ir i j : Z) (t : ivector) :
  l + 1 <= j -> j < i -> i <= ir ->
  (forall k, l + 1 <= k < i -> (arr (t k) <= arr (t l))%R) ->
  (forall k, j < k <= ir -> (arr (t l) <= arr (t k))%R) ->
  forall p q, l <= p -> p < q -> q <= ir ->
    (arr (swap_index t l j p) <= arr (swap_index t l j q))%R
    \/ q <= j - 1 \/ i <= p.
Proof.
  intros Hj Hji Hi Hlow Hhigh p q Hp Hpq Hq.
  destruct (Z_le_dec q (j - 1)); [right; left; assumption|].
  destruct (Z_le_dec i p); [right; right; assumption|].
  left.
  assert (Hq' : (arr (t l) <= arr (swap_index t l j q))%R).
  { rewrite swap_index_at.
    destruct (Z.eqb_spec q j); [lra|].
    destruct (Z.eqb_spec q l); [lia|].
    apply Hhigh; lia. }
  assert (Hp' : (arr (swap_index t l j p) <= arr (t l))%R).
  { rewrite swap_index_at.
    destruct (Z.eqb_spec p j); [lra|].
    destruct (Z.eqb_spec p l); [apply Hlow; lia|].
    apply Hlow; lia. }
  lra.
Qed.

Lemma indexx_loop_spec (arr : vector) (n : Z) (indx0 : ivector) :
  n < 2 ^ 31 ->
  forall (fuel : nat) (indx istack : ivector) (jstack l ir : Z)
         (pend : list (Z * Z)),
    reorders 1 n indx0 indx ->
    ordered_outside arr n indx ((l, ir) :: pend) ->
    stack_holds istack pend ->
    jstack = 2 * Z.of_nat (List.length pend) ->
    shallow n ((l, ir) :: pend) ->
    work ((l, ir) :: pend) <= Z.of_nat fuel ->
    exists indx',
      indexx_loop fuel arr indx istack jstack l ir = Some indx'
      /\ reorders 1 n indx0 indx' /\ ascending arr indx' 1 n.
Proof.
  intros Hn; induction fuel as [|fuel IH];
    intros indx istack jstack l ir pend Hre Hord Hstack Hjs Hsh Hwork.
  { destruct Hord as (Hb & _).
    assert (0 <= work pend)
      by (apply work_nonneg; intros R HR;
          specialize (Hb R (or_intror HR)); lia).
    specialize (Hb _ (or_introl eq_refl)); cbn [work fst snd] in *; lia. }
  pose proof Hord as (Hb & [Hdc Hdp] & Hpairs).
  pose proof (Hb _ (or_introl eq_refl)) as Hcur; cbn [fst snd] in Hcur.
  assert (Hpend : 0 <= work pend)
    by (apply work_nonneg; intros R HR;
        specialize (Hb R (or_intror HR)); lia).
  assert (H31 : 2 ^ 31 = 2147483648) by reflexivity.
  assert (H64 : 2 ^ 64 = 18446744073709551616) by reflexivity.
  cbn [work fst snd] in Hwork.
  cbn [indexx_loop].
  assert (Hu : ulong (ir - l) = ir - l)
    by (unfold ulong; apply Z.mod_small; lia).
  rewrite Hu; unfold M.
  destruct (Z.ltb_spec (ir - l) 7) as [Hsmall|Hlarge].
  - destruct (insertion_spec arr l ir indx) as [Hins Hasc]; try lia.
    { intros q H1 Hq; apply (ordered_before arr n indx l ir pend q Hord H1 Hq). }
    assert (Hord' : ordered_outside arr n (insertion arr l ir indx) pend).
    { apply (ordered_refine arr n indx _ (l, ir) pend [] Hord); cbn [fst snd].
      - exact Hins.
      - intros R [].
      - exact I.
      - intros p q Hp Hpq Hq; left; apply Hasc; lia. }
    assert (Hre' : reorders 1 n indx0 (insertion arr l ir indx)).
    { apply reorders_trans with indx; [exact Hre|].
      apply reorders_widen with l ir; try lia; exact Hins. }
    destruct pend as [|[lo hi] rest].
    + cbn [List.length] in Hjs; subst jstack; cbn [Z.eqb Z.of_nat Z.mul].
      eexists; split; [reflexivity | split; [exact Hre'|]].
      intros p q Hp Hpq Hq.
      destruct (Z.eq_dec p q) as [->|]; [lra|].
      destruct Hord' as (_ & _ & Hall).
      destruct (Hall p q) as [H|(R & [] & _)]; try lia; exact H.
    + cbn [List.length] in Hjs; cbn [stack_holds fst snd] in Hstack.
      destruct Hstack as (S1 & S2 & S3).
      destruct (Z.eqb_spec jstack 0); [lia|].
      assert (E1 : istack (jstack - 1) = lo) by (rewrite <- S1; f_equal; lia).
      assert (E2 : istack jstack = hi) by (rewrite <- S2; f_equal; lia).
      rewrite E1, E2.
      apply IH with rest; auto.
      * lia.
      * destruct Hsh as [_ Hsh]; exact Hsh.
      * cbn [work fst snd] in *; lia.
  - destruct (median_of_three_spec arr l ir indx) as (Hmed & M1 & M2);
      try lia.
    cbv zeta.
    set (t := median_of_three arr l ir indx) in *.
    destruct (indexx_partition_spec arr (arr (t l)) l ir (S fuel) ltac:(lia)
                (S fuel) t (l + 1) ir)
      as (t' & i & j & Hrun & Hpart & J1 & J2 & J3 & Hlow & Hhigh).
    { repeat split; try lia.
      - intros k Hk; replace k with (l + 1) by lia; exact M1.
      - intros k Hk; replace k with ir by lia; exact M2. }
    { lia. }
    rewrite Hrun; cbn [bind].
    assert (Htl : t' l = t l)
      by (apply (reorders_outside (l + 2) (ir - 1) t t' l Hpart); lia).
    rewrite <- Htl in *.
    change (iset (iset t' l (t' j)) j (t' l)) with (swap_index t' l j).
    assert (Hre3 : reorders l ir indx (swap_index t' l j)).
    { apply reorders_trans with t; [exact Hmed|].
      apply reorders_trans with t';
        [apply reorders_widen with (l + 2) (ir - 1); try lia; exact Hpart|].
      apply reorders_swap; lia. }
    assert (Hre' : reorders 1 n indx0 (swap_index t' l j)).
    { apply reorders_trans with indx; [exact Hre|].
      apply reorders_widen with l ir; try lia; exact Hre3. }
    pose proof (partition_split arr l ir i j t' J1 J2 J3 Hlow Hhigh) as Hsplit.
    destruct Hsh as [Hsh0 Hsh]; cbn [fst snd] in Hsh0.
    pose proof (shallow_depth n (ir - l + 1) (List.length pend) Hsh0
                  ltac:(lia) Hn) as Hdepth.
    unfold NSTACK.
    destruct (Z.ltb_spec 10000000 (jstack + 2)) as [Hover|_]; [lia|].
    assert (Hu1 : ulong (j - l) = j - l)
      by (unfold ulong; apply Z.mod_small; lia).
    assert (Hu2 : ulong (ir - i + 1) = ir - i + 1)
      by (unfold ulong; apply Z.mod_small; lia).
    rewrite Hu1, Hu2.
    assert (Hpow : 0 < 2 ^ Z.of_nat (List.length pend))
      by (apply Z.pow_pos_nonneg; lia).
    destruct (Z.leb_spec (j - l) (ir - i + 1)) as [Hleft|Hright].
    + apply IH with ((i, ir) :: pend); auto.
      * apply (ordered_refine arr n indx _ (l, ir) pend
                 [(l, j - 1); (i, ir)] Hord); cbn [fst snd].
        -- exact Hre3.
        -- intros R [<-|[<-|[]]]; cbn [fst snd]; lia.
        -- cbn [disjoint_ranges]; split; [|split; [intros R' [] | exact I]].
           intros R' [<-|[]]; cbn [fst snd]; lia.
        -- intros p q Hp Hpq Hq.
           destruct (Hsplit p q Hp Hpq Hq) as [H|[H|H]]; [left; exact H | |].
           ++ right; exists (l, j - 1); cbn [fst snd In]; auto with zarith.
           ++ right; exists (i, ir); cbn [fst snd In]; auto with zarith.
      * cbn [stack_holds fst snd]; unfold iset at 1 2 3 4.
        repeat match goal with
          | |- context [?u =? ?v] => destruct (Z.eqb_spec u v); try lia
          end.
        repeat split.
        apply stack_holds_above; [lia|].
        apply stack_holds_above; [lia | exact Hstack].
      * cbn [List.length]; lia.
      * cbn [shallow List.length fst snd]; repeat split.
        -- rewrite Nat2Z.inj_succ, Z.pow_succ_r by lia.
           apply Z.le_trans with (2 ^ Z.of_nat (List.length pend) * (ir - l + 1));
             [|exact Hsh0].
           rewrite <- Z.mul_assoc, (Z.mul_comm 2), <- Z.mul_assoc.
           apply Z.mul_le_mono_nonneg_l; lia.
        -- apply Z.le_trans with (2 ^ Z.of_nat (List.length pend) * (ir - l + 1));
             [|exact Hsh0].
           apply Z.mul_le_mono_nonneg_l; lia.
        -- exact Hsh.
      * cbn [work fst snd]; lia.
    + apply IH with ((l, j - 1) :: pend); auto.
      * apply (ordered_refine arr n indx _ (l, ir) pend
                 [(i, ir); (l, j - 1)] Hord); cbn [fst snd].
        -- exact Hre3.
        -- intros R [<-|[<-|[]]]; cbn [fst snd]; lia.
        -- cbn [disjoint_ranges]; split; [|split; [intros R' [] | exact I]].
           intros R' [<-|[]]; cbn [fst snd]; lia.
        -- intros p q Hp Hpq Hq.
           destruct (Hsplit p q Hp Hpq Hq) as [H|[H|H]]; [left; exact H | |].
           ++ right; exists (l, j - 1); cbn [fst snd In]; auto with zarith.
           ++ right; exists (i, ir); cbn [fst snd In]; auto with zarith.
      * cbn [stack_holds fst snd]; unfold iset at 1 2 3 4.
        repeat match goal with
          | |- context [?u =? ?v] => destruct (Z.eqb_spec u v); try lia
          end.
        repeat split.
        apply stack_holds_above; [lia|].
        apply stack_holds_above; [lia | exact Hstack].
      * cbn [List.length]; lia.
      * cbn [shallow List.length fst snd]; repeat split.
        -- rewrite Nat2Z.inj_succ, Z.pow_succ_r by lia.
           apply Z.le_trans with (2 ^ Z.of_nat (List.length pend) * (ir - l + 1));
             [|exact Hsh0].
           rewrite <- Z.mul_assoc, (Z.mul_comm 2), <- Z.mul_assoc.
           apply Z.mul_le_mono_nonneg_l; lia.
        -- apply Z.le_trans with (2 ^ Z.of_nat (List.length pend) * (ir - l + 1));
             [|exact Hsh0].
           apply Z.mul_le_mono_nonneg_l; lia.
        -- exact Hsh.
      * cbn [work fst snd]; lia.
Qed.

(** *** [indexx] *)

Lemma indexx_init_spec (n : Z) (indx0 : ivector) (k : Z) :
  for_loop 1 n (fun j indx => iset indx j j) indx0 k
  = if (1 <=? k) && (k <=? n) then k else indx0 k.
Proof.
  pose (Inv := fun (j : Z) (t : ivector) =>
     forall k, t k = if (1 <=? k) && (k <? j) then k else indx0 k).
  assert (H : Inv (Z.max 1 (n + 1))
                (for_loop 1 n (fun j indx => iset indx j j) indx0)).
  { apply for_loop_invariant.
    - intros k'; destruct (Z.leb_spec 1 k'), (Z.ltb_spec k' 1); cbn [andb];
        try reflexivity; lia.
    - intros j t Hj Ht k'; unfold iset; rewrite Ht.
      destruct (Z.eqb_spec k' j), (Z.leb_spec 1 k'), (Z.ltb_spec k' j),
        (Z.ltb_spec k' (j + 1)); cbn [andb]; try reflexivity; lia. }
  rewrite H.
  destruct (Z.leb_spec 1 k), (Z.ltb_spec k (Z.max 1 (n + 1))), (Z.leb_spec k n);
    cbn [andb]; try reflexivity; lia.
Qed.

Lemma indexx_spec (fuel : nat) (istack : ivector) (n : Z) (arr : vector)
      (indx0 : ivector) :
  1 <= n -> n < 2 ^ 31 -> 2 * n <= Z.of_nat fuel ->
  exists indx,
    indexx fuel istack n arr indx0 = Some indx
    /\ (forall t, 1 <= t <= n -> 1 <= indx t <= n)
    /\ (forall t t', 1 <= t <= n -> 1 <= t' <= n -> indx t = indx t' -> t = t')
    /\ (forall v, 1 <= v <= n -> exists t, 1 <= t <= n /\ indx t = v)
    /\ (forall t t', 1 <= t -> t <= t' -> t' <= n ->
                     (arr (indx t) <= arr (indx t'))%R)
    /\ (forall t, ~ 1 <= t <= n -> indx t = indx0 t).
Proof.
  intros Hn1 Hn Hfuel; unfold indexx.
  set (init := for_loop 1 n (fun j indx => iset indx j j) indx0).
  assert (Hin : forall k, 1 <= k <= n -> init k = k).
  { intros k Hk; unfold init; rewrite indexx_init_spec.
    destruct (Z.leb_spec 1 k), (Z.leb_spec k n); cbn [andb]; lia. }
  assert (Hout : forall k, ~ 1 <= k <= n -> init k = indx0 k).
  { intros k Hk; unfold init; rewrite indexx_init_spec.
    destruct (Z.leb_spec 1 k), (Z.leb_spec k n); cbn [andb];
      try reflexivity; lia. }
  destruct (indexx_loop_spec arr n init Hn fuel init istack 0 1 n [])
    as (indx & Hrun & Hre & Hasc).
  - apply reorders_refl.
  - split; [|split].
    + intros R [<-|[]]; cbn [fst snd]; lia.
    + cbn [disjoint_ranges]; split; [intros R' [] | exact I].
    + intros p q Hp Hpq Hq; right; exists (1, n); cbn [fst snd In].
      split; [left; reflexivity | lia].
  - exact I.
  - reflexivity.
  - cbn [shallow List.length fst snd Z.of_nat]; split; [|exact I].
    change (2 ^ 0) with 1; lia.
  - cbn [work fst snd]; lia.
  - exists indx; split; [exact Hrun|].
    split; [|split; [|split; [|split]]].
    + intros t Ht.
      destruct (reorders_inside 1 n init indx t Hre Ht) as (t' & Ht' & ->).
      rewrite Hin by exact Ht'; exact Ht'.
    + intros t t' Ht Ht' E.
      destruct Hre as (s & u & A & B & C & D & F).
      rewrite !F, !Hin in E by (apply C; assumption).
      rewrite <- (A t), <- (A t'), E; reflexivity.
    + intros v Hv.
      destruct (reorders_from 1 n init indx v Hre Hv) as (t & Ht & E).
      exists t; split; [exact Ht|]; rewrite E; apply Hin; exact Hv.
    + intros t t' Ht Htt Ht'; apply Hasc; assumption.
    + intros t Ht; rewrite (reorders_outside 1 n init indx t Hre Ht).
      apply Hout; exact Ht.
Qed.

(** X25.  For [1 <= n < 2^31] (and fuel for [2 * n] turns), [indexx]
    returns: no scan of the partition leaves its range, and [jstack] does
    not go beyond [NSTACK].  The table [indx[1 .. n]] then holds every
    number from 1 to [n] once, in ascending order of [arr[indx[t]]]; what
    [indx] holds elsewhere is untouched. *)
Theorem indexx_sorts_indices (fuel : nat) (istack : ivector) (n : Z)
        (arr : vector) (indx0 : ivector) :
  1 <= n -> n < 2 ^ 31 -> 2 * n <= Z.of_nat fuel ->
  exists indx,
    indexx fuel istack n arr indx0 = Some indx
    /\ (forall t, 1 <= t <= n -> 1 <= indx t <= n)
    /\ (forall t t', 1 <= t <= n -> 1 <= t' <= n -> indx t = indx t' -> t = t')
    /\ (forall v, 1 <= v <= n -> exists t, 1 <= t <= n /\ indx t = v)
    /\ (forall t t', 1 <= t -> t <= t' -> t' <= n ->
                     (arr (indx t) <= arr (indx t'))%R)
    /\ (forall t, ~ 1 <= t <= n -> indx t = indx0 t).
Proof. exact (indexx_spec fuel istack n arr indx0). Qed.

Lemma indexx_sorts_indices_witness :
  exists indx,
    indexx 4 (fun _ => 0) 2 (fun k => if k =? 1 then 5%R else 3%R) (fun _ => 0)
    = Some indx
    /\ forall t, 1 <= t <= 2 -> 1 <= indx t <= 2.
Proof.
  destruct (indexx_sorts_indices 4 (fun _ => 0) 2
              (fun k => if k =? 1 then 5%R else 3%R) (fun _ => 0)
              ltac:(lia) ltac:(reflexivity) ltac:(cbn; lia))
    as (indx & Hrun & Hrange & _).
  exists indx; split; [exact Hrun | exact Hrange].
Defined.

(** The table of [indexx] for [topovec], seen through [sweep_cell]. *)
Lemma indexx_sweep_spec (fuel : nat) (istack indx0 : ivector)
        (nx ny : Z) (junk : vector) (topo : matrix) :
  1 <= nx -> 1 <= ny -> nx * ny < 2 ^ 31 -> 2 * (nx * ny) <= Z.of_nat fuel ->
  exists topovecind,
    indexx fuel istack (nx * ny) (fillin_topovec nx ny junk topo) indx0
    = Some topovecind
    /\ (forall t, 1 <= t <= nx * ny ->
          1 <= fst (sweep_cell nx topovecind t) <= nx
          /\ 1 <= snd (sweep_cell nx topovecind t) <= ny)
    /\ (forall i j, 1 <= i <= nx -> 1 <= j <= ny ->
          exists t, 1 <= t <= nx * ny
                    /\ sweep_cell nx topovecind t = (i, j)
                    /\ forall t', 1 <= t' <= nx * ny ->
                                  sweep_cell nx topovecind t' = (i, j) ->
                                  t' = t)
    /\ (forall t t', 1 <= t <= nx * ny -> 1 <= t' <= nx * ny ->
          (topo (fst (sweep_cell nx topovecind t'))
                (snd (sweep_cell nx topovecind t'))
           < topo (fst (sweep_cell nx topovecind t))
                  (snd (sweep_cell nx topovecind t)))%R ->
          t' < t).
Proof.
  intros Hx Hy Hn Hfuel.
  destruct (indexx_spec fuel istack (nx * ny) (fillin_topovec nx ny junk topo)
              indx0 ltac:(nia) Hn Hfuel)
    as (tab & Hrun & Hrange & Hinj & Hsur & Hasc & _).
  exists tab; split; [exact Hrun|].
  assert (Hdec : forall t, 1 <= t <= nx * ny ->
            1 <= fst (sweep_cell nx tab t) <= nx
            /\ 1 <= snd (sweep_cell nx tab t) <= ny
            /\ (snd (sweep_cell nx tab t) - 1) * nx + fst (sweep_cell nx tab t)
               = tab t).
  { intros t Ht; apply (sweep_cell_decode nx ny tab t Hx (Hrange t Ht)). }
  assert (Hval : forall t, 1 <= t <= nx * ny ->
            topo (fst (sweep_cell nx tab t)) (snd (sweep_cell nx tab t))
            = fillin_topovec nx ny junk topo (tab t)).
  { intros t Ht; destruct (Hdec t Ht) as (Hi & Hj & <-).
    symmetry; apply fillin_topovec_spec; assumption. }
  split; [|split].
  - intros t Ht; destruct (Hdec t Ht) as (Hi & Hj & _); split; assumption.
  - intros i j Hi Hj.
    destruct (Hsur ((j - 1) * nx + i) ltac:(nia)) as (t & Ht & E).
    exists t; split; [exact Ht|].
    split; [apply sweep_cell_encode; [exact Hi | lia | exact E]|].
    intros t' Ht' E'.
    apply Hinj; try assumption.
    destruct (Hdec t' Ht') as (_ & _ & <-).
    rewrite E', E; reflexivity.
  - intros t t' Ht Ht' Hlt.
    rewrite (Hval t Ht), (Hval t' Ht') in Hlt.
    destruct (Z_lt_dec t' t) as [|Hge]; [assumption|].
    pose proof (Hasc t t' ltac:(lia) ltac:(lia) ltac:(lia)); lra.
Qed.

(** X26.  In [fillin], on a lattice of [size_x] by [size_y] cells with
    less than [2^31] cells, [indexx] returns for [topovec], and with its
    table the sweep visits every cell of the lattice at exactly one rank,
    a cell of a higher elevation always before a cell of a lower one (the
    ranks go down). *)
Theorem sweep_visits_every_cell_downhill (fuel : nat) (istack indx0 : ivector)
        (nx ny : Z) (junk : vector) (topo : matrix) :
  1 <= nx -> 1 <= ny -> nx * ny < 2 ^ 31 -> 2 * (nx * ny) <= Z.of_nat fuel ->
  exists topovecind,
    indexx fuel istack (nx * ny) (fillin_topovec nx ny junk topo) indx0
    = Some topovecind
    /\ (forall t, 1 <= t <= nx * ny ->
          1 <= fst (sweep_cell nx topovecind t) <= nx
          /\ 1 <= snd (sweep_cell nx topovecind t) <= ny)
    /\ (forall i j, 1 <= i <= nx -> 1 <= j <= ny ->
          exists t, 1 <= t <= nx * ny
                    /\ sweep_cell nx topovecind t = (i, j)
                    /\ forall t', 1 <= t' <= nx * ny ->
                                  sweep_cell nx topovecind t' = (i, j) ->
                                  t' = t)
    /\ (forall t t', 1 <= t <= nx * ny -> 1 <= t' <= nx * ny ->
          (topo (fst (sweep_cell nx topovecind t'))
                (snd (sweep_cell nx topovecind t'))
           < topo (fst (sweep_cell nx topovecind t))
                  (snd (sweep_cell nx topovecind t)))%R ->
          t' < t).
Proof.
  exact (indexx_sweep_spec fuel istack indx0 nx ny junk topo).
Qed.

Lemma sweep_visits_every_cell_downhill_witness :
  exists topovecind,
    indexx 4 (fun _ => 0) (2 * 1)
           (fillin_topovec 2 1 (fun _ => 0%R) topo_of_ramp) (fun _ => 0)
    = Some topovecind
    /\ forall t, 1 <= t <= 2 * 1 ->
         1 <= fst (sweep_cell 2 topovecind t) <= 2
         /\ 1 <= snd (sweep_cell 2 topovecind t) <= 1.
Proof.
  destruct (sweep_visits_every_cell_downhill 4 (fun _ => 0) (fun _ => 0) 2 1
              (fun _ => 0%R) topo_of_ramp
              ltac:(lia) ltac:(lia) ltac:(reflexivity) ltac:(cbn; lia))
    as (tab & Hrun & Hcells & _).
  exists tab; split; [exact Hrun | exact Hcells].
Defined.

(** ** The balance of the accumulated flow *)

Section FlowBalance.

Variable nb : neighbors.
Variable topo : matrix.
Variable nodata : R.

(** The fraction of its flow that [mfdflowroute] lets the cell [(i, j)]
    send in the direction [d]. *)
Definition mfd_share (i j : Z) (d : direction) : R :=
  if Reqb (topo i j) nodata then 0%R
  else if lower_target nb topo nodata i j d
       then (slope_proxy nb topo nodata i j d
             / sum8 (slope_proxy nb topo nodata i j))%R
       else 0%R.

(** What the cell [(a, b)] receives from the cell [(i, j)] when [(i, j)]
    is routed with the flow [fl i j]: the shares of the directions that
    lead from [(i, j)] to [(a, b)]. *)
Definition inflow (fl : matrix) (i j a b : Z) : R :=
  sum8 (fun d =>
          if (a =? fst (target nb i j d)) && (b =? snd (target nb i j d))
          then (fl i j * mfd_share i j d)%R else 0%R).

Lemma inflow_ext (fl fl' : matrix) (i j a b : Z) :
  fl i j = fl' i j -> inflow fl i j a b = inflow fl' i j a b.
Proof. intros E; unfold inflow; rewrite E; reflexivity. Qed.

Lemma mfd_visit_inflow (st : flows) (i j a b : Z) :
  flow (mfdflowroute nb topo nodata st i j) a b
  = (flow st a b + inflow (flow st) i j a b)%R.
Proof.
  pose proof (mfd_flow_after nb topo nodata st i j a b) as H; cbv zeta in H.
  rewrite H; unfold inflow, mfd_share, sum8.
  rewrite !mfd_fraction_value; reflexivity.
Qed.

(** Routing a cell leaves the flow of the cells that are not lower. *)
Lemma mfd_visit_keeps (st : flows) (i j a b : Z) :
  ~ (topo a b < topo i j)%R ->
  flow (mfdflowroute nb topo nodata st i j) a b = flow st a b.
Proof.
  intros Hnot.
  destruct (Req_dec (flow (mfdflowroute nb topo nodata st i j) a b)
                    (flow st a b)) as [E|E]; [exact E|].
  destruct (mfd_visit_flow nb topo nodata st i j) as (H & _).
  destruct (H a b E) as (_ & Hlt & _); contradiction.
Qed.

End FlowBalance.

(** The rank, among the first [k], at which the sweep visits the cell
    [c]; 0 when there is none. *)
Fixpoint rank_of (cell : Z -> Z * Z) (k : nat) (c : Z * Z) : Z :=
  match k with
  | O => 0
  | S k' =>
      if (fst (cell (Z.of_nat k)) =? fst c) && (snd (cell (Z.of_nat k)) =? snd c)
      then Z.of_nat k
      else rank_of cell k' c
  end.

Lemma rank_of_range (cell : Z -> Z * Z) (c : Z * Z) (k : nat) :
  0 <= rank_of cell k c <= Z.of_nat k.
Proof.
  induction k as [|k IH]; cbn [rank_of]; [lia|].
  destruct (_ && _); lia.
Qed.

Lemma rank_of_found (cell : Z -> Z * Z) (c : Z * Z) :
  forall (k : nat) (t : Z),
    1 <= t <= Z.of_nat k -> cell t = c ->
    1 <= rank_of cell k c <= Z.of_nat k /\ cell (rank_of cell k c) = c.
Proof.
  induction k as [|k IH]; intros t Ht E; [lia|].
  cbn [rank_of].
  destruct (Z.eqb_spec (fst (cell (Z.of_nat (S k)))) (fst c)) as [E1|E1];
    [destruct (Z.eqb_spec (snd (cell (Z.of_nat (S k)))) (snd c)) as [E2|E2]|];
    cbn [andb].
  - split; [lia|].
    destruct (cell (Z.of_nat (S k))), c; cbn [fst snd] in *; congruence.
  - destruct (IH t) as [H1 H2]; [|exact E|split; [lia | exact H2]].
    destruct (Z.eq_dec t (Z.of_nat (S k))) as [->|]; [|lia].
    rewrite E in E2; contradiction.
  - destruct (IH t) as [H1 H2]; [|exact E|split; [lia | exact H2]].
    destruct (Z.eq_dec t (Z.of_nat (S k))) as [->|]; [|lia].
    rewrite E in E1; contradiction.
Qed.

Lemma sum_upto_zero (n : nat) : sum_upto n (fun _ => 0%R) = 0%R.
Proof. induction n as [|n IH]; cbn [sum_upto]; [reflexivity | rewrite IH; lra]. Qed.

Lemma grid_total_zero (nx ny : Z) (m : matrix) :
  (forall i j, 1 <= i <= nx -> 1 <= j <= ny -> m i j = 0%R) ->
  grid_total nx ny m = 0%R.
Proof.
  intros H; rewrite (grid_total_ext nx ny m (fun _ _ => 0%R)) by exact H.
  unfold grid_total.
  rewrite (sum_upto_ext _ _ (fun _ => 0%R)) by (intros; apply sum_upto_zero).
  apply sum_upto_zero.
Qed.

(** The sweep in an order that never visits a cell before a higher one:
    every cell has received, from every cell, the shares of the flow that
    the cell holds in the end. *)
Lemma routing_sweep_balance (nb : neighbors) (topo : matrix) (nodata : R)
      (nx ny : Z) (tab : ivector) (st0 : flows) :
  1 <= nx -> 1 <= ny ->
  (forall t, 1 <= t <= nx * ny ->
     1 <= fst (sweep_cell nx tab t) <= nx
     /\ 1 <= snd (sweep_cell nx tab t) <= ny) ->
  (forall i j, 1 <= i <= nx -> 1 <= j <= ny ->
     exists t, 1 <= t <= nx * ny
               /\ sweep_cell nx tab t = (i, j)
               /\ forall t', 1 <= t' <= nx * ny ->
                             sweep_cell nx tab t' = (i, j) -> t' = t) ->
  (forall t t', 1 <= t <= nx * ny -> 1 <= t' <= nx * ny ->
     (topo (fst (sweep_cell nx tab t')) (snd (sweep_cell nx tab t'))
      < topo (fst (sweep_cell nx tab t)) (snd (sweep_cell nx tab t)))%R ->
     t' < t) ->
  let st := routing_sweep nx ny nb topo nodata tab st0 in
  forall a b,
    flow st a b
    = (flow st0 a b
       + grid_total nx ny (fun i j => inflow nb topo nodata (flow st) i j a b))%R.
Proof.
  intros Hx Hy Hcell Honce Horder st a b.
  set (n := Z.to_nat (nx * ny)).
  assert (Hn : Z.of_nat n = nx * ny) by (unfold n; nia).
  pose (rank := fun i j => rank_of (sweep_cell nx tab) n (i, j)).
  assert (Hrank : forall i j, 1 <= i <= nx -> 1 <= j <= ny ->
            1 <= rank i j <= nx * ny
            /\ sweep_cell nx tab (rank i j) = (i, j)
            /\ forall t, 1 <= t <= nx * ny -> sweep_cell nx tab t = (i, j) ->
                         t = rank i j).
  { intros i j Hi Hj.
    destruct (Honce i j Hi Hj) as (t & Ht & E & Huniq).
    destruct (rank_of_found (sweep_cell nx tab) (i, j) n t ltac:(lia) E)
      as [H1 H2].
    fold (rank i j) in H1, H2.
    split; [lia | split; [exact H2|]].
    intros t' Ht' E'.
    rewrite (Huniq t' Ht' E'); symmetry; apply Huniq; [lia | exact H2]. }
  pose (Inv := fun (m : Z) (s : flows) =>
     forall a b,
       flow s a b
       = (flow st0 a b
          + grid_total nx ny
              (fun i j => if m <? rank i j
                          then inflow nb topo nodata (flow s) i j a b
                          else 0%R))%R).
  assert (H : Inv 0 st).
  { unfold st, routing_sweep; fold n.
    apply (for_down_indexed Inv).
    - intros a' b'; rewrite grid_total_zero; [lra|].
      intros i j Hi Hj; destruct (Hrank i j Hi Hj) as (Hr & _).
      destruct (Z.ltb_spec (Z.of_nat n) (rank i j)); [lia | reflexivity].
    - intros m s Hm Hs a' b'.
      destruct (Hcell m ltac:(lia)) as [Hi Hj].
      destruct (sweep_cell nx tab m) as [ic jc] eqn:Ec; cbn [fst snd] in Hi, Hj.
      destruct (Hrank ic jc Hi Hj) as (_ & _ & Huniq).
      pose proof (Huniq m ltac:(lia) Ec) as Em.
      rewrite mfd_visit_inflow, (Hs a' b'), Rplus_assoc; f_equal.
      rewrite <- (grid_total_madd nx ny _ ic jc) by assumption.
      apply grid_total_ext; intros i j Hi' Hj'.
      destruct (Hrank i j Hi' Hj') as (Hr & Er & _).
      unfold madd, mset.
      destruct (Z.eqb_spec i ic) as [->|Ni];
        [destruct (Z.eqb_spec j jc) as [->|Nj]|]; cbn [andb].
      + rewrite <- Em.
        destruct (Z.ltb_spec m m); [lia|].
        destruct (Z.ltb_spec (m - 1) m); [|lia].
        rewrite Rplus_0_l; apply inflow_ext.
        destruct (mfd_visit_flow nb topo nodata s ic jc) as (_ & Hkeep & _).
        symmetry; exact Hkeep.
      + assert (rank ic j <> m).
        { intros E; rewrite E in Er; rewrite Ec in Er; congruence. }
        destruct (Z.ltb_spec m (rank ic j)), (Z.ltb_spec (m - 1) (rank ic j));
          try lia; [|reflexivity].
        apply inflow_ext; symmetry; apply mfd_visit_keeps.
        intros Hlt.
        pose proof (Horder m (rank ic j) ltac:(lia) ltac:(lia)) as Ho.
        rewrite Ec, Er in Ho; cbn [fst snd] in Ho.
        specialize (Ho Hlt); lia.
      + assert (rank i j <> m).
        { intros E; rewrite E in Er; rewrite Ec in Er; congruence. }
        destruct (Z.ltb_spec m (rank i j)), (Z.ltb_spec (m - 1) (rank i j));
          try lia; [|reflexivity].
        apply inflow_ext; symmetry; apply mfd_visit_keeps.
        intros Hlt.
        pose proof (Horder m (rank i j) ltac:(lia) ltac:(lia)) as Ho.
        rewrite Ec, Er in Ho; cbn [fst snd] in Ho.
        specialize (Ho Hlt); lia. }
  rewrite (H a b); f_equal.
  apply grid_total_ext; intros i j Hi Hj.
  destruct (Hrank i j Hi Hj) as (Hr & _).
  destruct (Z.ltb_spec 0 (rank i j)); [reflexivity | lia].
Qed.

(** X27.  [fillin] with the table that [indexx] returns, on a lattice
    of less than [2^31] cells: when it returns, the accumulated flow
    satisfies the balance of the multiple-flow-direction routing.  The
    flow of a cell of the lattice is the area of one cell plus, over all
    the cells [(i, j)] of the lattice, the flow that [(i, j)] holds at the
    end times the fractions of the directions that lead from [(i, j)] to
    the cell: every cell has been routed once, after all the cells that
    send flow to it. *)
Theorem fillin_flow_balance (dem : matrix) (nx ny : Z) (deltax deltay : R)
        (ix : Z -> vector -> ivector) (fuel_s : nat) (istack indx0 : ivector)
        (junk_i : ivector) (junk_v : vector) (junk_m : matrix) (min_junk : R)
        (fuel : nat) (nodata : R) (topo : matrix) (st : flows) :
  1 <= nx -> 1 <= ny -> nx * ny < 2 ^ 31 -> 2 * (nx * ny) <= Z.of_nat fuel_s ->
  (forall vec, indexx fuel_s istack (nx * ny) vec indx0
               = Some (ix (nx * ny) vec)) ->
  fillin dem nx ny deltax deltay ix junk_i junk_v junk_m min_junk fuel nodata
  = Some (topo, st) ->
  let nb := setupgridneighbors junk_i nx ny in
  forall a b, 1 <= a <= nx -> 1 <= b <= ny ->
    flow st a b
    = (deltax * deltay
       + grid_total nx ny
           (fun i j => inflow nb topo nodata (flow st) i j a b))%R.
Proof.
  intros Hx Hy Hn Hfuel Hix Hrun nb a b Ha Hb.
  apply fillin_inv in Hrun as [_ ->].
  destruct (indexx_sweep_spec fuel_s istack indx0 nx ny junk_v topo
              Hx Hy Hn Hfuel)
    as (tab & Htab & Hcell & Honce & Horder).
  rewrite Hix in Htab; injection Htab as Htab; rewrite Htab.
  pose proof (routing_sweep_balance nb topo nodata nx ny tab
                (mkFlows (snd (fillin_init dem nx ny deltax deltay junk_m))
                   junk_m junk_m junk_m junk_m junk_m junk_m junk_m junk_m)
                Hx Hy Hcell Honce Horder a b) as H.
  cbv zeta in H; cbn [flow] in H.
  destruct (fillin_init_spec dem nx ny deltax deltay junk_m a b Ha Hb)
    as [_ Hinit].
  rewrite Hinit in H; exact H.
Qed.

(** The table of [indexx] with 4 turns of fuel, for a lattice of two
    cells. *)
Definition ramp_table : Z -> vector -> ivector :=
  fun n vec =>
    match indexx 4 (fun _ => 0) n vec (fun _ => 0) with
    | Some indx => indx
    | None => fun _ => 0
    end.

Lemma ramp_table_spec (vec : vector) :
  indexx 4 (fun _ => 0) (2 * 1) vec (fun _ => 0) = Some (ramp_table (2 * 1) vec).
Proof.
  unfold ramp_table.
  destruct (indexx_spec 4 (fun _ => 0) (2 * 1) vec (fun _ => 0))
    as (indx & -> & _); [lia | reflexivity | cbn; lia | reflexivity].
Qed.

Lemma fillin_flow_balance_witness :
  exists topo st,
    fillin ramp_dem 2 1 1 1 ramp_table
      (fun _ => 0) (fun _ => 0%R) (fun _ _ => 0%R) 0 1 (-9999)
    = Some (topo, st)
    /\ flow st 1 1
       = (1 * 1
          + grid_total 2 1
              (fun i j =>
                 inflow (setupgridneighbors (fun _ => 0%Z) 2 1) topo (-9999)
                   (flow st) i j 1 1))%R.
Proof.
  assert (Hrun : exists topo st,
             fillin ramp_dem 2 1 1 1 ramp_table
               (fun _ => 0) (fun _ => 0%R) (fun _ _ => 0%R) 0 1 (-9999)
             = Some (topo, st)).
  { unfold fillin.
    destruct (fillin_init ramp_dem 2 1 1 1 (fun _ _ => 0%R)) as [topo fl0].
    rewrite fill_pass_no_interior by lia; cbn [bind].
    eexists; eexists; reflexivity. }
  destruct Hrun as (topo & st & Hrun).
  exists topo, st; split; [exact Hrun|].
  apply (fillin_flow_balance ramp_dem 2 1 1 1 ramp_table 4 (fun _ => 0)
           (fun _ => 0) (fun _ => 0) (fun _ => 0%R) (fun _ _ => 0%R) 0 1
           (-9999) topo st ltac:(lia) ltac:(lia) ltac:(reflexivity)
           ltac:(cbn; lia) ramp_table_spec Hrun 1 1 ltac:(lia) ltac:(lia)).
Defined.

(** ** From [main] to [Topindex] *)

(** A function that gives the table of [indexx] gives ranks of the
    lattice. *)
Lemma indexx_table_range (ix : Z -> vector -> ivector) (fuel_s : nat)
      (istack indx0 : ivector) (n : Z) :
  1 <= n -> n < 2 ^ 31 -> 2 * n <= Z.of_nat fuel_s ->
  (forall vec, indexx fuel_s istack n vec indx0 = Some (ix n vec)) ->
  forall vec t, 1 <= t <= n -> 1 <= ix n vec t <= n.
Proof.
  intros H1 H2 H3 Hix vec t Ht.
  destruct (indexx_spec fuel_s istack n vec indx0 H1 H2 H3)
    as (indx & Hrun & Hrange & _).
  rewrite Hix in Hrun; injection Hrun as ->; apply Hrange; exact Ht.
Qed.

(** X28.  From [main] to the end of [Topindex].  With the table of
    [indexx], a grid of less than [2^31] cells and a negative [nodata]:
    when [fillin] returns, [Topindex], called on the filled elevations and
    on the accumulated flow that [main] hands over, ends on "No data"
    exactly when every value read from the file is negative; when a value
    read is not negative, the run gets to the loop that stores past the end
    of [OrderedCellsTWI], before [VICcalculation] is called. *)
Theorem main_feeds_Topindex (ix : Z -> vector -> ivector) (fuel_s : nat)
        (istack indx0 : ivector)
        (junk_i : ivector) (junk_v : vector) (junk_m : matrix) (min_junk : R)
        (fuel : nat) (columns rows : Z) (xorig yorig delta nodata : R)
        (raw dem' flowacc : matrix) (deltax deltay : R)
        (option : string) (fuel_t : nat) :
  1 <= columns -> 1 <= rows -> columns * rows < 2 ^ 31 ->
  2 * (columns * rows) <= Z.of_nat fuel_s ->
  rows * columns <= Z.of_nat fuel_t ->
  (forall vec, indexx fuel_s istack (columns * rows) vec indx0
               = Some (ix (columns * rows) vec)) ->
  (nodata < 0)%R ->
  main_fill ix junk_i junk_v junk_m min_junk fuel columns rows
    xorig yorig delta nodata raw
  = Some (dem', flowacc, (deltax, deltay)) ->
  let r := Topindex dem' flowacc columns rows deltax deltay nodata option fuel_t in
  (r = NoData
   <-> forall i j, 0 <= i < rows -> 0 <= j < columns -> (raw i j < 0)%R)
  /\ (r = OutOfBlock
      <-> exists i j, 0 <= i < rows /\ 0 <= j < columns /\ (0 <= raw i j)%R).
Proof.
  intros Hc Hr Hn Hfs Hft Hix Hnd Hrun r.
  pose proof (indexx_table_range ix fuel_s istack indx0 (columns * rows)
                ltac:(nia) Hn Hfs Hix) as Htab.
  pose proof (main_fill_spec ix junk_i junk_v junk_m min_junk fuel columns rows
                xorig yorig delta nodata raw dem' flowacc deltax deltay
                Hc Htab Hrun) as Hcells.
  assert (Hdata : forall i j, 0 <= i < rows -> 0 <= j < columns ->
                              (dem' i j = nodata <-> (raw i j < 0)%R)).
  { intros i j Hi Hj.
    destruct (Hcells i j Hi Hj) as ([k Hk] & Hkeep & _).
    unfold cleaned in Hk, Hkeep.
    destruct (Rltb (raw i j) 0) eqn:E; rbool.
    - split; [intros _; exact E | intros _; apply Hkeep; reflexivity].
    - split; [|lra].
      intros E'; rewrite E' in Hk.
      pose proof (pos_INR k); nra. }
  destruct (Topindex_ends dem' flowacc columns rows deltax deltay nodata
              option fuel_t ltac:(lia) ltac:(lia) Hft)
    as ([H1 H2] & [H3 H4]).
  fold r in H1, H2, H3, H4.
  split; split.
  - intros E i j Hi Hj; apply Hdata; auto.
  - intros Hall; apply H2; intros i j Hi Hj; apply Hdata; auto.
  - intros E; destruct (H3 E) as (i & j & Hi & Hj & Hd).
    exists i, j; split; [exact Hi | split; [exact Hj|]].
    destruct (Rle_lt_dec 0 (raw i j)) as [H|H]; [exact H|].
    exfalso; apply Hd, Hdata; assumption.
  - intros (i & j & Hi & Hj & Hd); apply H4.
    exists i, j; split; [exact Hi | split; [exact Hj|]].
    intros E; apply Hdata in E; try assumption; lra.
Qed.

(** On the equator the width of a cell is its height. *)
Lemma get_dist_equator (long delta : R) :
  (0 <= delta <= 180)%R ->
  get_dist 0 long 0 (long + delta)
  = (E_RADIUS * (2.0 * PI_macro / 360.0 * delta))%R.
Proof.
  intros Hd; rewrite get_dist_central; cbv zeta.
  unfold central_cos.
  rewrite Rmult_0_r, cos_0, sin_0.
  replace (1 * cos (2.0 * PI_macro / 360.0 * long) * 1
           * cos (2.0 * PI_macro / 360.0 * (long + delta))
           + 1 * sin (2.0 * PI_macro / 360.0 * long) * 1
             * sin (2.0 * PI_macro / 360.0 * (long + delta)) + 0 * 0)%R
    with (cos (2.0 * PI_macro / 360.0 * (long + delta)
               - 2.0 * PI_macro / 360.0 * long))%R
    by (rewrite cos_minus; ring).
  replace (2.0 * PI_macro / 360.0 * (long + delta) - 2.0 * PI_macro / 360.0 * long)%R
    with (2.0 * PI_macro / 360.0 * delta)%R by (unfold PI_macro; lra).
  pose proof PI_macro_below_PI as Hpi.
  assert (Hang : (0 <= 2.0 * PI_macro / 360.0 * delta <= PI)%R).
  { unfold PI_macro in *; split; nra. }
  pose proof (COS_bound (2.0 * PI_macro / 360.0 * delta)) as [_ Hhi].
  replace (Rltb 1.0 (cos (2.0 * PI_macro / 360.0 * delta))) with false
    by (symmetry; apply Rltb_false; lra).
  now rewrite acos_cos.
Qed.

(** The grid of two cells [ramp_dem], one degree wide, on the equator. *)
Lemma equator_main_returns :
  exists dem' flowacc deltax deltay,
    main_fill ramp_table (fun _ => 0) (fun _ => 0%R) (fun _ _ => 0%R) 0 1
      2 1 0 (-0.5) 1 (-9999) ramp_dem
    = Some (dem', flowacc, (deltax, deltay))
    /\ (0 < deltax)%R /\ (0 < deltay)%R.
Proof.
  unfold main_fill, main_cell_size; cbv zeta.
  replace (-0.5 + 1 * IZR 1 / 2)%R with 0%R by lra.
  rewrite get_dist_equator by lra.
  rewrite (get_dist_meridian 0 (0 + 1 * IZR 2 / 2) 1) by lra.
  unfold fillin.
  destruct (fillin_init _ 2 1 _ _ (fun _ _ => 0%R)) as [topo fl0].
  rewrite fill_pass_no_interior by lia; cbn [bind].
  destruct (main_copy_back 2 1 _ _ _) as [d f].
  eexists d, f, _, _; split; [reflexivity|].
  unfold E_RADIUS, PI_macro; split; lra.
Qed.

Lemma main_feeds_Topindex_witness :
  exists dem' flowacc deltax deltay,
    main_fill ramp_table (fun _ => 0) (fun _ => 0%R) (fun _ _ => 0%R) 0 1
      2 1 0 (-0.5) 1 (-9999) ramp_dem
    = Some (dem', flowacc, (deltax, deltay))
    /\ Topindex dem' flowacc 2 1 deltax deltay (-9999) "LAKE" 2 = OutOfBlock.
Proof.
  destruct equator_main_returns as (d & f & dx & dy & Hrun & Hdx & Hdy).
  exists d, f, dx, dy; split; [exact Hrun|].
  apply (main_feeds_Topindex ramp_table 4 (fun _ => 0) (fun _ => 0)
           (fun _ => 0) (fun _ => 0%R) (fun _ _ => 0%R) 0 1 2 1 0 (-0.5) 1
           (-9999) ramp_dem d f dx dy "LAKE" 2
           ltac:(lia) ltac:(lia) ltac:(reflexivity) ltac:(cbn; lia)
           ltac:(cbn; lia) ramp_table_spec ltac:(lra) Hrun).
  exists 0, 0; split; [lia | split; [lia|]].
  unfold ramp_dem; simpl; lra.
Defined.
